(** * The CPOG proof checker (cpog-check.c): a shallow embedding

    This development embeds the checker of [src/cpog/checker/cpog-check.c]
    and states its specified properties over that embedding.

    Conventions.
    - A C [int] is a [Z].  The values the checker handles are clause ids,
      variable ids and literals read from its input files; the only place
      where the code relies on wrap-around ([lset_clear]) has it written out.
    - A C array or [ilist] is a [list], indexed by a [Z] through [arr_get]
      and [arr_set]; an access outside the allocation is undefined behaviour
      in C and is [None] / [Undef] here.
    - [err_printf] prints and calls [exit(1)]: a command that reaches it ends
      in [Err e s], where [s] is the state the process had at that moment.
    - The token stream of the file being read is a list of tokens; the
      tokenizer that reads it from the characters of the file is [Lexer].
    - A loop whose rounds are not those of a list takes fuel: more than
      its rounds where these are bounded (the binary search, the heap),
      and as an argument otherwise; a reverse implication that uses its
      fuel up is [None]. *)

From Stdlib Require Import ZArith Lia Bool Ascii String Sorted.
From Stdlib Require Import QArith Qcanon.
From Stdlib Require DecimalString DecimalFacts DecimalPos DecimalZ.
From stdpp Require Import base list.

Local Open Scope Z_scope.

(** ** Macro parameters *)

Definition INT_MAX : Z := 2147483647.
Definition MIN_SIZE : Z := 10.
Definition MAX_GAP : Z := 10.
Definition CHUNK_SIZE : Z := 2 ^ 20.
Definition VM_LIMIT : Z := 2 ^ 37.
Definition CHUNK_MAX : Z := VM_LIMIT / (CHUNK_SIZE * 4).

(** [(int) (n * GROW_RATIO)] with [GROW_RATIO = 1.45].  The double nearest
    to 1.45 lies below it by less than 5e-17, so for every [0 <= n < 2^31]
    the rounded product truncates to the integer part of [n * 145 / 100]. *)
Definition grow (n : Z) : Z := n * 145 / 100.

Definition IABS (x : Z) : Z := if x <? 0 then - x else x.

(** Signed 32-bit wrap-around of an [int] computation. *)
Definition int_wrap (z : Z) : Z := (z + 2 ^ 31) mod 2 ^ 32 - 2 ^ 31.

(** ** Arrays *)

Definition arr_get {A} (l : list A) (i : Z) : option A :=
  if i <? 0 then None else l !! Z.to_nat i.

Definition arr_set {A} (l : list A) (i : Z) (x : A) : option (list A) :=
  if (i <? 0) || (Z.of_nat (length l) <=? i) then None
  else Some (<[Z.to_nat i := x]> l).

Definition zlength {A} (l : list A) : Z := Z.of_nat (length l).

(** ** Set of literals for unit propagation

    [lset_array] is indexed by variable; an entry [+lset_generation] stands
    for the positive literal, [-lset_generation] for the negative one, any
    other value for neither.  [lset_asize] is the allocated length. *)

Module Lset.

Record lset_t := mk_lset {
  lset_generation : Z;
  lset_array : list Z
}.

Definition lset_asize (s : lset_t) : Z := zlength (lset_array s).

(** State at program start: [lset_generation = 0], [lset_array = NULL]. *)
Definition lset_start : lset_t := mk_lset 0 [].

Definition lset_init (var : Z) : lset_t :=
  let asize := if MIN_SIZE <? var then var else MIN_SIZE in
  mk_lset 1 (replicate (Z.to_nat asize) 0).

Definition lset_clear (s : lset_t) : lset_t :=
  let g := int_wrap (lset_generation s + 1) in
  if g <? 0 then mk_lset 1 (replicate (length (lset_array s)) 0)
  else mk_lset g (lset_array s).

Definition lset_check_size (var : Z) (s : lset_t) : lset_t :=
  if var <=? lset_asize s then s
  else if lset_asize s =? 0 then lset_init var
  else
    let nasize0 := grow (lset_asize s) in
    let nasize := if nasize0 <? var then var else nasize0 in
    mk_lset (lset_generation s)
            (lset_array s ++ replicate (Z.to_nat (nasize - lset_asize s)) 0).

Definition lset_get_lit (var : Z) (s : lset_t) : Z :=
  if (var <=? 0) || (lset_asize s <? var) then 0
  else match arr_get (lset_array s) (var - 1) with
       | Some g =>
           if g =? lset_generation s then var
           else if g =? - lset_generation s then - var
           else 0
       | None => 0
       end.

(** Attempt to add a literal; [false] when the opposite literal is there.
    The store [lset_array[var-1] = val] is outside of the array for
    [lit = 0], whence the [option]. *)
Definition lset_add_lit (lit : Z) (s : lset_t) : option (bool * lset_t) :=
  let var := IABS lit in
  let s1 := lset_check_size var s in
  let olit := lset_get_lit var s1 in
  if negb (olit =? 0) && negb (olit =? lit) then Some (false, s1)
  else
    let val := if 0 <? lit then lset_generation s1 else - lset_generation s1 in
    match arr_set (lset_array s1) (var - 1) val with
    | Some a => Some (true, mk_lset (lset_generation s1) a)
    | None => None
    end.

(** The literals of the set, as [lset_show] prints them. *)
Definition lset_show (s : lset_t) : list Z :=
  filter (fun l => l <> 0)
         (map (fun v => lset_get_lit (Z.of_nat v) s)
              (seq 1 (length (lset_array s)))).

(** Every state the program reaches has a positive generation as soon as
    the array is allocated: [lset_init] sets it to 1 and [lset_clear]
    restores 1 on wrap-around. *)
Definition lset_ok (s : lset_t) : Prop :=
  (1 <= lset_generation s <= INT_MAX) \/
  (lset_array s = [] /\ 0 <= lset_generation s <= INT_MAX).

End Lset.
Import Lset.

(** ** Integer lists

    An [ilist] is a growable sequence of [int]; its header words (length and
    allocated length) only serve the allocation and are not modelled. *)

Module Ilist.

(** [qsort] with [int_compare_ilist]: the ascending rearrangement of the
    elements, here computed by insertion. *)
Fixpoint ilist_insert (x : Z) (l : list Z) : list Z :=
  match l with
  | [] => [x]
  | y :: r => if x <=? y then x :: l else y :: ilist_insert x r
  end.

Fixpoint ilist_sort (l : list Z) : list Z :=
  match l with
  | [] => []
  | x :: r => ilist_insert x (ilist_sort r)
  end.

(** Duplicate in a sorted list: the first [ils[i]] equal to [ils[i-1]]. *)
Fixpoint ilist_find_duplicate (ils : list Z) : option Z :=
  match ils with
  | x :: (y :: _) as r => if x =? y then Some y else ilist_find_duplicate r
  | _ => None
  end.

(** Keeps a value when it differs from the last value kept. *)
Fixpoint ilist_dedup_from (last_val : Z) (ils : list Z) : list Z :=
  match ils with
  | [] => []
  | val :: r =>
      if val =? last_val then ilist_dedup_from last_val r
      else val :: ilist_dedup_from val r
  end.

Definition ilist_deduplicate (ils : list Z) : list Z :=
  match ils with
  | [] => []
  | x :: r => x :: ilist_dedup_from x r
  end.

(** [None] is the C [true]; [Some v] is [false] with [*dup_val = v]. *)
Fixpoint ilist_is_disjoint (ils1 ils2 : list Z) : option Z :=
  let fix walk2 (l2 : list Z) : option Z :=
    match ils1, l2 with
    | v1 :: r1, v2 :: r2 =>
        if v1 =? v2 then Some v1
        else if v1 <? v2 then ilist_is_disjoint r1 l2
        else walk2 r2
    | _, _ => None
    end
  in walk2 ils2.

Fixpoint ilist_union (ils1 ils2 : list Z) : list Z :=
  let fix walk2 (l2 : list Z) : list Z :=
    match ils1, l2 with
    | v1 :: r1, v2 :: r2 =>
        if v1 <? v2 then v1 :: ilist_union r1 l2
        else if v2 <? v1 then v2 :: walk2 r2
        else v1 :: ilist_union r1 r2
    | [], _ => l2
    | _, [] => ils1
    end
  in walk2 ils2.

End Ilist.
Import Ilist.

(** ** Clause types and tokens *)

Inductive clause_type_t :=
| CLAUSE_INPUT | CLAUSE_TSEITIN | CLAUSE_DISABLE | CLAUSE_SKOLEM
| CLAUSE_STRUCTURAL | CLAUSE_ROOT | CLAUSE_FORWARD | CLAUSE_UNKNOWN
| CLAUSE_INVALID.

Definition clause_type_eqb (a b : clause_type_t) : bool :=
  match a, b with
  | CLAUSE_INPUT, CLAUSE_INPUT | CLAUSE_TSEITIN, CLAUSE_TSEITIN
  | CLAUSE_DISABLE, CLAUSE_DISABLE | CLAUSE_SKOLEM, CLAUSE_SKOLEM
  | CLAUSE_STRUCTURAL, CLAUSE_STRUCTURAL | CLAUSE_ROOT, CLAUSE_ROOT
  | CLAUSE_FORWARD, CLAUSE_FORWARD | CLAUSE_UNKNOWN, CLAUSE_UNKNOWN
  | CLAUSE_INVALID, CLAUSE_INVALID => true
  | _, _ => false
  end.

(** What [token_next] returns; a [TOK_INT] carries [token_value]. *)
Inductive token_t :=
| TOK_INT (token_value : Z) | TOK_STRING (token_last : string)
| TOK_STAR | TOK_EOF | TOK_EOL | TOK_NONE | TOK_UNKNOWN.

Inductive node_type_t := NODE_PRODUCT | NODE_SKOLEM | NODE_SUM | NODE_NONE.

(** ** Errors

    One constructor for each [err_printf] call of the modelled functions,
    named after the error taxonomy of the specification; the comment gives
    the function and the beginning of the message. *)

Inductive error :=
| ParseError
    (* any "Unexpected token", "Expected ...", "Expecting integer hint" *)
| ExplicitHintsRequired
    (* rup_run: "This checker requires explicit hints" *)
| DuplicateClauseId (cid : Z)
    (* start_clause: "Can't add clause. Already added same or higher" *)
| UnknownClauseId (cid : Z)
    (* cpog_delete_clause, cpog_batch_delete_clauses: "Never defined" *)
| NotInputClause (cid : Z)
    (* cpog_delete_clause: "Can only delete input clauses" *)
| BatchDeleteType (cid : Z)
    (* cpog_batch_delete_clauses: "Cannot delete clause (type) with 'D'" *)
| AlreadyDeleted (cid : Z)
    (* clause_delete: "Can't delete clause"; its callers: "Could not delete
       clause.  Never defined or already deleted" *)
| VariableOutOfRange (lit : Z)
    (* clause_add_literal, clause_delete: "Exceeds variable limit" *)
| ClauseTooLong
    (* finish_clause: "Attempt to save clause of length" *)
| TooManyChunks
    (* finish_clause: "Reached maximum of chunks" *)
| RupFailure (tcid : Z)
    (* rup_run: "Didn't have conflict on final clause" *)
| IncompatibleHintType (tcid : Z)
    (* rup_run: "Combination of target type and hint types not allowed" *)
| ConflictBeforeTermination (tcid : Z)
    (* rup_run: "Encountered conflict ... Not at end of hint list" *)
| InvalidHint (tcid cid : Z)
    (* rup_run: "Encountered invalid hint clause" *)
| NonPropagatingHint (tcid cid : Z)
    (* rup_run: "Hint clause did not cause unit propagation" *)
| InvalidOperationId (id : Z)
    (* node_new: "Invalid operation id", "Id already in use" *)
| NotProjected (nid : Z)
    (* cpog_add_skolem: "Not performing projected compilation" *)
| NotProjectionVariable (lit nid : Z)
    (* cpog_add_skolem: "Not a projection variable", "Child must be
       literal of projection variable" *)
| NotDataVariable (lit nid : Z)
    (* cpog_add_product, cpog_add_sum: "Not a data variable" *)
| NotNNF (lit nid : Z)
    (* cpog_add_product, cpog_add_sum: "negative literal ... NNF" *)
| InvalidNodeId (lit nid : Z)
    (* cpog_add_product, cpog_add_sum: "Invalid node Id" *)
| DependencyViolation (dvar nid : Z)
    (* cpog_add_product: "Both dependency sets include variable",
       "Same or opposite literals in argument",
       "Already in dependency set" *)
| ImplicitDeletionFailed (tcid : Z)
    (* rup_run_input: "RUP failure for input clause. No conflict detected" *)
| InvalidNodeType (id : Z)
    (* ring_evaluate: "Invalid type for node" *).

(** Outcome of a command: it returns, or the process exits through
    [err_printf], or the C program has no defined behaviour (an access
    outside of an array, a null pointer read), or it loops for ever. *)
Inductive result (S A : Type) :=
| Ok (a : A) (s : S)
| Err (e : error) (s : S)
| Undef
| Diverge.

Arguments Ok {S A} a s.
Arguments Err {S A} e s.
Arguments Undef {S A}.
Arguments Diverge {S A}.

Definition M (S A : Type) : Type := S -> result S A.

Definition ret {S A} (a : A) : M S A := fun s => Ok a s.
Definition bind {S A B} (c : M S A) (k : A -> M S B) : M S B :=
  fun s => match c s with
           | Ok a s' => k a s'
           | Err e s' => Err e s'
           | Undef => Undef
           | Diverge => Diverge
           end.
Definition err_printf {S A} (e : error) : M S A := fun s => Err e s.
Definition undef {S A} : M S A := fun _ => Undef.
Definition get {S} : M S S := fun s => Ok s s.
Definition put {S} (s : S) : M S unit := fun _ => Ok tt s.
Definition modify {S} (f : S -> S) : M S unit := fun s => Ok tt (f s).
(** A dereference that must be inside its allocation. *)
Definition defined {S A} (o : option A) : M S A :=
  match o with Some a => ret a | None => undef end.

Declare Scope checker_scope.
Delimit Scope checker_scope with checker.
Notation "x <- c ;; k" := (bind c (fun x => k))
  (at level 100, c at next level, right associativity) : checker_scope.
Notation "c ;;; k" := (bind c (fun _ => k))
  (at level 100, right associativity) : checker_scope.
Local Open Scope checker_scope.


(** ** Core data structures *)

(** A block of consecutively numbered clauses.  [blk_length] is the field
    [length]; [blk_chunk], [blk_offset] and [blk_type] are the three
    parallel ilists [chunk], [offset] and [type]. *)
Record clause_block_t := mk_block {
  start_id : Z;
  blk_length : Z;
  blk_chunk : list Z;
  blk_offset : list Z;
  blk_type : list clause_type_t
}.

Record clause_location_t := mk_loc { bid : Z; pos : Z }.

(** The exact numeric kernel [q25] is not part of the sources at hand.

    Modelled from the spec: [q25.h] / [q25.c] are missing; the specification
    describes the kernel as exact rationals with [add], [mul], [one_minus]
    and scaling by a power of two, which [Qc] provides. *)
Definition q25_ptr : Type := Qc.

Record node_t := mk_node {
  node_type : node_type_t;
  node_id : Z;
  node_cid : Z;
  dependency_list : list Z;
  children : list Z;
  ring_value : option q25_ptr
}.

(** The options and the figures of the CNF header, fixed once the CNF file
    has been read. *)
Record options_t := mk_options {
  check_add : bool;
  check_delete : bool;
  weak_mode : bool;
  use_explicit_deletion : bool;
  repeated_literal_ok : bool;
  is_pkc : bool;
  show_variables : list bool;
  early_rup : bool;
  skipping_rup : bool;
  input_clause_count : Z;
  input_variable_count : Z
}.

(** The global variables of the checker.  A chunk of [chunk_set] is
    allocated with [CHUNK_SIZE] zeros; the list holds the ints written so
    far, so that [chunk_used] is the length of the last chunk and
    [chunk_count] the number of chunks, and every int behind is 0.
    [tokens] is the unread part of the file being read. *)
Record checker := mk_checker {
  opts : options_t;
  lset : lset_t;
  chunk_set : list (list Z);
  clause_count : Z;
  clause_last_id : Z;
  current_clause : list Z;
  clause_blocks : list clause_block_t;
  variable_limit : Z;
  node_list : list node_t;
  node_count : Z;
  declared_root : Z;
  root_clause_added : bool;
  declared_unsatisfiable : bool;
  proved_unsatisfiable : bool;
  explicit_deletion_count : Z;
  virtual_clause_count : Z;
  tokens : list token_t
}.

Definition set_lset (x : lset_t) (s : checker) : checker :=
  mk_checker (opts s) x (chunk_set s) (clause_count s) (clause_last_id s)
    (current_clause s) (clause_blocks s) (variable_limit s) (node_list s)
    (node_count s) (declared_root s) (root_clause_added s)
    (declared_unsatisfiable s) (proved_unsatisfiable s)
    (explicit_deletion_count s) (virtual_clause_count s) (tokens s).

Definition set_chunk_set (x : list (list Z)) (s : checker) : checker :=
  mk_checker (opts s) (lset s) x (clause_count s) (clause_last_id s)
    (current_clause s) (clause_blocks s) (variable_limit s) (node_list s)
    (node_count s) (declared_root s) (root_clause_added s)
    (declared_unsatisfiable s) (proved_unsatisfiable s)
    (explicit_deletion_count s) (virtual_clause_count s) (tokens s).

Definition set_clause_count (x : Z) (s : checker) : checker :=
  mk_checker (opts s) (lset s) (chunk_set s) x (clause_last_id s)
    (current_clause s) (clause_blocks s) (variable_limit s) (node_list s)
    (node_count s) (declared_root s) (root_clause_added s)
    (declared_unsatisfiable s) (proved_unsatisfiable s)
    (explicit_deletion_count s) (virtual_clause_count s) (tokens s).

Definition set_clause_last_id (x : Z) (s : checker) : checker :=
  mk_checker (opts s) (lset s) (chunk_set s) (clause_count s) x
    (current_clause s) (clause_blocks s) (variable_limit s) (node_list s)
    (node_count s) (declared_root s) (root_clause_added s)
    (declared_unsatisfiable s) (proved_unsatisfiable s)
    (explicit_deletion_count s) (virtual_clause_count s) (tokens s).

Definition set_current_clause (x : list Z) (s : checker) : checker :=
  mk_checker (opts s) (lset s) (chunk_set s) (clause_count s)
    (clause_last_id s) x (clause_blocks s) (variable_limit s) (node_list s)
    (node_count s) (declared_root s) (root_clause_added s)
    (declared_unsatisfiable s) (proved_unsatisfiable s)
    (explicit_deletion_count s) (virtual_clause_count s) (tokens s).

Definition set_clause_blocks (x : list clause_block_t) (s : checker) : checker :=
  mk_checker (opts s) (lset s) (chunk_set s) (clause_count s)
    (clause_last_id s) (current_clause s) x (variable_limit s) (node_list s)
    (node_count s) (declared_root s) (root_clause_added s)
    (declared_unsatisfiable s) (proved_unsatisfiable s)
    (explicit_deletion_count s) (virtual_clause_count s) (tokens s).

Definition set_variable_limit (x : Z) (s : checker) : checker :=
  mk_checker (opts s) (lset s) (chunk_set s) (clause_count s)
    (clause_last_id s) (current_clause s) (clause_blocks s) x (node_list s)
    (node_count s) (declared_root s) (root_clause_added s)
    (declared_unsatisfiable s) (proved_unsatisfiable s)
    (explicit_deletion_count s) (virtual_clause_count s) (tokens s).

Definition set_node_list (x : list node_t) (s : checker) : checker :=
  mk_checker (opts s) (lset s) (chunk_set s) (clause_count s)
    (clause_last_id s) (current_clause s) (clause_blocks s)
    (variable_limit s) x (node_count s) (declared_root s)
    (root_clause_added s) (declared_unsatisfiable s) (proved_unsatisfiable s)
    (explicit_deletion_count s) (virtual_clause_count s) (tokens s).

Definition set_node_count (x : Z) (s : checker) : checker :=
  mk_checker (opts s) (lset s) (chunk_set s) (clause_count s)
    (clause_last_id s) (current_clause s) (clause_blocks s)
    (variable_limit s) (node_list s) x (declared_root s)
    (root_clause_added s) (declared_unsatisfiable s) (proved_unsatisfiable s)
    (explicit_deletion_count s) (virtual_clause_count s) (tokens s).

Definition set_declared_root (x : Z) (s : checker) : checker :=
  mk_checker (opts s) (lset s) (chunk_set s) (clause_count s)
    (clause_last_id s) (current_clause s) (clause_blocks s)
    (variable_limit s) (node_list s) (node_count s) x
    (root_clause_added s) (declared_unsatisfiable s) (proved_unsatisfiable s)
    (explicit_deletion_count s) (virtual_clause_count s) (tokens s).

Definition set_root_clause_added (x : bool) (s : checker) : checker :=
  mk_checker (opts s) (lset s) (chunk_set s) (clause_count s)
    (clause_last_id s) (current_clause s) (clause_blocks s)
    (variable_limit s) (node_list s) (node_count s) (declared_root s)
    x (declared_unsatisfiable s) (proved_unsatisfiable s)
    (explicit_deletion_count s) (virtual_clause_count s) (tokens s).

Definition set_declared_unsatisfiable (x : bool) (s : checker) : checker :=
  mk_checker (opts s) (lset s) (chunk_set s) (clause_count s)
    (clause_last_id s) (current_clause s) (clause_blocks s)
    (variable_limit s) (node_list s) (node_count s) (declared_root s)
    (root_clause_added s) x (proved_unsatisfiable s)
    (explicit_deletion_count s) (virtual_clause_count s) (tokens s).

Definition set_proved_unsatisfiable (x : bool) (s : checker) : checker :=
  mk_checker (opts s) (lset s) (chunk_set s) (clause_count s)
    (clause_last_id s) (current_clause s) (clause_blocks s)
    (variable_limit s) (node_list s) (node_count s) (declared_root s)
    (root_clause_added s) (declared_unsatisfiable s) x
    (explicit_deletion_count s) (virtual_clause_count s) (tokens s).

Definition set_explicit_deletion_count (x : Z) (s : checker) : checker :=
  mk_checker (opts s) (lset s) (chunk_set s) (clause_count s)
    (clause_last_id s) (current_clause s) (clause_blocks s)
    (variable_limit s) (node_list s) (node_count s) (declared_root s)
    (root_clause_added s) (declared_unsatisfiable s) (proved_unsatisfiable s)
    x (virtual_clause_count s) (tokens s).

Definition set_virtual_clause_count (x : Z) (s : checker) : checker :=
  mk_checker (opts s) (lset s) (chunk_set s) (clause_count s)
    (clause_last_id s) (current_clause s) (clause_blocks s)
    (variable_limit s) (node_list s) (node_count s) (declared_root s)
    (root_clause_added s) (declared_unsatisfiable s) (proved_unsatisfiable s)
    (explicit_deletion_count s) x (tokens s).

Definition set_tokens (x : list token_t) (s : checker) : checker :=
  mk_checker (opts s) (lset s) (chunk_set s) (clause_count s)
    (clause_last_id s) (current_clause s) (clause_blocks s)
    (variable_limit s) (node_list s) (node_count s) (declared_root s)
    (root_clause_added s) (declared_unsatisfiable s) (proved_unsatisfiable s)
    (explicit_deletion_count s) (virtual_clause_count s) x.

Definition chunk_count (s : checker) : Z := zlength (chunk_set s).
Definition chunk_used (s : checker) : Z :=
  match last (chunk_set s) with Some c => zlength c | None => 0 end.
Definition clause_block_count (s : checker) : Z := zlength (clause_blocks s).
Definition node_asize (s : checker) : Z := zlength (node_list s).


(** ** Reading tokens *)

(** At the end of the file [token_next] keeps returning [TOK_EOF]. *)
Definition token_next : M checker token_t := fun s =>
  match tokens s with
  | [] => Ok TOK_EOF s
  | t :: r => Ok t (set_tokens r s)
  end.

Definition token_confirm_eol : M checker unit :=
  token <- token_next ;;
  match token with
  | TOK_EOL => ret tt
  | _ => err_printf ParseError
  end.

(** Skips to the character after the next newline. *)
Fixpoint skip_line (ts : list token_t) : list token_t :=
  match ts with
  | [] => []
  | TOK_EOL :: r => r
  | _ :: r => skip_line r
  end.

Definition token_find_eol : M checker unit :=
  modify (fun s => set_tokens (skip_line (tokens s)) s).

(** ** The clause store *)

Definition new_block (cid : Z) : clause_block_t := mk_block cid 0 [] [] [].

(** The globals after [clause_init] and the header of the CNF file, for
    the options and header figures [o]. *)
Definition clause_init (o : options_t) : checker :=
  mk_checker o lset_start [[]] 0 0 [] [new_block 1]
    (input_variable_count o) [] 0 0 false false false 0 0 [].

(** The binary search of [find_clause] over the blocks [lid..rid]; each
    round shrinks the interval, [fuel] bounds the number of rounds. *)
Fixpoint find_clause_loop (fuel : nat) (blocks : list clause_block_t)
    (cid lid rid : Z) : option clause_location_t :=
  match fuel with
  | O => None
  | S fuel' =>
      if lid <=? rid then
        let bid := (lid + rid) / 2 in
        match arr_get blocks bid with
        | None => None
        | Some b =>
            let pos := cid - start_id b in
            if pos <? 0 then find_clause_loop fuel' blocks cid lid (bid - 1)
            else if blk_length b <=? pos
                 then find_clause_loop fuel' blocks cid (bid + 1) rid
            else Some (mk_loc bid pos)
        end
      else None
  end.

(** [None] is the C [false]. *)
Definition find_clause (cid : Z) (s : checker) : option clause_location_t :=
  find_clause_loop (S (length (clause_blocks s))) (clause_blocks s) cid
                   0 (clause_block_count s - 1).

Definition goto_next_clause (loc : clause_location_t) (s : checker)
    : option clause_location_t :=
  match arr_get (clause_blocks s) (bid loc) with
  | None => None
  | Some b =>
      if pos loc + 1 <? blk_length b then Some (mk_loc (bid loc) (pos loc + 1))
      else if bid loc + 1 <? clause_block_count s
           then Some (mk_loc (bid loc + 1) 0)
      else None
  end.

Definition generate_clause_id (loc : clause_location_t) (s : checker) : option Z :=
  match arr_get (clause_blocks s) (bid loc) with
  | Some b => Some (start_id b + pos loc)
  | None => None
  end.

(** The literals from the start of a memory area up to its first 0. *)
Fixpoint read_lits (mem : list Z) : list Z :=
  match mem with
  | [] => []
  | x :: r => if x =? 0 then [] else x :: read_lits r
  end.

(** A pointer to the beginning of a clause: chunk and offset. *)
Definition clause_ptr : Type := (Z * Z)%type.

(** [None] when [loc] is outside of the blocks; [Some None] is [NULL]. *)
Definition clause_locate (loc : clause_location_t) (s : checker)
    : option (option clause_ptr) :=
  match arr_get (clause_blocks s) (bid loc) with
  | None => None
  | Some b =>
      match arr_get (blk_chunk b) (pos loc), arr_get (blk_offset b) (pos loc) with
      | Some chunk, Some offset =>
          if chunk <? 0 then Some None
          else if offset <? 0 then Some None
          else Some (Some (chunk, offset))
      | _, _ => None
      end
  end.

(** The zero-terminated run of literals a clause pointer points to. *)
Definition clause_lits (p : clause_ptr) (s : checker) : option (list Z) :=
  match arr_get (chunk_set s) (fst p) with
  | Some c => Some (read_lits (drop (Z.to_nat (snd p)) c))
  | None => None
  end.

(** Reading the literals behind the result of [clause_locate]: undefined
    for [NULL]. *)
Definition lits_at (loc : clause_location_t) (s : checker) : option (list Z) :=
  match clause_locate loc s with
  | Some (Some p) => clause_lits p s
  | _ => None
  end.

Definition clause_type (loc : clause_location_t) (s : checker)
    : option clause_type_t :=
  match arr_get (clause_blocks s) (bid loc) with
  | Some b => arr_get (blk_type b) (pos loc)
  | None => None
  end.

(** The scan of [clause_delete] over the literals of the clause. *)
Fixpoint clause_delete_scan (lits : list Z) : M checker unit :=
  match lits with
  | [] => ret tt
  | lit :: r =>
      s <- get ;;
      let var := IABS lit in
      if (input_variable_count (opts s) <? var) && (variable_limit s <? var)
      then err_printf (VariableOutOfRange lit)
      else clause_delete_scan r
  end.

Definition clause_delete (loc : clause_location_t) : M checker bool :=
  s <- get ;;
  b <- defined (arr_get (clause_blocks s) (bid loc)) ;;
  chunk <- defined (arr_get (blk_chunk b) (pos loc)) ;;
  offset <- defined (arr_get (blk_offset b) (pos loc)) ;;
  let deleting := 0 <=? offset in
  if deleting then
    lits <- defined (clause_lits (chunk, offset) s) ;;
    clause_delete_scan lits ;;;
    ty <- defined (arr_set (blk_type b) (pos loc) CLAUSE_UNKNOWN) ;;
    let b' := mk_block (start_id b) (blk_length b) (blk_chunk b) (blk_offset b) ty in
    blocks <- defined (arr_set (clause_blocks s) (bid loc) b') ;;
    modify (set_clause_blocks blocks) ;;;
    ret deleting
  else
    cid <- defined (generate_clause_id loc s) ;;
    err_printf (AlreadyDeleted cid).

(** One round of the loop of [start_clause] that fills in null clauses. *)
Definition push_hole (b : clause_block_t) : clause_block_t :=
  mk_block (start_id b) (blk_length b + 1)
           (blk_chunk b ++ [-1]) (blk_offset b ++ [-1])
           (blk_type b ++ [CLAUSE_UNKNOWN]).

(** The sum [clause_last_id + MAX_GAP] is a sum of [int]s: beyond
    [INT_MAX] it wraps around, as the compiled code has it. *)
Definition start_clause (cid : Z) : M checker unit :=
  s <- get ;;
  if cid <=? clause_last_id s then err_printf (DuplicateClauseId cid)
  else
    (if (int_wrap (clause_last_id s + MAX_GAP) <? cid)
        || ((clause_block_count s =? 1) && (input_clause_count (opts s) <? cid))
     then
       modify (set_clause_blocks (clause_blocks s ++ [new_block cid]))
     else
       b <- defined (arr_get (clause_blocks s) (clause_block_count s - 1)) ;;
       let b' := Nat.iter (Z.to_nat (cid - (clause_last_id s + 1))) push_hole b in
       blocks <- defined (arr_set (clause_blocks s) (clause_block_count s - 1) b') ;;
       modify (set_clause_blocks blocks)) ;;;
    modify (set_clause_last_id cid) ;;;
    modify (fun s => set_clause_count (clause_count s + 1) s) ;;;
    modify (set_current_clause []).

(** Save the current clause. *)
Definition finish_clause (cid : Z) (type : clause_type_t) : M checker unit :=
  s <- get ;;
  let need := zlength (current_clause s) in
  if CHUNK_SIZE <? need then err_printf ClauseTooLong
  else
    (if CHUNK_SIZE <? need + chunk_used s then
       if CHUNK_MAX - 1 <=? chunk_count s then err_printf TooManyChunks
       else modify (set_chunk_set (chunk_set s ++ [[]]))
     else ret tt) ;;;
    s <- get ;;
    let pos := chunk_used s in
    c <- defined (arr_get (chunk_set s) (chunk_count s - 1)) ;;
    chunks <- defined (arr_set (chunk_set s) (chunk_count s - 1)
                               (c ++ current_clause s)) ;;
    modify (set_chunk_set chunks) ;;;
    b <- defined (arr_get (clause_blocks s) (clause_block_count s - 1)) ;;
    let b' := mk_block (start_id b) (blk_length b + 1)
                (blk_chunk b ++ [chunk_count s - 1]) (blk_offset b ++ [pos])
                (blk_type b ++ [type]) in
    blocks <- defined (arr_set (clause_blocks s) (clause_block_count s - 1) b') ;;
    modify (set_clause_blocks blocks).

(** Add either a literal or the terminating 0 to the current clause. *)
Definition clause_add_literal (lit : Z) : M checker unit :=
  modify (fun s => set_current_clause (current_clause s ++ [lit]) s) ;;;
  s <- get ;;
  let var := IABS lit in
  if (input_variable_count (opts s) <? var) && (variable_limit s <? var)
  then err_printf (VariableOutOfRange lit)
  else ret tt.

Fixpoint clause_add_literals (lits : list Z) : M checker unit :=
  match lits with
  | [] => ret tt
  | lit :: r => clause_add_literal lit ;;; clause_add_literals r
  end.

(** What the clause loop of [cnf_read] does with the integers of the
    [n]-th clause of the CNF file, the terminating 0 included. *)
Definition cnf_read_clause (n : Z) (lits : list Z) : M checker unit :=
  start_clause n ;;;
  clause_add_literals (lits ++ [0]) ;;;
  finish_clause n CLAUSE_INPUT.


(** ** RUP *)

Definition RUP_CONFLICT : Z := INT_MAX.
Definition RUP_STALL : Z := 0.

Definition lset_clear_m : M checker unit :=
  modify (fun s => set_lset (lset_clear (lset s)) s).

Definition lset_add_lit_m (lit : Z) : M checker bool := fun s =>
  match lset_add_lit lit (lset s) with
  | Some (b, l) => Ok b (set_lset l s)
  | None => Undef
  end.

Fixpoint rup_setup_loop (lits : list Z) : M checker bool :=
  match lits with
  | [] => ret true
  | lit :: r =>
      b <- lset_add_lit_m (- lit) ;;
      if b then rup_setup_loop r else ret false
  end.

(** Initialize the literal set to the complement of the literals; false
    on a conflict. *)
Definition rup_setup (lits : list Z) : M checker bool :=
  lset_clear_m ;;; rup_setup_loop lits.

Definition rup_add_unit (lit : Z) : M checker bool := lset_add_lit_m lit.

(** The loop of [rup_unit_prop], [unit] being its local variable. *)
Fixpoint rup_unit_prop_loop (ls : lset_t) (unit : Z) (lits : list Z) : Z :=
  match lits with
  | [] => unit
  | lit :: r =>
      if lit =? unit then rup_unit_prop_loop ls unit r
      else
        let var := IABS lit in
        let rlit := lset_get_lit var ls in
        if rlit =? lit then RUP_STALL
        else if rlit =? - lit then rup_unit_prop_loop ls unit r
        else if unit =? RUP_CONFLICT then rup_unit_prop_loop ls lit r
        else RUP_STALL
  end.

Definition rup_unit_prop (lits : list Z) (ls : lset_t) : Z :=
  rup_unit_prop_loop ls RUP_CONFLICT lits.

(** The [switch] of [rup_run] on the type of a hint clause: whether the
    hint keeps [ok] for the type of the target. *)
Definition hint_type_ok (htype target_type : clause_type_t) : bool :=
  match htype with
  | CLAUSE_TSEITIN => true
  | CLAUSE_FORWARD =>
      clause_type_eqb target_type CLAUSE_FORWARD
      || clause_type_eqb target_type CLAUSE_ROOT
  | CLAUSE_INPUT =>
      clause_type_eqb target_type CLAUSE_FORWARD
      || clause_type_eqb target_type CLAUSE_ROOT
      || clause_type_eqb target_type CLAUSE_INPUT
  | CLAUSE_SKOLEM | CLAUSE_ROOT =>
      clause_type_eqb target_type CLAUSE_INPUT
  | CLAUSE_STRUCTURAL | CLAUSE_DISABLE =>
      clause_type_eqb target_type CLAUSE_FORWARD
      || clause_type_eqb target_type CLAUSE_ROOT
      || clause_type_eqb target_type CLAUSE_STRUCTURAL
  | _ => false
  end.

(** After an early conflict: the hints left are read up to the 0. *)
Fixpoint rup_discard (ts : list token_t) : M checker unit :=
  match ts with
  | [] => err_printf ParseError
  | TOK_INT v :: r =>
      modify (set_tokens r) ;;;
      if v =? 0 then ret tt else rup_discard r
  | _ :: r => modify (set_tokens r) ;;; err_printf ParseError
  end.

(** The loop of [rup_run]; [ts] is the unread input, each round starts
    with [token_next], and [conflict], [ok] and [steps] are the locals. *)
Fixpoint rup_run_loop (ts : list token_t) (tcid : Z)
    (target_type : clause_type_t) (conflict ok : bool) (steps : Z)
    : M checker unit :=
  match ts with
  | [] => err_printf ParseError
  | TOK_STAR :: r => modify (set_tokens r) ;;; err_printf ExplicitHintsRequired
  | TOK_INT v :: r =>
      modify (set_tokens r) ;;;
      if v =? 0 then
        if negb conflict then err_printf (RupFailure tcid)
        else if negb ok then err_printf (IncompatibleHintType tcid)
        else ret tt
      else if conflict then
        s <- get ;;
        if early_rup (opts s) then
          rup_discard r ;;;
          if negb ok then err_printf (IncompatibleHintType tcid)
          else ret tt
        else err_printf (ConflictBeforeTermination tcid)
      else
        let cid := v in
        s <- get ;;
        match find_clause cid s with
        | None => err_printf (InvalidHint tcid cid)
        | Some location =>
            htype <- defined (clause_type location s) ;;
            let ok := ok && hint_type_ok htype target_type in
            lits <- defined (lits_at location s) ;;
            let unit := rup_unit_prop lits (lset s) in
            let steps := steps + 1 in
            if unit =? RUP_CONFLICT then
              rup_run_loop r tcid target_type true ok steps
            else if unit =? RUP_STALL then
              if skipping_rup (opts s)
              then rup_run_loop r tcid target_type conflict ok steps
              else err_printf (NonPropagatingHint tcid cid)
            else
              _ <- lset_add_lit_m unit ;;
              rup_run_loop r tcid target_type conflict ok steps
        end
  | _ :: r => modify (set_tokens r) ;;; err_printf ParseError
  end.

(** Run RUP on the hints from the file; the literal set is already set up. *)
Definition rup_run (tcid : Z) (target_type : clause_type_t) : M checker unit :=
  s <- get ;; rup_run_loop (tokens s) tcid target_type false true 0.

(** Skip over the hints; at the end of the file the loop never ends. *)
Fixpoint rup_skip_loop (ts : list token_t) : M checker unit :=
  match ts with
  | [] => fun _ => Diverge
  | TOK_INT v :: r =>
      modify (set_tokens r) ;;;
      if v =? 0 then ret tt else rup_skip_loop r
  | _ :: r => modify (set_tokens r) ;;; rup_skip_loop r
  end.

Definition rup_skip (tcid : Z) : M checker unit :=
  s <- get ;; rup_skip_loop (tokens s).

(** ** Clause addition and deletion commands *)

Definition cpog_read_root : M checker unit :=
  token <- token_next ;;
  match token with
  | TOK_INT v =>
      modify (set_declared_root v) ;;;
      if v =? 0 then modify (set_declared_unsatisfiable true) else ret tt
  | _ => err_printf ParseError
  end.

(** The loop of [cpog_add_clause] reading the literals; returns [clen]
    and [last_literal]. *)
Fixpoint add_clause_loop (ts : list token_t) (clen last_literal : Z)
    : M checker (Z * Z) :=
  match ts with
  | [] => err_printf ParseError
  | TOK_INT lit :: r =>
      modify (set_tokens r) ;;;
      clause_add_literal lit ;;;
      if lit =? 0 then ret (clen, last_literal)
      else
        _ <- lset_add_lit_m (- lit) ;;
        add_clause_loop r (clen + 1) lit
  | _ :: r => modify (set_tokens r) ;;; err_printf ParseError
  end.

Definition cpog_add_clause (cid : Z) (is_structural : bool) : M checker unit :=
  lset_clear_m ;;;
  start_clause cid ;;;
  s <- get ;;
  cl <- add_clause_loop (tokens s) 0 0 ;;
  let clen := fst cl in
  let last_literal := snd cl in
  s <- get ;;
  ctype <-
    (if is_structural then ret CLAUSE_STRUCTURAL
     else if clen =? 0 then
       modify (set_proved_unsatisfiable true) ;;; ret CLAUSE_FORWARD
     else if (clen =? 1) && (last_literal =? declared_root s) then
       modify (set_root_clause_added true) ;;; ret CLAUSE_ROOT
     else ret CLAUSE_FORWARD) ;;
  (if negb (check_add (opts s)) then rup_skip cid else rup_run cid ctype) ;;;
  token_confirm_eol ;;;
  finish_clause cid ctype.

Definition cpog_delete_clause : M checker unit :=
  token <- token_next ;;
  match token with
  | TOK_INT cid =>
      s <- get ;;
      if input_clause_count (opts s) <? cid then err_printf (NotInputClause cid)
      else
        match find_clause cid s with
        | None => err_printf (UnknownClauseId cid)
        | Some location =>
            lits <- defined (lits_at location s) ;;
            ok <- rup_setup lits ;;
            let tautology := negb ok in
            deleted <- clause_delete location ;;
            if negb deleted then err_printf (AlreadyDeleted cid)
            else
              (if negb tautology then
                 if negb (check_delete (opts s)) then rup_skip cid
                 else rup_run cid CLAUSE_INPUT
               else ret tt) ;;;
              token_find_eol ;;;
              modify (fun s => set_explicit_deletion_count
                                 (explicit_deletion_count s + 1) s)
        end
  | _ => err_printf ParseError
  end.

(** The loop of [cpog_batch_delete_clauses]. *)
Fixpoint batch_delete_loop (ts : list token_t) : M checker unit :=
  match ts with
  | [] => err_printf ParseError
  | TOK_INT cid :: r =>
      modify (set_tokens r) ;;;
      if cid =? 0 then ret tt
      else
        s <- get ;;
        match find_clause cid s with
        | None => err_printf (UnknownClauseId cid)
        | Some location =>
            ctype <- defined (clause_type location s) ;;
            if negb (clause_type_eqb ctype CLAUSE_FORWARD
                     || clause_type_eqb ctype CLAUSE_STRUCTURAL)
            then err_printf (BatchDeleteType cid)
            else
              deleted <- clause_delete location ;;
              if negb deleted then err_printf (AlreadyDeleted cid)
              else batch_delete_loop r
        end
  | _ :: r => modify (set_tokens r) ;;; err_printf ParseError
  end.

Definition cpog_batch_delete_clauses : M checker unit :=
  s <- get ;; batch_delete_loop (tokens s) ;;; token_find_eol.


(** ** Unit propagation along a list of hints

    The derivation that [rup_run] checks, as a function of the hint ids
    [hints] (the terminating 0 excluded): each hint clause is looked up and
    propagated by [rup_unit_prop] from the literal set [ls]; a unit is added
    to the set, a conflict ends the derivation. *)

Inductive prop_result :=
| PConflict (used : list Z) (ls : lset_t)
    (* the hints applied, the last of them in conflict; the set then *)
| PExhausted (ls : lset_t)
    (* every hint applied, none in conflict *)
| PStall (cid : Z) (rem : list Z) (ls : lset_t)
    (* hint [cid] did not propagate; [rem] are the hints behind it *)
| PInvalid (cid : Z) (rem : list Z) (ls : lset_t)
    (* hint [cid] is not the id of a clause *)
| PUndef.
    (* the hint is a hole without literals *)

Definition cons_used (h : Z) (p : prop_result) : prop_result :=
  match p with
  | PConflict used ls => PConflict (h :: used) ls
  | _ => p
  end.

Fixpoint propagate (s : checker) (ls : lset_t) (hints : list Z) : prop_result :=
  match hints with
  | [] => PExhausted ls
  | h :: r =>
      match find_clause h s with
      | None => PInvalid h r ls
      | Some loc =>
          match clause_type loc s, lits_at loc s with
          | Some _, Some lits =>
              let unit := rup_unit_prop lits ls in
              if unit =? RUP_CONFLICT then PConflict [h] ls
              else if unit =? RUP_STALL then
                if skipping_rup (opts s) then cons_used h (propagate s ls r)
                else PStall h r ls
              else
                match lset_add_lit unit ls with
                | Some (_, ls') => cons_used h (propagate s ls' r)
                | None => PUndef
                end
          | _, _ => PUndef
          end
      end
  end.

(** The type of the clause with id [h], if there is one. *)
Definition hint_type (s : checker) (h : Z) : option clause_type_t :=
  match find_clause h s with
  | Some loc => clause_type loc s
  | None => None
  end.

(** Every hint of [used] has a type that is legal for [target_type]. *)
Definition hints_legal (s : checker) (target_type : clause_type_t)
    (used : list Z) : bool :=
  forallb (fun h => match hint_type s h with
                    | Some htype => hint_type_ok htype target_type
                    | None => false
                    end) used.

(** The tokens of a hint list: the hints, then the terminating 0. *)
Definition hint_tokens (hints : list Z) (rest : list token_t) : list token_t :=
  map TOK_INT hints ++ TOK_INT 0 :: rest.

(** Status of a literal with respect to the literal set. *)
Definition lit_satisfied (ls : lset_t) (lit : Z) : Prop :=
  lset_get_lit (IABS lit) ls = lit.
Definition lit_falsified (ls : lset_t) (lit : Z) : Prop :=
  lset_get_lit (IABS lit) ls = - lit.
Definition lit_free (ls : lset_t) (lit : Z) : Prop :=
  lset_get_lit (IABS lit) ls = 0.

(** A literal as the checker stores it: nonzero, and its variable below
    [INT_MAX], the value [RUP_CONFLICT] is taken from. *)
Definition is_literal (lit : Z) : Prop := lit <> 0 /\ IABS lit < INT_MAX.


(** What [rup_run] makes of a derivation: the outcome for the target
    [tcid] of type [target_type], [rest] being the input behind the
    terminating 0 and [ok] the legality of the hints before. *)
Definition rup_outcome (tcid : Z) (target_type : clause_type_t) (ok : bool)
    (rest : list token_t) (s : checker) (p : prop_result)
    : result checker unit :=
  match p with
  | PConflict used ls =>
      if ok && hints_legal s target_type used
      then Ok tt (set_tokens rest (set_lset ls s))
      else Err (IncompatibleHintType tcid) (set_tokens rest (set_lset ls s))
  | PExhausted ls =>
      Err (RupFailure tcid) (set_tokens rest (set_lset ls s))
  | PStall cid rem ls =>
      Err (NonPropagatingHint tcid cid)
          (set_tokens (hint_tokens rem rest) (set_lset ls s))
  | PInvalid cid rem ls =>
      Err (InvalidHint tcid cid)
          (set_tokens (hint_tokens rem rest) (set_lset ls s))
  | PUndef => Undef
  end.


(** ** Running a command *)

(** The state a command leaves, when it returns. *)
Definition state_of {A} (r : result checker A) : option checker :=
  match r with
  | Ok _ s => Some s
  | _ => None
  end.

(** What the clause loop of [cnf_read] does for the clauses of a CNF file
    in which every clause has its terminating 0, [n] being
    [found_clause_count]; [cnf_read_loop] is the loop over the tokens of
    the file. *)
Fixpoint cnf_read_clauses (n : Z) (clauses : list (list Z)) : M checker unit :=
  match clauses with
  | [] => ret tt
  | c :: r => cnf_read_clause (n + 1) c ;;; cnf_read_clauses (n + 1) r
  end.

(** The state after [cnf_read] of a CNF file with [nvar] variables and the
    clauses [clauses], no projection declared, with the default options. *)
Definition default_options (nvar : Z) (nclauses : Z) : options_t :=
  mk_options true true false false false false [] true false nclauses nvar.

Definition cnf_state (nvar : Z) (clauses : list (list Z)) : option checker :=
  state_of (cnf_read_clauses 0 clauses
              (clause_init (default_options nvar (zlength clauses)))).

(** The state in which the CPOG file with the tokens [ts] is read. *)
Definition with_input (ts : list token_t) (s : option checker) : option checker :=
  match s with
  | Some s => Some (set_tokens ts s)
  | None => None
  end.

(** Run a command from a state that may not exist. *)
Definition run {A} (c : M checker A) (s : option checker) : result checker A :=
  match s with
  | Some s => c s
  | None => Undef
  end.

(** The CNF file [p cnf 1 2 / 1 0 / -1 0]. *)
Definition cnf_unit_pair : option checker := cnf_state 1 [[1]; [-1]].

(** The CNF file [p cnf 2 2 / 1 0 / 1 2 0]. *)
Definition cnf_unit_then_binary : option checker := cnf_state 2 [[1]; [1; 2]].


(** The part of [cpog_add_clause] before the RUP check: the clause is
    started and its literals are read and negated into the literal set. *)
Definition cpog_add_clause_literals (cid : Z) : M checker (Z * Z) :=
  lset_clear_m ;;;
  start_clause cid ;;;
  s <- get ;;
  add_clause_loop (tokens s) 0 0.

Definition the_state (o : option checker) : checker :=
  match o with
  | Some s => s
  | None => clause_init (default_options 0 0)
  end.

(** The state in which [cpog_add_clause cid] starts its RUP check, for the
    CPOG line of tokens [ts] (behind the command letter) over [cnf]. *)
Definition rup_entry (cid : Z) (ts : list token_t) (cnf : option checker) : checker :=
  the_state (state_of (run (cpog_add_clause_literals cid) (with_input ts cnf))).

(** The criterion of success of a RUP check that only looks at the
    derivation: the check succeeds exactly when the propagation along the
    hints reaches a conflict. *)
Definition rup_succeeds_iff_conflict (tcid : Z) (target_type : clause_type_t)
    (s : checker) (hints : list Z) : Prop :=
  (exists s', rup_run tcid target_type s = Ok tt s') <->
  (exists used ls, propagate s (lset s) hints = PConflict used ls).

(** Tolerance of a hint clause that the literal set already satisfies:
    it would not stall. *)
Definition satisfied_hint_tolerated (ls : lset_t) (lits : list Z) : Prop :=
  (exists l, In l lits /\ l <> 0 /\ lit_satisfied ls l) ->
  rup_unit_prop lits ls <> RUP_STALL.


(** ** Blocks of the clause store *)

(** [start_clause cid] has opened a block for [cid]. *)
Definition opens_block (cid : Z) (s s' : checker) : Prop :=
  clause_blocks s' = clause_blocks s ++ [new_block cid].

(** The condition of [start_clause] for a clause beyond the input clauses
    while the store still has its initial block only: the first id that is
    not the id of an input clause. *)
Definition first_noninput_id (cid : Z) (s : checker) : Prop :=
  clause_block_count s = 1 /\ input_clause_count (opts s) < cid.

(** The number of ids skipped by [cid]. *)
Definition skipped_ids (cid : Z) (s : checker) : Z := cid - clause_last_id s - 1.

(** The rule for opening a block with the gap measured in skipped ids:
    a block is opened exactly when more than [MAX_GAP] ids are skipped or
    the id is the first one that is not an input id. *)
Definition opens_block_iff_skipped_exceeds (cid : Z) (s : checker) : Prop :=
  forall s', start_clause cid s = Ok tt s' ->
    (opens_block cid s s' <->
     MAX_GAP < skipped_ids cid s \/ first_noninput_id cid s).

(** The last block [b] holds the slots of the ids from [start_id b] up to
    [last], one entry in each of its lists for each. *)
Definition block_ok (b : clause_block_t) (last : Z) : Prop :=
  start_id b + blk_length b = last + 1 /\
  zlength (blk_chunk b) = blk_length b /\
  zlength (blk_offset b) = blk_length b /\
  zlength (blk_type b) = blk_length b.

(** The block [b] with [n] holes pushed. *)
Definition padded (n : nat) (b : clause_block_t) : clause_block_t :=
  mk_block (start_id b) (blk_length b + Z.of_nat n)
           (blk_chunk b ++ replicate n (-1)) (blk_offset b ++ replicate n (-1))
           (blk_type b ++ replicate n CLAUSE_UNKNOWN).

(** The state after the first clause addition [3 a 0 1 2 0] over the CNF
    [1 0 / -1 0]: two blocks, the last id is 3. *)
Definition after_first_addition : checker :=
  the_state (state_of (run (cpog_add_clause 3 false)
    (with_input [TOK_INT 0; TOK_INT 1; TOK_INT 2; TOK_INT 0; TOK_EOL]
                cnf_unit_pair))).


(** ** POG nodes

    A pointer to a node of [node_list] is its index. *)

Definition node_type_eqb (a b : node_type_t) : bool :=
  match a, b with
  | NODE_PRODUCT, NODE_PRODUCT | NODE_SKOLEM, NODE_SKOLEM
  | NODE_SUM, NODE_SUM | NODE_NONE, NODE_NONE => true
  | _, _ => false
  end.

(** [None] is [NULL]. *)
Definition node_find (id : Z) (s : checker) : option Z :=
  let idx := id - input_variable_count (opts s) - 1 in
  if (idx <? 0) || (node_asize s <=? idx) then None else Some idx.

Definition set_node_type (x : node_type_t) (n : node_t) : node_t :=
  mk_node x (node_id n) (node_cid n) (dependency_list n) (children n) (ring_value n).
Definition set_node_cid (x : Z) (n : node_t) : node_t :=
  mk_node (node_type n) (node_id n) x (dependency_list n) (children n) (ring_value n).
Definition set_dependency_list (x : list Z) (n : node_t) : node_t :=
  mk_node (node_type n) (node_id n) (node_cid n) x (children n) (ring_value n).
Definition set_children (x : list Z) (n : node_t) : node_t :=
  mk_node (node_type n) (node_id n) (node_cid n) (dependency_list n) x (ring_value n).
Definition set_ring_value (x : option q25_ptr) (n : node_t) : node_t :=
  mk_node (node_type n) (node_id n) (node_cid n) (dependency_list n) (children n) x.

(** An assignment through a node pointer. *)
Definition update_node (idx : Z) (f : node_t -> node_t) : M checker unit :=
  s <- get ;;
  node <- defined (arr_get (node_list s) idx) ;;
  nodes <- defined (arr_set (node_list s) idx (f node)) ;;
  modify (set_node_list nodes).

Definition read_node (idx : Z) : M checker node_t :=
  s <- get ;; defined (arr_get (node_list s) idx).

(** The entries of [node_list] for the indices from [from] on, as
    [node_new] initializes them. *)
Definition fresh_nodes (input_variable_count : Z) (from count : nat) : list node_t :=
  map (fun idx => mk_node NODE_NONE (Z.of_nat idx + input_variable_count + 1)
                          0 [] [] None)
      (seq from count).

Definition node_new (type : node_type_t) (id cid : Z) : M checker Z :=
  s <- get ;;
  let nvar := input_variable_count (opts s) in
  if id <=? nvar then err_printf (InvalidOperationId id)
  else
    (if node_asize s <? id - nvar then
       let nasize0 := id - nvar in
       let nasize1 := if nasize0 <? MIN_SIZE then MIN_SIZE else nasize0 in
       let nasize := if nasize1 <? grow (node_asize s)
                     then grow (node_asize s) else nasize1 in
       modify (set_node_list
                 (node_list s ++
                  fresh_nodes nvar (length (node_list s))
                              (Z.to_nat (nasize - node_asize s)))) ;;;
       modify (set_variable_limit (nasize + nvar))
     else ret tt) ;;;
    s <- get ;;
    idx <- defined (node_find id s) ;;
    node <- read_node idx ;;
    if negb (node_type_eqb (node_type node) NODE_NONE)
    then err_printf (InvalidOperationId id)
    else
      update_node idx (fun n => set_ring_value None (set_node_cid cid (set_node_type type n))) ;;;
      modify (fun s => set_node_count (node_count s + 1) s) ;;;
      ret idx.

(** ** Commands that declare POG nodes *)

(** The loop of [cpog_add_product] over the children of the node [nid],
    at index [idx]; it returns [local_dependency_list]. *)
Fixpoint product_children_loop (ts : list token_t) (nid idx : Z)
    (local_dependency_list : list Z) : M checker (list Z) :=
  match ts with
  | [] => err_printf ParseError
  | TOK_INT lit :: r =>
      modify (set_tokens r) ;;;
      if lit =? 0 then ret local_dependency_list
      else
        let var := IABS lit in
        update_node idx (fun n => set_children (children n ++ [lit]) n) ;;;
        s <- get ;;
        if var <=? input_variable_count (opts s) then
          (if is_pkc (opts s) then
             show <- defined (arr_get (show_variables (opts s)) (var - 1)) ;;
             if negb show && (nid <=? declared_root s)
             then err_printf (NotDataVariable lit nid)
             else ret tt
           else ret tt) ;;;
          product_children_loop r nid idx (local_dependency_list ++ [var])
        else if negb (var =? lit) then err_printf (NotNNF lit nid)
        else
          match node_find var s with
          | None => err_printf (InvalidNodeId lit nid)
          | Some cidx =>
              cnode <- read_node cidx ;;
              if node_type_eqb (node_type cnode) NODE_NONE
              then err_printf (InvalidNodeId lit nid)
              else
                node <- read_node idx ;;
                match ilist_is_disjoint (dependency_list node)
                                        (dependency_list cnode) with
                | Some dvar => err_printf (DependencyViolation dvar nid)
                | None =>
                    update_node idx
                      (set_dependency_list
                         (ilist_union (dependency_list node)
                                      (dependency_list cnode))) ;;;
                    product_children_loop r nid idx local_dependency_list
                end
          end
  | _ :: r => modify (set_tokens r) ;;; err_printf ParseError
  end.

(** The defining clauses [cid+1 ..] of a node: one clause of two literals
    for each child, [first] being the literal of the node and [sign] the
    sign given to the child. *)
Fixpoint child_clauses (cid : Z) (first : Z) (sign : Z) (ctype : clause_type_t)
    (children : list Z) : M checker unit :=
  match children with
  | [] => ret tt
  | c :: r =>
      start_clause cid ;;;
      clause_add_literal first ;;;
      clause_add_literal (sign * c) ;;;
      clause_add_literal 0 ;;;
      finish_clause cid ctype ;;;
      child_clauses (cid + 1) first sign ctype r
  end.

Definition cpog_add_product (cid : Z) : M checker unit :=
  token <- token_next ;;
  match token with
  | TOK_INT nid =>
      idx <- node_new NODE_PRODUCT nid cid ;;
      update_node idx (set_children []) ;;;
      update_node idx (set_dependency_list []) ;;;
      s <- get ;;
      local <- product_children_loop (tokens s) nid idx [] ;;
      s <- get ;;
      (if 0 <? zlength local then
         let sorted := ilist_sort local in
         local' <-
           (if repeated_literal_ok (opts s) then ret (ilist_deduplicate sorted)
            else match ilist_find_duplicate sorted with
                 | Some dvar => err_printf (DependencyViolation dvar nid)
                 | None => ret sorted
                 end) ;;
         node <- read_node idx ;;
         match ilist_is_disjoint (dependency_list node) local' with
         | Some dvar => err_printf (DependencyViolation dvar nid)
         | None =>
             update_node idx
               (set_dependency_list (ilist_union (dependency_list node) local'))
         end
       else ret tt) ;;;
      token <- token_next ;;
      match token with
      | TOK_EOL =>
          start_clause cid ;;;
          clause_add_literal nid ;;;
          node <- read_node idx ;;
          s <- get ;;
          let n := zlength (children node) in
          let ctype := if (n =? 0) && (nid =? declared_root s)
                       then CLAUSE_ROOT else CLAUSE_TSEITIN in
          clause_add_literals (map Z.opp (children node)) ;;;
          clause_add_literal 0 ;;;
          finish_clause cid ctype ;;;
          child_clauses (cid + 1) (- nid) 1 CLAUSE_TSEITIN (children node) ;;;
          (if (n =? 0) && (nid =? declared_root s)
           then modify (set_root_clause_added true) else ret tt)
      | _ => err_printf ParseError
      end
  | _ => err_printf ParseError
  end.


(** The loop of [cpog_add_skolem] over the children. *)
Fixpoint skolem_children_loop (ts : list token_t) (nid idx : Z) : M checker unit :=
  match ts with
  | [] => err_printf ParseError
  | TOK_INT lit :: r =>
      modify (set_tokens r) ;;;
      if lit =? 0 then ret tt
      else
        let var := IABS lit in
        update_node idx (fun n => set_children (children n ++ [lit]) n) ;;;
        s <- get ;;
        if var <=? input_variable_count (opts s) then
          show <- defined (arr_get (show_variables (opts s)) (var - 1)) ;;
          if show then err_printf (NotProjectionVariable lit nid)
          else
            update_node idx
              (fun n => set_dependency_list (dependency_list n ++ [var]) n) ;;;
            skolem_children_loop r nid idx
        else err_printf (NotProjectionVariable lit nid)
  | _ :: r => modify (set_tokens r) ;;; err_printf ParseError
  end.

Definition cpog_add_skolem (cid : Z) : M checker unit :=
  token <- token_next ;;
  match token with
  | TOK_INT nid =>
      s <- get ;;
      if negb (is_pkc (opts s)) then err_printf (NotProjected nid)
      else
        idx <- node_new NODE_SKOLEM nid cid ;;
        update_node idx (set_children []) ;;;
        update_node idx (set_dependency_list []) ;;;
        s <- get ;;
        skolem_children_loop (tokens s) nid idx ;;;
        update_node idx (fun n => set_dependency_list (ilist_sort (dependency_list n)) n) ;;;
        s <- get ;;
        node <- read_node idx ;;
        (if repeated_literal_ok (opts s) then
           update_node idx
             (set_dependency_list (ilist_deduplicate (dependency_list node)))
         else match ilist_find_duplicate (dependency_list node) with
              | Some dvar => err_printf (DependencyViolation dvar nid)
              | None => ret tt
              end) ;;;
        token <- token_next ;;
        match token with
        | TOK_EOL =>
            start_clause cid ;;;
            clause_add_literal nid ;;;
            clause_add_literal 0 ;;;
            finish_clause cid CLAUSE_DISABLE ;;;
            node <- read_node idx ;;
            let n := zlength (children node) in
            if use_explicit_deletion (opts s) then
              child_clauses (cid + 1) (- nid) 1 CLAUSE_SKOLEM (children node)
            else
              modify (fun s => set_virtual_clause_count (virtual_clause_count s + n) s)
        | _ => err_printf ParseError
        end
  | _ => err_printf ParseError
  end.

(** The loop of [cpog_add_sum] over the children; it returns
    [local_dependency_list]. *)
Fixpoint sum_children_loop (ts : list token_t) (weak : bool) (nid idx : Z)
    (local_dependency_list : list Z) : M checker (list Z) :=
  match ts with
  | [] => err_printf ParseError
  | TOK_INT lit :: r =>
      modify (set_tokens r) ;;;
      let var := IABS lit in
      if weak && (var =? 0) then ret local_dependency_list
      else
        update_node idx (fun n => set_children (children n ++ [lit]) n) ;;;
        s <- get ;;
        local <-
          (if var <=? input_variable_count (opts s) then
             (if is_pkc (opts s) then
                show <- defined (arr_get (show_variables (opts s)) (var - 1)) ;;
                if negb show then err_printf (NotDataVariable lit nid) else ret tt
              else ret tt) ;;;
             ret (local_dependency_list ++ [var])
           else if negb (var =? lit) then err_printf (NotNNF lit nid)
           else
             match node_find var s with
             | None => err_printf (InvalidNodeId lit nid)
             | Some cidx =>
                 cnode <- read_node cidx ;;
                 if node_type_eqb (node_type cnode) NODE_NONE
                 then err_printf (InvalidNodeId lit nid)
                 else
                   node <- read_node idx ;;
                   update_node idx
                     (set_dependency_list
                        (ilist_union (dependency_list node)
                                     (dependency_list cnode))) ;;;
                   ret local_dependency_list
             end) ;;
        node <- read_node idx ;;
        if negb weak && (zlength (children node) =? 2) then ret local
        else sum_children_loop r weak nid idx local
  | _ :: r => modify (set_tokens r) ;;; err_printf ParseError
  end.

(** [cpog_add_sum], first part: the node is created and its children are
    read; the id of the node and its index are returned. *)
Definition sum_children (cid : Z) (weak : bool) : M checker (Z * Z) :=
  token <- token_next ;;
  match token with
  | TOK_INT nid =>
      idx <- node_new NODE_SUM nid cid ;;
      update_node idx (set_children []) ;;;
      update_node idx (set_dependency_list []) ;;;
      s <- get ;;
      local <- sum_children_loop (tokens s) weak nid idx [] ;;
      (if 0 <? zlength local then
         node <- read_node idx ;;
         update_node idx
           (set_dependency_list
              (ilist_union (dependency_list node) (ilist_sort local)))
       else ret tt) ;;;
      ret (nid, idx)
  | _ => err_printf ParseError
  end.

(** [cpog_add_sum], second part: prove mutual exclusion. *)
Definition sum_mutex (cid idx : Z) : M checker unit :=
  lset_clear_m ;;;
  node <- read_node idx ;;
  c0 <- defined (arr_get (children node) 0) ;;
  _ <- lset_add_lit_m c0 ;;
  c1 <- defined (arr_get (children node) 1) ;;
  _ <- lset_add_lit_m c1 ;;
  rup_run cid CLAUSE_STRUCTURAL.

(** [cpog_add_sum], third part: add the sum clauses. *)
Definition sum_clauses (cid nid idx : Z) : M checker unit :=
  token_confirm_eol ;;;
  start_clause cid ;;;
  clause_add_literal (- nid) ;;;
  node <- read_node idx ;;
  clause_add_literals (children node) ;;;
  clause_add_literal 0 ;;;
  finish_clause cid CLAUSE_TSEITIN ;;;
  child_clauses (cid + 1) nid (-1) CLAUSE_TSEITIN (children node).

Definition cpog_add_sum (cid : Z) (weak : bool) : M checker unit :=
  node <- sum_children cid weak ;;
  (if negb weak then sum_mutex cid (snd node) else ret tt) ;;;
  sum_clauses cid (fst node) (snd node).

(** ** Counting *)

(** The operations of the numeric kernel used by the evaluator.

    Modelled from the spec: [q25_from_32], [q25_add], [q25_mul],
    [q25_one_minus] and [q25_scale] belong to the missing [q25.c]; they
    are the exact operations their names say, [q25_scale q p2 p5] being
    the product of [q] by [2^p2 * 5^p5]. *)
Definition q25_from_32 (x : Z) : q25_ptr := Q2Qc (inject_Z x).
Definition q25_add (a b : q25_ptr) : q25_ptr := (a + b)%Qc.
Definition q25_mul (a b : q25_ptr) : q25_ptr := (a * b)%Qc.
Definition q25_one_minus (a : q25_ptr) : q25_ptr := (1 - a)%Qc.
Definition q25_pow (base : Z) (e : Z) : q25_ptr :=
  if e <? 0 then (/ (q25_from_32 base ^ Z.to_nat (- e)))%Qc
  else (q25_from_32 base ^ Z.to_nat e)%Qc.
Definition q25_scale (q : q25_ptr) (p2 p5 : Z) : q25_ptr :=
  (q * q25_pow 2 p2 * q25_pow 5 p5)%Qc.

(** The inner loop of [ring_evaluate] over the children of a node of
    type [type], [val] being the value so far. *)
Fixpoint ring_children_loop (type : node_type_t) (input_weights : list q25_ptr)
    (cs : list Z) (val : q25_ptr) : M checker q25_ptr :=
  match cs with
  | [] => ret val
  | clit :: r =>
      s <- get ;;
      let cid := IABS clit in
      cval <-
        (if cid <=? input_variable_count (opts s)
         then defined (arr_get input_weights (cid - 1))
         else
           cidx <- defined (node_find cid s) ;;
           cnp <- read_node cidx ;;
           defined (ring_value cnp)) ;;
      let cval := if clit <? 0 then q25_one_minus cval else cval in
      let nval := if node_type_eqb type NODE_PRODUCT
                  then q25_mul val cval else q25_add val cval in
      ring_children_loop type input_weights r nval
  end.

(** The outer loop of [ring_evaluate]: [count] nodes from [id] on; [val]
    is the value of the node before, if any. *)
Fixpoint ring_nodes_loop (count : nat) (id : Z) (input_weights : list q25_ptr)
    (val : option q25_ptr) : M checker (option q25_ptr) :=
  match count with
  | O => ret val
  | S count' =>
      s <- get ;;
      idx <- defined (node_find id s) ;;
      np <- read_node idx ;;
      let is_skolem := node_type_eqb (node_type np) NODE_SKOLEM in
      val0 <-
        match node_type np with
        | NODE_PRODUCT | NODE_SKOLEM => ret (q25_from_32 1)
        | NODE_SUM => ret (q25_from_32 0)
        | NODE_NONE => err_printf (InvalidNodeType id)
        end ;;
      val <- ring_children_loop (node_type np) input_weights
               (if is_skolem then [] else children np) val0 ;;
      update_node idx (set_ring_value (Some val)) ;;;
      ring_nodes_loop count' (id + 1) input_weights (Some val)
  end.

(** The loop of [ring_evaluate] that frees the ring values. *)
Fixpoint ring_clear_loop (count : nat) (id : Z) : M checker unit :=
  match count with
  | O => ret tt
  | S count' =>
      s <- get ;;
      idx <- defined (node_find id s) ;;
      update_node idx (set_ring_value None) ;;;
      ring_clear_loop count' (id + 1)
  end.

(** Ring evaluation for the weights [input_weights] of the input
    variables.  Without a node up to the root, the value returned is that
    of an uninitialized variable. *)
Definition ring_evaluate (input_weights : list q25_ptr) : M checker q25_ptr :=
  s <- get ;;
  if declared_unsatisfiable s then ret (q25_from_32 0)
  else
    let first := input_variable_count (opts s) + 1 in
    let count := Z.to_nat (declared_root s + 1 - first) in
    val <- ring_nodes_loop count first input_weights None ;;
    val <- defined val ;;
    ring_clear_loop count first ;;;
    ret val.

(** The loop of [count_regular] that counts the data variables. *)
Fixpoint count_show (count : nat) (v : Z) (nvar : Z) : M checker Z :=
  match count with
  | O => ret nvar
  | S count' =>
      s <- get ;;
      show <- defined (arr_get (show_variables (opts s)) (v - 1)) ;;
      count_show count' (v + 1) (if show then nvar + 1 else nvar)
  end.

Definition count_regular : M checker q25_ptr :=
  s <- get ;;
  let nvars := input_variable_count (opts s) in
  nvar <- (if is_pkc (opts s) then count_show (Z.to_nat nvars) 1 0
           else ret nvars) ;;
  let qone := q25_from_32 1 in
  let half := q25_scale qone (-1) 0 in
  let input_weights := replicate (Z.to_nat nvars) half in
  density <- ring_evaluate input_weights ;;
  ret (q25_scale density nvar 0).


(** ** Support for reverse implication *)

(** The fan-out arrays built once for the deletion of the input clauses. *)
Record fanouts_t := mk_fanouts {
  neg_fanouts : list (list Z);
  pos_fanouts : list (list Z)
}.

(** The state of a propagator. *)
Record propagate_t := mk_propagate {
  node_event_count : list Z;
  priority_queue : list Z;
  priority_count : Z;
  implicit_deletion_count : Z;
  event_count : Z
}.

Definition set_node_event_count (x : list Z) (p : propagate_t) : propagate_t :=
  mk_propagate x (priority_queue p) (priority_count p)
               (implicit_deletion_count p) (event_count p).
Definition set_priority_queue (x : list Z) (p : propagate_t) : propagate_t :=
  mk_propagate (node_event_count p) x (priority_count p)
               (implicit_deletion_count p) (event_count p).
Definition set_priority_count (x : Z) (p : propagate_t) : propagate_t :=
  mk_propagate (node_event_count p) (priority_queue p) x
               (implicit_deletion_count p) (event_count p).
Definition set_implicit_deletion_count (x : Z) (p : propagate_t) : propagate_t :=
  mk_propagate (node_event_count p) (priority_queue p) (priority_count p)
               x (event_count p).
Definition set_event_count (x : Z) (p : propagate_t) : propagate_t :=
  mk_propagate (node_event_count p) (priority_queue p) (priority_count p)
               (implicit_deletion_count p) x.

Definition new_propagator (s : checker) : propagate_t :=
  mk_propagate (replicate (Z.to_nat (node_count s)) 0)
               (replicate (Z.to_nat (node_count s)) 0) 0 0 0.

Definition reset_propagator : M propagate_t unit := modify (set_priority_count 0).

Definition var_to_index (s : checker) (var : Z) : Z :=
  var - input_variable_count (opts s).
Definition index_to_var (s : checker) (index : Z) : Z :=
  index + input_variable_count (opts s).

(** The children of the node [node] pushed on the fan-outs of their
    literals. *)
Fixpoint push_fanouts (id : Z) (cs : list Z) (f : fanouts_t) : option fanouts_t :=
  match cs with
  | [] => Some f
  | clit :: r =>
      let var := IABS clit in
      if clit <? 0 then
        match arr_get (neg_fanouts f) (var - 1) with
        | Some l =>
            match arr_set (neg_fanouts f) (var - 1) (l ++ [id]) with
            | Some a => push_fanouts id r (mk_fanouts a (pos_fanouts f))
            | None => None
            end
        | None => None
        end
      else
        match arr_get (pos_fanouts f) (var - 1) with
        | Some l =>
            match arr_set (pos_fanouts f) (var - 1) (l ++ [id]) with
            | Some a => push_fanouts id r (mk_fanouts (neg_fanouts f) a)
            | None => None
            end
        | None => None
        end
  end.

(** The loop of [build_deletion_structures] over the nodes. *)
Fixpoint build_fanouts (nodes : list node_t) (f : fanouts_t) : option fanouts_t :=
  match nodes with
  | [] => Some f
  | node :: r =>
      if node_type_eqb (node_type node) NODE_NONE then build_fanouts r f
      else
        match push_fanouts (node_id node) (children node) f with
        | Some f' => build_fanouts r f'
        | None => None
        end
  end.

(** Removal of the duplicates of the fan-outs of the input variables. *)
Definition dedup_first (n : nat) (l : list (list Z)) : list (list Z) :=
  map ilist_deduplicate (take n l) ++ drop n l.

(** [None] when an index leaves one of the two arrays, or when fewer than
    [node_count] nodes are allocated. *)
Definition build_deletion_structures (s : checker) : option fanouts_t :=
  let nvar := Z.to_nat (input_variable_count (opts s)) in
  let f0 := mk_fanouts (replicate nvar [])
                       (replicate (Z.to_nat (declared_root s)) []) in
  if node_asize s <? node_count s then None
  else
    match build_fanouts (take (Z.to_nat (node_count s)) (node_list s)) f0 with
    | Some f =>
        if repeated_literal_ok (opts s) then
          if zlength (pos_fanouts f) <? input_variable_count (opts s) then None
          else Some (mk_fanouts (dedup_first nvar (neg_fanouts f))
                                (dedup_first nvar (pos_fanouts f)))
        else Some f
    | None => None
    end.

(** Swap of two entries of the queue. *)
Definition swap_queue (i j : Z) : M propagate_t unit :=
  p <- get ;;
  qi <- defined (arr_get (priority_queue p) i) ;;
  qj <- defined (arr_get (priority_queue p) j) ;;
  q1 <- defined (arr_set (priority_queue p) i qj) ;;
  q2 <- defined (arr_set q1 j qi) ;;
  modify (set_priority_queue q2).

(** Sift down into the heap; each round moves [idx] to a child, [fuel]
    bounds the rounds. *)
Fixpoint sift_down (fuel : nat) (idx : Z) : M propagate_t unit :=
  match fuel with
  | O => fun _ => Diverge
  | S fuel' =>
      p <- get ;;
      let left := 2 * idx + 1 in
      if left <? priority_count p then
        let right := left + 1 in
        qidx <- defined (arr_get (priority_queue p) idx) ;;
        qleft <- defined (arr_get (priority_queue p) left) ;;
        let min := if qleft <? qidx then left else idx in
        qmin <- defined (arr_get (priority_queue p) min) ;;
        min <-
          (if right <? priority_count p then
             qright <- defined (arr_get (priority_queue p) right) ;;
             ret (if qright <? qmin then right else min)
           else ret min) ;;
        if min =? idx then ret tt
        else swap_queue min idx ;;; sift_down fuel' min
      else ret tt
  end.

(** Sift up into the heap; each round moves [idx] to its parent. *)
Fixpoint sift_up (fuel : nat) (idx : Z) : M propagate_t unit :=
  match fuel with
  | O => fun _ => Diverge
  | S fuel' =>
      if 0 <? idx then
        p <- get ;;
        let parent := (idx - 1) / 2 in
        qidx <- defined (arr_get (priority_queue p) idx) ;;
        qparent <- defined (arr_get (priority_queue p) parent) ;;
        if qidx <? qparent then swap_queue idx parent ;;; sift_up fuel' parent
        else ret tt
      else ret tt
  end.

(** The counter saturates at 2; the value before is returned. *)
Definition plusplus_max2 (i : Z) : M propagate_t Z :=
  p <- get ;;
  rval <- defined (arr_get (node_event_count p) i) ;;
  (if rval <? 2 then
     a <- defined (arr_set (node_event_count p) i (rval + 1)) ;;
     modify (set_node_event_count a)
   else ret tt) ;;;
  ret rval.

Definition priority_add (s : checker) (var : Z) : M propagate_t unit :=
  let index := var_to_index s var in
  old <- plusplus_max2 (index - 1) ;;
  if old =? 0 then
    p <- get ;;
    q <- defined (arr_set (priority_queue p) (priority_count p) var) ;;
    modify (set_priority_queue q) ;;;
    modify (set_priority_count (priority_count p + 1)) ;;;
    sift_up (Z.to_nat (priority_count p + 1)) (priority_count p)
  else ret tt.

(** Returns -1 when the queue is empty. *)
Definition priority_next : M propagate_t Z :=
  p <- get ;;
  if priority_count p =? 0 then ret (-1)
  else
    var <- defined (arr_get (priority_queue p) 0) ;;
    let count := priority_count p - 1 in
    qlast <- defined (arr_get (priority_queue p) count) ;;
    q <- defined (arr_set (priority_queue p) 0 qlast) ;;
    modify (set_priority_queue q) ;;;
    modify (set_priority_count count) ;;;
    sift_down (S (Z.to_nat count)) 0 ;;;
    modify (fun p => set_event_count (event_count p + 1) p) ;;;
    ret var.

Fixpoint priority_add_all (s : checker) (fanouts : list Z) : M propagate_t unit :=
  match fanouts with
  | [] => ret tt
  | v :: r => priority_add s v ;;; priority_add_all s r
  end.

(** Propagate the effect of adding a unit literal. *)
Definition process_fanout (s : checker) (f : fanouts_t) (lit : Z) : M propagate_t unit :=
  let var := IABS lit in
  fanouts <- defined (if lit <? 0 then arr_get (pos_fanouts f) (var - 1)
                      else arr_get (neg_fanouts f) (var - 1)) ;;
  priority_add_all s fanouts.

Fixpoint seed_fanouts (s : checker) (f : fanouts_t) (lits : list Z) : M propagate_t unit :=
  match lits with
  | [] => ret tt
  | lit :: r => process_fanout s f (- lit) ;;; seed_fanouts s f r
  end.

(** The firing threshold of a node of type [type] with [len] children. *)
Definition propagate_threshold (type : node_type_t) (len : Z) : Z :=
  if node_type_eqb type NODE_SUM then len else 1.

(** What one round of the loop of [rup_run_input] does with the node
    [var] it has taken from the queue: it returns the new value of
    [conflict]. *)
Definition visit_node (s : checker) (f : fanouts_t) (var : Z) : M propagate_t bool :=
  let idx := var_to_index s var in
  node <- defined (arr_get (node_list s) (idx - 1)) ;;
  let type := node_type node in
  let id := node_id node in
  let len := zlength (children node) in
  p <- get ;;
  ecount <- defined (arr_get (node_event_count p) (idx - 1)) ;;
  a <- defined (arr_set (node_event_count p) (idx - 1) 0) ;;
  modify (set_node_event_count a) ;;;
  if propagate_threshold type len <=? ecount then
    process_fanout s f (- id) ;;;
    ret (var =? declared_root s)
  else ret false.

(** The loop of [rup_run_input]; [None] when [fuel] rounds do not
    suffice to end it. *)
Fixpoint rup_input_loop (fuel : nat) (s : checker) (f : fanouts_t)
    (p : propagate_t) : option (result propagate_t bool) :=
  match fuel with
  | O => None
  | S fuel' =>
      match priority_next p with
      | Ok var p1 =>
          if 0 <? var then
            match visit_node s f var p1 with
            | Ok conflict p2 =>
                if conflict then Some (Ok true p2)
                else rup_input_loop fuel' s f p2
            | r => Some r
            end
          else Some (Ok false p1)
      | Err e p1 => Some (Err e p1)
      | Undef => Some Undef
      | Diverge => Some Diverge
      end
  end.

Definition rup_run_input (fuel : nat) (s : checker) (f : fanouts_t)
    (tcid : Z) (lits : list Z) (p : propagate_t)
    : option (result propagate_t unit) :=
  match seed_fanouts s f lits p with
  | Ok _ p0 =>
      match rup_input_loop fuel s f p0 with
      | Some (Ok conflict p1) =>
          Some ((reset_propagator ;;;
                 if negb conflict then err_printf (ImplicitDeletionFailed tcid)
                 else ret tt) p1)
      | Some (Err e p1) => Some (Err e p1)
      | Some Undef => Some Undef
      | Some Diverge => Some Diverge
      | None => None
      end
  | Err e p0 => Some (Err e p0)
  | Undef => Some Undef
  | Diverge => Some Diverge
  end.


(** ** Input deletion *)

(** The state of the deletion phase: the checker and one propagator.
    [clause_locate] is called before [clause_delete], which exits when the
    slot holds no clause; [rup_run_input] then reads the literals through
    the pointer, in the state that [clause_delete] has left. *)
Definition implicit_delete_input_clause (fuel : nat) (f : fanouts_t) (cid : Z)
    (loc : clause_location_t) (s : checker) (p : propagate_t)
    : option (result (checker * propagate_t) unit) :=
  match clause_locate loc s with
  | None => Some Undef
  | Some lits =>
      match clause_delete loc s with
      | Ok deleted s1 =>
          if negb deleted then Some (Err (AlreadyDeleted cid) (s1, p))
          else
            match lits with
            | None => Some Undef
            | Some ptr =>
                match clause_lits ptr s1 with
                | None => Some Undef
                | Some lits =>
                    match rup_run_input fuel s1 f cid lits p with
                    | Some (Ok _ p1) =>
                        Some (Ok tt (s1, set_implicit_deletion_count
                                           (implicit_deletion_count p1 + 1) p1))
                    | Some (Err e p1) => Some (Err e (s1, p1))
                    | Some Undef => Some Undef
                    | Some Diverge => Some Diverge
                    | None => None
                    end
                end
            end
      | Err e s1 => Some (Err e (s1, p))
      | Undef => Some Undef
      | Diverge => Some Diverge
      end
  end.

(** The loop of [cpog_delete_range] from the location [loc] on; [dcount]
    counts the deletions.  [None] when [fuel] does not suffice for the
    rounds of the loop or for one of the checks. *)
Fixpoint delete_range_loop (fuel : nat) (f : fanouts_t) (cid_max : Z)
    (loc : clause_location_t) (dcount : Z) (s : checker) (p : propagate_t)
    : option (result (checker * propagate_t) Z) :=
  match fuel with
  | O => None
  | S fuel' =>
      match generate_clause_id loc s with
      | None => Some Undef
      | Some cid =>
          if cid_max <? cid then Some (Ok dcount (s, p))
          else
            let continue dcount s p :=
              match goto_next_clause loc s with
              | Some loc' => delete_range_loop fuel' f cid_max loc' dcount s p
              | None => Some (Ok dcount (s, p))
              end in
            match clause_type loc s with
            | None => Some Undef
            | Some ctype =>
                if clause_type_eqb ctype CLAUSE_INPUT then
                  match implicit_delete_input_clause fuel' f cid loc s p with
                  | Some (Ok _ (s1, p1)) => continue (dcount + 1) s1 p1
                  | Some (Err e sp) => Some (Err e sp)
                  | Some Undef => Some Undef
                  | Some Diverge => Some Diverge
                  | None => None
                  end
                else continue dcount s p
            end
      end
  end.

(** What [update_report] does with the propagator: its two counters have
    been added to the totals of the report and start again from 0. *)
Definition update_report (p : propagate_t) : propagate_t :=
  set_event_count 0 (set_implicit_deletion_count 0 p).

(** Input deletion check for the clauses [cid_min..cid_max]. *)
Definition cpog_delete_range (fuel : nat) (f : fanouts_t) (cid_min cid_max : Z)
    (s : checker) (p : propagate_t)
    : option (result (checker * propagate_t) Z) :=
  match find_clause cid_min s with
  | Some loc =>
      match delete_range_loop fuel f cid_max loc 0 s p with
      | Some (Ok dcount (s', p')) => Some (Ok dcount (s', update_report p'))
      | r => r
      end
  | None => Some (Ok 0 (s, update_report p))
  end.

(** ** Reading the CPOG file *)

Definition starts_with_c (token_last : string) : bool :=
  match token_last with
  | String c _ => Ascii.eqb c "c"%char
  | EmptyString => false
  end.

(** The C string in the buffer [token_last]: the characters before the
    first NUL, which is where [strcmp] stops. *)
Fixpoint c_string (token_last : string) : string :=
  match token_last with
  | EmptyString => EmptyString
  | String c r =>
      if Ascii.eqb c "000"%char then EmptyString else String c (c_string r)
  end.

(** [strcmp(token_last, word) == 0] for a word without NUL. *)
Definition strcmp_eqb (token_last word : string) : bool :=
  String.eqb (c_string token_last) word.

(** The dispatch of [cpog_read] on the command [token_last]. *)
Definition cpog_command (token_last : string) (cid : Z) : M checker unit :=
  if strcmp_eqb token_last "a" then cpog_add_clause cid false
  else if strcmp_eqb token_last "as" then cpog_add_clause cid true
  else if strcmp_eqb token_last "r" then cpog_read_root
  else if strcmp_eqb token_last "d" then cpog_delete_clause
  else if strcmp_eqb token_last "D" then cpog_batch_delete_clauses
  else if strcmp_eqb token_last "p" then cpog_add_product cid
  else if strcmp_eqb token_last "t" then cpog_add_skolem cid
  else if strcmp_eqb token_last "s" then cpog_add_sum cid false
  else if strcmp_eqb token_last "S" then
    s <- get ;;
    if negb (weak_mode (opts s)) then err_printf ParseError
    else cpog_add_sum cid true
  else err_printf ParseError.

(** The loop of [cpog_read]; each round reads at least one token, or
    ends at the end of the file: [fuel] bounds the rounds. *)
Fixpoint cpog_read_loop (fuel : nat) : M checker unit :=
  match fuel with
  | O => fun _ => Diverge
  | S fuel' =>
      token <- token_next ;;
      match token with
      | TOK_EOF => ret tt
      | TOK_EOL => cpog_read_loop fuel'
      | TOK_INT cid =>
          token <- token_next ;;
          match token with
          | TOK_STRING token_last =>
              cpog_command token_last cid ;;; cpog_read_loop fuel'
          | _ => err_printf ParseError
          end
      | TOK_STRING token_last =>
          if starts_with_c token_last then
            token_find_eol ;;; cpog_read_loop fuel'
          else cpog_command token_last 0 ;;; cpog_read_loop fuel'
      | _ => err_printf ParseError
      end
  end.

Definition cpog_read (ts : list token_t) : M checker unit :=
  modify (set_tokens ts) ;;; cpog_read_loop (S (length ts)).


(** ** The value of a POG

    The bottom-up evaluation of the specification, as a function of a
    literal: a literal of an input variable has its weight, or one minus
    it when negated; a product node has the product of the values of its
    children, a sum node their sum, a Skolem node the value one.  [fuel]
    bounds the depth of the POG under the literal. *)

Definition sign_value (lit : Z) (v : q25_ptr) : q25_ptr :=
  if lit <? 0 then (1 - v)%Qc else v.

Fixpoint product_values (vals : list (option q25_ptr)) : option q25_ptr :=
  match vals with
  | [] => Some 1%Qc
  | Some v :: r =>
      match product_values r with Some x => Some (v * x)%Qc | None => None end
  | None :: _ => None
  end.

Fixpoint sum_values (vals : list (option q25_ptr)) : option q25_ptr :=
  match vals with
  | [] => Some 0%Qc
  | Some v :: r =>
      match sum_values r with Some x => Some (v + x)%Qc | None => None end
  | None :: _ => None
  end.

Fixpoint pog_value (fuel : nat) (s : checker) (w : list q25_ptr) (lit : Z)
    : option q25_ptr :=
  match fuel with
  | O => None
  | S fuel' =>
      let var := IABS lit in
      let v :=
        if var <=? input_variable_count (opts s) then arr_get w (var - 1)
        else
          match arr_get (node_list s) (var - input_variable_count (opts s) - 1) with
          | None => None
          | Some node =>
              match node_type node with
              | NODE_PRODUCT =>
                  product_values (map (pog_value fuel' s w) (children node))
              | NODE_SUM =>
                  sum_values (map (pog_value fuel' s w) (children node))
              | NODE_SKOLEM => Some 1%Qc
              | NODE_NONE => None
              end
          end in
      match v with
      | Some v => Some (sign_value lit v)
      | None => None
      end
  end.

(** The number of data variables among the input variables. *)
Definition data_variable_count (s : checker) : Z :=
  zlength (filter (fun b : bool => b = true)
                  (take (Z.to_nat (input_variable_count (opts s)))
                        (show_variables (opts s)))).

(** The exponent of the scaling of the regular count. *)
Definition count_exponent (s : checker) : nat :=
  Z.to_nat (if is_pkc (opts s) then data_variable_count s
            else input_variable_count (opts s)).

(** The conditions under which [ring_evaluate] computes the value of the
    root: the POG is not declared unsatisfiable, the root is a node, every
    id from the first node to the root is a node with a type, the children
    of a product or sum node are literals of input variables or of nodes
    with a smaller id, and in projected mode [show_variables] has a cell
    for every input variable.  [cpog_read] and [cpog_final_root] do not
    ensure them: [gap_cpog] is accepted with the ids 2, 3 and 4 below its
    root left without a node. *)
Definition pog_evaluable (s : checker) : Prop :=
  declared_unsatisfiable s = false /\
  0 <= input_variable_count (opts s) /\
  input_variable_count (opts s) < declared_root s /\
  (is_pkc (opts s) = true ->
   input_variable_count (opts s) <= zlength (show_variables (opts s))) /\
  forall id,
    input_variable_count (opts s) < id <= declared_root s ->
    exists node,
      arr_get (node_list s) (id - input_variable_count (opts s) - 1) = Some node /\
      node_type node <> NODE_NONE /\
      (node_type node <> NODE_SKOLEM ->
       Forall (fun c => c <> 0 /\
                        (IABS c <= input_variable_count (opts s) \/ IABS c < id))
              (children node)).


(** Two states with the same clause store and options: what a derivation
    reads. *)
Definition same_clauses (s s' : checker) : Prop :=
  clause_blocks s = clause_blocks s' /\ chunk_set s = chunk_set s' /\
  opts s = opts s'.

(** The fuel that evaluates the node [id]: its rank among the nodes, and
    one more for the literals of input variables under it. *)
Definition fuel_of (s : checker) (id : Z) : nat :=
  S (Z.to_nat (id - input_variable_count (opts s))).

(** The operation of the ring that a node of type [type] folds over its
    children; the start value of the fold. *)
Definition ring_op (type : node_type_t) (val cval : q25_ptr) : q25_ptr :=
  if node_type_eqb type NODE_PRODUCT then q25_mul val cval else q25_add val cval.

(** The value [ring_evaluate] reads for the child [clit]: its weight or
    the ring value of its node, one minus it for a negative literal. *)
Definition child_value (s : checker) (input_weights : list q25_ptr) (clit : Z)
    : option q25_ptr :=
  let cid := IABS clit in
  match
    (if cid <=? input_variable_count (opts s)
     then arr_get input_weights (cid - 1)
     else match node_find cid s with
          | Some cidx =>
              match arr_get (node_list s) cidx with
              | Some cnp => ring_value cnp
              | None => None
              end
          | None => None
          end)
  with
  | Some cval => Some (if clit <? 0 then q25_one_minus cval else cval)
  | None => None
  end.

(** The state [s] is [s0] with other ring values, those of the nodes below
    [k] being their values for the weights [w]. *)
Definition ring_inv (s0 s : checker) (w : list q25_ptr) (k : Z) : Prop :=
  (exists nl, s = set_node_list nl s0) /\
  length (node_list s) = length (node_list s0) /\
  forall i n0,
    arr_get (node_list s0) i = Some n0 ->
    exists r,
      arr_get (node_list s) i = Some (set_ring_value r n0) /\
      (i + input_variable_count (opts s0) + 1 < k ->
       exists v, r = Some v /\
         pog_value (fuel_of s0 (i + input_variable_count (opts s0) + 1)) s0 w
                   (i + input_variable_count (opts s0) + 1) = Some v).


(** ** A complete example: exclusive or

    The CNF file [p cnf 2 2 / 1 2 0 / -1 -2 0] and a CPOG file for it: the
    root 5 is the sum of the products 3 = 1 * -2 and 4 = -1 * 2. *)

Definition xor_cpog : list token_t :=
  [TOK_STRING "r"; TOK_INT 5; TOK_EOL;
   TOK_INT 3; TOK_STRING "p"; TOK_INT 3; TOK_INT 1; TOK_INT (-2); TOK_INT 0; TOK_EOL;
   TOK_INT 6; TOK_STRING "p"; TOK_INT 4; TOK_INT (-1); TOK_INT 2; TOK_INT 0; TOK_EOL;
   TOK_INT 9; TOK_STRING "s"; TOK_INT 5; TOK_INT 3; TOK_INT 4;
     TOK_INT 4; TOK_INT 7; TOK_INT 0; TOK_EOL;
   TOK_INT 12; TOK_STRING "a"; TOK_INT 3; TOK_INT 4; TOK_INT 1; TOK_INT 0;
     TOK_INT 1; TOK_INT 6; TOK_INT 0; TOK_EOL;
   TOK_INT 13; TOK_STRING "a"; TOK_INT 3; TOK_INT 4; TOK_INT 0;
     TOK_INT 12; TOK_INT 2; TOK_INT 3; TOK_INT 0; TOK_EOL;
   TOK_INT 14; TOK_STRING "a"; TOK_INT 5; TOK_INT 0;
     TOK_INT 10; TOK_INT 11; TOK_INT 13; TOK_INT 0; TOK_EOL]%string.

Definition xor_cnf : option checker := cnf_state 2 [[1; 2]; [-1; -2]].

(** The state after the CPOG file has been read. *)
Definition xor_pog : checker :=
  Eval vm_compute in the_state (state_of (run (cpog_read xor_cpog) xor_cnf)).


(** ** Frames

    A command [c] keeps the part [proj] of the state when that part is
    the same whenever [c] returns or exits. *)

Definition keeps {X A} (proj : checker -> X) (c : M checker A) : Prop :=
  forall s, match c s with
            | Ok _ s' | Err _ s' => proj s' = proj s
            | Undef | Diverge => True
            end.

(** The stored clauses: the payload and the blocks that locate it. *)
Definition clause_store (s : checker) : list (list Z) * list clause_block_t :=
  (chunk_set s, clause_blocks s).

(** The state before the sum command of [xor_cpog], with the rest of
    its line as input. *)
Definition xor_before_sum : checker :=
  Eval vm_compute in
    set_tokens [TOK_INT 5; TOK_INT 3; TOK_INT 4; TOK_INT 4; TOK_INT 7; TOK_INT 0;
                TOK_EOL]
      (the_state (state_of (run (cpog_read (take 17 xor_cpog)) xor_cnf))).

(** ** A product that lists itself

    The CNF file [p cnf 1 1 / 1 0] and the CPOG line [2 p 2 2 1 0]: the
    product 2 has the children 2 and 1. *)

Definition self_child_cpog : list token_t :=
  [TOK_INT 2; TOK_STRING "p"; TOK_INT 2; TOK_INT 2; TOK_INT 1; TOK_INT 0;
   TOK_EOL]%string.

Definition self_child_cnf : option checker := cnf_state 1 [[1]].

(** The state after the line has been read. *)
Definition self_child_pog : checker :=
  Eval vm_compute in
    the_state (state_of (run (cpog_read self_child_cpog) self_child_cnf)).

(** The same product in a complete CPOG file for the CNF file
    [p cnf 1 1 / 1 0]: the root is the product 3 of the literal 1, and
    the unit clause of the root is added. *)
Definition self_loop_cpog : list token_t :=
  [TOK_STRING "r"; TOK_INT 3; TOK_EOL;
   TOK_INT 2; TOK_STRING "p"; TOK_INT 2; TOK_INT 2; TOK_INT 1; TOK_INT 0; TOK_EOL;
   TOK_INT 5; TOK_STRING "p"; TOK_INT 3; TOK_INT 1; TOK_INT 0; TOK_EOL;
   TOK_INT 7; TOK_STRING "a"; TOK_INT 3; TOK_INT 0;
     TOK_INT 5; TOK_INT 1; TOK_INT 0; TOK_EOL]%string.

Definition self_loop_pog : checker :=
  Eval vm_compute in
    the_state (state_of (run (cpog_read self_loop_cpog) self_child_cnf)).

Definition self_loop_fanouts : fanouts_t :=
  Eval vm_compute in
    match build_deletion_structures self_loop_pog with
    | Some f => f
    | None => mk_fanouts [] []
    end.

(** A CPOG file for the CNF file [p cnf 1 1 / 1 0] whose root 5 is the
    product of the literal 1; no node is declared for the ids 2, 3 and 4.
    The unit clause of the root is added and the input clause is deleted
    with hints:
    [r 5 / 2 p 5 1 0 / 4 a 5 0 1 2 0 / d 1 3 4 0]. *)
Definition gap_cpog : list token_t :=
  [TOK_STRING "r"; TOK_INT 5; TOK_EOL;
   TOK_INT 2; TOK_STRING "p"; TOK_INT 5; TOK_INT 1; TOK_INT 0; TOK_EOL;
   TOK_INT 4; TOK_STRING "a"; TOK_INT 5; TOK_INT 0;
     TOK_INT 1; TOK_INT 2; TOK_INT 0; TOK_EOL;
   TOK_STRING "d"; TOK_INT 1; TOK_INT 3; TOK_INT 4; TOK_INT 0; TOK_EOL]%string.

Definition gap_pog : checker :=
  Eval vm_compute in
    the_state (state_of (run (cpog_read gap_cpog) self_child_cnf)).


(** ** The dependency set of a product *)

(** What the child [c] brings to the dependency set of a product, in
    the state [s] in which the command is read: its variable when it is
    a literal of an input variable, the dependency set of the node
    otherwise. *)
Definition child_dependencies (s : checker) (c : Z) : list Z :=
  if IABS c <=? input_variable_count (opts s) then [IABS c]
  else match arr_get (node_list s) (IABS c - input_variable_count (opts s) - 1) with
       | Some n => dependency_list n
       | None => []
       end.

(** The variables of the literal children among [cs]. *)
Fixpoint literal_vars (nvar : Z) (cs : list Z) : list Z :=
  match cs with
  | [] => []
  | c :: r =>
      if IABS c <=? nvar then IABS c :: literal_vars nvar r
      else literal_vars nvar r
  end.

(** The dependency set of the node child [c], in the node list [nl]. *)
Definition node_child_deps (nvar : Z) (nl : list node_t) (c : Z) : list Z :=
  if IABS c <=? nvar then []
  else match arr_get nl (IABS c - nvar - 1) with
       | Some n => dependency_list n
       | None => []
       end.

(** The node lists [nl] and [nl'] differ at the index [idx] only. *)
Definition same_others (idx : Z) (nl nl' : list node_t) : Prop :=
  length nl' = length nl /\
  forall j, j <> idx -> arr_get nl' j = arr_get nl j.

(** ** The run of the reverse implication

    The rounds of the loop of [rup_run_input], and the conditions under
    which the loop is shown to end: the fan-outs lead from a node to
    nodes with larger ids, all within the arrays. *)

(** The nodes in the queue. *)
Definition queued (p : propagate_t) : list Z :=
  take (Z.to_nat (priority_count p)) (priority_queue p).

(** The node [var], taken from the queue in the state [p], fires: its
    event count has reached its threshold. *)
Definition fires (s : checker) (p : propagate_t) (var : Z) : Prop :=
  exists node ecount,
    arr_get (node_list s) (var_to_index s var - 1) = Some node /\
    arr_get (node_event_count p) (var_to_index s var - 1) = Some ecount /\
    propagate_threshold (node_type node) (zlength (children node)) <= ecount.

(** The rounds of the loop that leave [conflict] false. *)
Inductive run_to (s : checker) (f : fanouts_t)
    : propagate_t -> propagate_t -> Prop :=
| run_here p : run_to s f p p
| run_round p var p1 p2 p3 :
    priority_next p = Ok var p1 ->
    0 < var ->
    visit_node s f var p1 = Ok false p2 ->
    run_to s f p2 p3 ->
    run_to s f p p3.

(** The declared root is taken from the queue in some round of the loop
    started in [p], and fires. *)
Definition root_fires (s : checker) (f : fanouts_t) (p : propagate_t) : Prop :=
  exists p1 p2,
    run_to s f p p1 /\
    priority_next p1 = Ok (declared_root s) p2 /\
    0 < declared_root s /\
    fires s p2 (declared_root s).

(** The id [id] is the id of a node within arrays of [n] nodes. *)
Definition node_ok (s : checker) (f : fanouts_t) (n : Z) (id : Z) : bool :=
  let nvar := input_variable_count (opts s) in
  (nvar <? id) && (id <=? nvar + n) && (id <=? zlength (pos_fanouts f)) &&
  match arr_get (node_list s) (id - nvar - 1) with
  | Some node => node_id node =? id
  | None => false
  end.

(** The fan-outs [ls] of the variables from [var] on hold ids of nodes
    that are larger than the variable. *)
Fixpoint fanouts_upward (ok : Z -> bool) (var : Z) (ls : list (list Z)) : bool :=
  match ls with
  | [] => true
  | l :: r =>
      forallb (fun id => (var <? id) && ok id) l &&
      fanouts_upward ok (var + 1) r
  end.

Definition fanouts_ok (s : checker) (f : fanouts_t) (n : Z) : bool :=
  let nvar := input_variable_count (opts s) in
  (0 <=? nvar) && (nvar <=? zlength (neg_fanouts f)) &&
  (nvar <=? zlength (pos_fanouts f)) &&
  forallb (forallb (node_ok s f n)) (neg_fanouts f) &&
  fanouts_upward (node_ok s f n) 1 (pos_fanouts f).

(** The queue holds ids of nodes, each once, and the event count of a
    node in the queue is not zero. *)
Definition prop_ok (s : checker) (f : fanouts_t) (p : propagate_t) : Prop :=
  let nvar := input_variable_count (opts s) in
  let n := zlength (node_event_count p) in
  zlength (priority_queue p) = n /\
  0 <= priority_count p <= n /\
  NoDup (queued p) /\
  Forall (fun id => node_ok s f n id = true /\
            exists c, arr_get (node_event_count p) (id - nvar - 1) = Some c /\
                      1 <= c)
         (queued p).

(** A bound on the rounds that a node in the queue can cause: one for
    the node and those of its fan-out; [h] bounds the length of the
    chains of fan-outs. *)
Definition fanout_of (f : fanouts_t) (x : Z) : list Z :=
  match arr_get (pos_fanouts f) (x - 1) with
  | Some l => l
  | None => []
  end.

Fixpoint rounds (f : fanouts_t) (h : nat) (x : Z) : nat :=
  match h with
  | O => 1
  | S h' => S (sum_list_with (rounds f h') (fanout_of f x))
  end.

Definition weight (f : fanouts_t) (x : Z) : nat :=
  rounds f (Z.to_nat (zlength (pos_fanouts f) - x)) x.

Definition rounds_left (f : fanouts_t) (p : propagate_t) : nat :=
  sum_list_with (weight f) (queued p).

(** The literals of an input clause. *)
Definition input_literals (s : checker) (lits : list Z) : Prop :=
  Forall (fun lit => 1 <= IABS lit <= input_variable_count (opts s)) lits.


(** The queue holds the same nodes, the event counts are the same. *)
Definition same_queue (p p' : propagate_t) : Prop :=
  node_event_count p' = node_event_count p /\
  priority_count p' = priority_count p /\
  zlength (priority_queue p') = zlength (priority_queue p) /\
  Permutation (queued p') (queued p).

(** The command [c] does not exit with an error. *)
Definition no_exit {A} (c : M propagate_t A) : Prop :=
  forall p e p', c p <> Err e p'.

(** The fan-outs of [xor_pog]. *)
Definition xor_fanouts : fanouts_t :=
  Eval vm_compute in
    match build_deletion_structures xor_pog with
    | Some f => f
    | None => mk_fanouts [] []
    end.


(** ** The entries of the literal set

    No entry of [lset_array] exceeds the generation in absolute value:
    [lset_init] and [lset_check_size] store zeros, and [lset_add_lit] the
    generation or its opposite.  This is what makes the increment of
    [lset_clear] empty the set. *)
Definition lset_bounded (s : lset_t) : Prop :=
  Forall (fun g => - lset_generation s <= g <= lset_generation s)
         (lset_array s).


(** ** The order of the blocks

    The blocks hold ranges of ids that ascend from block to block:
    [start_clause] opens a block for an id above [clause_last_id] and
    lengthens the last block only. *)
Definition blocks_sorted (bs : list clause_block_t) : Prop :=
  Forall (fun b => 0 <= blk_length b) bs /\
  forall i j bi bj,
    i < j -> arr_get bs i = Some bi -> arr_get bs j = Some bj ->
    start_id bi + blk_length bi <= start_id bj.

(** The slot [loc] is the one of the clause id [cid]. *)
Definition slot_of (cid : Z) (loc : clause_location_t) (s : checker) : Prop :=
  exists b, arr_get (clause_blocks s) (bid loc) = Some b /\
            0 <= pos loc < blk_length b /\ start_id b + pos loc = cid.


(** ** The clause store between two commands

    The lists of a block have the length of the block; the last block ends
    with the last id; there is a chunk; and every stored clause has its
    terminating 0 in the part of its chunk that has been written. *)
Definition block_wf (b : clause_block_t) : Prop :=
  zlength (blk_chunk b) = blk_length b /\
  zlength (blk_offset b) = blk_length b /\
  zlength (blk_type b) = blk_length b.

Definition clause_terminated (s : checker) (p : clause_ptr) : Prop :=
  exists c, arr_get (chunk_set s) (fst p) = Some c /\
            In 0 (drop (Z.to_nat (snd p)) c).

Definition store_ok (s : checker) : Prop :=
  blocks_sorted (clause_blocks s) /\
  Forall block_wf (clause_blocks s) /\
  (exists b, arr_get (clause_blocks s) (clause_block_count s - 1) = Some b /\
             start_id b + blk_length b = clause_last_id s + 1) /\
  1 <= chunk_count s /\
  (forall loc p, clause_locate loc s = Some (Some p) -> clause_terminated s p).

(** A literal that [clause_add_literal] accepts. *)
Definition var_in_range (s : checker) (lit : Z) : Prop :=
  IABS lit <= input_variable_count (opts s) \/ IABS lit <= variable_limit s.

(** The block with one more slot, as [finish_clause] leaves it. *)
Definition with_slot (k off : Z) (type : clause_type_t) (b : clause_block_t)
    : clause_block_t :=
  mk_block (start_id b) (blk_length b + 1)
           (blk_chunk b ++ [k]) (blk_offset b ++ [off]) (blk_type b ++ [type]).

(** The slots of [b] are those of [b'] at the same positions. *)
Definition block_extends (b b' : clause_block_t) : Prop :=
  start_id b' = start_id b /\ blk_length b <= blk_length b' /\
  forall p, 0 <= p < blk_length b ->
    arr_get (blk_chunk b') p = arr_get (blk_chunk b) p /\
    arr_get (blk_offset b') p = arr_get (blk_offset b) p /\
    arr_get (blk_type b') p = arr_get (blk_type b) p.

Definition blocks_extend (bs bs' : list clause_block_t) : Prop :=
  forall i b, arr_get bs i = Some b ->
    exists b', arr_get bs' i = Some b' /\ block_extends b b'.

(** The chunks are those of before, with ints written behind. *)
Definition chunks_extend (cs cs' : list (list Z)) : Prop :=
  forall i c, arr_get cs i = Some c -> exists ext, arr_get cs' i = Some (c ++ ext).


(** ** Reading characters

    The file being read is the list of the characters left in it; [fgetc]
    takes the first one and returns [EOF] on the empty list, [ungetc] puts
    the character back.  The constants of the C enumeration [token_t] are
    written [T_INT], ... here, the names [TOK_INT], ... standing for the
    tokens with their text or value.  The sum [10 * mag + (c - '0')] is an
    [int] computation: beyond [INT_MAX] it has no defined behaviour, and
    [token_next] is [None]. *)

Module Lexer.

Definition TOKEN_MAX : Z := 100.

Definition char_code (c : ascii) : Z := Z.of_N (N_of_ascii c).

(** [isspace] and [isdigit] in the C locale. *)
Definition isspace (c : ascii) : bool :=
  (char_code c =? 32) || ((9 <=? char_code c) && (char_code c <=? 13)).
Definition isdigit (c : ascii) : bool :=
  (48 <=? char_code c) && (char_code c <=? 57).

Definition newline : ascii := "010"%char.

Inductive ttype_t :=
| T_INT | T_STRING | T_STAR | T_EOF | T_EOL | T_NONE | T_UNKNOWN.

Definition ttype_eqb (a b : ttype_t) : bool :=
  match a, b with
  | T_INT, T_INT | T_STRING, T_STRING | T_STAR, T_STAR | T_EOF, T_EOF
  | T_EOL, T_EOL | T_NONE, T_NONE | T_UNKNOWN, T_UNKNOWN => true
  | _, _ => false
  end.

(** What [token_next] leaves: its result and the globals [token_last]
    (up to its terminating NUL) and [token_value]. *)
Record lexeme := mk_lexeme {
  lex_type : ttype_t;
  lex_last : list ascii;
  lex_value : Z
}.

Fixpoint skip_space (cs : list ascii) : bool * list ascii :=
  match cs with
  | [] => (false, [])
  | c :: r =>
      if Ascii.eqb c newline then (false, r)
      else if isspace c then skip_space r
      else (true, cs)
  end.

(** The locals [sign], [mag] and [ttype] of [token_next] and the globals
    it writes; [token_pos] is the length of [token_last]. *)
Record scan_t := mk_scan {
  sign : Z;
  mag : Z;
  ttype : ttype_t;
  token_last : list ascii;
  token_value : Z
}.

Definition token_pos (st : scan_t) : Z := zlength (token_last st).

Definition set_ttype (t : ttype_t) (st : scan_t) : scan_t :=
  mk_scan (sign st) (mag st) t (token_last st) (token_value st).

(** [token_last[token_pos++] = c; token_last[token_pos] = 0]: outside of
    the array when [token_pos] is [TOKEN_MAX - 1] or more. *)
Definition push_char (c : ascii) (st : scan_t) : option scan_t :=
  if TOKEN_MAX - 1 <=? token_pos st then None
  else Some (mk_scan (sign st) (mag st) (ttype st) (token_last st ++ [c])
                     (token_value st)).

(** The first loop of [token_next]: white space is skipped; [Some] is the
    type found with [done] set. *)
Fixpoint token_skip (cs : list ascii) : option ttype_t * list ascii :=
  match cs with
  | [] => (Some T_EOF, [])
  | c :: r =>
      if Ascii.eqb c newline then (Some T_EOL, r)
      else if negb (isspace c) then (None, cs)
      else token_skip r
  end.

(** One round of the second loop of [token_next] for the character [c]
    read ([None] is [EOF]): the locals after it, the flag [done], and
    whether [c] is put back. *)
Definition token_step (st : scan_t) (c : option ascii)
    : option (scan_t * bool * bool) :=
  let done := TOKEN_MAX - 1 <=? token_pos st in
  let st := if done then set_ttype T_UNKNOWN st else st in
  match c with
  | None => Some (st, true, false)
  | Some c =>
      if Ascii.eqb c "-" then
        if negb (ttype_eqb (ttype st) T_NONE)
        then Some (set_ttype T_UNKNOWN st, true, false)
        else
          match push_char c (mk_scan (- sign st) (mag st) T_INT
                               (token_last st) (token_value st)) with
          | Some st' => Some (st', done, false)
          | None => None
          end
      else if isdigit c then
        if negb (ttype_eqb (ttype st) T_NONE)
           && negb (ttype_eqb (ttype st) T_INT)
        then Some (set_ttype T_UNKNOWN st, true, false)
        else
          let mag' := 10 * mag st + (char_code c - 48) in
          if INT_MAX <? mag' then None
          else
            match push_char c (mk_scan (sign st) mag' T_INT
                                 (token_last st) (token_value st)) with
            | Some st' =>
                Some (mk_scan (sign st') (mag st') (ttype st')
                        (token_last st') (sign st' * mag st'), done, false)
            | None => None
            end
      else if isspace c then Some (st, true, Ascii.eqb c newline)
      else if Ascii.eqb c "*" then
        if negb (ttype_eqb (ttype st) T_NONE)
        then Some (set_ttype T_UNKNOWN st, true, false)
        else
          match push_char c st with
          | Some st' => Some (set_ttype T_STAR st', done, false)
          | None => None
          end
      else
        if negb (ttype_eqb (ttype st) T_NONE)
           && negb (ttype_eqb (ttype st) T_STRING)
        then Some (set_ttype T_UNKNOWN st, true, false)
        else
          match push_char c (set_ttype T_STRING st) with
          | Some st' => Some (st', done, false)
          | None => None
          end
  end.

Definition lexeme_of (st : scan_t) : lexeme :=
  mk_lexeme (ttype st) (token_last st) (token_value st).

(** The second loop of [token_next]. *)
Fixpoint token_scan (cs : list ascii) (st : scan_t)
    : option (lexeme * list ascii) :=
  match cs with
  | [] =>
      match token_step st None with
      | Some (st', _, _) => Some (lexeme_of st', [])
      | None => None
      end
  | c :: r =>
      match token_step st (Some c) with
      | Some (st', done, unget) =>
          if done then Some (lexeme_of st', if unget then c :: r else r)
          else token_scan r st'
      | None => None
      end
  end.

Definition token_next (cs : list ascii) : option (lexeme * list ascii) :=
  match token_skip cs with
  | (Some t, rest) => Some (mk_lexeme t [] 0, rest)
  | (None, rest) => token_scan rest (mk_scan 1 0 T_NONE [] 0)
  end.

Fixpoint token_find_eol (cs : list ascii) : list ascii :=
  match cs with
  | [] => []
  | c :: r => if Ascii.eqb c newline then r else token_find_eol r
  end.

(** The token of the token stream for what [token_next] has read. *)
Definition to_token (l : lexeme) : token_t :=
  match lex_type l with
  | T_INT => TOK_INT (lex_value l)
  | T_STRING => TOK_STRING (string_of_list_ascii (lex_last l))
  | T_STAR => TOK_STAR
  | T_EOF => TOK_EOF
  | T_EOL => TOK_EOL
  | T_NONE => TOK_NONE
  | T_UNKNOWN => TOK_UNKNOWN
  end.

(** The tokens of a file, up to its end; each call of [token_next] takes
    a character at least, so that the length of the file bounds the
    number of calls. *)
Fixpoint tokens_from (fuel : nat) (cs : list ascii) : option (list token_t) :=
  match fuel with
  | O => None
  | S fuel' =>
      match token_next cs with
      | None => None
      | Some (l, rest) =>
          match lex_type l with
          | T_EOF => Some []
          | _ =>
              match tokens_from fuel' rest with
              | Some ts => Some (to_token l :: ts)
              | None => None
              end
          end
      end
  end.

Definition tokenize (cs : list ascii) : option (list token_t) :=
  tokens_from (S (length cs)) cs.

(** The decimal numeral of an [int], as [printf] writes it. *)
Definition decimal (n : Z) : list ascii :=
  list_ascii_of_string (DecimalString.NilZero.string_of_int (Z.to_int n)).

(** The value of a run of digits, the way [token_next] sums it up from
    [m]. *)
Definition digits_value (m : Z) (ds : list ascii) : Z :=
  fold_left (fun m c => 10 * m + (char_code c - 48)) ds m.

(** What is left of the file behind a token that [rest] ends: the white
    space character is taken, except for the newline. *)
Definition after_token (rest : list ascii) : list ascii :=
  match rest with
  | [] => []
  | c :: r => if Ascii.eqb c newline then rest else r
  end.

Definition ends_token (rest : list ascii) : Prop :=
  match rest with
  | [] => True
  | c :: _ => isspace c = true
  end.

End Lexer.


(** ** The heap order of the queue

    The entry [i] of the queue has its parent at [(i - 1) / 2]; in heap
    order no entry is below its parent. *)
Definition queue_at (p : propagate_t) (i : Z) : Z :=
  match arr_get (priority_queue p) i with
  | Some x => x
  | None => 0
  end.

Definition heap_ok (p : propagate_t) : Prop :=
  forall i, 0 < i < priority_count p ->
    queue_at p ((i - 1) / 2) <= queue_at p i.

(** Heap order but for the entry [idx], which may be below its parent:
    what [sift_up] starts from. *)
Definition heap_but_up (idx : Z) (p : propagate_t) : Prop :=
  (forall i, 0 < i < priority_count p -> i <> idx ->
     queue_at p ((i - 1) / 2) <= queue_at p i) /\
  (forall i, 0 < i < priority_count p -> (i - 1) / 2 = idx -> 0 < idx ->
     queue_at p ((idx - 1) / 2) <= queue_at p i).

(** Heap order but for the entry [idx], which may be above its children:
    what [sift_down] starts from. *)
Definition heap_but_down (idx : Z) (p : propagate_t) : Prop :=
  (forall i, 0 < i < priority_count p -> (i - 1) / 2 <> idx ->
     queue_at p ((i - 1) / 2) <= queue_at p i) /\
  (forall i, 0 < i < priority_count p -> (i - 1) / 2 = idx -> 0 < idx ->
     queue_at p ((idx - 1) / 2) <= queue_at p i).


(** ** The fan-out of a literal

    The list [neg_fanouts[k]] or [pos_fanouts[k]]; no node beyond the
    array. *)
Definition fanout_at (l : list (list Z)) (k : Z) : list Z :=
  match arr_get l k with
  | Some x => x
  | None => []
  end.

(** The node [id] is among the first [node_count] entries of [node_list],
    has a type and lists the literal [lit] as a child. *)
Definition counted_parent (s : checker) (lit id : Z) : Prop :=
  exists idx node,
    0 <= idx < node_count s /\
    arr_get (node_list s) idx = Some node /\
    node_type node <> NODE_NONE /\
    node_id node = id /\
    In lit (children node).


(** ** The node array between two commands

    The entry at index [idx] carries the id [idx + input_variable_count + 1],
    and [variable_limit] is the last id of the array. *)
Definition nodes_ok (s : checker) : Prop :=
  (forall idx n, arr_get (node_list s) idx = Some n ->
                 node_id n = idx + input_variable_count (opts s) + 1) /\
  variable_limit s = node_asize s + input_variable_count (opts s).


(** ** Deletion changes types only

    The block [b'] is [b] with other types; the state [s'] has the
    payload of [s] and its blocks with other types. *)
Definition retyped_block (b b' : clause_block_t) : Prop :=
  start_id b' = start_id b /\ blk_length b' = blk_length b /\
  blk_chunk b' = blk_chunk b /\ blk_offset b' = blk_offset b.

Definition retyped (s s' : checker) : Prop :=
  chunk_set s' = chunk_set s /\
  opts s' = opts s /\ variable_limit s' = variable_limit s /\
  length (clause_blocks s') = length (clause_blocks s) /\
  forall i b, arr_get (clause_blocks s) i = Some b ->
    exists b', arr_get (clause_blocks s') i = Some b' /\ retyped_block b b'.


(** Every block but the first holds a slot: [finish_clause] fills the
    block that [start_clause] opens. *)
Definition later_blocks_filled (s : checker) : Prop :=
  forall i b, 0 < i -> arr_get (clause_blocks s) i = Some b -> 0 < blk_length b.


(** ** Clauses found in the store

    The clause [cid] is stored in [s] with the type [type] and the
    literals [lits]; the clauses of [s] are in [s'] as they are in [s]. *)
Definition stored (s : checker) (cid : Z) (type : clause_type_t) (lits : list Z)
    : Prop :=
  exists loc, find_clause cid s = Some loc /\
              clause_type loc s = Some type /\ lits_at loc s = Some lits.

Definition clauses_kept (s s' : checker) : Prop :=
  forall cid loc, find_clause cid s = Some loc ->
    find_clause cid s' = Some loc /\
    clause_type loc s' = clause_type loc s /\
    lits_at loc s' = lits_at loc s.


(** ** The input clauses that the deletion loop checks *)

(** The two states hold the same POG: what the check of a clause reads. *)
Definition same_pog (s s' : checker) : Prop :=
  node_list s' = node_list s /\ opts s' = opts s /\
  declared_root s' = declared_root s.

(** The literals of the clause [cid] when it is an input clause of [s]
    that has not been deleted. *)
Definition input_clause_at (s : checker) (cid : Z) : option (list Z) :=
  match find_clause cid s with
  | Some loc =>
      match clause_type loc s with
      | Some CLAUSE_INPUT => lits_at loc s
      | _ => None
      end
  | None => None
  end.

(** The input clauses of [s] with the ids from [cid_min] to [cid_max],
    by ascending id, each with its literals. *)
Definition input_clauses_in (s : checker) (cid_min cid_max : Z)
    : list (Z * list Z) :=
  omap (fun cid => match input_clause_at s cid with
                   | Some lits => Some (cid, lits)
                   | None => None
                   end)
       (seqZ cid_min (cid_max - cid_min + 1)).

(** Every slot with the type of an input clause holds a clause over the
    input variables. *)
Definition input_clauses_ok (s : checker) : Prop :=
  forall loc, clause_type loc s = Some CLAUSE_INPUT ->
    exists lits, lits_at loc s = Some lits /\ input_literals s lits.

(** The propagator after the check of a clause that has returned in
    [p1]. *)
Definition deletion_counted (p1 : propagate_t) : propagate_t :=
  set_implicit_deletion_count (implicit_deletion_count p1 + 1) p1.

(** The clauses [cls] are checked one after the other, the first from the
    propagator [p] and each from the propagator that the check before it
    has left; the declared root fires in every one of the checks, and the
    last leaves [p']. *)
Inductive checked (s : checker) (f : fanouts_t)
    : list (Z * list Z) -> propagate_t -> propagate_t -> Prop :=
| checked_nil p : checked s f [] p p
| checked_cons cid lits cls p p0 p1 p' :
    seed_fanouts s f lits p = Ok tt p0 ->
    root_fires s f p0 ->
    (exists fuel, rup_run_input fuel s f cid lits p = Some (Ok tt p1)) ->
    checked s f cls (deletion_counted p1) p' ->
    checked s f ((cid, lits) :: cls) p p'.

(** The store and the POG as the deletion loop needs them, [s0] being the
    state in which the loop has started: the POG is that of [s0], the
    blocks ascend, each has its three lists to its length, every block but
    the first holds a slot, and the input clauses are over the input
    variables. *)
Definition range_inv (s0 s : checker) : Prop :=
  same_pog s0 s /\
  blocks_sorted (clause_blocks s) /\
  later_blocks_filled s /\
  Forall block_wf (clause_blocks s) /\
  input_clauses_ok s.

(** What the loop of [cpog_delete_range] returns for the clauses [cls],
    from the propagator [p] with [dcount] clauses counted: either every
    check has returned, or the check of one of the clauses has exited,
    the root not firing, those before it having returned. *)
Definition range_checked (s0 : checker) (f : fanouts_t) (cls : list (Z * list Z))
    (s : checker) (p : propagate_t) (dcount : Z)
    (r : result (checker * propagate_t) Z) : Prop :=
  (exists s' p',
     r = Ok (dcount + zlength cls) (s', p') /\
     checked s0 f cls p p' /\
     retyped s s' /\
     prop_ok s0 f p' /\
     zlength (node_event_count p') = zlength (node_event_count p)) \/
  (exists pre cid lits post pc p0 s' p',
     cls = pre ++ (cid, lits) :: post /\
     checked s0 f pre p pc /\
     seed_fanouts s0 f lits pc = Ok tt p0 /\
     ~ root_fires s0 f p0 /\
     r = Err (ImplicitDeletionFailed cid) (s', p')).

(** The POG is in the order of its construction: the node at the index
    [idx] has the id [idx + input_variable_count + 1], no node lies
    beyond the declared root, and every child of a node is a literal
    below the id of the node. *)
Definition pog_ordered (s : checker) : Prop :=
  0 <= input_variable_count (opts s) <= declared_root s /\
  forall idx node,
    0 <= idx < node_count s ->
    arr_get (node_list s) idx = Some node ->
    node_type node <> NODE_NONE ->
    node_id node = idx + input_variable_count (opts s) + 1 /\
    node_id node <= declared_root s /\
    Forall (fun c => c < node_id node) (children node).


(** ** Reading the clauses of the CNF file *)

Definition set_opts (x : options_t) (s : checker) : checker :=
  mk_checker x (lset s) (chunk_set s) (clause_count s) (clause_last_id s)
    (current_clause s) (clause_blocks s) (variable_limit s) (node_list s)
    (node_count s) (declared_root s) (root_clause_added s)
    (declared_unsatisfiable s) (proved_unsatisfiable s)
    (explicit_deletion_count s) (virtual_clause_count s) (tokens s).

Definition set_is_pkc (x : bool) (o : options_t) : options_t :=
  mk_options (check_add o) (check_delete o) (weak_mode o)
    (use_explicit_deletion o) (repeated_literal_ok o) x (show_variables o)
    (early_rup o) (skipping_rup o) (input_clause_count o)
    (input_variable_count o).

Definition set_show_variables (x : list bool) (o : options_t) : options_t :=
  mk_options (check_add o) (check_delete o) (weak_mode o)
    (use_explicit_deletion o) (repeated_literal_ok o) (is_pkc o) x
    (early_rup o) (skipping_rup o) (input_clause_count o)
    (input_variable_count o).

(** The loop of [process_comment] over the show variables, [ts] being
    the tokens left.  [show_variables_size] is the length of
    [show_variables]; the loop is entered with one cell for each input
    variable, so that a variable beyond the cells is an error. *)
Fixpoint show_variables_loop (ts : list token_t) : M checker unit :=
  match ts with
  | TOK_INT v :: r =>
      modify (set_tokens r) ;;;
      if v =? 0 then ret tt
      else if v <=? 0 then err_printf ParseError
      else
        s <- get ;;
        if zlength (show_variables (opts s)) <? v then
          if 0 <? input_variable_count (opts s) then err_printf ParseError
          else undef
        else
          cells <- defined (arr_set (show_variables (opts s)) (v - 1) true) ;;
          modify (set_opts (set_show_variables cells (opts s))) ;;;
          show_variables_loop r
  | [] => err_printf ParseError
  | _ :: r => modify (set_tokens r) ;;; err_printf ParseError
  end.

(** Look for a [pmc] or [pwmc] declaration; parse the list of the show
    variables.  The call of [calloc] for no cell, or for a negative
    number of cells, is left undefined: its result depends on the C
    library. *)
Definition process_comment : M checker unit :=
  token <- token_next ;;
  match token with
  | TOK_STRING token_last =>
      s <- get ;;
      if strcmp_eqb token_last "t" then
        token <- token_next ;;
        match token with
        | TOK_STRING token_last =>
            (if strcmp_eqb token_last "pmc" || strcmp_eqb token_last "pwmc"
             then modify (fun s => set_opts (set_is_pkc true (opts s)) s)
             else ret tt) ;;;
            token_find_eol
        | TOK_EOL => ret tt
        | _ => token_find_eol
        end
      else if is_pkc (opts s) && strcmp_eqb token_last "p" then
        token <- token_next ;;
        match token with
        | TOK_STRING token_last =>
            if strcmp_eqb token_last "show" then
              if input_variable_count (opts s) <=? 0 then undef
              else
                modify (fun s =>
                  set_opts (set_show_variables
                              (replicate (Z.to_nat (input_variable_count (opts s)))
                                         false)
                              (opts s)) s) ;;;
                s <- get ;;
                show_variables_loop (tokens s) ;;;
                token_find_eol
            else token_find_eol
        | TOK_EOL => ret tt
        | _ => token_find_eol
        end
      else token_find_eol
  | TOK_EOL => ret tt
  | _ => token_find_eol
  end.

(** The clause loop of [cnf_read], from the token after the header line
    on; it returns [found_clause_count].  Each round reads at least one
    token, or ends at the end of the file: [fuel] bounds the rounds.  The
    variable [last_literal] of the source is written and never read.
    Nothing tells at the end of the file whether a clause has been left
    unterminated. *)
Fixpoint cnf_read_loop (fuel : nat) (found_clause_count : Z) (within_clause : bool)
    : M checker Z :=
  match fuel with
  | O => fun _ => Diverge
  | S fuel' =>
      token <- token_next ;;
      match token with
      | TOK_EOF => ret found_clause_count
      | TOK_EOL => cnf_read_loop fuel' found_clause_count within_clause
      | TOK_STRING token_last =>
          if starts_with_c token_last then
            process_comment ;;;
            cnf_read_loop fuel' found_clause_count within_clause
          else err_printf ParseError
      | TOK_INT token_value =>
          (if negb within_clause
           then start_clause (int_wrap (found_clause_count + 1))
           else ret tt) ;;;
          clause_add_literal token_value ;;;
          if token_value =? 0 then
            let found_clause_count := int_wrap (found_clause_count + 1) in
            finish_clause found_clause_count CLAUSE_INPUT ;;;
            cnf_read_loop fuel' found_clause_count false
          else cnf_read_loop fuel' found_clause_count true
      | _ => err_printf ParseError
      end
  end.

(** The part of [cnf_read] behind the header line, for the tokens [ts]
    of the rest of the file: the clause loop and the check of the number
    of clauses.  The default of the show variables in projected mode,
    which follows in the source, is not part of it. *)
Definition cnf_read_clause_lines (ts : list token_t) : M checker unit :=
  modify (set_tokens ts) ;;;
  found_clause_count <- cnf_read_loop (S (length ts)) 0 false ;;
  s <- get ;;
  if negb (found_clause_count =? input_clause_count (opts s))
  then err_printf ParseError
  else ret tt.

(** The tokens of a file that holds integers and line ends only, and the
    integers among them. *)
Definition int_or_eol (t : token_t) : Prop :=
  match t with
  | TOK_INT _ | TOK_EOL => True
  | _ => False
  end.

Definition ints_of (ts : list token_t) : list Z :=
  omap (fun t => match t with TOK_INT v => Some v | _ => None end) ts.

(** What the clause loop does with the integers [ints] of the file, in
    their order. *)
Fixpoint cnf_read_ints (ints : list Z) (found_clause_count : Z)
    (within_clause : bool) : M checker Z :=
  match ints with
  | [] => ret found_clause_count
  | token_value :: r =>
      (if negb within_clause
       then start_clause (int_wrap (found_clause_count + 1))
       else ret tt) ;;;
      clause_add_literal token_value ;;;
      if token_value =? 0 then
        let found_clause_count := int_wrap (found_clause_count + 1) in
        finish_clause found_clause_count CLAUSE_INPUT ;;;
        cnf_read_ints r found_clause_count false
      else cnf_read_ints r found_clause_count true
  end.

(** The outcome [r'] is the outcome [r] of a command that has also read
    the tokens: all of them when it returns, some of them when it
    exits. *)
Definition same_outcome {A} (r r' : result checker A) : Prop :=
  match r, r' with
  | Ok a s, Ok a' s' => a = a' /\ s' = set_tokens [] s
  | Err e s, Err e' s' => e = e' /\ exists ts, s' = set_tokens ts s
  | Undef, Undef | Diverge, Diverge => True
  | _, _ => False
  end.

(** The integers of a CNF file with the clauses [clauses], each with its
    terminating 0, and the literals [tail] of a clause left without one. *)
Definition clause_ints (clauses : list (list Z)) (tail : list Z) : list Z :=
  concat (map (fun c => c ++ [0]) clauses) ++ tail.


(** * Properties *)

Lemma IABS_abs x : IABS x = Z.abs x.
Proof. unfold IABS. destruct (Z.ltb_spec x 0); lia. Qed.

Lemma arr_get_set_eq {A} (l l' : list A) i x :
  arr_set l i x = Some l' -> arr_get l' i = Some x.
Proof.
  unfold arr_set, arr_get. intros H.
  destruct (Z.ltb_spec i 0); simpl in H; [discriminate|].
  destruct (Z.leb_spec (Z.of_nat (length l)) i); [discriminate|].
  injection H as <-. apply list_lookup_insert_eq. lia.
Qed.

Lemma arr_get_set_ne {A} (l l' : list A) i j x :
  arr_set l i x = Some l' -> i <> j -> arr_get l' j = arr_get l j.
Proof.
  unfold arr_set, arr_get. intros H Hne.
  destruct (Z.ltb_spec i 0); simpl in H; [discriminate|].
  destruct (Z.leb_spec (Z.of_nat (length l)) i); [discriminate|].
  injection H as <-. destruct (Z.ltb_spec j 0); [reflexivity|].
  apply list_lookup_insert_ne. lia.
Qed.

Lemma arr_set_length {A} (l l' : list A) i x :
  arr_set l i x = Some l' -> length l' = length l.
Proof.
  unfold arr_set. intros H.
  destruct ((i <? 0) || (Z.of_nat (length l) <=? i)); [discriminate|].
  injection H as <-. apply length_insert.
Qed.

Lemma arr_set_in_range {A} (l : list A) i x :
  0 <= i < zlength l -> exists l', arr_set l i x = Some l'.
Proof.
  unfold arr_set, zlength. intros [H0 H1].
  destruct (Z.ltb_spec i 0); [lia|].
  destruct (Z.leb_spec (Z.of_nat (length l)) i); [lia|]. simpl. eauto.
Qed.

Lemma arr_get_replicate {A} n (x y : A) i :
  arr_get (replicate n x) i = Some y -> y = x.
Proof.
  unfold arr_get. destruct (i <? 0); [discriminate|].
  intros H. apply lookup_replicate in H. tauto.
Qed.

Lemma arr_get_app_zeros (l : list Z) n i :
  match arr_get (l ++ replicate n 0) i with
  | Some g => arr_get l i = Some g \/ (arr_get l i = None /\ g = 0)
  | None => arr_get l i = None
  end.
Proof.
  unfold arr_get. destruct (i <? 0); [reflexivity|].
  destruct (decide (Z.to_nat i < length l)%nat) as [Hlt|Hge].
  - rewrite lookup_app_l by assumption.
    destruct (l !! Z.to_nat i); auto.
  - rewrite lookup_app_r by lia.
    rewrite (lookup_ge_None_2 l) by lia.
    destruct (replicate n 0 !! _) eqn:E; [|reflexivity].
    apply lookup_replicate in E. right. tauto.
Qed.


(** ** The literal set *)

Section LsetFacts.

Implicit Types (s : lset_t) (var lit : Z).

Lemma lset_asize_nonneg s : 0 <= lset_asize s.
Proof. unfold lset_asize, zlength. lia. Qed.

Lemma lset_check_size_covers var s : var <= lset_asize (lset_check_size var s).
Proof.
  unfold lset_check_size.
  destruct (Z.leb_spec var (lset_asize s)); [assumption|].
  destruct (Z.eqb_spec (lset_asize s) 0).
  - unfold lset_init, lset_asize, zlength, MIN_SIZE; simpl.
    rewrite length_replicate. destruct (Z.ltb_spec 10 var); lia.
  - unfold lset_asize, zlength in *; simpl. rewrite length_app, length_replicate.
    destruct (Z.ltb_spec (grow (Z.of_nat (length (lset_array s)))) var); lia.
Qed.

Lemma lset_check_size_ok var s : lset_ok s -> lset_ok (lset_check_size var s).
Proof.
  intros Hok. unfold lset_check_size.
  destruct (var <=? lset_asize s); [assumption|].
  destruct (Z.eqb_spec (lset_asize s) 0).
  - left. unfold INT_MAX. simpl. lia.
  - destruct Hok as [Hg|[Hnil _]].
    + left. exact Hg.
    + unfold lset_asize, zlength in n. rewrite Hnil in n. simpl in n. lia.
Qed.

Lemma lset_check_size_generation var s :
  lset_ok s -> 1 <= var -> 1 <= lset_generation (lset_check_size var s).
Proof.
  intros Hok Hv. unfold lset_check_size.
  destruct (Z.leb_spec var (lset_asize s)) as [Hle|Hgt].
  - destruct Hok as [Hg|[Hnil _]]; [lia|].
    unfold lset_asize, zlength in Hle. rewrite Hnil in Hle. simpl in Hle. lia.
  - destruct (Z.eqb_spec (lset_asize s) 0); [simpl; lia|].
    destruct Hok as [Hg|[Hnil _]]; [simpl; lia|].
    unfold lset_asize, zlength in n. rewrite Hnil in n. simpl in n. lia.
Qed.

(** Growing the array changes no entry of the set. *)
Lemma lset_check_size_get var v s :
  lset_ok s -> lset_get_lit v (lset_check_size var s) = lset_get_lit v s.
Proof.
  intros Hok. unfold lset_check_size.
  destruct (Z.leb_spec var (lset_asize s)) as [Hle|Hgt]; [reflexivity|].
  destruct (Z.eqb_spec (lset_asize s) 0) as [Hz|Hnz].
  - unfold lset_get_lit at 2. rewrite Hz.
    replace ((v <=? 0) || (0 <? v)) with true
      by (destruct (Z.leb_spec v 0), (Z.ltb_spec 0 v); simpl; lia).
    unfold lset_get_lit, lset_init. simpl.
    destruct (_ || _); [reflexivity|].
    destruct (arr_get _ _) as [g|] eqn:E; [|reflexivity].
    apply arr_get_replicate in E. subst g. reflexivity.
  - assert (Hg : 1 <= lset_generation s).
    { destruct Hok as [Hg|[Hnil _]]; [lia|].
      unfold lset_asize, zlength in Hnz. rewrite Hnil in Hnz. simpl in Hnz. lia. }
    set (n := Z.to_nat _).
    unfold lset_get_lit, lset_asize, zlength. simpl.
    rewrite length_app, length_replicate.
    pose proof (arr_get_app_zeros (lset_array s) n (v - 1)) as Happ.
    destruct (Z.leb_spec v 0); simpl; [reflexivity|].
    destruct (Z.ltb_spec (Z.of_nat (length (lset_array s))) v) as [Hout|Hin].
    + assert (Hnone : arr_get (lset_array s) (v - 1) = None).
      { unfold arr_get. destruct (Z.ltb_spec (v - 1) 0); [reflexivity|].
        apply lookup_ge_None_2. lia. }
      destruct (_ <? v); [reflexivity|].
      destruct (arr_get (_ ++ _) _) as [g|]; [|reflexivity].
      destruct Happ as [Hs|[_ ->]]; [congruence|].
      destruct (Z.eqb_spec 0 (lset_generation s)); [lia|].
      destruct (Z.eqb_spec 0 (- lset_generation s)); [lia|]. reflexivity.
    + replace (Z.of_nat (length (lset_array s) + n) <? v) with false
        by (symmetry; apply Z.ltb_ge; lia).
      destruct (arr_get (_ ++ _) _) as [g|].
      * destruct Happ as [Hs|[Hn _]]; [rewrite Hs; reflexivity|].
        unfold arr_get in Hn. destruct (Z.ltb_spec (v - 1) 0); [lia|].
        apply lookup_ge_None_1 in Hn. lia.
      * rewrite Happ. reflexivity.
Qed.

Lemma lset_get_lit_cases v s :
  lset_get_lit v s = 0 \/ lset_get_lit v s = v \/ lset_get_lit v s = - v.
Proof.
  unfold lset_get_lit. destruct (_ || _); [auto|].
  destruct (arr_get _ _); [|auto].
  destruct (_ =? _); [auto|]. destruct (_ =? _); auto.
Qed.

Lemma lset_get_lit_nonpos v s : v <= 0 -> lset_get_lit v s = 0.
Proof.
  intros H. unfold lset_get_lit.
  destruct (Z.leb_spec v 0); [reflexivity|lia].
Qed.

(** Reading the set after a store into the array. *)
Lemma lset_get_lit_store s a var val v :
  1 <= lset_generation s ->
  arr_set (lset_array s) (var - 1) val = Some a ->
  lset_get_lit v (mk_lset (lset_generation s) a) =
    if v =? var then
      (if val =? lset_generation s then var
       else if val =? - lset_generation s then - var else 0)
    else lset_get_lit v s.
Proof.
  intros Hg Hset. unfold lset_get_lit, lset_asize, zlength. simpl.
  rewrite (arr_set_length _ _ _ _ Hset).
  destruct (Z.eqb_spec v var) as [->|Hne].
  - rewrite (arr_get_set_eq _ _ _ _ Hset).
    unfold arr_set in Hset.
    destruct (Z.ltb_spec (var - 1) 0); [discriminate|].
    destruct (Z.leb_spec (Z.of_nat (length (lset_array s))) (var - 1));
      [discriminate|].
    destruct (Z.leb_spec var 0); [lia|].
    destruct (Z.ltb_spec (Z.of_nat (length (lset_array s))) var); [lia|].
    reflexivity.
  - rewrite (arr_get_set_ne _ _ _ (v - 1) _ Hset) by lia. reflexivity.
Qed.

End LsetFacts.

(** C10.  For a literal [lit] (a nonzero integer), [lset_add_lit lit]
    returns without touching memory outside of the array; it returns false
    exactly when the set holds the opposite literal [- lit], and then the
    set is the one it was; otherwise it returns true, after which
    [lset_get_lit] of the variable of [lit] is [lit] and the entry of every
    other variable is what it was. *)
Theorem lset_add_lit_spec (lit : Z) (s : lset_t) :
  lset_ok s -> lit <> 0 ->
  exists b s',
    lset_add_lit lit s = Some (b, s') /\
    (b = false <-> lset_get_lit (IABS lit) s = - lit) /\
    (b = false -> s' = s) /\
    (b = true ->
       lset_get_lit (IABS lit) s' = lit /\
       forall v, v <> IABS lit -> lset_get_lit v s' = lset_get_lit v s).
Proof.
  intros Hok Hnz.
  assert (Hvar : 1 <= IABS lit) by (rewrite IABS_abs; lia).
  pose proof (lset_check_size_covers (IABS lit) s) as Hcov.
  pose proof (lset_check_size_generation (IABS lit) s Hok Hvar) as Hgen.
  pose proof (lset_check_size_get (IABS lit) (IABS lit) s Hok) as Hget.
  unfold lset_add_lit.
  set (s1 := lset_check_size (IABS lit) s) in *.
  destruct (lset_get_lit_cases (IABS lit) s) as [H0|[Hp|Hn]].
  - (* the variable is free *)
    rewrite Hget, H0. simpl.
    destruct (arr_set_in_range (lset_array s1) (IABS lit - 1)
                (if 0 <? lit then lset_generation s1 else - lset_generation s1))
      as [a Ha]; [unfold lset_asize in Hcov; lia|].
    rewrite Ha. eexists _, _. split; [reflexivity|].
    split; [split; [discriminate|rewrite IABS_abs in *; lia]|].
    split; [discriminate|]. intros _. split.
    + rewrite (lset_get_lit_store s1 a (IABS lit) _ _ Hgen Ha).
      rewrite Z.eqb_refl. rewrite IABS_abs in *.
      destruct (Z.ltb_spec 0 lit).
      * rewrite Z.eqb_refl. lia.
      * destruct (Z.eqb_spec (- lset_generation s1) (lset_generation s1)); [lia|].
        rewrite Z.eqb_refl. lia.
    + intros v Hv.
      rewrite (lset_get_lit_store s1 a (IABS lit) _ _ Hgen Ha).
      destruct (Z.eqb_spec v (IABS lit)); [contradiction|].
      apply lset_check_size_get, Hok.
  - (* the positive literal is in the set *)
    rewrite Hget, Hp.
    destruct (Z.eqb_spec (IABS lit) 0) as [|_]; [lia|]. simpl.
    destruct (Z.eqb_spec (IABS lit) lit) as [Heq|Hneq]; simpl.
    + destruct (arr_set_in_range (lset_array s1) (IABS lit - 1)
                  (if 0 <? lit then lset_generation s1 else - lset_generation s1))
        as [a Ha]; [unfold lset_asize in Hcov; lia|].
      rewrite Ha. eexists _, _. split; [reflexivity|].
      split; [split; [discriminate|lia]|].
      split; [discriminate|]. intros _. split.
      * rewrite (lset_get_lit_store s1 a (IABS lit) _ _ Hgen Ha).
        rewrite Z.eqb_refl.
        destruct (Z.ltb_spec 0 lit); [|lia]. rewrite Z.eqb_refl. exact Heq.
      * intros v Hv.
        rewrite (lset_get_lit_store s1 a (IABS lit) _ _ Hgen Ha).
        destruct (Z.eqb_spec v (IABS lit)); [contradiction|].
        apply lset_check_size_get, Hok.
    + eexists _, _. split; [reflexivity|].
      split; [split; [rewrite IABS_abs in *; lia|reflexivity]|].
      split; [|discriminate]. intros _.
      subst s1. unfold lset_check_size.
      destruct (Z.leb_spec (IABS lit) (lset_asize s)) as [|Hout]; [reflexivity|].
      unfold lset_get_lit in Hp.
      destruct (Z.ltb_spec (lset_asize s) (IABS lit)); [|lia].
      rewrite orb_true_r in Hp. lia.
  - (* the negative literal is in the set *)
    rewrite Hget, Hn.
    destruct (Z.eqb_spec (- IABS lit) 0) as [|_]; [lia|]. simpl.
    destruct (Z.eqb_spec (- IABS lit) lit) as [Heq|Hneq]; simpl.
    + destruct (arr_set_in_range (lset_array s1) (IABS lit - 1)
                  (if 0 <? lit then lset_generation s1 else - lset_generation s1))
        as [a Ha]; [unfold lset_asize in Hcov; lia|].
      rewrite Ha. eexists _, _. split; [reflexivity|].
      split; [split; [discriminate|lia]|].
      split; [discriminate|]. intros _. split.
      * rewrite (lset_get_lit_store s1 a (IABS lit) _ _ Hgen Ha).
        rewrite Z.eqb_refl.
        destruct (Z.ltb_spec 0 lit); [lia|].
        destruct (Z.eqb_spec (- lset_generation s1) (lset_generation s1)); [lia|].
        rewrite Z.eqb_refl. exact Heq.
      * intros v Hv.
        rewrite (lset_get_lit_store s1 a (IABS lit) _ _ Hgen Ha).
        destruct (Z.eqb_spec v (IABS lit)); [contradiction|].
        apply lset_check_size_get, Hok.
    + eexists _, _. split; [reflexivity|].
      split; [split; [rewrite IABS_abs in *; lia|reflexivity]|].
      split; [|discriminate]. intros _.
      subst s1. unfold lset_check_size.
      destruct (Z.leb_spec (IABS lit) (lset_asize s)) as [|Hout]; [reflexivity|].
      unfold lset_get_lit in Hn.
      destruct (Z.ltb_spec (lset_asize s) (IABS lit)); [|lia].
      rewrite orb_true_r in Hn. lia.
Qed.

(** ** The RUP engine *)

Section RupFacts.

Implicit Types (s : checker) (ls : lset_t) (ts rest : list token_t)
  (hints : list Z).

Lemma rup_discard_hints hints rest s :
  Forall (fun h => h <> 0) hints ->
  rup_discard (hint_tokens hints rest) s = Ok tt (set_tokens rest s).
Proof.
  intros Hnz. revert s. induction Hnz as [|h r Hh _ IH]; intros s.
  - reflexivity.
  - unfold hint_tokens in *. simpl. unfold bind, modify. simpl.
    destruct (Z.eqb_spec h 0); [contradiction|].
    rewrite IH. reflexivity.
Qed.

(** Once the conflict is there, the hints left are read and dropped, and
    the outcome only depends on [ok]. *)
Lemma rup_run_loop_after_conflict hints rest tcid target ok steps s :
  Forall (fun h => h <> 0) hints -> early_rup (opts s) = true ->
  rup_run_loop (hint_tokens hints rest) tcid target true ok steps s =
    if ok then Ok tt (set_tokens rest s)
    else Err (IncompatibleHintType tcid) (set_tokens rest s).
Proof.
  intros Hnz Hearly. destruct Hnz as [|h r Hh Hr].
  - unfold hint_tokens. simpl. unfold bind, modify. simpl. destruct ok; reflexivity.
  - unfold hint_tokens. simpl. unfold bind at 1, modify at 1. simpl.
    destruct (Z.eqb_spec h 0); [contradiction|].
    unfold bind at 1, get at 1. simpl. rewrite Hearly.
    unfold bind at 1. fold (hint_tokens r rest).
    rewrite rup_discard_hints by assumption.
    destruct ok; reflexivity.
Qed.

Lemma find_clause_same s s' cid :
  same_clauses s s' -> find_clause cid s = find_clause cid s'.
Proof.
  intros (Hb & _ & _). unfold find_clause, clause_block_count. rewrite Hb.
  reflexivity.
Qed.

Lemma clause_type_same s s' loc :
  same_clauses s s' -> clause_type loc s = clause_type loc s'.
Proof. intros (Hb & _ & _). unfold clause_type. rewrite Hb. reflexivity. Qed.

Lemma lits_at_same s s' loc :
  same_clauses s s' -> lits_at loc s = lits_at loc s'.
Proof.
  intros (Hb & Hc & _). unfold lits_at, clause_locate, clause_lits.
  rewrite Hb, Hc. reflexivity.
Qed.

Lemma propagate_same s s' ls hints :
  same_clauses s s' -> propagate s ls hints = propagate s' ls hints.
Proof.
  intros Hs. revert ls. induction hints as [|h r IH]; intros ls; simpl.
  - reflexivity.
  - rewrite (find_clause_same s s' h Hs).
    destruct (find_clause h s') as [loc|]; [|reflexivity].
    rewrite (clause_type_same s s' loc Hs), (lits_at_same s s' loc Hs).
    destruct Hs as (Hb & Hc & Ho). rewrite Ho.
    destruct (clause_type loc s'); [|reflexivity].
    destruct (lits_at loc s'); [|reflexivity].
    destruct (_ =? RUP_CONFLICT); [reflexivity|].
    destruct (_ =? RUP_STALL).
    + destruct (skipping_rup (opts s')); [rewrite IH|]; reflexivity.
    + destruct (lset_add_lit _ _) as [[b ls']|]; [rewrite IH|]; reflexivity.
Qed.

Lemma hints_legal_same s s' target used :
  same_clauses s s' -> hints_legal s target used = hints_legal s' target used.
Proof.
  intros Hs. unfold hints_legal.
  induction used as [|h r IH]; simpl; [reflexivity|].
  rewrite IH. unfold hint_type. rewrite (find_clause_same s s' h Hs).
  destruct (find_clause h s'); [|reflexivity].
  rewrite (clause_type_same s s' _ Hs). reflexivity.
Qed.

Lemma rup_outcome_cons tcid target ok rest s s1 h htype p :
  same_clauses s1 s -> hint_type s h = Some htype ->
  (forall ls, set_tokens rest (set_lset ls s1) = set_tokens rest (set_lset ls s)) ->
  (forall ls rem, set_tokens (hint_tokens rem rest) (set_lset ls s1) =
                  set_tokens (hint_tokens rem rest) (set_lset ls s)) ->
  rup_outcome tcid target (ok && hint_type_ok htype target) rest s1 p =
  rup_outcome tcid target ok rest s (cons_used h p).
Proof.
  intros Hs Hh Hst1 Hst2. destruct p as [used ls|ls|cid rem ls|cid rem ls|]; simpl.
  - rewrite Hh, (hints_legal_same s1 s target used Hs), Hst1.
    rewrite andb_assoc. reflexivity.
  - rewrite Hst1. reflexivity.
  - rewrite Hst2. reflexivity.
  - rewrite Hst2. reflexivity.
  - reflexivity.
Qed.

(** [rup_run] on a hint list computes the derivation of [propagate] and
    turns it into [rup_outcome]. *)
Lemma rup_run_loop_spec hints rest tcid target ok steps s :
  Forall (fun h => h <> 0) hints -> early_rup (opts s) = true ->
  rup_run_loop (hint_tokens hints rest) tcid target false ok steps s =
  rup_outcome tcid target ok rest s (propagate s (lset s) hints).
Proof.
  intros Hnz. revert ok steps s.
  induction Hnz as [|h r Hh Hr IH]; intros ok steps s Hearly.
  - reflexivity.
  - unfold hint_tokens. simpl map. simpl app. fold (hint_tokens r rest).
    simpl rup_run_loop. unfold bind at 1, modify at 1.
    destruct (Z.eqb_spec h 0); [contradiction|]. simpl negb. cbv iota.
    unfold bind at 1, get at 1.
    change (find_clause h (set_tokens (hint_tokens r rest) s))
      with (find_clause h s).
    simpl propagate. unfold hint_type in *.
    destruct (find_clause h s) as [loc|] eqn:Hfind; [|reflexivity].
    change (clause_type loc (set_tokens (hint_tokens r rest) s))
      with (clause_type loc s).
    change (lits_at loc (set_tokens (hint_tokens r rest) s))
      with (lits_at loc s).
    destruct (clause_type loc s) as [htype|] eqn:Htype; [|reflexivity].
    unfold bind at 1, defined at 1, ret.
    destruct (lits_at loc s) as [lits|] eqn:Hlits; [|reflexivity].
    unfold bind at 1, defined at 1, ret.
    change (lset (set_tokens (hint_tokens r rest) s)) with (lset s).
    change (opts (set_tokens (hint_tokens r rest) s)) with (opts s).
    destruct (rup_unit_prop lits (lset s) =? RUP_CONFLICT) eqn:Hc.
    + rewrite rup_run_loop_after_conflict by assumption.
      unfold rup_outcome, hints_legal, forallb, hint_type.
      rewrite Hfind, Htype, andb_true_r. reflexivity.
    + destruct (rup_unit_prop lits (lset s) =? RUP_STALL) eqn:Hs.
      * destruct (skipping_rup (opts s)) eqn:Hskip; [|reflexivity].
        rewrite IH by assumption.
        change (lset (set_tokens (hint_tokens r rest) s)) with (lset s).
        rewrite (propagate_same (set_tokens (hint_tokens r rest) s) s)
          by (repeat split).
        apply rup_outcome_cons;
          [repeat split
          |unfold hint_type; rewrite Hfind; exact Htype
          |reflexivity|reflexivity].
      * unfold bind at 1, lset_add_lit_m.
        change (lset (set_tokens (hint_tokens r rest) s)) with (lset s).
        destruct (lset_add_lit _ (lset s)) as [[b ls']|]; [|reflexivity].
        rewrite IH by assumption.
        change (lset (set_lset ls' (set_tokens (hint_tokens r rest) s))) with ls'.
        rewrite (propagate_same
                   (set_lset ls' (set_tokens (hint_tokens r rest) s)) s)
          by (repeat split).
        apply rup_outcome_cons;
          [repeat split
          |unfold hint_type; rewrite Hfind; exact Htype
          |reflexivity|reflexivity].
Qed.

End RupFacts.

Example cnf_unit_pair_blocks :
  (clause_blocks <$> cnf_unit_pair) =
  Some [mk_block 1 2 [0; 0] [0; 2] [CLAUSE_INPUT; CLAUSE_INPUT]].
Proof. reflexivity. Qed.

Example cnf_unit_pair_chunks :
  (chunk_set <$> cnf_unit_pair) = Some [[1; 0; -1; 0]].
Proof. reflexivity. Qed.

(** *** Traversal of one hint clause *)

Section UnitPropFacts.

Variable ls : lset_t.

Lemma RUP_CONFLICT_not_literal lit : is_literal lit -> lit <> RUP_CONFLICT.
Proof.
  unfold is_literal, RUP_CONFLICT. rewrite IABS_abs. intros [_ H] ->.
  unfold INT_MAX in H. lia.
Qed.

Lemma lit_free_not_satisfied lit : lit <> 0 -> lit_free ls lit -> ~ lit_satisfied ls lit.
Proof. unfold lit_free, lit_satisfied. intros Hnz H0 H1. congruence. Qed.

(** A satisfied literal stalls the traversal, whatever was found before. *)
Lemma rup_unit_prop_loop_satisfied lits l unit :
  Forall is_literal lits -> In l lits -> lit_satisfied ls l ->
  unit = RUP_CONFLICT \/ (unit <> 0 /\ lit_free ls unit) ->
  rup_unit_prop_loop ls unit lits = RUP_STALL.
Proof.
  intros Hlits. revert unit.
  induction Hlits as [|x r Hx Hr IH]; intros unit Hin Hsat Hunit; [destruct Hin|].
  simpl. destruct (Z.eqb_spec x unit) as [->|Hne].
  - destruct Hin as [<-|Hin]; [|apply IH; assumption].
    destruct Hunit as [->|[Hnz Hfree]].
    + exfalso. exact (RUP_CONFLICT_not_literal _ Hx eq_refl).
    + exfalso. exact (lit_free_not_satisfied _ Hnz Hfree Hsat).
  - destruct (Z.eqb_spec (lset_get_lit (IABS x) ls) x) as [_|Hns]; [reflexivity|].
    destruct Hin as [<-|Hin]; [contradiction|].
    destruct (Z.eqb_spec (lset_get_lit (IABS x) ls) (- x)) as [_|Hnf];
      [apply IH; assumption|].
    destruct (Z.eqb_spec unit RUP_CONFLICT) as [_|_]; [|reflexivity].
    apply IH; [assumption..|]. right. split; [apply Hx|].
    unfold lit_free.
    destruct (lset_get_lit_cases (IABS x) ls) as [H0|[Hp|Hn]]; [exact H0|exfalso..].
    + destruct Hx as [Hx0 _]. rewrite IABS_abs in *. lia.
    + destruct Hx as [Hx0 _]. rewrite IABS_abs in *. lia.
Qed.

(** Falsified literals and copies of one free literal [u]: the traversal
    ends with [u] once it has met it. *)
Lemma rup_unit_prop_loop_unit lits u unit :
  is_literal u -> lit_free ls u ->
  Forall (fun x => x = u \/ (x <> 0 /\ lit_falsified ls x)) lits ->
  (unit = u -> rup_unit_prop_loop ls unit lits = u) /\
  (unit = RUP_CONFLICT -> In u lits -> rup_unit_prop_loop ls unit lits = u).
Proof.
  intros Hu Hfree Hlits. revert unit.
  assert (Hune : u <> RUP_CONFLICT) by (apply RUP_CONFLICT_not_literal, Hu).
  induction Hlits as [|x r Hx Hr IH]; intros unit.
  - split; [intros ->; reflexivity|intros _ []].
  - split; [intros ->|intros -> Hin]; simpl.
    + destruct (Z.eqb_spec x u) as [_|Hne]; [exact (proj1 (IH u) eq_refl)|].
      destruct Hx as [->|[Hx0 Hxf]]; [contradiction|].
      unfold lit_falsified in Hxf. rewrite Hxf.
      destruct (Z.eqb_spec (- x) x); [lia|]. rewrite Z.eqb_refl.
      exact (proj1 (IH u) eq_refl).
    + destruct Hx as [->|[Hx0 Hxf]].
      * destruct (Z.eqb_spec u RUP_CONFLICT); [contradiction|].
        unfold lit_free in Hfree. rewrite Hfree.
        destruct Hu as [Hu0 _].
        destruct (Z.eqb_spec 0 u); [congruence|].
        destruct (Z.eqb_spec 0 (- u)); [lia|].
        exact (proj1 (IH u) eq_refl).
      * assert (Hin' : In u r).
        { destruct Hin as [->|]; [|assumption].
          unfold lit_free in Hfree. unfold lit_falsified in Hxf.
          rewrite Hfree in Hxf. lia. }
        destruct (Z.eqb_spec x RUP_CONFLICT); [exact (proj2 (IH RUP_CONFLICT) eq_refl Hin')|].
        unfold lit_falsified in Hxf. rewrite Hxf.
        destruct (Z.eqb_spec (- x) x); [lia|]. rewrite Z.eqb_refl.
        exact (proj2 (IH RUP_CONFLICT) eq_refl Hin').
Qed.

(** Falsified literals only: the traversal ends in conflict. *)
Lemma rup_unit_prop_conflict lits :
  Forall (fun x => x <> 0 /\ lit_falsified ls x) lits ->
  rup_unit_prop lits ls = RUP_CONFLICT.
Proof.
  unfold rup_unit_prop. induction 1 as [|x r [Hx0 Hxf] _ IH]; simpl; [reflexivity|].
  destruct (Z.eqb_spec x RUP_CONFLICT); [exact IH|].
  unfold lit_falsified in Hxf. rewrite Hxf.
  destruct (Z.eqb_spec (- x) x); [lia|]. rewrite Z.eqb_refl. exact IH.
Qed.

End UnitPropFacts.

(** *** The check of a hint list *)


(** A derivation stops at a hint that does not propagate in strict mode
    only, and at a hint that is not the id of a stored clause. *)
Lemma propagate_stall_strict s : forall hints ls cid rem ls',
  propagate s ls hints = PStall cid rem ls' ->
  skipping_rup (opts s) = false /\
  exists before, hints = before ++ cid :: rem.
Proof.
  induction hints as [|h r IH]; intros ls cid rem ls' H; [discriminate|].
  cbn [propagate] in H.
  destruct (find_clause h s) as [loc|]; [|discriminate].
  destruct (clause_type loc s); [|discriminate].
  destruct (lits_at loc s) as [lits|]; [|discriminate].
  destruct (_ =? RUP_CONFLICT); [discriminate|].
  destruct (_ =? RUP_STALL).
  - destruct (skipping_rup (opts s)) eqn:Hskip.
    + destruct (propagate s ls r) as [| | | |] eqn:Hp; try discriminate.
      injection H as <- <- <-.
      destruct (IH _ _ _ _ Hp) as (Hs & before & ->).
      split; [exact Hs|]. exists (h :: before). reflexivity.
    + injection H as <- <- <-. split; [reflexivity|]. exists []. reflexivity.
  - destruct (lset_add_lit _ _) as [[b l1]|]; [|discriminate].
    destruct (propagate s l1 r) as [| | | |] eqn:Hp; try discriminate.
    injection H as <- <- <-.
    destruct (IH _ _ _ _ Hp) as (Hs & before & ->).
    split; [exact Hs|]. exists (h :: before). reflexivity.
Qed.

Lemma propagate_invalid s : forall hints ls cid rem ls',
  propagate s ls hints = PInvalid cid rem ls' ->
  find_clause cid s = None /\
  exists before, hints = before ++ cid :: rem.
Proof.
  induction hints as [|h r IH]; intros ls cid rem ls' H; [discriminate|].
  cbn [propagate] in H.
  destruct (find_clause h s) as [loc|] eqn:Hfind.
  2:{ injection H as <- <- <-. split; [exact Hfind|]. exists []. reflexivity. }
  destruct (clause_type loc s); [|discriminate].
  destruct (lits_at loc s) as [lits|]; [|discriminate].
  destruct (_ =? RUP_CONFLICT); [discriminate|].
  destruct (_ =? RUP_STALL).
  - destruct (skipping_rup (opts s)); [|discriminate].
    destruct (propagate s ls r) as [| | | |] eqn:Hp; try discriminate.
    injection H as <- <- <-.
    destruct (IH _ _ _ _ Hp) as (Hs & before & ->).
    split; [exact Hs|]. exists (h :: before). reflexivity.
  - destruct (lset_add_lit _ _) as [[b l1]|]; [|discriminate].
    destruct (propagate s l1 r) as [| | | |] eqn:Hp; try discriminate.
    injection H as <- <- <-.
    destruct (IH _ _ _ _ Hp) as (Hs & before & ->).
    split; [exact Hs|]. exists (h :: before). reflexivity.
Qed.



(** C5.  Each hint applied by the RUP check is classified by its type and
    the type of the target: a Tseitin hint is legal for every target, a
    Skolem or root hint for an input target only; and a check whose
    propagation reaches a conflict after applying a hint that is illegal
    for the target exits with the error of incompatible hint types. *)
Theorem hint_types_enforced :
  (forall target_type, hint_type_ok CLAUSE_TSEITIN target_type = true) /\
  (forall target_type,
      hint_type_ok CLAUSE_SKOLEM target_type = true <-> target_type = CLAUSE_INPUT) /\
  (forall target_type,
      hint_type_ok CLAUSE_ROOT target_type = true <-> target_type = CLAUSE_INPUT) /\
  (forall s tcid target_type hints rest used ls h htype,
      Forall (fun h => h <> 0) hints ->
      early_rup (opts s) = true ->
      tokens s = hint_tokens hints rest ->
      propagate s (lset s) hints = PConflict used ls ->
      In h used -> hint_type s h = Some htype ->
      hint_type_ok htype target_type = false ->
      rup_run tcid target_type s =
        Err (IncompatibleHintType tcid) (set_tokens rest (set_lset ls s))).
Proof.
  split; [reflexivity|].
  split; [intros []; simpl; split; congruence|].
  split; [intros []; simpl; split; congruence|].
  intros s tcid target_type hints rest used ls h htype Hnz Hearly Htok Hprop
         Hin Hty Hbad.
  unfold rup_run, bind, get. rewrite Htok.
  rewrite rup_run_loop_spec by assumption. rewrite Hprop. simpl.
  replace (hints_legal s target_type used) with false; [reflexivity|].
  symmetry. unfold hints_legal. apply not_true_is_false. intros Hall.
  rewrite forallb_forall in Hall. specialize (Hall h Hin).
  rewrite Hty in Hall. congruence.
Qed.

Lemma hint_types_enforced_witness :
  let s := rup_entry 3 [TOK_INT 0; TOK_INT 1; TOK_INT 2; TOK_INT 0; TOK_EOL]
                     cnf_unit_pair in
  exists s', rup_run 3 CLAUSE_STRUCTURAL s = Err (IncompatibleHintType 3) s'.
Proof.
  cbv zeta. eexists.
  eapply (proj2 (proj2 (proj2 hint_types_enforced))
            _ 3 CLAUSE_STRUCTURAL [1; 2] [TOK_EOL] [1; 2] _ 1 CLAUSE_INPUT).
  - repeat constructor; lia.
  - reflexivity.
  - reflexivity.
  - vm_compute. reflexivity.
  - left. reflexivity.
  - reflexivity.
  - reflexivity.
Defined.

(** C7 fails as stated: on the CNF [1 0 / 1 2 0], the line
    [3 a 2 0 1 2 0] deduces the unit 1 from its first hint; its second
    hint, the clause [1 2], is satisfied by that unit, and the traversal
    stalls on it: the check ends with the error of a hint that does not
    propagate. *)
Lemma satisfied_hint_stalls :
  let ts := [TOK_INT 2; TOK_INT 0; TOK_INT 1; TOK_INT 2; TOK_INT 0; TOK_EOL] in
  let s := rup_entry 3 ts cnf_unit_then_binary in
  exists ls1,
    rup_unit_prop [1] (lset s) = 1 /\
    lset_add_lit 1 (lset s) = Some (true, ls1) /\
    ~ satisfied_hint_tolerated ls1 [1; 2] /\
    exists s', run (cpog_add_clause 3 false) (with_input ts cnf_unit_then_binary)
               = Err (NonPropagatingHint 3 2) s'.
Proof.
  cbv zeta. eexists. split; [reflexivity|]. split; [vm_compute; reflexivity|].
  split.
  - intros Htol. apply Htol; [|reflexivity].
    exists 1. split; [left; reflexivity|]. split; [lia|reflexivity].
  - eexists. vm_compute. reflexivity.
Qed.

(** C7, amended.  In the traversal of a hint clause the literal that is
    ignored is a repetition of the unit literal found earlier in this very
    clause: a clause made of falsified literals and of copies of one free
    literal propagates that literal.  A clause with a literal that the
    literal set satisfies, the last deduced unit for one, stalls; with
    stalls not skipped, the check ends there with the error of a hint that
    does not propagate. *)
Theorem repeated_unit_ignored_satisfied_stalls :
  (forall ls lits u,
      is_literal u -> lit_free ls u -> In u lits ->
      Forall (fun x => x = u \/ (x <> 0 /\ lit_falsified ls x)) lits ->
      rup_unit_prop lits ls = u) /\
  (forall ls lits l,
      Forall is_literal lits -> In l lits -> lit_satisfied ls l ->
      rup_unit_prop lits ls = RUP_STALL) /\
  (forall s tcid target_type h hints rest loc htype lits l,
      h <> 0 ->
      tokens s = hint_tokens (h :: hints) rest ->
      find_clause h s = Some loc ->
      clause_type loc s = Some htype ->
      lits_at loc s = Some lits ->
      Forall is_literal lits -> In l lits -> lit_satisfied (lset s) l ->
      skipping_rup (opts s) = false ->
      rup_run tcid target_type s =
        Err (NonPropagatingHint tcid h) (set_tokens (hint_tokens hints rest) s)).
Proof.
  split; [|split].
  - intros ls lits u Hu Hfree Hin Hall.
    exact (proj2 (rup_unit_prop_loop_unit ls lits u RUP_CONFLICT Hu Hfree Hall)
                 eq_refl Hin).
  - intros ls lits l Hlits Hin Hsat.
    apply (rup_unit_prop_loop_satisfied ls lits l); auto.
  - intros s tcid target_type h hints rest loc htype lits l Hh Htok Hfind Hty
           Hlits Hall Hin Hsat Hskip.
    assert (Hstall : rup_unit_prop lits (lset s) = RUP_STALL)
      by (apply (rup_unit_prop_loop_satisfied (lset s) lits l); auto).
    unfold rup_run, bind at 1, get at 1. rewrite Htok.
    unfold hint_tokens. simpl map. simpl app. fold (hint_tokens hints rest).
    simpl rup_run_loop. unfold bind at 1, modify at 1.
    destruct (Z.eqb_spec h 0); [contradiction|]. simpl negb. cbv iota.
    unfold bind at 1, get at 1.
    change (find_clause h (set_tokens (hint_tokens hints rest) s))
      with (find_clause h s).
    rewrite Hfind.
    change (clause_type loc (set_tokens (hint_tokens hints rest) s))
      with (clause_type loc s).
    change (lits_at loc (set_tokens (hint_tokens hints rest) s))
      with (lits_at loc s).
    rewrite Hty, Hlits.
    unfold bind at 1, defined at 1, ret. unfold bind at 1, defined at 1.
    change (lset (set_tokens (hint_tokens hints rest) s)) with (lset s).
    change (opts (set_tokens (hint_tokens hints rest) s)) with (opts s).
    unfold ret. rewrite Hstall, Hskip. reflexivity.
Qed.

Lemma repeated_unit_ignored_satisfied_stalls_witness :
  let ts := [TOK_INT 2; TOK_INT 0; TOK_INT 1; TOK_INT 2; TOK_INT 0; TOK_EOL] in
  let s := rup_entry 3 ts cnf_unit_then_binary in
  rup_unit_prop [2; 1; 1] (lset s) = 1 /\
  rup_unit_prop [-2; 2] (lset s) = RUP_STALL.
Proof.
  cbv zeta. split.
  - apply (proj1 repeated_unit_ignored_satisfied_stalls _ [2; 1; 1] 1).
    + split; [lia|vm_compute; reflexivity].
    + vm_compute. reflexivity.
    + right. left. reflexivity.
    + constructor; [right; split; [lia|vm_compute; reflexivity]|].
      constructor; [left; reflexivity|].
      constructor; [left; reflexivity|constructor].
  - apply (proj1 (proj2 repeated_unit_ignored_satisfied_stalls) _ [-2; 2] (-2)).
    + repeat constructor; try lia; vm_compute; reflexivity.
    + left. reflexivity.
    + vm_compute. reflexivity.
Defined.

(** ** The clause store *)

Section StoreFacts.

Lemma iter_push_hole n b : Nat.iter n push_hole b = padded n b.
Proof.
  induction n as [|n IH].
  - unfold padded. destruct b; simpl. rewrite !app_nil_r, Z.add_0_r. reflexivity.
  - change (Nat.iter (S n) push_hole b) with (push_hole (Nat.iter n push_hole b)).
    rewrite IH. unfold push_hole, padded.
    cbn [start_id blk_length blk_chunk blk_offset blk_type].
    rewrite !replicate_S_end, !app_assoc, Nat2Z.inj_succ.
    f_equal. lia.
Qed.

Lemma arr_get_last {A} (front : list A) (b : A) :
  arr_get (front ++ [b]) (zlength (front ++ [b]) - 1) = Some b.
Proof.
  unfold arr_get, zlength. rewrite length_app. simpl.
  destruct (Z.ltb_spec (Z.of_nat (length front + 1) - 1) 0); [lia|].
  replace (Z.to_nat (Z.of_nat (length front + 1) - 1)) with (length front) by lia.
  apply list_lookup_middle. reflexivity.
Qed.

Lemma arr_set_last {A} (front : list A) (b b' : A) :
  arr_set (front ++ [b]) (zlength (front ++ [b]) - 1) b' = Some (front ++ [b']).
Proof.
  unfold arr_set, zlength. rewrite length_app. simpl.
  destruct (Z.ltb_spec (Z.of_nat (length front + 1) - 1) 0); [lia|].
  destruct (Z.leb_spec (Z.of_nat (length front + 1)) (Z.of_nat (length front + 1) - 1));
    [lia|]. simpl.
  replace (Z.to_nat (Z.of_nat (length front + 1) - 1)) with (length front + 0)%nat by lia.
  rewrite insert_app_r. reflexivity.
Qed.

Lemma arr_get_app_l {A} (l1 l2 : list A) i :
  0 <= i < zlength l1 -> arr_get (l1 ++ l2) i = arr_get l1 i.
Proof.
  unfold arr_get, zlength. intros [H0 H1].
  destruct (Z.ltb_spec i 0); [lia|]. apply lookup_app_l. lia.
Qed.

Lemma arr_get_app_replicate {A} (l : list A) n x i :
  zlength l <= i < zlength l + Z.of_nat n ->
  arr_get (l ++ replicate n x) i = Some x.
Proof.
  unfold arr_get, zlength. intros [H0 H1].
  destruct (Z.ltb_spec i 0); [lia|].
  rewrite lookup_app_r by lia. apply lookup_replicate. split; [reflexivity|lia].
Qed.

End StoreFacts.

(** C8 fails as stated: after the clauses 1, 2 and 3, the id 14 skips the
    ten ids 4..13, which is not more than [MAX_GAP], and is not the first
    id behind the input clauses; [start_clause] opens a block for it. *)
Lemma block_opened_at_gap_of_max_gap :
  skipped_ids 14 after_first_addition = MAX_GAP /\
  ~ first_noninput_id 14 after_first_addition /\
  ~ opens_block_iff_skipped_exceeds 14 after_first_addition.
Proof.
  split; [reflexivity|]. split.
  - intros [Hcount _]. vm_compute in Hcount. discriminate.
  - intros Hclaim.
    destruct (start_clause 14 after_first_addition) as [[] s'| | |] eqn:Hrun;
      try (vm_compute in Hrun; discriminate).
    destruct (Hclaim s' Hrun) as [Hopen _].
    destruct Hopen as [Hgap|[Hcount _]].
    + vm_compute in Hrun. injection Hrun as <-. reflexivity.
    + vm_compute in Hgap. discriminate.
    + vm_compute in Hcount. discriminate.
Qed.

(** The sum of two [int]s within the range of [int] and just above it. *)
Lemma int_wrap_small z : - INT_MAX - 1 <= z <= INT_MAX -> int_wrap z = z.
Proof.
  unfold int_wrap, INT_MAX. intros H.
  rewrite Z.mod_small by lia. lia.
Qed.

Lemma int_wrap_over z :
  INT_MAX < z <= 2 * INT_MAX -> int_wrap z = z - 2 ^ 32.
Proof.
  unfold int_wrap, INT_MAX. intros H.
  replace (z + 2 ^ 31) with (z - 2 ^ 31 + 1 * 2 ^ 32) by lia.
  rewrite Z.mod_add by lia. rewrite Z.mod_small by lia. lia.
Qed.

(** With the last id at 2147483640 the sum with [MAX_GAP] is beyond
    [INT_MAX]: it wraps around to a negative number, and a block is opened
    for the id 2147483645, which skips four ids only. *)
Example block_opened_when_sum_wraps :
  let s := set_clause_last_id 2147483640 after_first_addition in
  int_wrap (clause_last_id s + MAX_GAP) = -2147483646 /\
  clause_block_count s = 2 /\
  exists s', start_clause 2147483645 s = Ok tt s' /\
             map start_id (clause_blocks s') = [1; 3; 2147483645].
Proof.
  cbv zeta. split; [reflexivity|]. split; [reflexivity|].
  eexists. split; vm_compute; reflexivity.
Qed.

(** C8, amended.  Starting a clause with an id greater than the last
    assigned id opens a block exactly when the id exceeds the [int] sum of
    the last id and [MAX_GAP], or is the first id that is not an input id.
    While the last id is at most [INT_MAX - MAX_GAP] the sum is exact: a
    block is opened exactly when the id exceeds the last one by more than
    [MAX_GAP] (at least [MAX_GAP] ids are skipped) or is the first id that
    is not an input id.  Above, the sum wraps around and a block is
    opened for every id.  Whenever no block is opened the last block is
    padded with one hole for each skipped id, of type unknown and without
    payload, the older slots staying as they are; the padded block ends
    just before the new id, so that the slot of the clause goes to the
    position of its id minus the start id of the block. *)
Theorem start_clause_block_or_pad (s : checker) (cid : Z) (front : list clause_block_t)
    (b : clause_block_t) :
  clause_last_id s < cid ->
  clause_blocks s = front ++ [b] ->
  exists s',
    start_clause cid s = Ok tt s' /\
    clause_last_id s' = cid /\
    (opens_block cid s s' <->
     int_wrap (clause_last_id s + MAX_GAP) < cid \/ first_noninput_id cid s) /\
    (0 <= clause_last_id s <= INT_MAX - MAX_GAP ->
     (opens_block cid s s' <->
      MAX_GAP < cid - clause_last_id s \/ first_noninput_id cid s)) /\
    (INT_MAX - MAX_GAP < clause_last_id s -> cid <= INT_MAX ->
     opens_block cid s s') /\
    (~ opens_block cid s s' ->
     let b' := padded (Z.to_nat (skipped_ids cid s)) b in
     clause_blocks s' = front ++ [b'] /\
     (block_ok b (clause_last_id s) ->
      block_ok b' (cid - 1) /\
      (forall id, clause_last_id s < id < cid ->
         arr_get (blk_type b') (id - start_id b') = Some CLAUSE_UNKNOWN /\
         arr_get (blk_chunk b') (id - start_id b') = Some (-1) /\
         arr_get (blk_offset b') (id - start_id b') = Some (-1)) /\
      (forall id, start_id b <= id <= clause_last_id s ->
         arr_get (blk_type b') (id - start_id b') = arr_get (blk_type b) (id - start_id b) /\
         arr_get (blk_chunk b') (id - start_id b') = arr_get (blk_chunk b) (id - start_id b) /\
         arr_get (blk_offset b') (id - start_id b') = arr_get (blk_offset b) (id - start_id b)))).
Proof.
  intros Hlt Hblocks.
  unfold start_clause, bind at 1, get at 1.
  destruct (Z.leb_spec cid (clause_last_id s)); [lia|].
  set (c := (int_wrap (clause_last_id s + MAX_GAP) <? cid)
            || ((clause_block_count s =? 1) && (input_clause_count (opts s) <? cid))).
  assert (Hc : c = true <->
               int_wrap (clause_last_id s + MAX_GAP) < cid \/ first_noninput_id cid s).
  { unfold c, first_noninput_id. rewrite orb_true_iff, andb_true_iff.
    rewrite Z.ltb_lt, Z.eqb_eq, Z.ltb_lt. tauto. }
  assert (Hexact : 0 <= clause_last_id s <= INT_MAX - MAX_GAP ->
            (c = true <-> MAX_GAP < cid - clause_last_id s \/ first_noninput_id cid s)).
  { intros Hrange. rewrite Hc, int_wrap_small by (unfold INT_MAX, MAX_GAP in *; lia).
    split; intros [?|?]; auto; left; lia. }
  assert (Hwrap : INT_MAX - MAX_GAP < clause_last_id s -> cid <= INT_MAX -> c = true).
  { intros Hhigh Hcid. apply Hc. left.
    rewrite int_wrap_over by (unfold INT_MAX, MAX_GAP in *; lia).
    unfold INT_MAX, MAX_GAP in *. lia. }
  destruct c eqn:Ec.
  - (* a block is opened *)
    eexists. split; [reflexivity|]. split; [reflexivity|].
    assert (Hopen : opens_block cid s
              (set_current_clause []
                 (set_clause_count (clause_count s + 1)
                    (set_clause_last_id cid
                       (set_clause_blocks (clause_blocks s ++ [new_block cid]) s)))))
      by reflexivity.
    split; [split; [intros _; apply Hc; reflexivity|intros _; exact Hopen]|].
    split; [intros Hrange; split;
            [intros _; apply (Hexact Hrange); reflexivity|intros _; exact Hopen]|].
    split; [intros _ _; exact Hopen|].
    intros Hn. exfalso. exact (Hn Hopen).
  - (* the last block is padded *)
    unfold clause_block_count. rewrite Hblocks.
    unfold bind at 2, bind at 1, defined at 1. rewrite arr_get_last. unfold ret.
    unfold bind at 2, bind at 1, defined at 1. rewrite arr_set_last. unfold ret.
    rewrite iter_push_hole.
    replace (cid - (clause_last_id s + 1)) with (skipped_ids cid s)
      by (unfold skipped_ids; lia).
    eexists. split; [reflexivity|]. split; [reflexivity|].
    assert (Hnot : forall bs,
              ~ opens_block cid s
                  (set_current_clause []
                     (set_clause_count (clause_count s + 1)
                        (set_clause_last_id cid
                           (set_clause_blocks (front ++ [bs]) s))))).
    { intros bs Hopen. unfold opens_block in Hopen. simpl in Hopen.
      rewrite Hblocks in Hopen. apply (f_equal (@length _)) in Hopen.
      rewrite !length_app in Hopen. simpl in Hopen. lia. }
    split.
    { split; [intros Hopen; destruct (Hnot _ Hopen)|].
      intros Hcond. apply Hc in Hcond. discriminate. }
    split.
    { intros Hrange. split; [intros Hopen; destruct (Hnot _ Hopen)|].
      intros Hcond. apply (Hexact Hrange) in Hcond. discriminate. }
    split.
    { intros Hhigh Hcid. pose proof (Hwrap Hhigh Hcid). discriminate. }
    intros _. cbv zeta. split; [reflexivity|].
    intros (Hend & Hch & Hof & Hty).
    assert (Hn : Z.of_nat (Z.to_nat (skipped_ids cid s)) = skipped_ids cid s)
      by (unfold skipped_ids; lia).
    split; [|split].
    * unfold block_ok, padded, zlength in *. simpl.
      rewrite !length_app, !length_replicate. unfold skipped_ids in *. lia.
    * intros id Hid. unfold padded. simpl.
      split; [|split]; apply arr_get_app_replicate; unfold skipped_ids in *; lia.
    * intros id Hid. unfold padded. simpl.
      split; [|split]; apply arr_get_app_l; lia.
Qed.

Lemma start_clause_block_or_pad_witness :
  exists s', start_clause 7 after_first_addition = Ok tt s' /\
             clause_last_id s' = 7 /\
             (clause_blocks s' !! 1%nat) =
               Some (mk_block 3 4 [0; -1; -1; -1] [4; -1; -1; -1]
                       [CLAUSE_FORWARD; CLAUSE_UNKNOWN; CLAUSE_UNKNOWN; CLAUSE_UNKNOWN]).
Proof.
  destruct (start_clause_block_or_pad after_first_addition 7
              [mk_block 1 2 [0; 0] [0; 2] [CLAUSE_INPUT; CLAUSE_INPUT]]
              (mk_block 3 1 [0] [4] [CLAUSE_FORWARD]))
    as (s' & Hrun & Hlast & Hiff & _ & _ & Hpad).
  - vm_compute. reflexivity.
  - reflexivity.
  - exists s'. split; [exact Hrun|]. split; [exact Hlast|].
    destruct Hpad as [Hblocks _].
    + intros Hopen. apply Hiff in Hopen.
      destruct Hopen as [Hgap|[Hcount _]];
        [vm_compute in Hgap|vm_compute in Hcount]; discriminate.
    + rewrite Hblocks. reflexivity.
Defined.

(** *** Deletion *)

Section DeleteFacts.

Lemma arr_set_again {A} (l l' : list A) i x :
  arr_set l i x = Some l' -> arr_set l' i x = Some l'.
Proof.
  unfold arr_set. intros H.
  destruct ((i <? 0) || (Z.of_nat (length l) <=? i)) eqn:E; [discriminate|].
  injection H as <-. rewrite length_insert, E.
  rewrite list_insert_insert_eq. reflexivity.
Qed.

(** The scan over the literals leaves the state as it is, and only looks
    at the variable limits. *)
Lemma clause_delete_scan_ok lits s s' :
  clause_delete_scan lits s = Ok tt s' ->
  s' = s /\
  forall s2, opts s2 = opts s -> variable_limit s2 = variable_limit s ->
             clause_delete_scan lits s2 = Ok tt s2.
Proof.
  induction lits as [|lit r IH]; simpl.
  - intros [= <-]. split; [reflexivity|]. reflexivity.
  - unfold bind at 1, get at 1.
    destruct ((input_variable_count (opts s) <? IABS lit)
              && (variable_limit s <? IABS lit)) eqn:E; [discriminate|].
    intros H. destruct (IH H) as [-> Hall]. split; [reflexivity|].
    intros s2 Ho Hv. unfold bind at 1, get at 1. rewrite Ho, Hv, E.
    apply Hall; assumption.
Qed.

(** A deletion that has succeeded succeeds again at the same place: the
    offset of the slot, which decides, is left as it was; the type of the
    slot is unknown and the literals are where they were. *)
Lemma clause_delete_accepts_deleted loc s s1 :
  clause_delete loc s = Ok true s1 ->
  clause_type loc s1 = Some CLAUSE_UNKNOWN /\
  lits_at loc s1 = lits_at loc s /\
  clause_delete loc s1 = Ok true s1.
Proof.
  unfold clause_delete. unfold bind at 1, get at 1.
  destruct (arr_get (clause_blocks s) (bid loc)) as [b|] eqn:Hb; [|discriminate].
  unfold bind at 1, defined at 1, ret.
  destruct (arr_get (blk_chunk b) (pos loc)) as [chunk|] eqn:Hch; [|discriminate].
  unfold bind at 1, defined at 1, ret.
  destruct (arr_get (blk_offset b) (pos loc)) as [offset|] eqn:Hof; [|discriminate].
  unfold bind at 1, defined at 1, ret.
  destruct (0 <=? offset) eqn:Hdel.
  2:{ destruct (generate_clause_id loc s); discriminate. }
  destruct (clause_lits (chunk, offset) s) as [lits|] eqn:Hlits; [|discriminate].
  unfold bind at 1, defined at 1, ret.
  unfold bind at 1.
  destruct (clause_delete_scan lits s) as [[] s'| | |] eqn:Hscan; try discriminate.
  destruct (clause_delete_scan_ok _ _ _ Hscan) as [-> Hscan2].
  destruct (arr_set (blk_type b) (pos loc) CLAUSE_UNKNOWN) as [ty|] eqn:Hty;
    [|discriminate].
  unfold bind at 1, defined at 1, ret.
  set (b' := mk_block (start_id b) (blk_length b) (blk_chunk b) (blk_offset b) ty).
  destruct (arr_set (clause_blocks s) (bid loc) b') as [blocks|] eqn:Hbl;
    [|discriminate].
  unfold bind at 1, defined at 1, ret. unfold bind, modify.
  intros [= <-].
  assert (Hb' : arr_get blocks (bid loc) = Some b') by (eapply arr_get_set_eq; eauto).
  split; [|split].
  - unfold clause_type. simpl. rewrite Hb'. simpl. eapply arr_get_set_eq; eauto.
  - unfold lits_at, clause_locate. simpl. rewrite Hb', Hb. simpl.
    rewrite Hch, Hof. reflexivity.
  - unfold bind, get, defined, ret, modify.
    change (clause_blocks (set_clause_blocks blocks s)) with blocks.
    rewrite Hb'. cbn [blk_chunk blk_offset blk_type b' start_id blk_length].
    rewrite Hch, Hof, Hdel.
    change (clause_lits (chunk, offset) (set_clause_blocks blocks s))
      with (clause_lits (chunk, offset) s).
    rewrite Hlits, (Hscan2 (set_clause_blocks blocks s) eq_refl eq_refl).
    rewrite (arr_set_again _ _ _ _ Hty).
    change (clause_blocks (set_clause_blocks blocks s)) with blocks.
    fold b'. rewrite (arr_set_again _ _ _ _ Hbl).
    reflexivity.
Qed.

End DeleteFacts.

(** C9, what the code does.  On the CNF [p cnf 1 1 / 1 -1 0] the CPOG
    lines [d 1] and [d 1] are both accepted: the first deletion sets the
    type of clause 1 to unknown and leaves its literals in place, and the
    second one, of the same clause, is not refused; two deletions are
    counted where the CNF has one clause. *)
Theorem second_deletion_accepted :
  let s0 := with_input [TOK_INT 1; TOK_EOL; TOK_INT 1; TOK_EOL]
                       (cnf_state 1 [[1; -1]]) in
  exists s1 s2 loc,
    run cpog_delete_clause s0 = Ok tt s1 /\
    find_clause 1 s1 = Some loc /\
    clause_type loc s1 = Some CLAUSE_UNKNOWN /\
    lits_at loc s1 = Some [1; -1] /\
    cpog_delete_clause s1 = Ok tt s2 /\
    explicit_deletion_count s2 = 2 /\
    input_clause_count (opts s2) = 1.
Proof.
  cbv zeta. eexists _, _, _.
  split; [vm_compute; reflexivity|].
  split; [vm_compute; reflexivity|].
  split; [vm_compute; reflexivity|].
  split; [vm_compute; reflexivity|].
  split; [vm_compute; reflexivity|].
  split; reflexivity.
Qed.

Lemma lset_add_lit_spec_witness :
  exists b s',
    lset_add_lit (-3) (lset_clear lset_start) = Some (b, s') /\
    (b = true -> lset_get_lit 3 s' = -3).
Proof.
  destruct (lset_add_lit_spec (-3) (lset_clear lset_start))
    as (b & s' & Hrun & _ & _ & Htrue).
  - left. vm_compute. split; discriminate.
  - lia.
  - exists b, s'. split; [exact Hrun|]. intros Hb. apply (Htrue Hb).
Defined.

(** ** Ring evaluation *)

Section RingFacts.

Lemma product_values_mono (g g' : Z -> option q25_ptr) cs x :
  (forall c v, g c = Some v -> g' c = Some v) ->
  product_values (map g cs) = Some x -> product_values (map g' cs) = Some x.
Proof.
  intros Hg. revert x. induction cs as [|c r IH]; intros x; simpl; [auto|].
  destruct (g c) as [v|] eqn:Hc; [|discriminate].
  rewrite (Hg c v Hc).
  destruct (product_values (map g r)) as [y|]; [|discriminate].
  rewrite (IH y eq_refl). auto.
Qed.

Lemma sum_values_mono (g g' : Z -> option q25_ptr) cs x :
  (forall c v, g c = Some v -> g' c = Some v) ->
  sum_values (map g cs) = Some x -> sum_values (map g' cs) = Some x.
Proof.
  intros Hg. revert x. induction cs as [|c r IH]; intros x; simpl; [auto|].
  destruct (g c) as [v|] eqn:Hc; [|discriminate].
  rewrite (Hg c v Hc).
  destruct (sum_values (map g r)) as [y|]; [|discriminate].
  rewrite (IH y eq_refl). auto.
Qed.

Lemma pog_value_unfold fuel s w lit :
  pog_value (S fuel) s w lit =
  match
    (if IABS lit <=? input_variable_count (opts s) then arr_get w (IABS lit - 1)
     else
       match arr_get (node_list s) (IABS lit - input_variable_count (opts s) - 1) with
       | None => None
       | Some node =>
           match node_type node with
           | NODE_PRODUCT =>
               product_values (map (pog_value fuel s w) (children node))
           | NODE_SUM =>
               sum_values (map (pog_value fuel s w) (children node))
           | NODE_SKOLEM => Some 1%Qc
           | NODE_NONE => None
           end
       end)
  with
  | Some v => Some (sign_value lit v)
  | None => None
  end.
Proof. reflexivity. Qed.

(** More fuel does not change a value. *)
Lemma pog_value_S fuel s w lit v :
  pog_value fuel s w lit = Some v -> pog_value (S fuel) s w lit = Some v.
Proof.
  revert lit v. induction fuel as [|f IH]; intros lit v; [discriminate|].
  intros H. rewrite pog_value_unfold in H. rewrite pog_value_unfold.
  destruct (IABS lit <=? input_variable_count (opts s)); [exact H|].
  destruct (arr_get (node_list s) _) as [node|]; [|exact H].
  destruct (node_type node); try exact H.
  - destruct (product_values (map (pog_value f s w) (children node))) as [x|] eqn:E;
      [|discriminate].
    rewrite (product_values_mono _ (pog_value (S f) s w) _ _ IH E). exact H.
  - destruct (sum_values (map (pog_value f s w) (children node))) as [x|] eqn:E;
      [|discriminate].
    rewrite (sum_values_mono _ (pog_value (S f) s w) _ _ IH E). exact H.
Qed.

Lemma pog_value_le fuel fuel' s w lit v :
  (fuel <= fuel')%nat ->
  pog_value fuel s w lit = Some v -> pog_value fuel' s w lit = Some v.
Proof.
  induction 1 as [|f' _ IH]; [auto|]. intros H. apply pog_value_S, IH, H.
Qed.

(** The value of a literal from the value of its variable. *)
Lemma pog_value_of_var fuel s w lit v :
  lit <> 0 ->
  pog_value fuel s w (IABS lit) = Some v ->
  pog_value fuel s w lit = Some (sign_value lit v).
Proof.
  intros Hnz. destruct fuel as [|f]; [discriminate|]. rewrite !pog_value_unfold.
  replace (IABS (IABS lit)) with (IABS lit) by (rewrite !IABS_abs; lia).
  destruct (if IABS lit <=? _ then _ else _) as [x|]; [|discriminate].
  intros [= <-]. f_equal.
  assert (Hpos : sign_value (IABS lit) x = x).
  { unfold sign_value.
    destruct (Z.ltb_spec (IABS lit) 0) as [Hneg|_]; [|reflexivity].
    rewrite IABS_abs in Hneg. lia. }
  rewrite Hpos. reflexivity.
Qed.

Lemma fold_left_mul_values vs a :
  exists p, product_values (map Some vs) = Some p /\
            fold_left (ring_op NODE_PRODUCT) vs a = (a * p)%Qc.
Proof.
  unfold q25_ptr in *.
  revert a. induction vs as [|v r IH]; intros a; simpl.
  - eexists. split; [reflexivity|]. ring.
  - destruct (IH (ring_op NODE_PRODUCT a v)) as (p & Hp & Hfold).
    rewrite Hp, Hfold. eexists. split; [reflexivity|].
    unfold ring_op, q25_mul. simpl. ring.
Qed.

Lemma fold_left_add_values vs a :
  exists p, sum_values (map Some vs) = Some p /\
            fold_left (ring_op NODE_SUM) vs a = (a + p)%Qc.
Proof.
  unfold q25_ptr in *.
  revert a. induction vs as [|v r IH]; intros a; simpl.
  - eexists. split; [reflexivity|]. ring.
  - destruct (IH (ring_op NODE_SUM a v)) as (p & Hp & Hfold).
    rewrite Hp, Hfold. eexists. split; [reflexivity|].
    unfold ring_op, q25_add. simpl. ring.
Qed.

(** The loop over the children folds the values that it reads. *)
Lemma ring_children_loop_spec type w cs vs val s :
  Forall2 (fun c v => child_value s w c = Some v) cs vs ->
  ring_children_loop type w cs val s = Ok (fold_left (ring_op type) vs val) s.
Proof.
  intros H. revert val. induction H as [|c v cs vs Hc _ IH]; intros val.
  - reflexivity.
  - cbn [ring_children_loop fold_left]. unfold bind at 1, get at 1.
    unfold child_value in Hc. unfold bind at 1.
    destruct (IABS c <=? input_variable_count (opts s)).
    + destruct (arr_get w (IABS c - 1)) as [x|]; [|discriminate].
      injection Hc as <-. unfold defined, ret. apply IH.
    + unfold bind at 1.
      destruct (node_find (IABS c) s) as [cidx|]; [|discriminate].
      unfold defined at 1, ret. unfold bind at 1, read_node, bind, get, defined.
      destruct (arr_get (node_list s) cidx) as [cnp|]; [|discriminate].
      unfold ret.
      destruct (ring_value cnp) as [x|]; [|discriminate].
      injection Hc as <-. apply IH.
Qed.

Lemma Forall_exists_Forall2 {A B} (P : A -> B -> Prop) (l : list A) :
  Forall (fun a => exists b, P a b) l -> exists l', Forall2 P l l'.
Proof.
  induction 1 as [|a l [b Hb] _ [l' IH]].
  - exists []. constructor.
  - exists (b :: l'). constructor; assumption.
Qed.

Lemma Forall2_map_some {A} (g : A -> option q25_ptr) cs vs :
  Forall2 (fun c v => g c = Some v) cs vs -> map g cs = map Some vs.
Proof. induction 1 as [|c v cs vs Hc _ IH]; simpl; [reflexivity|]. rewrite Hc, IH. reflexivity. Qed.

End RingFacts.

Section RingLoop.

Variable s0 : checker.
Variable w : list q25_ptr.
Hypothesis Hvalid : pog_evaluable s0.
Hypothesis Hweights : zlength w = input_variable_count (opts s0).

Lemma arr_get_some_range {A} (l : list A) i x :
  arr_get l i = Some x -> 0 <= i < zlength l.
Proof.
  unfold arr_get, zlength. destruct (Z.ltb_spec i 0) as [|Hi]; [discriminate|].
  intros Hget. apply lookup_lt_Some in Hget. lia.
Qed.

Lemma arr_get_in_range {A} (l : list A) i :
  0 <= i < zlength l -> exists x, arr_get l i = Some x.
Proof.
  unfold arr_get, zlength. intros [H0 H1].
  destruct (Z.ltb_spec i 0); [lia|].
  destruct (lookup_lt_is_Some_2 l (Z.to_nat i)) as [x Hx]; [lia|]. eauto.
Qed.

Lemma node_find_some s id n :
  arr_get (node_list s) (id - input_variable_count (opts s) - 1) = Some n ->
  node_find id s = Some (id - input_variable_count (opts s) - 1).
Proof.
  intros Hget. apply arr_get_some_range in Hget. unfold node_find, node_asize.
  destruct (Z.ltb_spec (id - input_variable_count (opts s) - 1) 0) as [|_]; [lia|].
  destruct (Z.leb_spec (zlength (node_list s))
                       (id - input_variable_count (opts s) - 1)) as [|_]; [lia|].
  reflexivity.
Qed.

Lemma update_node_ok idx f s n :
  arr_get (node_list s) idx = Some n ->
  exists nl, arr_set (node_list s) idx (f n) = Some nl /\
             update_node idx f s = Ok tt (set_node_list nl s).
Proof.
  intros Hget. destruct (arr_set_in_range (node_list s) idx (f n)) as [nl Hnl];
    [eapply arr_get_some_range; eauto|].
  exists nl. split; [exact Hnl|].
  unfold update_node, bind, get, defined, ret, modify. rewrite Hget, Hnl.
  reflexivity.
Qed.

Lemma ring_inv_opts s k : ring_inv s0 s w k -> opts s = opts s0.
Proof. intros [[nl ->] _]. reflexivity. Qed.

(** The values of the children of the node [id], as the loop reads them
    and as the evaluation of the specification has them. *)
Lemma child_values_available s id cs :
  ring_inv s0 s w id ->
  input_variable_count (opts s0) < id <= declared_root s0 ->
  Forall (fun c => c <> 0 /\
            (IABS c <= input_variable_count (opts s0) \/ IABS c < id)) cs ->
  exists vs,
    Forall2 (fun c v => child_value s w c = Some v) cs vs /\
    Forall2 (fun c v =>
               pog_value (Z.to_nat (id - input_variable_count (opts s0))) s0 w c
               = Some v) cs vs.
Proof.
  intros Hinv Hid Hcs.
  assert (Hboth : exists vs,
    Forall2 (fun c v => child_value s w c = Some v /\
               pog_value (Z.to_nat (id - input_variable_count (opts s0))) s0 w c
               = Some v) cs vs).
  { apply Forall_exists_Forall2. eapply Forall_impl; [exact Hcs|].
    intros c [Hc0 Hc]. cbv beta.
    pose proof (ring_inv_opts _ _ Hinv) as Hopts.
    destruct (Z.leb_spec (IABS c) (input_variable_count (opts s0))) as [Hle|Hgt].
    - (* a literal of an input variable *)
      destruct (arr_get_in_range w (IABS c - 1)) as [x Hx];
        [rewrite IABS_abs in *; lia|].
      exists (sign_value c x). split.
      + unfold child_value. rewrite Hopts.
        destruct (Z.leb_spec (IABS c) (input_variable_count (opts s0))); [|lia].
        rewrite Hx. reflexivity.
      + destruct (Z.to_nat (id - input_variable_count (opts s0))) as [|f] eqn:Ef; [lia|].
        rewrite pog_value_unfold.
        destruct (Z.leb_spec (IABS c) (input_variable_count (opts s0))); [|lia].
        rewrite Hx. reflexivity.
    - (* a node declared before *)
      destruct Hc as [Hc|Hc]; [lia|].
      destruct Hvalid as (_ & _ & _ & _ & Hnodes).
      destruct (Hnodes (IABS c)) as (nc & Hnc & _); [lia|].
      destruct Hinv as (_ & _ & Hrel).
      destruct (Hrel _ _ Hnc) as (r & Hr & Hval).
      destruct Hval as (v & -> & Hv); [lia|].
      exists (sign_value c v). split.
      + unfold child_value. rewrite Hopts.
        destruct (Z.leb_spec (IABS c) (input_variable_count (opts s0))); [lia|].
        rewrite <- Hopts in Hr. rewrite (node_find_some _ _ _ Hr), Hr.
        reflexivity.
      + apply pog_value_of_var; [exact Hc0|].
        replace (IABS c - input_variable_count (opts s0) - 1 +
                 input_variable_count (opts s0) + 1) with (IABS c) in Hv by lia.
        eapply pog_value_le; [|exact Hv]. unfold fuel_of. lia. }
  destruct Hboth as [vs Hvs]. exists vs. split.
  - eapply Forall2_impl; [exact Hvs|]. intros ? ? [? _]. assumption.
  - eapply Forall2_impl; [exact Hvs|]. intros ? ? [_ ?]. assumption.
Qed.

Lemma q25_one : q25_from_32 1 = 1%Qc.
Proof. reflexivity. Qed.

Lemma q25_zero : q25_from_32 0 = 0%Qc.
Proof. reflexivity. Qed.

Lemma set_ring_value_twice r r' n :
  set_ring_value r' (set_ring_value r n) = set_ring_value r' n.
Proof. reflexivity. Qed.

(** The value the loop computes for the node [id] is its value. *)
Lemma ring_node_value s id node0 :
  ring_inv s0 s w id ->
  input_variable_count (opts s0) < id <= declared_root s0 ->
  arr_get (node_list s0) (id - input_variable_count (opts s0) - 1) = Some node0 ->
  node_type node0 <> NODE_NONE ->
  (node_type node0 <> NODE_SKOLEM ->
   Forall (fun c => c <> 0 /\
             (IABS c <= input_variable_count (opts s0) \/ IABS c < id))
          (children node0)) ->
  exists u v,
    match node_type node0 with
    | NODE_PRODUCT | NODE_SKOLEM => ret (q25_from_32 1)
    | NODE_SUM => ret (q25_from_32 0)
    | NODE_NONE => err_printf (InvalidNodeType id)
    end s = Ok u s /\
    ring_children_loop (node_type node0) w
      (if node_type_eqb (node_type node0) NODE_SKOLEM then [] else children node0)
      u s = Ok v s /\
    pog_value (fuel_of s0 id) s0 w id = Some v.
Proof.
  intros Hinv Hid Hnode Htype Hchildren.
  assert (Hpos : 0 <= input_variable_count (opts s0)) by (apply Hvalid).
  assert (Hunfold : forall x,
    match node_type node0 with
    | NODE_PRODUCT =>
        product_values (map (pog_value (Z.to_nat (id - input_variable_count (opts s0))) s0 w)
                            (children node0))
    | NODE_SUM =>
        sum_values (map (pog_value (Z.to_nat (id - input_variable_count (opts s0))) s0 w)
                        (children node0))
    | NODE_SKOLEM => Some 1%Qc
    | NODE_NONE => None
    end = Some x ->
    pog_value (fuel_of s0 id) s0 w id = Some x).
  { intros x Hx. unfold fuel_of. rewrite pog_value_unfold.
    replace (IABS id) with id by (rewrite IABS_abs; lia).
    destruct (Z.leb_spec id (input_variable_count (opts s0))); [lia|].
    rewrite Hnode, Hx. unfold sign_value.
    destruct (Z.ltb_spec id 0); [lia|]. reflexivity. }
  destruct (node_type node0) eqn:Ety; try contradiction.
  - (* product *)
    destruct (child_values_available s id (children node0) Hinv Hid)
      as (vs & Hcode & Hspec); [apply Hchildren; discriminate|].
    destruct (fold_left_mul_values vs (q25_from_32 1)) as (p & Hp & Hfold).
    exists (q25_from_32 1), p. split; [reflexivity|]. split.
    + simpl node_type_eqb. cbv iota.
      rewrite (ring_children_loop_spec _ _ _ _ _ _ Hcode), Hfold, q25_one.
      f_equal. unfold q25_ptr in *. ring.
    + apply Hunfold. rewrite (Forall2_map_some _ _ _ Hspec). exact Hp.
  - (* skolem *)
    exists (q25_from_32 1), (q25_from_32 1). split; [reflexivity|].
    split; [reflexivity|]. apply Hunfold. reflexivity.
  - (* sum *)
    destruct (child_values_available s id (children node0) Hinv Hid)
      as (vs & Hcode & Hspec); [apply Hchildren; discriminate|].
    destruct (fold_left_add_values vs (q25_from_32 0)) as (p & Hp & Hfold).
    exists (q25_from_32 0), p. split; [reflexivity|]. split.
    + simpl node_type_eqb. cbv iota.
      rewrite (ring_children_loop_spec _ _ _ _ _ _ Hcode), Hfold, q25_zero.
      f_equal. unfold q25_ptr in *. ring.
    + apply Hunfold. rewrite (Forall2_map_some _ _ _ Hspec). exact Hp.
Qed.

(** Storing the value of the node [id] extends the invariant to it. *)
Lemma ring_inv_store s id node0 r v nl :
  ring_inv s0 s w id ->
  arr_get (node_list s0) (id - input_variable_count (opts s0) - 1) = Some node0 ->
  arr_get (node_list s) (id - input_variable_count (opts s0) - 1)
    = Some (set_ring_value r node0) ->
  pog_value (fuel_of s0 id) s0 w id = Some v ->
  arr_set (node_list s) (id - input_variable_count (opts s0) - 1)
          (set_ring_value (Some v) (set_ring_value r node0)) = Some nl ->
  ring_inv s0 (set_node_list nl s) w (id + 1).
Proof.
  intros (Hs & Hlen & Hrel) Hnode Hcur Hv Hset. split; [|split].
  - destruct Hs as [nl0 ->]. exists nl. reflexivity.
  - change (node_list (set_node_list nl s)) with nl.
    rewrite (arr_set_length _ _ _ _ Hset). exact Hlen.
  - intros i n0 Hi. change (node_list (set_node_list nl s)) with nl.
    destruct (Z.eq_dec i (id - input_variable_count (opts s0) - 1)) as [->|Hne].
    + exists (Some v). rewrite (arr_get_set_eq _ _ _ _ Hset).
      assert (n0 = node0) by congruence. subst n0.
      split; [reflexivity|]. intros _. exists v. split; [reflexivity|].
      replace (id - input_variable_count (opts s0) - 1 +
               input_variable_count (opts s0) + 1) with id by lia.
      exact Hv.
    + rewrite (arr_get_set_ne _ _ _ i _ Hset) by congruence.
      destruct (Hrel _ _ Hi) as (r' & Hr' & Hval). exists r'.
      split; [exact Hr'|]. intros Hlt. apply Hval. lia.
Qed.

Lemma ring_nodes_loop_spec count : forall id s val0,
  ring_inv s0 s w id ->
  input_variable_count (opts s0) < id ->
  id + Z.of_nat count - 1 <= declared_root s0 ->
  exists s' val,
    ring_nodes_loop count id w val0 s = Ok val s' /\
    ring_inv s0 s' w (id + Z.of_nat count) /\
    match count with
    | O => val = val0
    | S _ => exists v, val = Some v /\
               pog_value (fuel_of s0 (id + Z.of_nat count - 1)) s0 w
                         (id + Z.of_nat count - 1) = Some v
    end.
Proof.
  induction count as [|c IH]; intros id s val0 Hinv Hid Hroot.
  - exists s, val0. split; [reflexivity|]. split; [|reflexivity].
    replace (id + Z.of_nat 0) with id by lia. exact Hinv.
  - rewrite Nat2Z.inj_succ in *.
    destruct Hvalid as (_ & _ & _ & _ & Hnodes).
    destruct (Hnodes id) as (node0 & Hnode & Htype & Hchildren); [lia|].
    pose proof (ring_inv_opts _ _ Hinv) as Hopts.
    destruct Hinv as (Hs & Hlen & Hrel).
    destruct (Hrel _ _ Hnode) as (r & Hr & _).
    assert (Hinv : ring_inv s0 s w id) by (split; [|split]; assumption).
    destruct (ring_node_value s id node0 Hinv) as (u & v & Hunit & Hrun & Hv);
      [lia|assumption..|].
    destruct (update_node_ok (id - input_variable_count (opts s0) - 1)
                (set_ring_value (Some v)) s _ Hr) as (nl & Hset & Hupd).
    pose proof (ring_inv_store s id node0 r v nl Hinv Hnode Hr Hv Hset) as Hinv1.
    destruct (IH (id + 1) (set_node_list nl s) (Some v) Hinv1)
      as (s' & val & Hloop & Hinv' & Hval); [lia|lia|].
    exists s', val. split; [|split].
    + cbn [ring_nodes_loop]. unfold bind at 1, get at 1.
      rewrite <- Hopts in Hr. rewrite (node_find_some _ _ _ Hr).
      unfold bind at 1, defined at 1, ret at 1.
      unfold bind at 1, read_node, bind at 1, get at 1, defined at 1. rewrite Hr.
      unfold ret at 1.
      change (node_type (set_ring_value r node0)) with (node_type node0).
      change (children (set_ring_value r node0)) with (children node0).
      unfold bind at 1. rewrite Hunit.
      unfold bind at 1. rewrite Hrun.
      unfold bind at 1. rewrite Hopts, Hupd. exact Hloop.
    + replace (id + Z.succ (Z.of_nat c)) with (id + 1 + Z.of_nat c) by lia.
      exact Hinv'.
    + destruct c as [|c'].
      * subst val. exists v. split; [reflexivity|].
        replace (id + Z.succ (Z.of_nat 0) - 1) with id by lia. exact Hv.
      * replace (id + Z.succ (Z.of_nat (S c')) - 1)
          with (id + 1 + Z.of_nat (S c') - 1) by lia.
        exact Hval.
Qed.

Lemma ring_inv_weaken s k k' :
  ring_inv s0 s w k -> k' <= k -> ring_inv s0 s w k'.
Proof.
  intros (Hs & Hlen & Hrel) Hle. split; [exact Hs|]. split; [exact Hlen|].
  intros i n0 Hi. destruct (Hrel _ _ Hi) as (r & Hr & Hval). exists r.
  split; [exact Hr|]. intros Hlt. apply Hval. lia.
Qed.

Lemma ring_inv_start : ring_inv s0 s0 w (input_variable_count (opts s0) + 1).
Proof.
  split; [|split].
  - exists (node_list s0). destruct s0. reflexivity.
  - reflexivity.
  - intros i n0 Hi. exists (ring_value n0). split.
    + rewrite Hi. destruct n0. reflexivity.
    + intros Hlt. apply arr_get_some_range in Hi. lia.
Qed.

(** Freeing the ring values keeps the shape of the nodes. *)
Lemma ring_clear_loop_ok count : forall id s,
  ring_inv s0 s w (input_variable_count (opts s0) + 1) ->
  input_variable_count (opts s0) < id ->
  id + Z.of_nat count - 1 <= declared_root s0 ->
  exists s', ring_clear_loop count id s = Ok tt s'.
Proof.
  induction count as [|c IH]; intros id s Hinv Hid Hroot.
  - exists s. reflexivity.
  - rewrite Nat2Z.inj_succ in *.
    destruct Hvalid as (_ & _ & _ & _ & Hnodes).
    destruct (Hnodes id) as (node0 & Hnode & _); [lia|].
    pose proof (ring_inv_opts _ _ Hinv) as Hopts.
    destruct Hinv as (Hs & Hlen & Hrel).
    destruct (Hrel _ _ Hnode) as (r & Hr & _).
    destruct (update_node_ok (id - input_variable_count (opts s0) - 1)
                (set_ring_value None) s _ Hr) as (nl & Hset & Hupd).
    assert (Hinv1 : ring_inv s0 (set_node_list nl s) w
                             (input_variable_count (opts s0) + 1)).
    { split; [|split].
      - destruct Hs as [nl0 ->]. exists nl. reflexivity.
      - change (node_list (set_node_list nl s)) with nl.
        rewrite (arr_set_length _ _ _ _ Hset). exact Hlen.
      - intros i n0 Hi. change (node_list (set_node_list nl s)) with nl.
        destruct (Z.eq_dec i (id - input_variable_count (opts s0) - 1)) as [->|Hne].
        + exists None. rewrite (arr_get_set_eq _ _ _ _ Hset).
          assert (n0 = node0) by congruence. subst n0.
          split; [reflexivity|]. intros Hlt. lia.
        + rewrite (arr_get_set_ne _ _ _ i _ Hset) by congruence.
          destruct (Hrel _ _ Hi) as (r' & Hr' & Hval). exists r'.
          split; [exact Hr'|]. intros Hlt. apply arr_get_some_range in Hi. lia. }
    destruct (IH (id + 1) (set_node_list nl s) Hinv1) as [s' Hs']; [lia|lia|].
    exists s'. cbn [ring_clear_loop]. unfold bind at 1, get at 1.
    rewrite <- Hopts in Hr. rewrite (node_find_some _ _ _ Hr).
    unfold bind at 1, defined at 1, ret at 1.
    unfold bind at 1. rewrite Hopts, Hupd. exact Hs'.
Qed.

(** [ring_evaluate] returns the value of the root. *)
Lemma ring_evaluate_spec :
  exists v s',
    pog_value (fuel_of s0 (declared_root s0)) s0 w (declared_root s0) = Some v /\
    ring_evaluate w s0 = Ok v s'.
Proof.
  destruct Hvalid as (Hsat & Hpos & Hroot & _ & _).
  set (first := input_variable_count (opts s0) + 1).
  set (count := Z.to_nat (declared_root s0 + 1 - first)).
  destruct (ring_nodes_loop_spec count first s0 None ring_inv_start)
    as (s1 & val & Hloop & Hinv & Hval); [unfold first; lia|unfold count, first; lia|].
  destruct count as [|c] eqn:Ec; [unfold count, first in Ec; lia|].
  destruct Hval as (v & -> & Hv).
  replace (first + Z.of_nat (S c) - 1) with (declared_root s0) in Hv
    by (unfold count, first in *; lia).
  destruct (ring_clear_loop_ok (S c) first s1) as [s' Hs'];
    [eapply ring_inv_weaken; [exact Hinv|unfold first; lia]
    |unfold first; lia|unfold count, first in *; lia|].
  exists v, s'. split; [exact Hv|].
  unfold ring_evaluate, bind at 1, get at 1. rewrite Hsat.
  fold first. fold count. rewrite Ec.
  unfold bind at 1. rewrite Hloop.
  unfold bind at 1, defined at 1, ret at 1.
  unfold bind at 1. rewrite Hs'. reflexivity.
Qed.

End RingLoop.

Lemma count_show_spec count : forall v nvar s,
  1 <= v ->
  v - 1 + Z.of_nat count <= zlength (show_variables (opts s)) ->
  count_show count v nvar s =
    Ok (nvar + zlength (filter (fun b : bool => b = true)
                               (take count (drop (Z.to_nat (v - 1))
                                                 (show_variables (opts s))))))
       s.
Proof.
  induction count as [|c IH]; intros v nvar s Hv Hlen.
  - cbn [count_show take]. unfold ret, zlength. simpl. rewrite Z.add_0_r. reflexivity.
  - rewrite Nat2Z.inj_succ in Hlen.
    destruct (arr_get_in_range (show_variables (opts s)) (v - 1)) as [b Hb]; [lia|].
    cbn [count_show]. unfold bind at 1, get at 1. rewrite Hb.
    unfold bind at 1, defined at 1, ret at 1.
    rewrite IH by lia.
    unfold arr_get in Hb. destruct (Z.ltb_spec (v - 1) 0); [lia|].
    rewrite (drop_S _ _ _ Hb). cbn [take].
    replace (Z.to_nat (v + 1 - 1)) with (S (Z.to_nat (v - 1))) by lia.
    rewrite filter_cons. f_equal.
    destruct b; simpl.
    + unfold zlength. simpl length. lia.
    + reflexivity.
Qed.

Lemma q25_half : q25_scale (q25_from_32 1) (-1) 0 = (/ q25_from_32 2)%Qc.
Proof. apply Qc_is_canon. reflexivity. Qed.

Lemma q25_scale_pow2 (q : q25_ptr) (n : Z) :
  0 <= n -> q25_scale q n 0 = (q * q25_from_32 2 ^ Z.to_nat n)%Qc.
Proof.
  intros Hn. unfold q25_scale, q25_pow.
  destruct (Z.ltb_spec n 0); [lia|].
  change (0 <? 0) with false. cbv iota.
  change (Z.to_nat 0) with O. unfold q25_ptr in *. simpl Qcpower. ring.
Qed.

Lemma data_variable_count_nonneg s : 0 <= data_variable_count s.
Proof. unfold data_variable_count, zlength. lia. Qed.

(** C6, amended.  For a POG that is not declared unsatisfiable, whose root is a
    node, in which every id from the first node to the root is a node with
    a type and the children of every product or sum node are literals of
    input variables or of nodes with a smaller id (and, in projected mode,
    in which [show_variables] covers the input variables), the regular
    model count that [count_regular] returns is the value of the root in
    the bottom-up evaluation of the POG with the weight one half for every
    input variable, multiplied by two to the power of the number of input
    variables, or of the number of data (show) variables in projected
    mode. *)
Theorem count_regular_is_scaled_evaluation (s : checker) :
  pog_evaluable s ->
  exists v s',
    pog_value (fuel_of s (declared_root s)) s
              (replicate (Z.to_nat (input_variable_count (opts s)))
                         (/ q25_from_32 2)%Qc)
              (declared_root s) = Some v /\
    count_regular s = Ok (v * q25_from_32 2 ^ count_exponent s)%Qc s'.
Proof.
  intros Hvalid.
  assert (Hpos : 0 <= input_variable_count (opts s)) by apply Hvalid.
  set (w := replicate (Z.to_nat (input_variable_count (opts s)))
                      (/ q25_from_32 2)%Qc).
  assert (Hw : zlength w = input_variable_count (opts s))
    by (unfold w, zlength; rewrite length_replicate; lia).
  destruct (ring_evaluate_spec s w Hvalid Hw) as (v & s' & Hv & Hrun).
  exists v, s'. split; [exact Hv|].
  unfold count_regular, bind at 1, get at 1. rewrite q25_half.
  match goal with
  | |- context [ring_evaluate ?x] =>
      change (ring_evaluate x) with (ring_evaluate w)
  end.
  unfold count_exponent.
  destruct (is_pkc (opts s)) eqn:Hpkc.
  - destruct Hvalid as (_ & _ & _ & Hshow & _).
    unfold bind at 1. rewrite count_show_spec by (specialize (Hshow Hpkc); lia).
    unfold bind at 1. rewrite Hrun. unfold ret.
    change (drop (Z.to_nat (1 - 1)) (show_variables (opts s)))
      with (show_variables (opts s)).
    rewrite Z.add_0_l. fold (data_variable_count s).
    rewrite q25_scale_pow2 by apply data_variable_count_nonneg. reflexivity.
  - unfold bind at 1, ret at 1. unfold bind at 1. rewrite Hrun. unfold ret.
    rewrite q25_scale_pow2 by assumption. reflexivity.
Qed.

Example xor_cpog_accepted :
  exists s, run (cpog_read xor_cpog) xor_cnf = Ok tt s /\
            root_clause_added s = true /\ declared_root s = 5.
Proof.
  exists xor_pog. split; [vm_compute; reflexivity|]. split; reflexivity.
Qed.

Lemma xor_pog_evaluable : pog_evaluable xor_pog.
Proof.
  split; [reflexivity|]. split; [vm_compute; discriminate|].
  split; [reflexivity|]. split; [discriminate|].
  intros id Hid. change (input_variable_count (opts xor_pog)) with 2 in *.
  change (declared_root xor_pog) with 5 in Hid.
  assert (Hcases : id = 3 \/ id = 4 \/ id = 5) by lia.
  destruct Hcases as [-> | [-> | ->]].
  - eexists. split; [vm_compute; reflexivity|]. split; [discriminate|].
    intros _. cbn [children].
    constructor; [split; [lia|left; vm_compute; discriminate]|].
    constructor; [split; [lia|left; vm_compute; discriminate]|constructor].
  - eexists. split; [vm_compute; reflexivity|]. split; [discriminate|].
    intros _. cbn [children].
    constructor; [split; [lia|left; vm_compute; discriminate]|].
    constructor; [split; [lia|left; vm_compute; discriminate]|constructor].
  - eexists. split; [vm_compute; reflexivity|]. split; [discriminate|].
    intros _. cbn [children].
    constructor; [split; [lia|right; vm_compute; reflexivity]|].
    constructor; [split; [lia|right; vm_compute; reflexivity]|constructor].
Qed.

(** C6 fails as stated: the file [gap_cpog] is accepted: it is read without error, the unit
    clause of its root is added and its input clause is deleted, so that
    [cpog_final_root] has no clause left to check.  [count_regular] then
    exits at the id 2, which is no node. *)
Lemma count_regular_exits_on_accepted_pog :
  run (cpog_read gap_cpog) self_child_cnf = Ok tt gap_pog /\
  root_clause_added gap_pog = true /\
  declared_unsatisfiable gap_pog = false /\
  explicit_deletion_count gap_pog = input_clause_count (opts gap_pog) /\
  exists s', count_regular gap_pog = Err (InvalidNodeType 2) s'.
Proof.
  split; [vm_compute; reflexivity|]. split; [reflexivity|].
  split; [reflexivity|]. split; [reflexivity|].
  eexists. vm_compute. reflexivity.
Qed.

Lemma count_regular_is_scaled_evaluation_witness :
  exists s', count_regular xor_pog = Ok (q25_from_32 2) s'.
Proof.
  destruct (count_regular_is_scaled_evaluation xor_pog xor_pog_evaluable)
    as (v & s' & Hv & Hrun).
  exists s'. rewrite Hrun. f_equal.
  vm_compute in Hv. injection Hv as <-.
  apply Qc_is_canon. reflexivity.
Defined.

(** ** Frame rules *)

Section Frames.

Context {X : Type} (proj : checker -> X).

Lemma keeps_ret {A} (a : A) : keeps proj (ret a).
Proof. intros s. reflexivity. Qed.

Lemma keeps_err {A} e : keeps proj (err_printf (A:=A) e).
Proof. intros s. reflexivity. Qed.

Lemma keeps_undef {A} : keeps proj (undef (A:=A)).
Proof. intros s. exact I. Qed.

Lemma keeps_get : keeps proj get.
Proof. intros s. reflexivity. Qed.

Lemma keeps_defined {A} (o : option A) : keeps proj (defined o).
Proof. destruct o; [apply keeps_ret|apply keeps_undef]. Qed.

Lemma keeps_modify f : (forall s, proj (f s) = proj s) -> keeps proj (modify f).
Proof. intros H s. apply H. Qed.

Lemma keeps_bind {A B} (c : M checker A) (k : A -> M checker B) :
  keeps proj c -> (forall a, keeps proj (k a)) -> keeps proj (bind c k).
Proof.
  intros Hc Hk s. unfold bind. specialize (Hc s).
  destruct (c s) as [a s1|e s1| |]; try assumption.
  specialize (Hk a s1). destruct (k a s1); try assumption; congruence.
Qed.

(** A command that starts by reading the state. *)
Lemma keeps_get_bind {A} (k : checker -> M checker A) :
  (forall s0, keeps proj (k s0)) -> keeps proj (bind get k).
Proof. intros Hk. apply keeps_bind; [apply keeps_get|exact Hk]. Qed.

End Frames.

(** What a successful sequence went through. *)
Lemma bind_ok {S A B} (c : M S A) (k : A -> M S B) s b s' :
  bind c k s = Ok b s' -> exists a s1, c s = Ok a s1 /\ k a s1 = Ok b s'.
Proof.
  unfold bind. destruct (c s) as [a s1|e s1| |]; try discriminate. eauto.
Qed.

Lemma bind_err_first {S A B} (c : M S A) (k : A -> M S B) s e s' :
  c s = Err e s' -> bind c k s = Err e s'.
Proof. unfold bind. intros ->. reflexivity. Qed.

Lemma bind_ok_then {S A B} (c : M S A) (k : A -> M S B) s a s1 :
  c s = Ok a s1 -> bind c k s = k a s1.
Proof. unfold bind. intros ->. reflexivity. Qed.

Section NodeFrames.

Context {X : Type} (proj : checker -> X).
(** The part [proj] is untouched by the node store, the literal set and
    the input. *)
Hypothesis proj_nodes : forall x s, proj (set_node_list x s) = proj s.
Hypothesis proj_limit : forall x s, proj (set_variable_limit x s) = proj s.
Hypothesis proj_count : forall x s, proj (set_node_count x s) = proj s.
Hypothesis proj_tokens : forall x s, proj (set_tokens x s) = proj s.
Hypothesis proj_lset : forall x s, proj (set_lset x s) = proj s.

Lemma keeps_token_next : keeps proj token_next.
Proof.
  intros s. unfold token_next. destruct (tokens s); [reflexivity|].
  apply proj_tokens.
Qed.

Lemma keeps_set_tokens r : keeps proj (modify (set_tokens r)).
Proof. apply keeps_modify. intros; apply proj_tokens. Qed.

Lemma keeps_update_node idx f : keeps proj (update_node idx f).
Proof.
  unfold update_node. apply keeps_get_bind. intros s0.
  apply keeps_bind; [apply keeps_defined|intros node].
  apply keeps_bind; [apply keeps_defined|intros nodes].
  apply keeps_modify. intros; apply proj_nodes.
Qed.

Lemma keeps_read_node idx : keeps proj (read_node idx).
Proof. unfold read_node. apply keeps_get_bind. intros. apply keeps_defined. Qed.

Lemma keeps_node_new type id cid : keeps proj (node_new type id cid).
Proof.
  unfold node_new. apply keeps_get_bind. intros s0.
  destruct (id <=? _); [apply keeps_err|].
  apply keeps_bind.
  - destruct (_ <? _); [|apply keeps_ret].
    apply keeps_bind; [apply keeps_modify; intros; apply proj_nodes|intros].
    apply keeps_modify; intros; apply proj_limit.
  - intros _. apply keeps_get_bind. intros s1.
    apply keeps_bind; [apply keeps_defined|intros idx].
    apply keeps_bind; [apply keeps_read_node|intros node].
    destruct (negb _); [apply keeps_err|].
    apply keeps_bind; [apply keeps_update_node|intros].
    apply keeps_bind; [apply keeps_modify; intros; apply proj_count|intros].
    apply keeps_ret.
Qed.

Lemma keeps_sum_children_loop ts weak nid idx : forall local,
  keeps proj (sum_children_loop ts weak nid idx local).
Proof.
  induction ts as [|t r IH]; intros local; [apply keeps_err|].
  destruct t; cbn [sum_children_loop];
    try (apply keeps_bind; [apply keeps_set_tokens|intros; apply keeps_err]).
  apply keeps_bind; [apply keeps_set_tokens|intros _].
  destruct (weak && _); [apply keeps_ret|].
  apply keeps_bind; [apply keeps_update_node|intros _].
  apply keeps_get_bind. intros s0.
  apply keeps_bind.
  - destruct (_ <=? _).
    + apply keeps_bind; [|intros; apply keeps_ret].
      destruct (is_pkc _); [|apply keeps_ret].
      apply keeps_bind; [apply keeps_defined|intros show].
      destruct (negb show); [apply keeps_err|apply keeps_ret].
    + destruct (negb _); [apply keeps_err|].
      destruct (node_find _ _); [|apply keeps_err].
      apply keeps_bind; [apply keeps_read_node|intros cnode].
      destruct (node_type_eqb _ _); [apply keeps_err|].
      apply keeps_bind; [apply keeps_read_node|intros node].
      apply keeps_bind; [apply keeps_update_node|intros; apply keeps_ret].
  - intros local'. apply keeps_bind; [apply keeps_read_node|intros node].
    destruct (negb weak && _); [apply keeps_ret|apply IH].
Qed.

Lemma keeps_sum_children cid weak : keeps proj (sum_children cid weak).
Proof.
  unfold sum_children. apply keeps_bind; [apply keeps_token_next|intros token].
  destruct token; try apply keeps_err.
  apply keeps_bind; [apply keeps_node_new|intros idx].
  apply keeps_bind; [apply keeps_update_node|intros _].
  apply keeps_bind; [apply keeps_update_node|intros _].
  apply keeps_get_bind. intros s0.
  apply keeps_bind; [apply keeps_sum_children_loop|intros local].
  apply keeps_bind; [|intros; apply keeps_ret].
  destruct (0 <? _); [|apply keeps_ret].
  apply keeps_bind; [apply keeps_read_node|intros node].
  apply keeps_update_node.
Qed.

Lemma keeps_lset_clear_m : keeps proj lset_clear_m.
Proof. apply keeps_modify. intros; apply proj_lset. Qed.

Lemma keeps_lset_add_lit_m lit : keeps proj (lset_add_lit_m lit).
Proof.
  intros s. unfold lset_add_lit_m.
  destruct (lset_add_lit lit (lset s)) as [[b l]|]; [apply proj_lset|exact I].
Qed.

Lemma keeps_rup_discard ts : keeps proj (rup_discard ts).
Proof.
  induction ts as [|t r IH]; [apply keeps_err|].
  destruct t; cbn [rup_discard];
    try (apply keeps_bind; [apply keeps_set_tokens|intros; apply keeps_err]).
  apply keeps_bind; [apply keeps_set_tokens|intros _].
  destruct (_ =? _); [apply keeps_ret|apply IH].
Qed.

Lemma keeps_rup_run_loop ts tcid target : forall conflict ok steps,
  keeps proj (rup_run_loop ts tcid target conflict ok steps).
Proof.
  induction ts as [|t r IH]; intros conflict ok steps; [apply keeps_err|].
  destruct t; cbn [rup_run_loop];
    try (apply keeps_bind; [apply keeps_set_tokens|intros; apply keeps_err]).
  apply keeps_bind; [apply keeps_set_tokens|intros _].
  destruct (_ =? 0).
  - destruct (negb conflict); [apply keeps_err|].
    destruct (negb ok); [apply keeps_err|apply keeps_ret].
  - destruct conflict.
    + apply keeps_get_bind. intros s0. destruct (early_rup _); [|apply keeps_err].
      apply keeps_bind; [apply keeps_rup_discard|intros _].
      destruct (negb ok); [apply keeps_err|apply keeps_ret].
    + apply keeps_get_bind. intros s0.
      destruct (find_clause _ _); [|apply keeps_err].
      apply keeps_bind; [apply keeps_defined|intros htype].
      apply keeps_bind; [apply keeps_defined|intros lits].
      destruct (_ =? RUP_CONFLICT); [apply IH|].
      destruct (_ =? RUP_STALL).
      * destruct (skipping_rup _); [apply IH|apply keeps_err].
      * apply keeps_bind; [apply keeps_lset_add_lit_m|intros; apply IH].
Qed.

Lemma keeps_rup_run tcid target : keeps proj (rup_run tcid target).
Proof. unfold rup_run. apply keeps_get_bind. intros. apply keeps_rup_run_loop. Qed.

Lemma keeps_sum_mutex cid idx : keeps proj (sum_mutex cid idx).
Proof.
  unfold sum_mutex. apply keeps_bind; [apply keeps_lset_clear_m|intros _].
  apply keeps_bind; [apply keeps_read_node|intros node].
  apply keeps_bind; [apply keeps_defined|intros c0].
  apply keeps_bind; [apply keeps_lset_add_lit_m|intros _].
  apply keeps_bind; [apply keeps_defined|intros c1].
  apply keeps_bind; [apply keeps_lset_add_lit_m|intros _].
  apply keeps_rup_run.
Qed.

End NodeFrames.

(** ** Storing a clause *)

Section EmitFacts.

(** The ints stored so far, chunk after chunk. *)
Local Abbreviation payload s := (concat (chunk_set s)).

Lemma arr_get_last_inv {A} (l : list A) (c : A) :
  arr_get l (zlength l - 1) = Some c -> exists front, l = front ++ [c].
Proof.
  intros H. destruct (list.last l) as [c'|] eqn:Hlast.
  - apply last_Some in Hlast. destruct Hlast as [front ->]. exists front.
    rewrite arr_get_last in H. congruence.
  - apply last_None in Hlast. subst l. discriminate.
Qed.

Lemma modify_ok (f : checker -> checker) s u s' :
  modify f s = Ok u s' -> s' = f s.
Proof. unfold modify. congruence. Qed.

Lemma defined_ok {A} (o : option A) (s : checker) a s' :
  defined o s = Ok a s' -> o = Some a /\ s' = s.
Proof. destruct o; unfold defined, ret, undef; [|discriminate]. intros [= -> ->]. auto. Qed.

Lemma get_ok (s : checker) a s' : get s = Ok a s' -> a = s /\ s' = s.
Proof. unfold get. intros [= -> ->]. auto. Qed.

Lemma ret_ok {A} (x : A) (s : checker) a s' : ret x s = Ok a s' -> a = x /\ s' = s.
Proof. unfold ret. intros [= -> ->]. auto. Qed.

Lemma start_clause_post cid s u s' :
  start_clause cid s = Ok u s' ->
  chunk_set s' = chunk_set s /\ current_clause s' = [] /\
  clause_last_id s' = cid /\ node_list s' = node_list s /\
  opts s' = opts s /\ variable_limit s' = variable_limit s.
Proof.
  unfold start_clause. intros H.
  apply bind_ok in H. destruct H as (s0 & s1 & Hget & H).
  apply get_ok in Hget. destruct Hget as [-> ->].
  destruct (cid <=? clause_last_id s); [discriminate|].
  apply bind_ok in H. destruct H as (u1 & s1 & Hblocks & H).
  assert (Hs1 : exists bl, s1 = set_clause_blocks bl s).
  { destruct (_ || _).
    - apply modify_ok in Hblocks. eauto.
    - apply bind_ok in Hblocks. destruct Hblocks as (b & s2 & Hb & Hblocks).
      apply defined_ok in Hb. destruct Hb as [_ ->].
      apply bind_ok in Hblocks. destruct Hblocks as (bl & s2 & Hbl & Hblocks).
      apply defined_ok in Hbl. destruct Hbl as [_ ->].
      apply modify_ok in Hblocks. eauto. }
  destruct Hs1 as [bl ->].
  apply bind_ok in H. destruct H as (u2 & s2 & H2 & H). apply modify_ok in H2. subst s2.
  apply bind_ok in H. destruct H as (u3 & s3 & H3 & H). apply modify_ok in H3. subst s3.
  apply modify_ok in H. subst s'. repeat split; reflexivity.
Qed.

Lemma clause_add_literal_post lit s u s' :
  clause_add_literal lit s = Ok u s' ->
  s' = set_current_clause (current_clause s ++ [lit]) s.
Proof.
  unfold clause_add_literal. intros H.
  apply bind_ok in H. destruct H as (u1 & s1 & H1 & H). apply modify_ok in H1. subst s1.
  apply bind_ok in H. destruct H as (s0 & s1 & Hget & H).
  apply get_ok in Hget. destruct Hget as [-> ->].
  destruct (_ && _); [discriminate|]. apply ret_ok in H. apply H.
Qed.

Lemma clause_add_literals_post lits : forall s u s',
  clause_add_literals lits s = Ok u s' ->
  s' = set_current_clause (current_clause s ++ lits) s.
Proof.
  induction lits as [|lit r IH]; intros s u s' H.
  - apply ret_ok in H. destruct H as [_ ->]. rewrite app_nil_r.
    destruct s; reflexivity.
  - cbn [clause_add_literals] in H.
    apply bind_ok in H. destruct H as (u1 & s1 & H1 & H).
    apply clause_add_literal_post in H1. subst s1.
    apply IH in H. subst s'. simpl. rewrite <- app_assoc. reflexivity.
Qed.

Lemma finish_clause_post cid type s u s' :
  finish_clause cid type s = Ok u s' ->
  payload s' = payload s ++ current_clause s /\
  clause_last_id s' = clause_last_id s /\ node_list s' = node_list s /\
  opts s' = opts s /\ variable_limit s' = variable_limit s.
Proof.
  unfold finish_clause. intros H.
  apply bind_ok in H. destruct H as (s0 & s1 & Hget & H).
  apply get_ok in Hget. destruct Hget as [-> ->].
  destruct (CHUNK_SIZE <? _); [discriminate|].
  apply bind_ok in H. destruct H as (u1 & s1 & Hchunk & H).
  assert (Hs1 : exists cs, s1 = set_chunk_set cs s /\ concat cs = payload s).
  { destruct (CHUNK_SIZE <? _).
    - destruct (_ <=? _); [discriminate|]. apply modify_ok in Hchunk.
      eexists. split; [exact Hchunk|]. rewrite concat_app. simpl.
      rewrite app_nil_r. reflexivity.
    - apply ret_ok in Hchunk. destruct Hchunk as [_ ->].
      exists (chunk_set s). split; [destruct s; reflexivity|reflexivity]. }
  destruct Hs1 as (cs & -> & Hcs).
  apply bind_ok in H. destruct H as (s0 & s1 & Hget & H).
  apply get_ok in Hget. destruct Hget as [-> ->].
  apply bind_ok in H. destruct H as (c & s1 & Hc & H).
  apply defined_ok in Hc. destruct Hc as [Hc ->].
  apply bind_ok in H. destruct H as (chunks & s1 & Hchunks & H).
  apply defined_ok in Hchunks. destruct Hchunks as [Hchunks ->].
  apply bind_ok in H. destruct H as (u2 & s2 & H2 & H). apply modify_ok in H2. subst s2.
  apply bind_ok in H. destruct H as (b & s2 & Hb & H).
  apply defined_ok in Hb. destruct Hb as [_ ->].
  apply bind_ok in H. destruct H as (bl & s2 & Hbl & H).
  apply defined_ok in Hbl. destruct Hbl as [_ ->].
  apply modify_ok in H. subst s'.
  split; [|repeat split; reflexivity].
  change (chunk_set (set_clause_blocks bl (set_chunk_set chunks (set_chunk_set cs s))))
    with chunks.
  unfold chunk_count in Hc, Hchunks.
  change (chunk_set (set_chunk_set cs s)) with cs in Hc, Hchunks.
  change (current_clause (set_chunk_set cs s)) with (current_clause s) in Hchunks.
  destruct (arr_get_last_inv _ _ Hc) as [front ->].
  rewrite arr_set_last in Hchunks. injection Hchunks as <-.
  rewrite <- Hcs, !concat_app. simpl. rewrite !app_nil_r, app_assoc. reflexivity.
Qed.

(** The clauses of the children add their ints to the payload. *)
Lemma child_clauses_post first sign ctype cs : forall cid s u s',
  child_clauses cid first sign ctype cs s = Ok u s' ->
  payload s' = payload s ++ concat (map (fun c => [first; sign * c; 0]) cs) /\
  clause_last_id s' =
    match cs with [] => clause_last_id s | _ => cid + zlength cs - 1 end /\
  node_list s' = node_list s.
Proof.
  induction cs as [|c r IH]; intros cid s u s' H.
  - apply ret_ok in H. destruct H as [_ ->]. simpl. rewrite app_nil_r.
    repeat split; reflexivity.
  - cbn [child_clauses] in H.
    apply bind_ok in H. destruct H as (u1 & s1 & H1 & H).
    apply start_clause_post in H1. destruct H1 as (Hch1 & Hcur1 & Hid1 & Hn1 & _).
    apply bind_ok in H. destruct H as (u2 & s2 & H2 & H).
    apply clause_add_literal_post in H2. subst s2.
    apply bind_ok in H. destruct H as (u3 & s3 & H3 & H).
    apply clause_add_literal_post in H3. subst s3.
    apply bind_ok in H. destruct H as (u4 & s4 & H4 & H).
    apply clause_add_literal_post in H4. subst s4.
    apply bind_ok in H. destruct H as (u5 & s5 & H5 & H).
    apply finish_clause_post in H5. destruct H5 as (Hp5 & Hid5 & Hn5 & _).
    simpl in Hp5, Hid5, Hn5. rewrite Hcur1 in Hp5. simpl in Hp5.
    apply IH in H. destruct H as (Hp & Hid & Hn).
    split; [|split].
    + rewrite Hp, Hp5, Hch1. simpl. rewrite <- app_assoc. reflexivity.
    + rewrite Hid. destruct r as [|c' r'].
      * rewrite Hid5, Hid1. unfold zlength. simpl. lia.
      * unfold zlength. simpl length. lia.
    + rewrite Hn, Hn5, Hn1. reflexivity.
Qed.

End EmitFacts.

(** ** Sum nodes *)

Section SumFacts.

Lemma read_node_ok idx s node s' :
  read_node idx s = Ok node s' ->
  arr_get (node_list s) idx = Some node /\ s' = s.
Proof.
  unfold read_node. intros H.
  apply bind_ok in H. destruct H as (s0 & s1 & Hget & H).
  apply get_ok in Hget. destruct Hget as [-> ->].
  apply defined_ok in H. exact H.
Qed.

Lemma update_node_post idx f s u s' :
  update_node idx f s = Ok u s' ->
  exists n nl, arr_get (node_list s) idx = Some n /\
               arr_set (node_list s) idx (f n) = Some nl /\
               s' = set_node_list nl s.
Proof.
  unfold update_node. intros H.
  apply bind_ok in H. destruct H as (s0 & s1 & Hget & H).
  apply get_ok in Hget. destruct Hget as [-> ->].
  apply bind_ok in H. destruct H as (n & s1 & Hn & H).
  apply defined_ok in Hn. destruct Hn as [Hn ->].
  apply bind_ok in H. destruct H as (nl & s1 & Hnl & H).
  apply defined_ok in Hnl. destruct Hnl as [Hnl ->].
  apply modify_ok in H. eauto.
Qed.

(** The strict loop over the children ends with two children. *)
Lemma sum_children_loop_two ts nid idx : forall local s l s1,
  sum_children_loop ts false nid idx local s = Ok l s1 ->
  exists node, arr_get (node_list s1) idx = Some node /\
               zlength (children node) = 2.
Proof.
  induction ts as [|t r IH]; intros local s l s1 H; [discriminate|].
  destruct t; cbn [sum_children_loop] in H;
    try (apply bind_ok in H; destruct H as (? & ? & _ & H); discriminate).
  apply bind_ok in H. destruct H as (u0 & s0 & _ & H).
  cbn [andb] in H.
  apply bind_ok in H. destruct H as (u1 & s2 & _ & H).
  apply bind_ok in H. destruct H as (s3 & s4 & Hget & H).
  apply get_ok in Hget. destruct Hget as [-> ->].
  apply bind_ok in H. destruct H as (local' & s4 & _ & H).
  apply bind_ok in H. destruct H as (node & s5 & Hnode & H).
  apply read_node_ok in Hnode. destruct Hnode as [Hnode ->].
  cbn [negb andb] in H.
  destruct (Z.eqb_spec (zlength (children node)) 2) as [Htwo|_].
  - apply ret_ok in H. destruct H as [_ ->]. eauto.
  - eapply IH. exact H.
Qed.

(** After the first part of a strict sum command the node has two
    children. *)
Lemma sum_children_two cid s nid idx s1 :
  sum_children cid false s = Ok (nid, idx) s1 ->
  exists node a b, arr_get (node_list s1) idx = Some node /\
                   children node = [a; b].
Proof.
  unfold sum_children. intros H.
  apply bind_ok in H. destruct H as (token & s0 & _ & H).
  destruct token; try discriminate.
  apply bind_ok in H. destruct H as (idx' & s2 & _ & H).
  apply bind_ok in H. destruct H as (u1 & s3 & _ & H).
  apply bind_ok in H. destruct H as (u2 & s4 & _ & H).
  apply bind_ok in H. destruct H as (s5 & s6 & Hget & H).
  apply get_ok in Hget. destruct Hget as [-> ->].
  apply bind_ok in H. destruct H as (local & s6 & Hloop & H).
  apply sum_children_loop_two in Hloop. destruct Hloop as (node & Hnode & Htwo).
  apply bind_ok in H. destruct H as (u3 & s7 & Hdep & H).
  apply ret_ok in H. destruct H as [[= -> ->] ->].
  assert (Hfinal : exists node', arr_get (node_list s7) idx' = Some node' /\
                                 children node' = children node).
  { destruct (0 <? zlength local).
    - apply bind_ok in Hdep. destruct Hdep as (n1 & s8 & Hn1 & Hdep).
      apply read_node_ok in Hn1. destruct Hn1 as [Hn1 ->].
      apply update_node_post in Hdep. destruct Hdep as (n & nl & Hn & Hnl & ->).
      rewrite Hnode in Hn. injection Hn as <-.
      eexists. split; [eapply arr_get_set_eq; exact Hnl|]. reflexivity.
    - apply ret_ok in Hdep. destruct Hdep as [_ ->]. eauto. }
  destruct Hfinal as (node' & Hnode' & Hch).
  exists node'. rewrite Hch.
  destruct (children node) as [|a [|b [|c r]]]; try (unfold zlength in Htwo; simpl in Htwo; lia).
  eauto.
Qed.

(** The second part sets up the two children as the literal set and
    runs the RUP check. *)
Lemma sum_mutex_post cid idx s1 s2 node a b :
  arr_get (node_list s1) idx = Some node -> children node = [a; b] ->
  sum_mutex cid idx s1 = Ok tt s2 ->
  exists b0 l0 b1 l1,
    lset_add_lit a (lset_clear (lset s1)) = Some (b0, l0) /\
    lset_add_lit b l0 = Some (b1, l1) /\
    rup_run cid CLAUSE_STRUCTURAL (set_lset l1 s1) = Ok tt s2.
Proof.
  intros Hnode Hch H. unfold sum_mutex in H.
  apply bind_ok in H. destruct H as (u0 & s0 & H0 & H).
  apply modify_ok in H0. subst s0.
  apply bind_ok in H. destruct H as (n & s0 & Hn & H).
  apply read_node_ok in Hn. destruct Hn as [Hn ->].
  change (node_list (set_lset (lset_clear (lset s1)) s1)) with (node_list s1) in Hn.
  rewrite Hnode in Hn. injection Hn as <-. rewrite Hch in H.
  apply bind_ok in H. destruct H as (c0 & s0 & Hc0 & H).
  apply defined_ok in Hc0. destruct Hc0 as [[= <-] ->].
  apply bind_ok in H. destruct H as (r0 & s0 & Hadd0 & H).
  unfold lset_add_lit_m in Hadd0.
  change (lset (set_lset (lset_clear (lset s1)) s1)) with (lset_clear (lset s1)) in Hadd0.
  destruct (lset_add_lit a (lset_clear (lset s1))) as [[b0 l0]|] eqn:E0; [|discriminate].
  injection Hadd0 as <- <-.
  apply bind_ok in H. destruct H as (c1 & s0 & Hc1 & H).
  apply defined_ok in Hc1. destruct Hc1 as [[= <-] ->].
  apply bind_ok in H. destruct H as (r1 & s0 & Hadd1 & H).
  unfold lset_add_lit_m in Hadd1.
  change (lset (set_lset l0 (set_lset (lset_clear (lset s1)) s1))) with l0 in Hadd1.
  destruct (lset_add_lit b l0) as [[b1 l1]|] eqn:E1; [|discriminate].
  injection Hadd1 as <- <-.
  exists b0, l0, b1, l1. split; [reflexivity|]. split; [exact E1|]. exact H.
Qed.

(** The third part stores the three clauses of the sum node. *)
Lemma sum_clauses_post cid nid idx s2 s' node a b :
  arr_get (node_list s2) idx = Some node -> children node = [a; b] ->
  sum_clauses cid nid idx s2 = Ok tt s' ->
  concat (chunk_set s') =
    concat (chunk_set s2) ++ [- nid; a; b; 0; nid; - a; 0; nid; - b; 0] /\
  clause_last_id s' = cid + 2.
Proof.
  intros Hnode Hch H. unfold sum_clauses in H.
  apply bind_ok in H. destruct H as (u0 & s0 & Heol & H).
  assert (Hs0 : exists ts, s0 = set_tokens ts s2).
  { unfold token_confirm_eol in Heol.
    apply bind_ok in Heol. destruct Heol as (t & s3 & Ht & Heol).
    unfold token_next in Ht. destruct (tokens s2) as [|t' r].
    - injection Ht as <- <-. discriminate.
    - injection Ht as <- <-. destruct t'; try discriminate.
      apply ret_ok in Heol. destruct Heol as [_ ->]. eauto. }
  destruct Hs0 as [ts ->].
  apply bind_ok in H. destruct H as (u1 & s1 & H1 & H).
  apply start_clause_post in H1. destruct H1 as (Hch1 & Hcur1 & Hid1 & Hn1 & _).
  apply bind_ok in H. destruct H as (u2 & s3 & H2 & H).
  apply clause_add_literal_post in H2. subst s3.
  apply bind_ok in H. destruct H as (n & s3 & Hn & H).
  apply read_node_ok in Hn. destruct Hn as [Hn ->].
  change (node_list (set_current_clause (current_clause s1 ++ [- nid]) s1))
    with (node_list s1) in Hn.
  rewrite Hn1 in Hn. change (node_list (set_tokens ts s2)) with (node_list s2) in Hn.
  rewrite Hnode in Hn. injection Hn as <-. rewrite Hch in H.
  apply bind_ok in H. destruct H as (u3 & s3 & H3 & H).
  apply clause_add_literals_post in H3. subst s3.
  apply bind_ok in H. destruct H as (u4 & s4 & H4 & H).
  apply clause_add_literal_post in H4. subst s4.
  apply bind_ok in H. destruct H as (u5 & s5 & H5 & H).
  apply finish_clause_post in H5. destruct H5 as (Hp5 & Hid5 & _).
  simpl in Hp5, Hid5. rewrite Hcur1, Hch1 in Hp5. simpl in Hp5.
  apply child_clauses_post in H. destruct H as (Hp & Hid & _).
  split.
  - rewrite Hp, Hp5. simpl. rewrite <- app_assoc. simpl.
    replace (-1 * a) with (- a) by lia. replace (-1 * b) with (- b) by lia.
    reflexivity.
  - rewrite Hid. unfold zlength. simpl. lia.
Qed.

End SumFacts.

(** C3.  For the strict sum command [s]: the creation of the node and the
    mutual exclusion check leave the stored clauses as they are.  When the
    command succeeds, the two children of the node were set up as the
    literal set (the pair is assumed), the RUP check for a structural
    target succeeded from it, and after it the three defining clauses were
    stored.  When the check fails, the command exits with that failure and
    the stored clauses are those from before the command. *)
Theorem sum_clauses_only_after_mutex (cid : Z) (s : checker) :
  keeps clause_store (sum_children cid false) /\
  (forall idx, keeps clause_store (sum_mutex cid idx)) /\
  (forall s',
      cpog_add_sum cid false s = Ok tt s' ->
      exists nid idx s1 s2 node a b b0 l0 b1 l1,
        sum_children cid false s = Ok (nid, idx) s1 /\
        arr_get (node_list s1) idx = Some node /\ children node = [a; b] /\
        lset_add_lit a (lset_clear (lset s1)) = Some (b0, l0) /\
        lset_add_lit b l0 = Some (b1, l1) /\
        rup_run cid CLAUSE_STRUCTURAL (set_lset l1 s1) = Ok tt s2 /\
        concat (chunk_set s') =
          concat (chunk_set s) ++ [- nid; a; b; 0; nid; - a; 0; nid; - b; 0] /\
        clause_last_id s' = cid + 2) /\
  (forall nid idx s1 e s2,
      sum_children cid false s = Ok (nid, idx) s1 ->
      sum_mutex cid idx s1 = Err e s2 ->
      cpog_add_sum cid false s = Err e s2 /\ clause_store s2 = clause_store s).
Proof.
  assert (Hchildren : keeps clause_store (sum_children cid false))
    by (apply keeps_sum_children; reflexivity).
  assert (Hmutex : forall idx, keeps clause_store (sum_mutex cid idx))
    by (intros; apply keeps_sum_mutex; reflexivity).
  split; [exact Hchildren|]. split; [exact Hmutex|]. split.
  - intros s' H. unfold cpog_add_sum in H.
    apply bind_ok in H. destruct H as ([nid idx] & s1 & Hc & H).
    cbn [negb fst snd] in H.
    apply bind_ok in H. destruct H as ([] & s2 & Hm & H).
    destruct (sum_children_two _ _ _ _ _ Hc) as (node & a & b & Hnode & Hch).
    destruct (sum_mutex_post _ _ _ _ _ _ _ Hnode Hch Hm)
      as (b0 & l0 & b1 & l1 & Ha & Hb & Hrun).
    assert (Hnode2 : arr_get (node_list s2) idx = Some node).
    { pose proof (keeps_sum_mutex node_list (fun _ _ => eq_refl)
                    (fun _ _ => eq_refl) cid idx s1) as Hk.
      rewrite Hm in Hk. rewrite Hk. exact Hnode. }
    destruct (sum_clauses_post _ _ _ _ _ _ _ _ Hnode2 Hch H) as (Hp & Hid).
    exists nid, idx, s1, s2, node, a, b, b0, l0, b1, l1.
    repeat (split; [assumption|]). split; [|exact Hid].
    rewrite Hp. f_equal. f_equal.
    specialize (Hchildren s). rewrite Hc in Hchildren.
    specialize (Hmutex idx s1). rewrite Hm in Hmutex.
    unfold clause_store in *. congruence.
  - intros nid idx s1 e s2 Hc Hm. split.
    + unfold cpog_add_sum. rewrite (bind_ok_then _ _ _ _ _ Hc).
      cbn [negb fst snd]. apply bind_err_first. exact Hm.
    + specialize (Hchildren s). rewrite Hc in Hchildren.
      specialize (Hmutex idx s1). rewrite Hm in Hmutex. congruence.
Qed.

Lemma sum_clauses_only_after_mutex_witness :
  (exists s', cpog_add_sum 9 false xor_before_sum = Ok tt s' /\
              clause_last_id s' = 11) /\
  (let s := set_tokens [TOK_INT 5; TOK_INT 3; TOK_INT 4; TOK_INT 4; TOK_INT 0;
                        TOK_EOL] xor_before_sum in
   exists s2, cpog_add_sum 9 false s = Err (RupFailure 9) s2 /\
              clause_store s2 = clause_store s).
Proof.
  split.
  - destruct (cpog_add_sum 9 false xor_before_sum) as [[] s'| | |] eqn:Hrun;
      try (vm_compute in Hrun; discriminate).
    exists s'. split; [reflexivity|].
    destruct (proj1 (proj2 (proj2 (sum_clauses_only_after_mutex 9 xor_before_sum)))
                s' Hrun) as (nid & idx & s1 & s2 & node & a & b & b0 & l0 & b1 & l1 & H).
    apply H.
  - cbv zeta.
    set (s := set_tokens _ xor_before_sum).
    destruct (sum_children 9 false s) as [[nid idx] s1| | |] eqn:Hc;
      try (vm_compute in Hc; discriminate).
    destruct (sum_mutex 9 idx s1) as [|e s2| |] eqn:Hm.
    + vm_compute in Hc. injection Hc as <- <- <-. vm_compute in Hm. discriminate.
    + exists s2.
      assert (He : e = RupFailure 9).
      { vm_compute in Hc. injection Hc as <- <- <-. vm_compute in Hm.
        injection Hm as <- _. reflexivity. }
      subst e.
      exact (proj2 (proj2 (proj2 (sum_clauses_only_after_mutex 9 s)))
               nid idx s1 (RupFailure 9) s2 Hc Hm).
    + vm_compute in Hc. injection Hc as <- <- <-. vm_compute in Hm. discriminate.
    + vm_compute in Hc. injection Hc as <- <- <-. vm_compute in Hm. discriminate.
Defined.

(** ** Reverse implication *)

Section QueueFacts.

Lemma same_queue_refl p : same_queue p p.
Proof. repeat split; reflexivity. Qed.

Lemma same_queue_trans p1 p2 p3 :
  same_queue p1 p2 -> same_queue p2 p3 -> same_queue p1 p3.
Proof.
  intros (H1 & H2 & H3 & H4) (K1 & K2 & K3 & K4).
  repeat split; try congruence. rewrite K4. exact H4.
Qed.

Lemma arr_get_lookup {A} (l : list A) i x :
  arr_get l i = Some x -> l !! Z.to_nat i = Some x.
Proof. unfold arr_get. destruct (i <? 0); [discriminate|]. auto. Qed.

Lemma swap_queue_ok i j p :
  0 <= i < priority_count p -> 0 <= j < priority_count p ->
  priority_count p <= zlength (priority_queue p) ->
  exists p', swap_queue i j p = Ok tt p' /\ same_queue p p'.
Proof.
  intros Hi Hj Hlen.
  destruct (arr_get_in_range (priority_queue p) i) as [qi Hqi]; [lia|].
  destruct (arr_get_in_range (priority_queue p) j) as [qj Hqj]; [lia|].
  destruct (arr_set_in_range (priority_queue p) i qj) as [q1 Hq1]; [lia|].
  assert (Hl1 : zlength q1 = zlength (priority_queue p)).
  { unfold zlength. rewrite (arr_set_length _ _ _ _ Hq1). reflexivity. }
  destruct (arr_set_in_range q1 j qi) as [q2 Hq2]; [lia|].
  exists (set_priority_queue q2 p). split.
  - unfold swap_queue, bind, get, defined, modify, ret.
    rewrite Hqi. cbn beta iota. rewrite Hqj. cbn beta iota.
    rewrite Hq1. cbn beta iota. rewrite Hq2. reflexivity.
  - split; [reflexivity|]. split; [reflexivity|]. split.
    + simpl. unfold zlength in *. rewrite (arr_set_length _ _ _ _ Hq2). exact Hl1.
    + unfold queued. simpl.
      unfold arr_set in Hq1, Hq2.
      destruct ((i <? 0) || (Z.of_nat (length (priority_queue p)) <=? i)); [discriminate|].
      destruct ((j <? 0) || (Z.of_nat (length q1) <=? j)); [discriminate|].
      injection Hq1 as <-. injection Hq2 as <-.
      rewrite !take_insert_lt by lia.
      apply Permutation_insert_swap.
      * rewrite lookup_take_lt by lia. apply arr_get_lookup, Hqi.
      * rewrite lookup_take_lt by lia. apply arr_get_lookup, Hqj.
Qed.

(** The loop of [sift_up] ends within [idx + 1] rounds. *)
Lemma sift_up_ok fuel : forall idx p,
  0 <= idx < Z.of_nat fuel ->
  idx < priority_count p ->
  priority_count p <= zlength (priority_queue p) ->
  exists p', sift_up fuel idx p = Ok tt p' /\ same_queue p p'.
Proof.
  induction fuel as [|fuel IH]; intros idx p Hfuel Hidx Hlen; [lia|].
  cbn [sift_up]. destruct (Z.ltb_spec 0 idx) as [Hpos|Hnpos].
  2:{ exists p. split; [reflexivity|apply same_queue_refl]. }
  {
    assert (Hpar : 0 <= (idx - 1) / 2 < idx).
    { split; [apply Z.div_pos; lia|]. apply Z.div_lt_upper_bound; lia. }
    destruct (arr_get_in_range (priority_queue p) idx) as [qi Hqi]; [lia|].
    destruct (arr_get_in_range (priority_queue p) ((idx - 1) / 2)) as [qp Hqp]; [lia|].
    unfold bind at 1, get at 1. unfold bind at 1, defined at 1. rewrite Hqi. unfold ret at 1.
    unfold bind at 1, defined at 1. rewrite Hqp. unfold ret at 1.
    destruct (qi <? qp).
    2:{ exists p. split; [reflexivity|apply same_queue_refl]. }
    destruct (swap_queue_ok idx ((idx - 1) / 2) p) as (p1 & Hs & Hsame); [lia|lia|lia|].
    unfold bind at 1. rewrite Hs.
    destruct Hsame as (H1 & H2 & H3 & H4).
    destruct (IH ((idx - 1) / 2) p1) as (p2 & Hs2 & Hsame2); [lia|lia|lia|].
    exists p2. split; [exact Hs2|].
    eapply same_queue_trans; [|exact Hsame2]. repeat split; assumption. }
Qed.

(** The loop of [sift_down] ends within [priority_count - idx + 1]
    rounds. *)
Lemma sift_down_ok fuel : forall idx p,
  0 <= idx ->
  (0 < fuel)%nat ->
  priority_count p - idx < Z.of_nat fuel ->
  priority_count p <= zlength (priority_queue p) ->
  exists p', sift_down fuel idx p = Ok tt p' /\ same_queue p p'.
Proof.
  induction fuel as [|fuel IH]; intros idx p Hidx Hpos Hfuel Hlen.
  - lia.
  - assert (Htail : forall min, idx < min < priority_count p \/ min = idx ->
              idx < priority_count p ->
              exists p', (if min =? idx then ret tt
                          else swap_queue min idx ;;; sift_down fuel min) p
                         = Ok tt p' /\ same_queue p p').
    { intros min Hmin Hi. destruct (Z.eqb_spec min idx) as [|Hne].
      - exists p. split; [reflexivity|apply same_queue_refl].
      - destruct (swap_queue_ok min idx p) as (p1 & Hs & Hsame); [lia|lia|lia|].
        unfold bind. rewrite Hs. pose proof Hsame as (H1 & H2 & H3 & H4).
        destruct (IH min p1) as (p2 & Hs2 & Hsame2); [lia|lia|lia|lia|].
        exists p2. split; [exact Hs2|].
        eapply same_queue_trans; eassumption. }
    cbn [sift_down]. unfold bind at 1, get at 1.
    destruct (Z.ltb_spec (2 * idx + 1) (priority_count p)) as [Hleft|Hnleft].
    2:{ exists p. split; [reflexivity|apply same_queue_refl]. }
    destruct (arr_get_in_range (priority_queue p) idx) as [qi Hqi]; [lia|].
    destruct (arr_get_in_range (priority_queue p) (2 * idx + 1)) as [ql Hql]; [lia|].
    unfold bind at 1, defined at 1. rewrite Hqi. unfold ret at 1.
    unfold bind at 1, defined at 1. rewrite Hql. unfold ret at 1.
    set (min1 := if ql <? qi then 2 * idx + 1 else idx).
    assert (Hmin1 : idx < min1 < priority_count p \/ min1 = idx).
    { unfold min1. destruct (ql <? qi); lia. }
    destruct (arr_get_in_range (priority_queue p) min1) as [qm Hqm]; [lia|].
    unfold bind at 1, defined at 1. rewrite Hqm. unfold ret at 1.
    unfold bind at 1.
    destruct (Z.ltb_spec (2 * idx + 1 + 1) (priority_count p)) as [Hright|Hnright].
    + destruct (arr_get_in_range (priority_queue p) (2 * idx + 1 + 1))
        as [qr Hqr]; [lia|].
      unfold bind at 1, defined at 1. rewrite Hqr. unfold ret at 1. unfold ret at 1.
      apply Htail; [|lia]. destruct (qr <? qm); lia.
    + unfold ret at 1. apply Htail; lia.
Qed.

Lemma plusplus_max2_ok i p c :
  arr_get (node_event_count p) i = Some c ->
  plusplus_max2 i p =
    Ok c (if c <? 2
          then set_node_event_count
                 (<[Z.to_nat i := c + 1]> (node_event_count p)) p
          else p).
Proof.
  intros Hc. unfold plusplus_max2. unfold bind at 1, get at 1.
  unfold bind at 1, defined at 1. rewrite Hc. unfold ret at 1.
  pose proof (arr_get_some_range _ _ _ Hc) as Hr.
  destruct (c <? 2).
  - destruct (arr_set_in_range (node_event_count p) i (c + 1)) as [a Ha]; [lia|].
    unfold bind, defined, modify, ret. rewrite Ha.
    unfold arr_set in Ha.
    destruct ((i <? 0) || (Z.of_nat (length (node_event_count p)) <=? i));
      [discriminate|].
    injection Ha as <-. reflexivity.
  - reflexivity.
Qed.

Lemma ids_bounded (v n : Z) (l : list Z) :
  0 <= n -> NoDup l -> Forall (fun id => v < id <= v + n) l -> zlength l <= n.
Proof.
  intros Hn Hnd Hall.
  assert (Hsub : submseteq l (map (fun i => v + 1 + Z.of_nat i) (seq 0 (Z.to_nat n)))).
  { apply NoDup_submseteq; [exact Hnd|]. intros x Hx.
    rewrite Forall_forall in Hall. specialize (Hall x Hx).
    apply list_elem_of_fmap. exists (Z.to_nat (x - v - 1)). split; [lia|].
    apply elem_of_seq. lia. }
  apply submseteq_length in Hsub.
  rewrite length_fmap, length_seq in Hsub. unfold zlength. lia.
Qed.

Lemma prop_ok_same_queue s f p p' :
  same_queue p p' -> prop_ok s f p -> prop_ok s f p'.
Proof.
  intros (H1 & H2 & H3 & H4) (K1 & K2 & K3 & K4).
  unfold prop_ok. rewrite H1, H2, H3, H4. auto.
Qed.

Lemma rounds_left_same_queue f p p' :
  same_queue p p' -> rounds_left f p' = rounds_left f p.
Proof.
  intros (H1 & H2 & H3 & H4). unfold rounds_left. rewrite H4. reflexivity.
Qed.

Lemma node_ok_spec s f n id :
  node_ok s f n id = true ->
  input_variable_count (opts s) < id <= input_variable_count (opts s) + n /\
  id <= zlength (pos_fanouts f) /\
  exists node,
    arr_get (node_list s) (id - input_variable_count (opts s) - 1) = Some node /\
    node_id node = id.
Proof.
  unfold node_ok. intros H.
  apply andb_prop in H as [H H4]. apply andb_prop in H as [H H3].
  apply andb_prop in H as [H1 H2].
  destruct (arr_get (node_list s) (id - input_variable_count (opts s) - 1))
    as [node|]; [|discriminate].
  split; [lia|]. split; [lia|]. exists node. split; [reflexivity|lia].
Qed.

(** A counter that goes up keeps the nodes of the queue counted. *)
Lemma counted_bump (Q : Z -> Prop) (v : Z) (counts : list Z) (i c0 : Z)
    (l : list Z) :
  arr_get counts i = Some c0 ->
  Forall (fun id => Q id /\
            exists c, arr_get counts (id - v - 1) = Some c /\ 1 <= c) l ->
  Forall (fun id => Q id /\
            exists c, arr_get (<[Z.to_nat i := c0 + 1]> counts) (id - v - 1)
                      = Some c /\ 1 <= c) l.
Proof.
  intros Hc0 Hall. eapply Forall_impl; [exact Hall|].
  intros id [Hr (c & Hc & Hpos)].
  split; [exact Hr|].
  pose proof (arr_get_some_range _ _ _ Hc0) as Hi.
  pose proof (arr_get_some_range _ _ _ Hc) as Hid.
  unfold arr_get in *. unfold zlength in *.
  destruct (Z.ltb_spec i 0); [lia|].
  destruct (Z.ltb_spec (id - v - 1) 0); [lia|].
  destruct (Z.eq_dec (id - v - 1) i) as [Heq|Hne].
  - rewrite Heq in *. exists (c0 + 1). rewrite list_lookup_insert_eq by lia.
    split; [reflexivity|]. rewrite Hc0 in Hc. injection Hc as ->. lia.
  - exists c. rewrite list_lookup_insert_ne by lia. auto.
Qed.

Section Add.
Variable s : checker.
Variable f : fanouts_t.
Local Abbreviation nvar := (input_variable_count (opts s)).

Lemma priority_add_ok var p :
  prop_ok s f p ->
  node_ok s f (zlength (node_event_count p)) var = true ->
  exists p',
    priority_add s var p = Ok tt p' /\
    prop_ok s f p' /\
    zlength (node_event_count p') = zlength (node_event_count p) /\
    (rounds_left f p' <= rounds_left f p + weight f var)%nat.
Proof.
  intros (Hq & Hcnt & Hnd & Hall) Hnode.
  destruct (node_ok_spec _ _ _ _ Hnode) as (Hvar & _).
  set (i := var - nvar - 1).
  destruct (arr_get_in_range (node_event_count p) i) as [c Hc]; [unfold i; lia|].
  unfold priority_add, var_to_index. fold i.
  unfold bind at 1. rewrite (plusplus_max2_ok _ _ _ Hc).
  assert (Hlen' : forall x, zlength (<[Z.to_nat i := x]> (node_event_count p))
                            = zlength (node_event_count p)).
  { intros x. unfold zlength. rewrite length_insert. reflexivity. }
  destruct (Z.eqb_spec c 0) as [->|Hc0].
  - (* the node enters the queue *)
    change (0 <? 2) with true. cbn iota.
    set (p1 := set_node_event_count (<[Z.to_nat i:=0 + 1]> (node_event_count p)) p).
    assert (Hnotin : ~ elem_of var (queued p)).
    { intros Hin. rewrite Forall_forall in Hall.
      destruct (Hall var Hin) as (_ & c & Hc' & Hpos). fold i in Hc'.
      rewrite Hc in Hc'. injection Hc' as <-. lia. }
    assert (Hroom : priority_count p < zlength (node_event_count p)).
    { assert (Hb : zlength (var :: queued p) <= zlength (node_event_count p)).
      { apply (ids_bounded nvar); [lia| |].
        - apply NoDup_cons. auto.
        - constructor; [lia|]. eapply Forall_impl; [exact Hall|].
          intros id [Hr _]. apply node_ok_spec in Hr. tauto. }
      unfold zlength in Hb. cbn [length] in Hb. unfold queued in Hb.
      rewrite length_take in Hb. unfold zlength in *. lia. }
    unfold bind at 1, get at 1.
    change (priority_queue p1) with (priority_queue p).
    change (priority_count p1) with (priority_count p).
    destruct (arr_set_in_range (priority_queue p) (priority_count p) var)
      as [q' Hq']; [lia|].
    unfold bind at 1, defined at 1. rewrite Hq'. unfold ret at 1.
    unfold bind at 1, modify at 1. unfold bind at 1, modify at 1.
    set (p2 := set_priority_count (priority_count p + 1)
                 (set_priority_queue q' p1)).
    assert (Hq2 : queued p2 = queued p ++ [var]).
    { unfold queued, p2. cbn [priority_count priority_queue set_priority_count
                               set_priority_queue].
      unfold arr_set in Hq'.
      destruct ((priority_count p <? 0) ||
                (Z.of_nat (length (priority_queue p)) <=? priority_count p));
        [discriminate|]. injection Hq' as <-.
      rewrite Z2Nat.inj_add by lia. rewrite Nat.add_1_r.
      unfold zlength in *.
      rewrite (take_S_r _ _ var) by (apply list_lookup_insert_eq; lia).
      rewrite take_insert_ge by lia. reflexivity. }
    assert (Hok2 : prop_ok s f p2).
    { unfold prop_ok. rewrite Hq2.
      change (node_event_count p2)
        with (<[Z.to_nat i:=0 + 1]> (node_event_count p)).
      change (priority_queue p2) with q'.
      change (priority_count p2) with (priority_count p + 1).
      rewrite Hlen'. split; [|split; [|split]].
      - unfold zlength in *. rewrite (arr_set_length _ _ _ _ Hq'). exact Hq.
      - lia.
      - apply NoDup_app. split; [exact Hnd|]. split; [|apply NoDup_singleton].
        intros x Hx Hx'. apply list_elem_of_singleton in Hx'. subst x. auto.
      - apply Forall_app. split.
        + apply counted_bump; assumption.
        + constructor; [|constructor]. split; [exact Hnode|]. exists 1. fold i.
          split; [|lia]. unfold arr_get. unfold zlength in *.
          destruct (Z.ltb_spec i 0); [unfold i in *; lia|].
          apply list_lookup_insert_eq. unfold i in *. lia. }
    destruct (sift_up_ok (Z.to_nat (priority_count p + 1)) (priority_count p) p2)
      as (p3 & Hs3 & Hsame).
    { lia. }
    { unfold p2. simpl. lia. }
    { destruct Hok2 as (K1 & K2 & _). rewrite K1. lia. }
    exists p3. split; [exact Hs3|]. split; [|split].
    + eapply prop_ok_same_queue; eassumption.
    + destruct Hsame as (-> & _). apply Hlen'.
    + rewrite (rounds_left_same_queue f _ _ Hsame). unfold rounds_left.
      rewrite Hq2, sum_list_with_app. simpl. lia.
  - (* the node is in the queue, or has been *)
    exists (if c <? 2
            then set_node_event_count (<[Z.to_nat i:=c + 1]> (node_event_count p)) p
            else p).
    split; [reflexivity|].
    destruct (c <? 2).
    + split; [|split].
      * unfold prop_ok.
        change (node_event_count (set_node_event_count _ p))
          with (<[Z.to_nat i:=c + 1]> (node_event_count p)).
        rewrite Hlen'.
        split; [exact Hq|]. split; [exact Hcnt|]. split; [exact Hnd|].
        exact (counted_bump _ _ _ _ _ _ Hc Hall).
      * apply Hlen'.
      * unfold rounds_left, queued. simpl. lia.
    + split; [|split]; [|reflexivity|lia].
      split; [exact Hq|]. split; [exact Hcnt|]. split; [exact Hnd|exact Hall].
Qed.

Lemma priority_add_all_ok l : forall p,
  prop_ok s f p ->
  Forall (fun id => node_ok s f (zlength (node_event_count p)) id = true) l ->
  exists p',
    priority_add_all s l p = Ok tt p' /\
    prop_ok s f p' /\
    zlength (node_event_count p') = zlength (node_event_count p) /\
    (rounds_left f p' <= rounds_left f p + sum_list_with (weight f) l)%nat.
Proof.
  induction l as [|v r IH]; intros p Hok Hall.
  - exists p. split; [reflexivity|]. split; [exact Hok|].
    split; [reflexivity|]. simpl. lia.
  - inversion Hall as [|? ? Hv Hr]; subst.
    destruct (priority_add_ok v p Hok Hv) as (p1 & H1 & Hok1 & Hlen1 & Hm1).
    destruct (IH p1 Hok1) as (p2 & H2 & Hok2 & Hlen2 & Hm2).
    { rewrite Hlen1. exact Hr. }
    exists p2. split; [|split; [exact Hok2|split]].
    + cbn [priority_add_all]. unfold bind. rewrite H1. exact H2.
    + congruence.
    + simpl. lia.
Qed.

Lemma fanouts_upward_lookup ok : forall ls v n l,
  fanouts_upward ok v ls = true ->
  ls !! n = Some l ->
  Forall (fun id => v + Z.of_nat n < id /\ ok id = true) l.
Proof.
  induction ls as [|l0 r IH]; intros v n l Hup Hl; [discriminate|].
  cbn [fanouts_upward] in Hup. apply andb_prop in Hup as [Hl0 Hr].
  destruct n as [|n].
  - injection Hl as <-. rewrite forallb_forall in Hl0.
    apply Forall_forall. intros id Hid. apply list_elem_of_In in Hid.
    specialize (Hl0 id Hid). apply andb_prop in Hl0 as [H1 H2].
    split; [lia|exact H2].
  - cbn in Hl. specialize (IH (v + 1) n l Hr Hl).
    eapply Forall_impl; [exact IH|]. intros id [H1 H2]. split; [lia|exact H2].
Qed.

Lemma pos_fanouts_ok n var l :
  fanouts_ok s f n = true ->
  arr_get (pos_fanouts f) (var - 1) = Some l ->
  Forall (fun id => var < id /\ node_ok s f n id = true) l.
Proof.
  unfold fanouts_ok. intros H Hl. apply andb_prop in H as [_ H].
  pose proof (arr_get_some_range _ _ _ Hl) as Hr.
  apply arr_get_lookup in Hl.
  pose proof (fanouts_upward_lookup _ _ _ _ _ H Hl) as Hall.
  eapply Forall_impl; [exact Hall|]. intros id [H1 H2]. split; [lia|exact H2].
Qed.

Lemma neg_fanouts_ok n var l :
  fanouts_ok s f n = true ->
  arr_get (neg_fanouts f) (var - 1) = Some l ->
  Forall (fun id => node_ok s f n id = true) l.
Proof.
  unfold fanouts_ok. intros H Hl. apply andb_prop in H as [H _].
  apply andb_prop in H as [_ H]. rewrite forallb_forall in H.
  apply arr_get_lookup in Hl. apply list_elem_of_lookup_2 in Hl.
  apply list_elem_of_In in Hl. specialize (H l Hl).
  rewrite forallb_forall in H. apply Forall_forall. intros id Hid.
  apply H. apply list_elem_of_In. exact Hid.
Qed.

Lemma fanouts_ok_sizes n :
  fanouts_ok s f n = true ->
  0 <= nvar /\ nvar <= zlength (neg_fanouts f) /\ nvar <= zlength (pos_fanouts f).
Proof.
  unfold fanouts_ok. intros H. apply andb_prop in H as [H _].
  apply andb_prop in H as [H _]. apply andb_prop in H as [H H3].
  apply andb_prop in H as [H1 H2]. lia.
Qed.

Lemma rounds_pos h x : (1 <= rounds f h x)%nat.
Proof. destruct h; simpl; lia. Qed.

Lemma sum_list_with_le {A} (g g' : A -> nat) (l : list A) :
  Forall (fun y => (g y <= g' y)%nat) l ->
  (sum_list_with g l <= sum_list_with g' l)%nat.
Proof.
  induction 1 as [|y l Hy _ IH]; simpl; [lia|]. lia.
Qed.

Lemma rounds_mono h : forall h' x,
  (h <= h')%nat -> (rounds f h x <= rounds f h' x)%nat.
Proof.
  induction h as [|h IH]; intros h' x Hle.
  - apply rounds_pos.
  - destruct h' as [|h']; [lia|]. cbn [rounds].
    apply le_n_S. apply sum_list_with_le. apply Forall_forall.
    intros y _. apply IH. lia.
Qed.

(** The rounds of a node bound those of its fan-out. *)
Lemma weight_fanout n var l :
  fanouts_ok s f n = true ->
  arr_get (pos_fanouts f) (var - 1) = Some l ->
  Forall (fun id => node_ok s f n id = true) l ->
  (S (sum_list_with (weight f) l) <= weight f var)%nat.
Proof.
  intros Hf Hl _.
  pose proof (pos_fanouts_ok _ _ _ Hf Hl) as Hall.
  assert (Hall' : Forall (fun id => var < id <= zlength (pos_fanouts f)) l).
  { eapply Forall_impl; [exact Hall|]. intros id [H1 H2].
    apply node_ok_spec in H2. lia. }
  unfold weight at 2.
  destruct (Z.to_nat (zlength (pos_fanouts f) - var)) as [|h] eqn:Hh.
  - destruct l as [|y l]; [simpl; lia|].
    inversion Hall' as [|? ? Hy _]; subst. lia.
  - cbn [rounds]. unfold fanout_of. rewrite Hl. apply le_n_S.
    apply sum_list_with_le. eapply Forall_impl; [exact Hall'|].
    intros y Hy. cbv beta in Hy. unfold weight. apply rounds_mono. lia.
Qed.

Lemma process_fanout_ok lit p l :
  fanouts_ok s f (zlength (node_event_count p)) = true ->
  prop_ok s f p ->
  (if lit <? 0 then arr_get (pos_fanouts f) (IABS lit - 1)
   else arr_get (neg_fanouts f) (IABS lit - 1)) = Some l ->
  exists p',
    process_fanout s f lit p = Ok tt p' /\
    prop_ok s f p' /\
    zlength (node_event_count p') = zlength (node_event_count p) /\
    (rounds_left f p' <= rounds_left f p + sum_list_with (weight f) l)%nat.
Proof.
  intros Hf Hok Hl. unfold process_fanout.
  unfold bind at 1, defined at 1. rewrite Hl. unfold ret at 1.
  apply priority_add_all_ok; [exact Hok|].
  destruct (lit <? 0).
  - eapply Forall_impl; [exact (pos_fanouts_ok _ _ _ Hf Hl)|].
    intros id [_ H]. exact H.
  - exact (neg_fanouts_ok _ _ _ Hf Hl).
Qed.

Lemma priority_next_empty p :
  priority_count p = 0 -> priority_next p = Ok (-1) p.
Proof.
  intros H. unfold priority_next, bind, get. rewrite H. reflexivity.
Qed.

Lemma take_pop (q : list Z) (k : nat) (v last : Z) :
  q !! 0%nat = Some v -> q !! k = Some last ->
  Permutation (take (S k) q) (v :: take k (<[0%nat := last]> q)).
Proof.
  intros Hv Hlast. rewrite (take_S_r _ _ _ Hlast).
  destruct q as [|v' t]; [discriminate|]. injection Hv as ->.
  destruct k as [|k]; [cbn in *; injection Hlast as ->; reflexivity|].
  cbn. apply Permutation_skip. symmetry. apply Permutation_cons_append.
Qed.

Lemma priority_next_ok p :
  0 < priority_count p <= zlength (priority_queue p) ->
  exists var p',
    priority_next p = Ok var p' /\
    Permutation (queued p) (var :: queued p') /\
    node_event_count p' = node_event_count p /\
    zlength (priority_queue p') = zlength (priority_queue p) /\
    priority_count p' = priority_count p - 1.
Proof.
  intros Hcnt. unfold priority_next. unfold bind at 1, get at 1.
  destruct (Z.eqb_spec (priority_count p) 0) as [|_]; [lia|].
  destruct (arr_get_in_range (priority_queue p) 0) as [var Hvar]; [lia|].
  destruct (arr_get_in_range (priority_queue p) (priority_count p - 1))
    as [qlast Hlast]; [lia|].
  destruct (arr_set_in_range (priority_queue p) 0 qlast) as [q' Hq']; [lia|].
  unfold bind at 1, defined at 1. rewrite Hvar. unfold ret at 1.
  unfold bind at 1, defined at 1. rewrite Hlast. unfold ret at 1.
  unfold bind at 1, defined at 1. rewrite Hq'. unfold ret at 1.
  unfold bind at 1, modify at 1. unfold bind at 1, modify at 1.
  set (p1 := set_priority_count (priority_count p - 1) (set_priority_queue q' p)).
  assert (Hlen1 : zlength (priority_queue p1) = zlength (priority_queue p)).
  { unfold p1, zlength. simpl. rewrite (arr_set_length _ _ _ _ Hq'). reflexivity. }
  destruct (sift_down_ok (S (Z.to_nat (priority_count p - 1))) 0 p1)
    as (p2 & Hs2 & Hsame); [lia|lia| | |].
  { unfold p1. simpl. lia. }
  { rewrite Hlen1. unfold p1. simpl. lia. }
  unfold bind at 1. rewrite Hs2. unfold bind, modify, ret.
  exists var, (set_event_count (event_count p2 + 1) p2).
  split; [reflexivity|].
  destruct Hsame as (H1 & H2 & H3 & H4).
  split; [|split; [|split]].
  - change (queued (set_event_count (event_count p2 + 1) p2)) with (queued p2).
    rewrite H4. unfold queued, p1. simpl.
    unfold arr_set in Hq'. simpl in Hq'.
    destruct (Z.of_nat (length (priority_queue p)) <=? 0); [discriminate|].
    injection Hq' as <-.
    replace (Z.to_nat (priority_count p))
      with (S (Z.to_nat (priority_count p - 1))) by lia.
    apply take_pop; [exact (arr_get_lookup _ _ _ Hvar)|].
    exact (arr_get_lookup _ _ _ Hlast).
  - simpl. exact H1.
  - simpl. congruence.
  - simpl. rewrite H2. reflexivity.
Qed.

(** The round of a node taken from the queue. *)
Lemma visit_node_ok var p :
  fanouts_ok s f (zlength (node_event_count p)) = true ->
  zlength (priority_queue p) = zlength (node_event_count p) ->
  0 <= priority_count p <= zlength (node_event_count p) ->
  NoDup (var :: queued p) ->
  Forall (fun id => node_ok s f (zlength (node_event_count p)) id = true /\
            exists c, arr_get (node_event_count p) (id - nvar - 1) = Some c /\
                      1 <= c)
         (var :: queued p) ->
  exists c p',
    visit_node s f var p = Ok c p' /\
    prop_ok s f p' /\
    zlength (node_event_count p') = zlength (node_event_count p) /\
    (rounds_left f p' + 1 <= rounds_left f p + weight f var)%nat.
Proof.
  intros Hf Hq Hcnt Hnd Hall.
  apply NoDup_cons in Hnd as [Hnotin Hnd].
  inversion Hall as [|? ? [Hnode (ecount & Hec & Hpos)] Hall']; subst.
  destruct (node_ok_spec _ _ _ _ Hnode) as (Hvar & Htop & node & Hn & Hid).
  destruct (fanouts_ok_sizes _ Hf) as (Hnvar & _ & _).
  set (i := var - nvar - 1) in *.
  destruct (arr_set_in_range (node_event_count p) i 0) as [a Ha];
    [unfold i; lia|].
  assert (Hlena : zlength a = zlength (node_event_count p)).
  { unfold zlength. rewrite (arr_set_length _ _ _ _ Ha). reflexivity. }
  set (p0 := set_node_event_count a p).
  assert (Hok0 : prop_ok s f p0).
  { unfold prop_ok.
    change (node_event_count p0) with a.
    change (priority_queue p0) with (priority_queue p).
    change (priority_count p0) with (priority_count p).
    change (queued p0) with (queued p). rewrite Hlena.
    split; [exact Hq|]. split; [exact Hcnt|]. split; [exact Hnd|].
    apply Forall_forall. intros id Hin. rewrite Forall_forall in Hall'.
    destruct (Hall' id Hin) as (Hnid & c & Hc & Hc1).
    split; [exact Hnid|]. exists c. split; [|exact Hc1].
    rewrite (arr_get_set_ne _ _ _ (id - nvar - 1) _ Ha); [exact Hc|].
    unfold i. intros Heq. apply Hnotin.
    replace var with id by lia. exact Hin. }
  unfold visit_node, var_to_index. fold i.
  unfold bind at 1, defined at 1. rewrite Hn. unfold ret at 1.
  unfold bind at 1, get at 1.
  unfold bind at 1, defined at 1. rewrite Hec. unfold ret at 1.
  unfold bind at 1, defined at 1. rewrite Ha. unfold ret at 1.
  unfold bind at 1, modify at 1. fold p0.
  destruct (propagate_threshold (node_type node) (zlength (children node))
            <=? ecount).
  - rewrite Hid.
    assert (Hneg : (- var <? 0) = true) by (apply Z.ltb_lt; lia).
    assert (Habs : IABS (- var) = var) by (rewrite IABS_abs; lia).
    destruct (arr_get_in_range (pos_fanouts f) (var - 1)) as [l Hl]; [lia|].
    destruct (process_fanout_ok (- var) p0 l) as (p2 & H2 & Hok2 & Hlen2 & Hm2).
    { change (node_event_count p0) with a. rewrite Hlena. exact Hf. }
    { exact Hok0. }
    { rewrite Hneg, Habs. exact Hl. }
    exists (var =? declared_root s), p2.
    split; [unfold bind; rewrite H2; reflexivity|].
    split; [exact Hok2|]. split.
    + rewrite Hlen2. exact Hlena.
    + pose proof (weight_fanout _ _ _ Hf Hl) as Hw.
      eassert (Hw' := Hw _).
      change (rounds_left f p0) with (rounds_left f p) in Hm2. lia.
  - exists false, p0. split; [reflexivity|]. split; [exact Hok0|].
    split; [exact Hlena|].
    change (rounds_left f p0) with (rounds_left f p).
    pose proof (rounds_pos (Z.to_nat (zlength (pos_fanouts f) - var)) var).
    unfold weight. lia.
  Unshelve.
  eapply Forall_impl; [exact (pos_fanouts_ok _ _ _ Hf Hl)|].
  intros id [_ H]. exact H.
Qed.

Lemma visit_node_conflict var p c p' :
  visit_node s f var p = Ok c p' ->
  (c = true <-> var = declared_root s /\ fires s p var).
Proof.
  unfold visit_node, fires. intros H.
  destruct (arr_get (node_list s) (var_to_index s var - 1)) as [node|] eqn:Hn;
    [|discriminate].
  unfold bind at 1, defined at 1, ret at 1 in H.
  unfold bind at 1, get at 1 in H.
  destruct (arr_get (node_event_count p) (var_to_index s var - 1))
    as [ecount|] eqn:Hec; [|discriminate].
  unfold bind at 1, defined at 1, ret at 1 in H.
  destruct (arr_set (node_event_count p) (var_to_index s var - 1) 0)
    as [a|] eqn:Ha; [|discriminate].
  unfold bind at 1, defined at 1, ret at 1 in H.
  unfold bind at 1, modify at 1 in H.
  destruct (Z.leb_spec (propagate_threshold (node_type node)
                          (zlength (children node))) ecount) as [Hle|Hgt].
  - unfold bind in H.
    destruct (process_fanout s f (- node_id node) (set_node_event_count a p))
      as [u p2|e p2| |]; try discriminate.
    unfold ret in H. injection H as <- <-. split.
    + intros Hc. apply Z.eqb_eq in Hc. split; [exact Hc|]. eauto.
    + intros [-> _]. apply Z.eqb_refl.
  - unfold ret in H. injection H as <- <-. split; [discriminate|].
    intros [_ (node' & ecount' & Hn' & Hec' & Hle)].
    injection Hn' as <-. injection Hec' as <-. lia.
Qed.

Lemma round_ok p :
  fanouts_ok s f (zlength (node_event_count p)) = true ->
  prop_ok s f p ->
  priority_count p <> 0 ->
  exists var p1 c p2,
    priority_next p = Ok var p1 /\
    0 < var /\
    visit_node s f var p1 = Ok c p2 /\
    prop_ok s f p2 /\
    zlength (node_event_count p2) = zlength (node_event_count p) /\
    (rounds_left f p2 + 1 <= rounds_left f p)%nat.
Proof.
  intros Hf (Hq & Hcnt & Hnd & Hall) Hne.
  destruct (priority_next_ok p) as (var & p1 & Hnext & Hperm & Hc1 & Hq1 & Hn1);
    [lia|].
  rewrite Hperm in Hnd, Hall.
  destruct (visit_node_ok var p1) as (c & p2 & Hv & Hok2 & Hlen2 & Hm2).
  { rewrite Hc1. exact Hf. }
  { rewrite Hc1, Hq1. exact Hq. }
  { rewrite Hc1. lia. }
  { exact Hnd. }
  { rewrite Hc1. exact Hall. }
  exists var, p1, c, p2. split; [exact Hnext|]. split.
  { inversion Hall as [|? ? [Hnode _] _]; subst.
    apply node_ok_spec in Hnode. destruct (fanouts_ok_sizes _ Hf). lia. }
  split; [exact Hv|]. split; [exact Hok2|]. split; [congruence|].
  unfold rounds_left at 2. rewrite Hperm. simpl.
  unfold rounds_left in Hm2 |- *. lia.
Qed.

(** The loop ends: each round takes at least one from [rounds_left]. *)
Lemma rup_input_loop_ends n : forall p,
  fanouts_ok s f (zlength (node_event_count p)) = true ->
  prop_ok s f p ->
  (rounds_left f p <= n)%nat ->
  exists c p',
    rup_input_loop (S n) s f p = Some (Ok c p') /\
    prop_ok s f p' /\
    zlength (node_event_count p') = zlength (node_event_count p).
Proof.
  induction n as [|n IH]; intros p Hf Hok Hm;
    destruct (Z.eq_dec (priority_count p) 0) as [H0|Hne];
    try (exists false, p; cbn [rup_input_loop];
         rewrite (priority_next_empty p H0); cbn;
         split; [reflexivity|]; split; [exact Hok|reflexivity]).
  - destruct (round_ok p Hf Hok Hne) as (? & ? & ? & ? & _ & _ & _ & _ & _ & H).
    lia.
  - destruct (round_ok p Hf Hok Hne)
      as (var & p1 & c & p2 & Hnext & Hpos & Hv & Hok2 & Hlen2 & Hm2).
    change (rup_input_loop (S (S n)) s f p)
      with (match priority_next p with
            | Ok var p1 =>
                if 0 <? var then
                  match visit_node s f var p1 with
                  | Ok conflict p2 =>
                      if conflict then Some (Ok true p2)
                      else rup_input_loop (S n) s f p2
                  | r => Some r
                  end
                else Some (Ok false p1)
            | Err e p1 => Some (Err e p1)
            | Undef => Some Undef
            | Diverge => Some Diverge
            end).
    rewrite Hnext. destruct (Z.ltb_spec 0 var) as [_|]; [|lia]. rewrite Hv.
    destruct c.
    + exists true, p2. split; [reflexivity|]. split; [exact Hok2|exact Hlen2].
    + destruct (IH p2) as (c' & p' & Hloop & Hok' & Hlen').
      { rewrite Hlen2. exact Hf. }
      { exact Hok2. }
      { lia. }
      exists c', p'. split; [exact Hloop|]. split; [exact Hok'|congruence].
Qed.

Lemma seed_fanouts_ok lits : forall p,
  fanouts_ok s f (zlength (node_event_count p)) = true ->
  prop_ok s f p ->
  input_literals s lits ->
  exists p',
    seed_fanouts s f lits p = Ok tt p' /\
    prop_ok s f p' /\
    zlength (node_event_count p') = zlength (node_event_count p).
Proof.
  induction lits as [|lit r IH]; intros p Hf Hok Hlits.
  - exists p. split; [reflexivity|]. split; [exact Hok|reflexivity].
  - inversion Hlits as [|? ? Hlit Hr]; subst.
    destruct (fanouts_ok_sizes _ Hf) as (Hnvar & Hneg & Hpos).
    assert (Habs : IABS (- lit) = IABS lit) by (rewrite !IABS_abs; lia).
    assert (Hl : exists l,
      (if - lit <? 0 then arr_get (pos_fanouts f) (IABS (- lit) - 1)
       else arr_get (neg_fanouts f) (IABS (- lit) - 1)) = Some l).
    { rewrite Habs. destruct (- lit <? 0); apply arr_get_in_range; lia. }
    destruct Hl as [l Hl].
    destruct (process_fanout_ok (- lit) p l Hf Hok Hl)
      as (p1 & H1 & Hok1 & Hlen1 & _).
    destruct (IH p1) as (p2 & H2 & Hok2 & Hlen2); [rewrite Hlen1; exact Hf| | |].
    { exact Hok1. }
    { exact Hr. }
    exists p2. split; [|split; [exact Hok2|congruence]].
    cbn [seed_fanouts]. unfold bind. rewrite H1. exact H2.
Qed.

End Add.

End QueueFacts.

Section NoExit.

Lemma no_exit_ret {A} (x : A) : no_exit (ret x).
Proof. intros p e p'. discriminate. Qed.

Lemma no_exit_get : no_exit (@get propagate_t).
Proof. intros p e p'. discriminate. Qed.

Lemma no_exit_modify g : no_exit (@modify propagate_t g).
Proof. intros p e p'. discriminate. Qed.

Lemma no_exit_defined {A} (o : option A) : no_exit (defined o).
Proof. intros p e p'. destruct o; discriminate. Qed.

Lemma no_exit_bind {A B} (c : M propagate_t A) (k : A -> M propagate_t B) :
  no_exit c -> (forall a, no_exit (k a)) -> no_exit (bind c k).
Proof.
  intros Hc Hk p e p'. unfold bind.
  destruct (c p) as [a p1|e1 p1| |] eqn:E; try discriminate.
  - apply Hk.
  - destruct (Hc _ _ _ E).
Qed.

#[local] Ltac no_exit_step :=
  first
    [ apply no_exit_ret | apply no_exit_get | apply no_exit_modify
    | apply no_exit_defined | assumption
    | apply no_exit_bind; [|intros ?]
    | match goal with
      | |- no_exit (if ?b then _ else _) => destruct b
      end ].

Lemma no_exit_swap_queue i j : no_exit (swap_queue i j).
Proof. unfold swap_queue. repeat no_exit_step. Qed.

Lemma no_exit_sift_down fuel : forall idx, no_exit (sift_down fuel idx).
Proof.
  induction fuel as [|fuel IH]; intros idx; cbn [sift_down];
    [intros p e p'; discriminate|].
  repeat first [apply IH | apply no_exit_swap_queue | no_exit_step].
Qed.

Lemma no_exit_sift_up fuel : forall idx, no_exit (sift_up fuel idx).
Proof.
  induction fuel as [|fuel IH]; intros idx; cbn [sift_up];
    [intros p e p'; discriminate|].
  repeat first [apply IH | apply no_exit_swap_queue | no_exit_step].
Qed.

Lemma no_exit_plusplus_max2 i : no_exit (plusplus_max2 i).
Proof. unfold plusplus_max2. repeat no_exit_step. Qed.

Lemma no_exit_priority_add s var : no_exit (priority_add s var).
Proof.
  unfold priority_add.
  repeat first [apply no_exit_plusplus_max2 | apply no_exit_sift_up | no_exit_step].
Qed.

Lemma no_exit_priority_add_all s l : no_exit (priority_add_all s l).
Proof.
  induction l as [|v r IH]; cbn [priority_add_all]; [apply no_exit_ret|].
  apply no_exit_bind; [apply no_exit_priority_add|]. intros _. exact IH.
Qed.

Lemma no_exit_process_fanout s f lit : no_exit (process_fanout s f lit).
Proof.
  unfold process_fanout. apply no_exit_bind; [apply no_exit_defined|].
  intros l. apply no_exit_priority_add_all.
Qed.

Lemma no_exit_seed_fanouts s f lits : no_exit (seed_fanouts s f lits).
Proof.
  induction lits as [|lit r IH]; cbn [seed_fanouts]; [apply no_exit_ret|].
  apply no_exit_bind; [apply no_exit_process_fanout|]. intros _. exact IH.
Qed.

Lemma no_exit_priority_next : no_exit priority_next.
Proof.
  unfold priority_next.
  repeat first [apply no_exit_sift_down | no_exit_step].
Qed.

Lemma no_exit_visit_node s f var : no_exit (visit_node s f var).
Proof.
  unfold visit_node.
  repeat first [apply no_exit_process_fanout | no_exit_step].
Qed.

Lemma rup_input_loop_no_exit fuel s f : forall p e p',
  rup_input_loop fuel s f p <> Some (Err e p').
Proof.
  induction fuel as [|fuel IH]; intros p e p'; cbn [rup_input_loop];
    [discriminate|].
  destruct (priority_next p) as [var p1|e1 p1| |] eqn:Hnext; try discriminate.
  - destruct (0 <? var); [|discriminate].
    destruct (visit_node s f var p1) as [c p2|e2 p2| |] eqn:Hv; try discriminate.
    + destruct c; [discriminate|apply IH].
    + destruct (no_exit_visit_node _ _ _ _ _ _ Hv).
  - destruct (no_exit_priority_next _ _ _ Hnext).
Qed.

Lemma rup_input_loop_mono s f fuel : forall fuel' p r,
  (fuel <= fuel')%nat ->
  rup_input_loop fuel s f p = Some r ->
  rup_input_loop fuel' s f p = Some r.
Proof.
  induction fuel as [|fuel IH]; intros fuel' p r Hle H; [discriminate|].
  destruct fuel' as [|fuel']; [lia|]. cbn [rup_input_loop] in *.
  destruct (priority_next p) as [var p1| | |]; try exact H.
  destruct (0 <? var); [|exact H].
  destruct (visit_node s f var p1) as [c p2| | |]; try exact H.
  destruct c; [exact H|]. apply IH; [lia|exact H].
Qed.

Lemma rup_run_input_mono s f tcid lits p fuel fuel' r :
  (fuel <= fuel')%nat ->
  rup_run_input fuel s f tcid lits p = Some r ->
  rup_run_input fuel' s f tcid lits p = Some r.
Proof.
  unfold rup_run_input. intros Hle H.
  destruct (seed_fanouts s f lits p) as [u p0| | |]; try exact H.
  destruct (rup_input_loop fuel s f p0) as [r0|] eqn:Hloop; [|discriminate].
  rewrite (rup_input_loop_mono _ _ _ _ _ _ Hle Hloop). exact H.
Qed.

End NoExit.

Section Check.
Variable s : checker.
Variable f : fanouts_t.

(** The loop ends with a conflict exactly when the root fires. *)
Lemma rup_input_loop_conflict fuel : forall p c p',
  rup_input_loop fuel s f p = Some (Ok c p') ->
  (c = true <-> root_fires s f p).
Proof.
  induction fuel as [|fuel IH]; intros p c p' H; [discriminate|].
  cbn [rup_input_loop] in H.
  destruct (priority_next p) as [var p1| | |] eqn:Hnext; try discriminate.
  destruct (Z.ltb_spec 0 var) as [Hpos|Hnpos].
  - destruct (visit_node s f var p1) as [conflict p2| | |] eqn:Hv;
      try discriminate.
    pose proof (visit_node_conflict _ _ _ _ _ _ Hv) as Hc.
    destruct conflict.
    + injection H as <- <-. split; [|reflexivity]. intros _.
      destruct Hc as [Hc _]. destruct (Hc eq_refl) as [-> Hfires].
      exists p, p1. split; [apply run_here|]. auto.
    + rewrite (IH _ _ _ H). split.
      * intros (pa & pb & Hrun & Hrest). exists pa, pb.
        split; [|exact Hrest]. eapply run_round; eassumption.
      * intros (pa & pb & Hrun & Hnext' & Hposr & Hfires).
        inversion Hrun; subst.
        -- rewrite Hnext in Hnext'. injection Hnext' as -> ->.
           destruct Hc as [_ Hc]. discriminate Hc. auto.
        -- match goal with
           | H : priority_next p = Ok ?v ?q |- _ =>
               rewrite Hnext in H; injection H as <- <-
           end.
           match goal with
           | H : visit_node s f var p1 = Ok false ?q |- _ =>
               rewrite Hv in H; injection H as <-
           end.
           exists pa, pb. auto.
  - injection H as <- <-. split; [discriminate|].
    intros (pa & pb & Hrun & Hnext' & Hposr & _).
    inversion Hrun; subst.
    + rewrite Hnext in Hnext'. injection Hnext' as Hr _. lia.
    + match goal with
      | H : priority_next p = Ok ?v ?q |- _ =>
          rewrite Hnext in H; injection H as Hr _
      end. lia.
Qed.

(** What [rup_run_input] returns, when it returns. *)
Lemma rup_run_input_result fuel tcid lits p r :
  rup_run_input fuel s f tcid lits p = Some r ->
  match r with
  | Ok _ _ =>
      exists p0, seed_fanouts s f lits p = Ok tt p0 /\ root_fires s f p0
  | Err e _ =>
      e = ImplicitDeletionFailed tcid /\
      exists p0, seed_fanouts s f lits p = Ok tt p0 /\ ~ root_fires s f p0
  | Undef | Diverge => True
  end.
Proof.
  unfold rup_run_input. intros H.
  destruct (seed_fanouts s f lits p) as [[] p0|e p0| |] eqn:Hseed.
  - destruct (rup_input_loop fuel s f p0) as [[c p1|e p1| |]|] eqn:Hloop;
      try discriminate.
    + pose proof (rup_input_loop_conflict _ _ _ _ Hloop) as Hc.
      destruct c; injection H as <-; cbn.
      * exists p0. split; [reflexivity|]. apply Hc. reflexivity.
      * split; [reflexivity|]. exists p0. split; [reflexivity|].
        intros Hr. apply Hc in Hr. discriminate.
    + destruct (rup_input_loop_no_exit _ _ _ _ _ _ Hloop).
    + injection H as <-. exact I.
    + injection H as <-. exact I.
  - destruct (no_exit_seed_fanouts _ _ _ _ _ _ Hseed).
  - injection H as <-. exact I.
  - injection H as <-. exact I.
Qed.

Lemma new_propagator_ok : prop_ok s f (new_propagator s).
Proof.
  unfold prop_ok, new_propagator, queued. cbn.
  split; [reflexivity|]. split; [unfold zlength; lia|].
  split; [apply NoDup_nil_2|apply Forall_nil_2].
Qed.

End Check.

(** ** The binary search of [find_clause] *)

Section SearchFuel.

(** Fuel above the size of the interval is never used up. *)
Lemma find_clause_loop_enough blocks cid : forall fuel lid rid,
  rid - lid + 1 < Z.of_nat fuel ->
  find_clause_loop (S fuel) blocks cid lid rid
  = find_clause_loop fuel blocks cid lid rid.
Proof.
  induction fuel as [|fuel IH]; intros lid rid Hsize.
  - cbn. destruct (Z.leb_spec lid rid); [lia|reflexivity].
  - change (find_clause_loop (S (S fuel)) blocks cid lid rid)
      with (if lid <=? rid then
              let bid := (lid + rid) / 2 in
              match arr_get blocks bid with
              | None => None
              | Some b =>
                  let pos := cid - start_id b in
                  if pos <? 0
                  then find_clause_loop (S fuel) blocks cid lid (bid - 1)
                  else if blk_length b <=? pos
                       then find_clause_loop (S fuel) blocks cid (bid + 1) rid
                       else Some (mk_loc bid pos)
              end
            else None).
    cbn [find_clause_loop].
    destruct (Z.leb_spec lid rid) as [Hle|]; [|reflexivity]. cbv zeta.
    assert (Hbid : lid <= (lid + rid) / 2 <= rid).
    { split; [apply Z.div_le_lower_bound; lia|].
      apply Z.lt_succ_r. apply Z.div_lt_upper_bound; lia. }
    destruct (arr_get blocks ((lid + rid) / 2)) as [b|]; [|reflexivity].
    destruct (cid - start_id b <? 0); [apply IH; lia|].
    destruct (blk_length b <=? cid - start_id b); [apply IH; lia|reflexivity].
Qed.

(** The search of [find_clause] does not depend on its fuel. *)
Lemma find_clause_fuel (s : checker) (cid : Z) (fuel : nat) :
  (S (length (clause_blocks s)) <= fuel)%nat ->
  find_clause_loop fuel (clause_blocks s) cid 0 (clause_block_count s - 1)
  = find_clause cid s.
Proof.
  unfold find_clause. induction 1 as [|fuel Hle IH]; [reflexivity|].
  rewrite find_clause_loop_enough; [exact IH|].
  unfold clause_block_count, zlength. lia.
Qed.

End SearchFuel.

(** ** The lists of integers *)

Section IlistFacts.

Lemma ilist_is_disjoint_some : forall l1 l2 v,
  ilist_is_disjoint l1 l2 = Some v -> In v l1 /\ In v l2.
Proof.
  induction l1 as [|v1 r1 IH1]; intros l2 v H.
  - destruct l2; discriminate.
  - induction l2 as [|v2 r2 IH2]; [discriminate|].
    cbn in H. destruct (Z.eqb_spec v1 v2) as [->|Hne].
    + injection H as <-. split; left; reflexivity.
    + destruct (v1 <? v2).
      * destruct (IH1 _ _ H). split; [right|]; assumption.
      * destruct (IH2 H). split; [|right]; assumption.
Qed.

Lemma ilist_is_disjoint_none : forall l1 l2,
  StronglySorted Z.lt l1 -> StronglySorted Z.lt l2 ->
  ilist_is_disjoint l1 l2 = None ->
  forall x, In x l1 -> ~ In x l2.
Proof.
  induction l1 as [|v1 r1 IH1]; intros l2 H1 H2 H x Hx1 Hx2; [destruct Hx1|].
  induction l2 as [|v2 r2 IH2]; [destruct Hx2|].
  apply StronglySorted_inv in H1 as [Hs1 Hall1].
  pose proof (StronglySorted_inv H2) as [Hs2 Hall2].
  rewrite List.Forall_forall in Hall1, Hall2.
  cbn in H. destruct (Z.eqb_spec v1 v2) as [->|Hne]; [discriminate|].
  destruct (Z.ltb_spec v1 v2) as [Hlt|Hge].
  - destruct Hx1 as [<-|Hx1].
    + destruct Hx2 as [->|Hx2]; [lia|]. specialize (Hall2 _ Hx2). lia.
    + exact (IH1 _ Hs1 H2 H x Hx1 Hx2).
  - destruct Hx2 as [->|Hx2].
    + destruct Hx1 as [->|Hx1]; [lia|]. specialize (Hall1 _ Hx1). lia.
    + apply (IH2 Hs2 H Hx2).
Qed.

Lemma ilist_union_disjoint : forall l1 l2,
  StronglySorted Z.lt l1 -> StronglySorted Z.lt l2 ->
  (forall x, In x l1 -> ~ In x l2) ->
  Permutation (ilist_union l1 l2) (l1 ++ l2) /\
  StronglySorted Z.lt (ilist_union l1 l2).
Proof.
  induction l1 as [|v1 r1 IH1]; intros l2 H1 H2 Hdis.
  - destruct l2; cbn; auto.
  - induction l2 as [|v2 r2 IH2].
    + cbn. rewrite app_nil_r. auto.
    + pose proof (StronglySorted_inv H1) as [Hs1 Hall1].
      pose proof (StronglySorted_inv H2) as [Hs2 Hall2].
      cbn. destruct (Z.ltb_spec v1 v2) as [Hlt|Hge].
      * destruct (IH1 (v2 :: r2) Hs1 H2) as [Hp Hs].
        { intros x Hx. apply Hdis. right. exact Hx. }
        split; [apply Permutation_skip; exact Hp|].
        constructor; [exact Hs|].
        rewrite Hp. apply Forall_app. split; [exact Hall1|].
        constructor; [exact Hlt|].
        eapply Forall_impl; [exact Hall2|]. intros y Hy. cbv beta in Hy. lia.
      * destruct (Z.ltb_spec v2 v1) as [Hlt|Hge'].
        2:{ exfalso. apply (Hdis v1); [left; reflexivity|]. left. lia. }
        destruct (IH2 Hs2) as [Hp Hs].
        { intros x Hx Hx2. apply (Hdis x Hx). right. exact Hx2. }
        split.
        -- cbn in Hp. rewrite Hp. cbn.
           apply (Permutation_middle (v1 :: r1) r2 v2).
        -- constructor; [exact Hs|]. cbn in Hp. rewrite Hp.
           constructor; [exact Hlt|]. apply Forall_app. split; [|exact Hall2].
           eapply Forall_impl; [exact Hall1|]. intros y Hy. cbv beta in Hy. lia.
Qed.

Lemma ilist_insert_perm x : forall l, Permutation (ilist_insert x l) (x :: l).
Proof.
  induction l as [|y r IH]; cbn; [reflexivity|].
  destruct (x <=? y); [reflexivity|].
  rewrite IH. apply Permutation_swap.
Qed.

Lemma ilist_sort_perm : forall l, Permutation (ilist_sort l) l.
Proof.
  induction l as [|x r IH]; cbn; [reflexivity|].
  rewrite ilist_insert_perm, IH. reflexivity.
Qed.

Lemma ilist_insert_sorted x : forall l,
  StronglySorted Z.le l -> StronglySorted Z.le (ilist_insert x l).
Proof.
  induction l as [|y r IH]; intros Hs; cbn.
  - constructor; constructor.
  - pose proof (StronglySorted_inv Hs) as [Hr Hall].
    destruct (Z.leb_spec x y) as [Hle|Hgt].
    + constructor; [exact Hs|]. constructor; [exact Hle|].
      eapply Forall_impl; [exact Hall|]. intros z Hz. cbv beta in Hz. lia.
    + constructor; [apply IH; exact Hr|].
      rewrite ilist_insert_perm. constructor; [lia|exact Hall].
Qed.

Lemma ilist_sort_sorted : forall l, StronglySorted Z.le (ilist_sort l).
Proof.
  induction l as [|x r IH]; cbn; [constructor|].
  apply ilist_insert_sorted, IH.
Qed.

(** No neighbours are equal in an ascending list: it ascends strictly. *)
Lemma ilist_find_duplicate_none : forall l,
  StronglySorted Z.le l -> ilist_find_duplicate l = None ->
  StronglySorted Z.lt l.
Proof.
  induction l as [|x r IH]; intros Hs H; [constructor|].
  pose proof (StronglySorted_inv Hs) as [Hr Hall].
  destruct r as [|y r'].
  - constructor; constructor.
  - cbn in H. destruct (Z.eqb_spec x y) as [|Hne]; [discriminate|].
    specialize (IH Hr H).
    pose proof (StronglySorted_inv IH) as [_ Hall'].
    inversion Hall as [|? ? Hxy _]; subst.
    constructor; [exact IH|]. constructor; [lia|].
    eapply Forall_impl; [exact Hall'|]. intros z Hz. cbv beta in Hz. lia.
Qed.

Lemma strictly_sorted_NoDup : forall l, StronglySorted Z.lt l -> NoDup l.
Proof.
  induction l as [|x r IH]; intros Hs; [constructor|].
  pose proof (StronglySorted_inv Hs) as [Hr Hall].
  constructor; [|apply IH; exact Hr].
  intros Hin. rewrite Forall_forall in Hall. specialize (Hall x Hin). lia.
Qed.

End IlistFacts.

(** ** The product command *)

Section ProductFacts.

Lemma same_others_refl idx nl : same_others idx nl nl.
Proof. split; auto. Qed.

Lemma same_others_trans idx nl1 nl2 nl3 :
  same_others idx nl1 nl2 -> same_others idx nl2 nl3 -> same_others idx nl1 nl3.
Proof.
  intros [H1 H2] [K1 K2]. split; [congruence|].
  intros j Hj. rewrite K2, H2; auto.
Qed.

Lemma same_others_set idx nl nl' x :
  arr_set nl idx x = Some nl' -> same_others idx nl nl'.
Proof.
  intros H. split; [eapply arr_set_length; eauto|].
  intros j Hj. eapply arr_get_set_ne; eauto.
Qed.

Lemma node_child_deps_same nvar idx nl nl' cs :
  same_others idx nl nl' ->
  Forall (fun c => IABS c - nvar - 1 <> idx) cs ->
  map (node_child_deps nvar nl') cs = map (node_child_deps nvar nl) cs.
Proof.
  intros [_ Hsame]. induction 1 as [|c r Hc _ IH]; cbn; [reflexivity|].
  rewrite IH. f_equal. unfold node_child_deps.
  destruct (IABS c <=? nvar); [reflexivity|]. rewrite Hsame by exact Hc.
  reflexivity.
Qed.

Lemma node_find_ok id s cidx :
  node_find id s = Some cidx -> cidx = id - input_variable_count (opts s) - 1.
Proof.
  unfold node_find. destruct (_ || _); [discriminate|]. intros [= <-]. reflexivity.
Qed.

(** The loop of [cpog_add_product] over the children [cs]. *)
Lemma product_children_loop_post nid idx rest : forall cs local s1 local' s2 node1,
  product_children_loop (map TOK_INT cs ++ TOK_INT 0 :: rest) nid idx local s1
  = Ok local' s2 ->
  Forall (fun c => c <> 0) cs ->
  Forall (fun c => IABS c - input_variable_count (opts s1) - 1 <> idx) cs ->
  arr_get (node_list s1) idx = Some node1 ->
  (forall j n, arr_get (node_list s1) j = Some n ->
               StronglySorted Z.lt (dependency_list n)) ->
  exists node2,
    arr_get (node_list s2) idx = Some node2 /\
    node_type node2 = node_type node1 /\
    children node2 = children node1 ++ cs /\
    local' = local ++ literal_vars (input_variable_count (opts s1)) cs /\
    Permutation (dependency_list node2)
      (dependency_list node1 ++
       concat (map (node_child_deps (input_variable_count (opts s1))
                                    (node_list s1)) cs)) /\
    (forall j n, arr_get (node_list s2) j = Some n ->
                 StronglySorted Z.lt (dependency_list n)) /\
    Forall (fun c => input_variable_count (opts s1) < IABS c ->
              exists n, arr_get (node_list s1)
                          (IABS c - input_variable_count (opts s1) - 1) = Some n /\
                        node_type n <> NODE_NONE) cs /\
    same_others idx (node_list s1) (node_list s2) /\
    opts s2 = opts s1 /\
    tokens s2 = rest.
Proof.
  induction cs as [|c cs IH]; intros local s1 local' s2 node1 H Hnz Hself Hn1 Hsorted.
  - cbn [map app product_children_loop] in H.
    apply bind_ok in H. destruct H as (u & sa & Hm & H).
    apply modify_ok in Hm. subst sa. change (0 =? 0) with true in H. cbv iota in H.
    apply ret_ok in H. destruct H as [-> ->].
    exists node1. cbn. rewrite !app_nil_r.
    repeat split; try reflexivity; try assumption. constructor.
  - inversion Hnz as [|? ? Hc Hnz']; subst.
    inversion Hself as [|? ? Hcs Hself']; subst.
    cbn [map app product_children_loop] in H.
    apply bind_ok in H. destruct H as (u & sa & Hm & H).
    apply modify_ok in Hm. subst sa.
    destruct (Z.eqb_spec c 0) as [|_]; [contradiction|].
    apply bind_ok in H. destruct H as (u1 & sb & Hup & H).
    apply update_node_post in Hup. destruct Hup as (n0 & nl & Hn0 & Hnl & ->).
    change (node_list (set_tokens _ s1)) with (node_list s1) in Hn0, Hnl.
    rewrite Hn1 in Hn0. injection Hn0 as <-.
    apply bind_ok in H. destruct H as (sc & sd & Hget & H).
    apply get_ok in Hget. destruct Hget as [-> ->].
    set (sb := set_node_list nl (set_tokens (map TOK_INT cs ++ TOK_INT 0 :: rest) s1)) in *.
    change (opts sb) with (opts s1) in H.
    set (nodeb := set_children (children node1 ++ [c]) node1) in *.
    assert (Hnb : arr_get (node_list sb) idx = Some nodeb).
    { exact (arr_get_set_eq _ _ _ _ Hnl). }
    assert (Hsob : same_others idx (node_list s1) (node_list sb)).
    { exact (same_others_set _ _ _ _ Hnl). }
    assert (Hsortb : forall j n, arr_get (node_list sb) j = Some n ->
                                 StronglySorted Z.lt (dependency_list n)).
    { intros j n Hj. destruct (Z.eq_dec j idx) as [->|Hne].
      - rewrite Hnb in Hj. injection Hj as <-. apply (Hsorted idx node1 Hn1).
      - destruct Hsob as [_ Hsob]. rewrite Hsob in Hj by exact Hne.
        eapply Hsorted; eauto. }
    assert (Hback : forall (sx : checker) (nlx : list node_t),
              same_others idx (node_list s1) nlx ->
              Forall (fun c => input_variable_count (opts s1) < IABS c ->
                        exists n, arr_get nlx
                                    (IABS c - input_variable_count (opts s1) - 1)
                                  = Some n /\ node_type n <> NODE_NONE) cs ->
              Forall (fun c => input_variable_count (opts s1) < IABS c ->
                        exists n, arr_get (node_list s1)
                                    (IABS c - input_variable_count (opts s1) - 1)
                                  = Some n /\ node_type n <> NODE_NONE) cs).
    { intros _ nlx [_ Hso] Hall. rewrite Forall_forall in Hall, Hself' |- *.
      intros c' Hin Hv. destruct (Hall c' Hin Hv) as (n & Hn & Hty).
      exists n. split; [|exact Hty].
      rewrite <- Hso by (apply Hself'; exact Hin). exact Hn. }
    destruct (Z.leb_spec (IABS c) (input_variable_count (opts s1))) as [Hlit|Hnode].
    + (* a literal child *)
      apply bind_ok in H. destruct H as (u2 & se & Hpkc & H).
      assert (se = sb).
      { destruct (is_pkc (opts s1)).
        - apply bind_ok in Hpkc. destruct Hpkc as (show & sf & Hshow & Hpkc).
          apply defined_ok in Hshow. destruct Hshow as [_ ->].
          destruct (_ && _); [discriminate|]. apply ret_ok in Hpkc. apply Hpkc.
        - apply ret_ok in Hpkc. apply Hpkc. }
      subst se.
      destruct (IH _ _ _ _ nodeb H Hnz' Hself' Hnb Hsortb)
        as (node2 & K1 & K2 & K3 & K4 & K5 & K6 & K7 & K8 & K9 & K10).
      change (opts sb) with (opts s1) in K4, K5, K7.
      exists node2. split; [exact K1|]. split; [exact K2|].
      split; [rewrite K3; cbn; rewrite <- app_assoc; reflexivity|].
      split.
      { rewrite K4. cbn [literal_vars].
        destruct (Z.leb_spec (IABS c) (input_variable_count (opts s1))); [|lia].
        rewrite <- app_assoc. reflexivity. }
      split.
      { rewrite K5. cbn [map concat].
        rewrite (node_child_deps_same _ idx (node_list s1) (node_list sb))
          by assumption.
        unfold node_child_deps at 2.
        destruct (Z.leb_spec (IABS c) (input_variable_count (opts s1))); [|lia].
        reflexivity. }
      split; [exact K6|].
      split.
      { constructor; [lia|]. exact (Hback sb _ Hsob K7). }
      split; [exact (same_others_trans _ _ _ _ Hsob K8)|].
      split; [exact K9|exact K10].
    + (* a node child *)
      destruct (Z.eqb_spec (IABS c) c) as [Habs|]; [|discriminate].
      cbn [negb] in H.
      destruct (node_find (IABS c) sb) as [cidx|] eqn:Hfind; [|discriminate].
      pose proof (node_find_ok _ _ _ Hfind) as Hcidx.
      change (opts sb) with (opts s1) in Hcidx.
      apply bind_ok in H. destruct H as (cnode & se & Hcn & H).
      apply read_node_ok in Hcn. destruct Hcn as [Hcn ->].
      destruct (node_type_eqb (node_type cnode) NODE_NONE) eqn:Hcty; [discriminate|].
      apply bind_ok in H. destruct H as (node & se & Hrn & H).
      apply read_node_ok in Hrn. destruct Hrn as [Hrn ->].
      rewrite Hnb in Hrn. injection Hrn as <-.
      destruct (ilist_is_disjoint (dependency_list nodeb) (dependency_list cnode))
        as [dvar|] eqn:Hdis; [discriminate|].
      apply bind_ok in H. destruct H as (u3 & sf & Hup & H).
      apply update_node_post in Hup. destruct Hup as (n0 & nl' & Hn0 & Hnl' & ->).
      rewrite Hnb in Hn0. injection Hn0 as <-.
      set (sf := set_node_list nl' sb) in *.
      set (nodef := set_dependency_list
                      (ilist_union (dependency_list nodeb) (dependency_list cnode))
                      nodeb) in *.
      assert (Hnf : arr_get (node_list sf) idx = Some nodef).
      { exact (arr_get_set_eq _ _ _ _ Hnl'). }
      assert (Hsof : same_others idx (node_list s1) (node_list sf)).
      { eapply same_others_trans; [exact Hsob|].
        exact (same_others_set _ _ _ _ Hnl'). }
      assert (Hcn1 : arr_get (node_list s1) cidx = Some cnode).
      { destruct Hsob as [_ Hsob]. rewrite <- Hsob; [exact Hcn|].
        rewrite Hcidx. exact Hcs. }
      destruct (ilist_union_disjoint (dependency_list nodeb) (dependency_list cnode))
        as [Hperm Hsu].
      { apply (Hsortb idx nodeb Hnb). }
      { apply (Hsortb cidx cnode Hcn). }
      { apply ilist_is_disjoint_none; [apply (Hsortb idx nodeb Hnb)| |exact Hdis].
        apply (Hsortb cidx cnode Hcn). }
      assert (Hsortf : forall j n, arr_get (node_list sf) j = Some n ->
                                   StronglySorted Z.lt (dependency_list n)).
      { intros j n Hj. destruct (Z.eq_dec j idx) as [->|Hne].
        - rewrite Hnf in Hj. injection Hj as <-. exact Hsu.
        - destruct Hsof as [_ Hsof]. rewrite Hsof in Hj by exact Hne.
          eapply Hsorted; eauto. }
      destruct (IH _ _ _ _ nodef H Hnz' Hself' Hnf Hsortf)
        as (node2 & K1 & K2 & K3 & K4 & K5 & K6 & K7 & K8 & K9 & K10).
      change (opts sf) with (opts s1) in K4, K5, K7.
      exists node2. split; [exact K1|]. split; [exact K2|].
      split; [rewrite K3; cbn; rewrite <- app_assoc; reflexivity|].
      split.
      { rewrite K4. cbn [literal_vars].
        destruct (Z.leb_spec (IABS c) (input_variable_count (opts s1))); [lia|].
        reflexivity. }
      split.
      { rewrite K5. cbn [map concat].
        rewrite (node_child_deps_same _ idx (node_list s1) (node_list sf))
          by assumption.
        unfold node_child_deps at 2.
        destruct (Z.leb_spec (IABS c) (input_variable_count (opts s1))); [lia|].
        rewrite <- Hcidx, Hcn1.
        change (dependency_list nodef)
          with (ilist_union (dependency_list nodeb) (dependency_list cnode)).
        rewrite Hperm. change (dependency_list nodeb) with (dependency_list node1).
        rewrite <- app_assoc. reflexivity. }
      split; [exact K6|].
      split.
      { constructor.
        - intros _. exists cnode. rewrite <- Hcidx. split; [exact Hcn1|].
          intros Hty. rewrite Hty in Hcty. discriminate.
        - exact (Hback sf _ Hsof K7). }
      split; [exact (same_others_trans _ _ _ _ Hsof K8)|].
      split; [exact K9|exact K10].
Qed.

End ProductFacts.

Section ProductCommand.

Lemma fresh_nodes_none nvar from count :
  Forall (fun n => node_type n = NODE_NONE /\ dependency_list n = [])
         (fresh_nodes nvar from count).
Proof.
  unfold fresh_nodes. apply Forall_forall. intros n Hn.
  apply list_elem_of_fmap in Hn. destruct Hn as (i & -> & _). auto.
Qed.

Lemma node_new_post type id cid s idx s1 :
  node_new type id cid s = Ok idx s1 ->
  input_variable_count (opts s) < id /\
  idx = id - input_variable_count (opts s) - 1 /\
  opts s1 = opts s /\
  tokens s1 = tokens s /\
  exists extra node0,
    Forall (fun n => node_type n = NODE_NONE /\ dependency_list n = []) extra /\
    arr_get (node_list s ++ extra) idx = Some node0 /\
    arr_set (node_list s ++ extra) idx
            (set_ring_value None (set_node_cid cid (set_node_type type node0)))
    = Some (node_list s1).
Proof.
  unfold node_new. intros H.
  apply bind_ok in H. destruct H as (s0 & sa & Hget & H).
  apply get_ok in Hget. destruct Hget as [-> ->].
  destruct (Z.leb_spec id (input_variable_count (opts s))) as [|Hid];
    [discriminate|].
  apply bind_ok in H. destruct H as (u & sa & Hgrow & H).
  assert (Hsa : exists extra,
             Forall (fun n => node_type n = NODE_NONE /\ dependency_list n = [])
                    extra /\
             node_list sa = node_list s ++ extra /\
             opts sa = opts s /\ tokens sa = tokens s).
  { destruct (node_asize s <? id - input_variable_count (opts s)).
    - apply bind_ok in Hgrow. destruct Hgrow as (u1 & sb & H1 & H2).
      apply modify_ok in H1. apply modify_ok in H2. subst sb sa.
      eexists. split; [apply fresh_nodes_none|]. repeat split.
    - apply ret_ok in Hgrow. destruct Hgrow as [_ ->]. exists [].
      split; [constructor|]. rewrite app_nil_r. repeat split. }
  destruct Hsa as (extra & Hextra & Hnl & Hopts & Htok).
  apply bind_ok in H. destruct H as (s0 & sb & Hget & H).
  apply get_ok in Hget. destruct Hget as [-> ->].
  apply bind_ok in H. destruct H as (idx0 & sb & Hfind & H).
  apply defined_ok in Hfind. destruct Hfind as [Hfind ->].
  apply node_find_ok in Hfind. rewrite Hopts in Hfind.
  apply bind_ok in H. destruct H as (node0 & sb & Hrn & H).
  apply read_node_ok in Hrn. destruct Hrn as [Hrn ->].
  destruct (negb (node_type_eqb (node_type node0) NODE_NONE)); [discriminate|].
  apply bind_ok in H. destruct H as (u2 & sb & Hup & H).
  apply update_node_post in Hup. destruct Hup as (n0 & nl & Hn0 & Hset & ->).
  rewrite Hrn in Hn0. injection Hn0 as <-.
  apply bind_ok in H. destruct H as (u3 & sb & Hm & H).
  apply modify_ok in Hm. subst sb. apply ret_ok in H. destruct H as [-> ->].
  split; [exact Hid|]. split; [exact Hfind|]. split; [exact Hopts|].
  split; [exact Htok|].
  exists extra, node0. split; [exact Hextra|].
  rewrite <- Hnl. split; [exact Hrn|exact Hset].
Qed.

Lemma arr_get_app_some {A} (l extra : list A) j n :
  arr_get (l ++ extra) j = Some n -> arr_get l j = Some n \/ In n extra.
Proof.
  unfold arr_get. destruct (j <? 0); [discriminate|]. intros H.
  apply lookup_app_Some in H. destruct H as [H|[_ H]]; [left; exact H|].
  right. apply list_elem_of_In. eapply list_elem_of_lookup_2. exact H.
Qed.

(** The dependency sets of the children, split into those of the node
    children and the variables of the literal children. *)
Lemma child_dependencies_split s nl : forall cs,
  Forall (fun c => input_variable_count (opts s) < IABS c ->
            arr_get nl (IABS c - input_variable_count (opts s) - 1)
            = arr_get (node_list s) (IABS c - input_variable_count (opts s) - 1))
         cs ->
  Permutation (concat (map (child_dependencies s) cs))
    (concat (map (node_child_deps (input_variable_count (opts s)) nl) cs) ++
     literal_vars (input_variable_count (opts s)) cs).
Proof.
  induction 1 as [|c cs Hc _ IH]; cbn [map concat literal_vars]; [reflexivity|].
  unfold child_dependencies at 1, node_child_deps at 1.
  destruct (Z.leb_spec (IABS c) (input_variable_count (opts s))) as [Hlit|Hnode].
  - cbn. rewrite IH. apply Permutation_middle.
  - rewrite (Hc Hnode), IH, app_assoc. reflexivity.
Qed.

(** The commands behind the dependency set keep the nodes. *)
Lemma product_clauses_keep_nodes cid nid idx s5 s' :
  (token <- token_next ;;
   match token with
   | TOK_EOL =>
       start_clause cid ;;;
       clause_add_literal nid ;;;
       node <- read_node idx ;;
       s <- get ;;
       let n := zlength (children node) in
       let ctype := if (n =? 0) && (nid =? declared_root s)
                    then CLAUSE_ROOT else CLAUSE_TSEITIN in
       clause_add_literals (map Z.opp (children node)) ;;;
       clause_add_literal 0 ;;;
       finish_clause cid ctype ;;;
       child_clauses (cid + 1) (- nid) 1 CLAUSE_TSEITIN (children node) ;;;
       (if (n =? 0) && (nid =? declared_root s)
        then modify (set_root_clause_added true) else ret tt)
   | _ => err_printf ParseError
   end) s5 = Ok tt s' ->
  node_list s' = node_list s5.
Proof.
  intros H.
  apply bind_ok in H. destruct H as (t & s6 & Ht & H).
  assert (Hs6 : node_list s6 = node_list s5).
  { unfold token_next in Ht. destruct (tokens s5); injection Ht as <- <-; reflexivity. }
  destruct t; try discriminate.
  apply bind_ok in H. destruct H as (u1 & s7 & H1 & H).
  apply start_clause_post in H1. destruct H1 as (_ & _ & _ & Hn7 & _).
  apply bind_ok in H. destruct H as (u2 & s8 & H2 & H).
  apply clause_add_literal_post in H2. subst s8.
  apply bind_ok in H. destruct H as (node & s8 & Hn & H).
  apply read_node_ok in Hn. destruct Hn as [_ ->].
  apply bind_ok in H. destruct H as (s9 & s8 & Hget & H).
  apply get_ok in Hget. destruct Hget as [-> ->]. cbv zeta in H.
  apply bind_ok in H. destruct H as (u3 & s8 & H3 & H).
  apply clause_add_literals_post in H3. subst s8.
  apply bind_ok in H. destruct H as (u4 & s8 & H4 & H).
  apply clause_add_literal_post in H4. subst s8.
  apply bind_ok in H. destruct H as (u5 & s8 & H5 & H).
  apply finish_clause_post in H5. destruct H5 as (_ & _ & Hn8 & _).
  apply bind_ok in H. destruct H as (u6 & s9 & H6 & H).
  apply child_clauses_post in H6. destruct H6 as (_ & _ & Hn9).
  assert (Hs' : node_list s' = node_list s9).
  { destruct (_ && _).
    - apply modify_ok in H. subst s'. reflexivity.
    - apply ret_ok in H. destruct H as [_ ->]. reflexivity. }
  rewrite Hs', Hn9, Hn8. cbn. rewrite Hn7. exact Hs6.
Qed.

End ProductCommand.

(** A product accepted in strict mode, none of whose children is the
    node itself: its children are those of the line, its dependency set
    holds what the children bring, each variable once, and no variable
    is brought twice. *)
Theorem product_dependencies (s : checker) (cid nid : Z) (cs : list Z)
    (rest : list token_t) (s' : checker) :
  tokens s = TOK_INT nid :: map TOK_INT cs ++ TOK_INT 0 :: rest ->
  Forall (fun c => c <> 0) cs ->
  Forall (fun c => IABS c <> nid) cs ->
  repeated_literal_ok (opts s) = false ->
  (forall j n, arr_get (node_list s) j = Some n ->
               StronglySorted Z.lt (dependency_list n)) ->
  cpog_add_product cid s = Ok tt s' ->
  exists node,
    arr_get (node_list s') (nid - input_variable_count (opts s) - 1) = Some node /\
    node_type node = NODE_PRODUCT /\
    children node = cs /\
    Permutation (dependency_list node) (concat (map (child_dependencies s) cs)) /\
    NoDup (concat (map (child_dependencies s) cs)) /\
    (forall j n, arr_get (node_list s') j = Some n ->
                 StronglySorted Z.lt (dependency_list n)).
Proof.
  intros Htok Hnz Hself Hstrict Hsorted H.
  unfold cpog_add_product in H.
  apply bind_ok in H. destruct H as (t & s0 & Ht & H).
  unfold token_next in Ht. rewrite Htok in Ht. injection Ht as <- <-.
  set (ts := map TOK_INT cs ++ TOK_INT 0 :: rest) in *.
  apply bind_ok in H. destruct H as (idx & s1 & Hnew & H).
  apply node_new_post in Hnew.
  destruct Hnew as (Hid & Hidx & Hopts1 & Htok1 & extra & node0 & Hextra & Hn0 & Hset1).
  change (opts (set_tokens ts s)) with (opts s) in Hid, Hidx, Hopts1.
  change (tokens (set_tokens ts s)) with ts in Htok1.
  change (node_list (set_tokens ts s)) with (node_list s) in Hn0, Hset1.
  set (nvar := input_variable_count (opts s)) in *.
  set (base := node_list s ++ extra) in *.
  apply bind_ok in H. destruct H as (u2 & s2 & Hup2 & H).
  apply update_node_post in Hup2. destruct Hup2 as (n1 & nl2 & Hn1 & Hset2 & ->).
  rewrite (arr_get_set_eq _ _ _ _ Hset1) in Hn1. injection Hn1 as <-.
  apply bind_ok in H. destruct H as (u3 & s3 & Hup3 & H).
  apply update_node_post in Hup3. destruct Hup3 as (n2 & nl3 & Hn2 & Hset3 & ->).
  change (node_list (set_node_list nl2 s1)) with nl2 in Hn2, Hset3.
  rewrite (arr_get_set_eq _ _ _ _ Hset2) in Hn2. injection Hn2 as <-.
  apply bind_ok in H. destruct H as (sx & s3 & Hget & H).
  apply get_ok in Hget. destruct Hget as [-> ->].
  set (s3 := set_node_list nl3 (set_node_list nl2 s1)) in *.
  change (tokens s3) with (tokens s1) in H. rewrite Htok1 in H.
  set (node3 := set_dependency_list []
                  (set_children []
                     (set_ring_value None
                        (set_node_cid cid (set_node_type NODE_PRODUCT node0))))) in *.
  assert (Hn3 : arr_get (node_list s3) idx = Some node3).
  { exact (arr_get_set_eq _ _ _ _ Hset3). }
  assert (Hso3 : same_others idx base (node_list s3)).
  { eapply same_others_trans; [exact (same_others_set _ _ _ _ Hset1)|].
    eapply same_others_trans; [exact (same_others_set _ _ _ _ Hset2)|].
    exact (same_others_set _ _ _ _ Hset3). }
  assert (Hbase : forall j n, j <> idx -> arr_get (node_list s3) j = Some n ->
            arr_get (node_list s) j = Some n \/
            (node_type n = NODE_NONE /\ dependency_list n = [])).
  { intros j n Hj Hn. destruct Hso3 as [_ Hso3]. rewrite Hso3 in Hn by exact Hj.
    apply arr_get_app_some in Hn. destruct Hn as [Hn|Hn]; [left; exact Hn|right].
    rewrite List.Forall_forall in Hextra. apply Hextra. exact Hn. }
  assert (Hsorted3 : forall j n, arr_get (node_list s3) j = Some n ->
                                 StronglySorted Z.lt (dependency_list n)).
  { intros j n Hn. destruct (Z.eq_dec j idx) as [->|Hj].
    - rewrite Hn3 in Hn. injection Hn as <-. constructor.
    - destruct (Hbase j n Hj Hn) as [Hs|[_ Hd]]; [eapply Hsorted; eauto|].
      rewrite Hd. constructor. }
  apply bind_ok in H. destruct H as (local & s4 & Hloop & H).
  apply product_children_loop_post with (node1 := node3) in Hloop;
    [|exact Hnz| |exact Hn3|exact Hsorted3].
  2:{ eapply Forall_impl; [exact Hself|]. intros c Hc. cbv beta in Hc.
      change (opts s3) with (opts s1). rewrite Hopts1. fold nvar. lia. }
  destruct Hloop as (node4 & K1 & K2 & K3 & K4 & K5 & K6 & K7 & K8 & K9 & K10).
  change (opts s3) with (opts s1) in K4, K5, K7, K9.
  rewrite Hopts1 in K4, K5, K7, K9. fold nvar in K4, K5, K7.
  cbn in K2, K3, K5.
  apply bind_ok in H. destruct H as (sx & s4' & Hget & H).
  apply get_ok in Hget. destruct Hget as [-> ->].
  apply bind_ok in H. destruct H as (u5 & s5 & Hdeps & H).
  apply product_clauses_keep_nodes in H.
  (* the variables of the literal children *)
  assert (Hfin : exists node5,
            arr_get (node_list s5) idx = Some node5 /\
            node_type node5 = NODE_PRODUCT /\ children node5 = cs /\
            Permutation (dependency_list node5) (dependency_list node4 ++ local) /\
            (forall j n, arr_get (node_list s5) j = Some n ->
                         StronglySorted Z.lt (dependency_list n))).
  { destruct (Z.ltb_spec 0 (zlength local)) as [Hlen|Hlen].
    - apply bind_ok in Hdeps. destruct Hdeps as (local2 & s6 & Hl2 & Hdeps).
      rewrite K9, Hstrict in Hl2.
      destruct (ilist_find_duplicate (ilist_sort local)) as [dvar|] eqn:Hdup;
        [discriminate|].
      apply ret_ok in Hl2. destruct Hl2 as [-> ->].
      apply bind_ok in Hdeps. destruct Hdeps as (node & s6 & Hrn & Hdeps).
      apply read_node_ok in Hrn. destruct Hrn as [Hrn ->].
      rewrite K1 in Hrn. injection Hrn as <-.
      destruct (ilist_is_disjoint (dependency_list node4) (ilist_sort local))
        as [dvar|] eqn:Hdis; [discriminate|].
      apply update_node_post in Hdeps. destruct Hdeps as (n4 & nl5 & Hn4 & Hset5 & ->).
      rewrite K1 in Hn4. injection Hn4 as <-.
      pose proof (ilist_find_duplicate_none _ (ilist_sort_sorted local) Hdup) as Hss.
      destruct (ilist_union_disjoint (dependency_list node4) (ilist_sort local))
        as [Hperm Hsu]; [exact (K6 idx node4 K1)|exact Hss| |].
      { apply ilist_is_disjoint_none; [exact (K6 idx node4 K1)|exact Hss|exact Hdis]. }
      eexists. split; [exact (arr_get_set_eq _ _ _ _ Hset5)|].
      split; [exact K2|]. split; [exact K3|]. split.
      + cbn. rewrite Hperm, ilist_sort_perm. reflexivity.
      + intros j n Hn. destruct (Z.eq_dec j idx) as [->|Hj].
        * change (node_list (set_node_list nl5 s4)) with nl5 in Hn.
          rewrite (arr_get_set_eq _ _ _ _ Hset5) in Hn. injection Hn as <-.
          exact Hsu.
        * change (node_list (set_node_list nl5 s4)) with nl5 in Hn.
          rewrite (arr_get_set_ne _ _ _ j _ Hset5) in Hn by auto.
          eapply K6; eauto.
    - apply ret_ok in Hdeps. destruct Hdeps as [_ ->].
      exists node4. split; [exact K1|]. split; [exact K2|]. split; [exact K3|].
      split; [|exact K6].
      destruct local as [|x l]; [rewrite app_nil_r; reflexivity|].
      unfold zlength in Hlen. cbn in Hlen. lia. }
  destruct Hfin as (node5 & F1 & F2 & F3 & F4 & F5).
  assert (Hperm : Permutation (dependency_list node5)
                    (concat (map (child_dependencies s) cs))).
  { rewrite F4, K5, K4. cbn [app]. symmetry.
    apply child_dependencies_split. fold nvar.
    rewrite Forall_forall in K7, Hself |- *. intros c Hc Hv.
    destruct (K7 c Hc Hv) as (n & Hn & Hty).
    assert (Hj : IABS c - nvar - 1 <> idx) by (specialize (Hself c Hc); lia).
    destruct (Hbase _ _ Hj Hn) as [Hs|[Hnone _]]; [|contradiction].
    transitivity (Some n); [exact Hn|symmetry; exact Hs]. }
  exists node5. rewrite <- Hidx, H.
  split; [exact F1|]. split; [exact F2|]. split; [exact F3|].
  split; [exact Hperm|]. split; [|exact F5].
  rewrite <- Hperm. apply strictly_sorted_NoDup. exact (F5 idx node5 F1).
Qed.


(** The dependency sets of [xor_pog] ascend. *)
Lemma xor_pog_sorted j n :
  arr_get (node_list xor_pog) j = Some n ->
  StronglySorted Z.lt (dependency_list n).
Proof.
  intros Hn.
  assert (Hall : Forall (fun n => StronglySorted Z.lt (dependency_list n))
                        (node_list xor_pog)).
  { vm_compute. repeat constructor. }
  rewrite Forall_forall in Hall. apply Hall.
  unfold arr_get in Hn. destruct (j <? 0); [discriminate|].
  eapply list_elem_of_lookup_2. exact Hn.
Qed.

(** After [xor_cpog], the line [15 p 6 5 0] declares the product of the
    root 5: its dependency set is that of the root. *)
Lemma product_of_node_accepted :
  exists s' node,
    cpog_add_product 15
      (set_tokens [TOK_INT 6; TOK_INT 5; TOK_INT 0; TOK_EOL] xor_pog) = Ok tt s' /\
    arr_get (node_list s') 3 = Some node /\
    Permutation (dependency_list node) [1; 2].
Proof.
  set (s := set_tokens _ xor_pog).
  destruct (cpog_add_product 15 s) as [[] s'| | |] eqn:Hrun;
    try (vm_compute in Hrun; discriminate).
  destruct (product_dependencies s 15 6 [5] [TOK_EOL] s')
    as (node & Hn & _ & _ & Hperm & _).
  - reflexivity.
  - repeat constructor; lia.
  - repeat constructor; vm_compute; discriminate.
  - reflexivity.
  - exact xor_pog_sorted.
  - exact Hrun.
  - exists s', node. split; [reflexivity|]. split; [exact Hn|exact Hperm].
Qed.

(** The lines [15 p 6 5 1 0] and [15 p 6 1 -1 0] are refused: variable 1
    is in the dependency set of the node 5, and it is the variable of
    two literals. *)
Lemma product_sharing_rejected :
  (exists s', cpog_add_product 15
                (set_tokens [TOK_INT 6; TOK_INT 5; TOK_INT 1; TOK_INT 0; TOK_EOL]
                            xor_pog)
              = Err (DependencyViolation 1 6) s') /\
  (exists s', cpog_add_product 15
                (set_tokens [TOK_INT 6; TOK_INT 1; TOK_INT (-1); TOK_INT 0; TOK_EOL]
                            xor_pog)
              = Err (DependencyViolation 1 6) s').
Proof. split; eexists; vm_compute; reflexivity. Qed.

(** ** A product that lists itself *)

(** C4, at the line [2 p 2 2 1 0] over the CNF file [p cnf 1 1 / 1 0]:
    in strict mode the command is accepted and creates the product 2
    with the children 2 (the node itself) and 1 and the dependency set
    {1}.  Variable 1 is in the dependency set of the node child 2 and is
    the variable of the literal child 1, and no DependencyViolation is
    raised: [node_new] gives the node its type before the children are
    read, so that the test of the child's type accepts the node itself,
    whose dependency set is still empty when it is compared. *)
Theorem self_child_product_accepted :
  run (cpog_read self_child_cpog) self_child_cnf = Ok tt self_child_pog /\
  repeated_literal_ok (opts self_child_pog) = false /\
  exists node,
    arr_get (node_list self_child_pog) 0 = Some node /\
    node_type node = NODE_PRODUCT /\
    node_id node = 2 /\
    children node = [2; 1] /\
    dependency_list node = [1] /\
    map (child_dependencies self_child_pog) (children node) = [[1]; [1]].
Proof.
  split; [vm_compute; reflexivity|].
  split; [reflexivity|].
  eexists. repeat split; vm_compute; reflexivity.
Qed.

(** *** In the deletion check *)

Section SelfLoop.

(** The file [self_loop_cpog] is accepted, with the unit clause of its
    root. *)
Lemma self_loop_accepted :
  run (cpog_read self_loop_cpog) self_child_cnf = Ok tt self_loop_pog /\
  root_clause_added self_loop_pog = true /\
  build_deletion_structures self_loop_pog = Some self_loop_fanouts.
Proof. repeat split; vm_compute; reflexivity. Qed.

(** A round of the loop of [rup_run_input] takes the product 2 from the
    queue and puts it back. *)
Lemma self_loop_round fuel : forall ec,
  rup_input_loop fuel self_loop_pog self_loop_fanouts
    (mk_propagate [1; 1] [2; 3] 2 0 ec) = None.
Proof.
  induction fuel as [|fuel IH]; intros ec; [reflexivity|].
  cbn [rup_input_loop].
  assert (Hnext : priority_next (mk_propagate [1; 1] [2; 3] 2 0 ec)
                  = Ok 2 (mk_propagate [1; 1] [3; 3] 1 0 (ec + 1)))
    by (vm_compute; reflexivity).
  rewrite Hnext. change (0 <? 2) with true. cbv iota.
  assert (Hvisit : visit_node self_loop_pog self_loop_fanouts 2
                     (mk_propagate [1; 1] [3; 3] 1 0 (ec + 1))
                   = Ok false (mk_propagate [1; 1] [2; 3] 2 0 (ec + 1)))
    by (vm_compute; reflexivity).
  rewrite Hvisit. apply IH.
Qed.

(** The reverse implication of the input clause 1 of [self_loop_cpog]
    never ends: no fuel suffices. *)
Lemma self_loop_check_never_ends (fuel : nat) :
  rup_run_input fuel self_loop_pog self_loop_fanouts 1 [1]
    (new_propagator self_loop_pog) = None.
Proof.
  unfold rup_run_input.
  assert (Hseed : seed_fanouts self_loop_pog self_loop_fanouts [1]
                    (new_propagator self_loop_pog)
                  = Ok tt (mk_propagate [1; 1] [2; 3] 2 0 0))
    by (vm_compute; reflexivity).
  rewrite Hseed, self_loop_round. reflexivity.
Qed.

End SelfLoop.

(** ** More on the lists of integers *)

Section IlistMore.

Lemma ilist_find_duplicate_some : forall l v,
  ilist_find_duplicate l = Some v -> exists l1 l2, l = l1 ++ v :: v :: l2.
Proof.
  induction l as [|x r IH]; intros v H; [discriminate|].
  destruct r as [|y r']; [discriminate|].
  cbn in H. destruct (Z.eqb_spec x y) as [->|Hne].
  - injection H as <-. exists [], r'. reflexivity.
  - destruct (IH _ H) as (l1 & l2 & ->). exists (x :: l1), l2. reflexivity.
Qed.

Lemma ilist_dedup_from_in last : forall l x,
  In x (ilist_dedup_from last l) -> In x l.
Proof.
  intros l; revert last. induction l as [|y r IH]; intros last x H; [destruct H|].
  cbn in H. destruct (y =? last).
  - right. exact (IH _ _ H).
  - destruct H as [<-|H]; [left; reflexivity|right; exact (IH _ _ H)].
Qed.

Lemma ilist_dedup_from_keeps : forall l last x,
  In x l -> x = last \/ In x (ilist_dedup_from last l).
Proof.
  induction l as [|y r IH]; intros last x H; [destruct H|].
  cbn. destruct (Z.eqb_spec y last) as [->|Hne].
  - destruct H as [<-|H]; [left; reflexivity|exact (IH _ _ H)].
  - destruct H as [<-|H]; [right; left; reflexivity|].
    destruct (IH y x H) as [->|Hin]; right; [left; reflexivity|right; exact Hin].
Qed.

Lemma ilist_dedup_from_sorted : forall l last,
  StronglySorted Z.le l -> Forall (fun y => last <= y) l ->
  StronglySorted Z.lt (ilist_dedup_from last l) /\
  Forall (fun y => last < y) (ilist_dedup_from last l).
Proof.
  induction l as [|y r IH]; intros last Hs Hall; [split; constructor|].
  pose proof (StronglySorted_inv Hs) as [Hr Hyr].
  inversion Hall as [|? ? Hly Hlr]; subst.
  cbn. destruct (Z.eqb_spec y last) as [->|Hne].
  - apply IH; assumption.
  - destruct (IH y Hr Hyr) as [Hs' Hall']. split.
    + constructor; assumption.
    + constructor; [lia|].
      eapply Forall_impl; [exact Hall'|]. intros z Hz. cbv beta in Hz. lia.
Qed.

End IlistMore.

(** Sorting the list and looking for equal neighbours finds a repeated
    value exactly when the list has one: the answer is [None] if and only
    if no value occurs twice, and a value that is reported occurs at least
    twice. *)
Theorem duplicate_found_after_sort (l : list Z) :
  (ilist_find_duplicate (ilist_sort l) = None <-> NoDup l) /\
  (forall v, ilist_find_duplicate (ilist_sort l) = Some v ->
             exists r, Permutation l (v :: v :: r)).
Proof.
  assert (Hsome : forall v, ilist_find_duplicate (ilist_sort l) = Some v ->
                            exists r, Permutation l (v :: v :: r)).
  { intros v H. destruct (ilist_find_duplicate_some _ _ H) as (l1 & l2 & Heq).
    exists (l1 ++ l2). rewrite <- (ilist_sort_perm l), Heq.
    rewrite <- Permutation_middle.
    change (v :: v :: l1 ++ l2) with (v :: (v :: l1 ++ l2)).
    apply Permutation_skip. rewrite <- Permutation_middle. reflexivity. }
  split; [|exact Hsome]. split.
  - intros H. rewrite <- (ilist_sort_perm l).
    apply strictly_sorted_NoDup, ilist_find_duplicate_none;
      [apply ilist_sort_sorted|exact H].
  - intros Hnd. destruct (ilist_find_duplicate (ilist_sort l)) as [v|] eqn:E;
      [|reflexivity].
    destruct (Hsome v eq_refl) as [r Hp]. rewrite Hp in Hnd.
    apply NoDup_cons in Hnd as [Hnin _]. exfalso. apply Hnin. left.
Qed.

(** On an ascending list [ilist_deduplicate] gives a strictly ascending
    list with the same members. *)
Theorem ilist_deduplicate_sorted (l : list Z) :
  StronglySorted Z.le l ->
  StronglySorted Z.lt (ilist_deduplicate l) /\
  (forall x, In x (ilist_deduplicate l) <-> In x l) /\
  (length (ilist_deduplicate l) <= length l)%nat.
Proof.
  intros Hs. destruct l as [|x r]; [repeat split; auto; constructor|].
  pose proof (StronglySorted_inv Hs) as [Hr Hall].
  destruct (ilist_dedup_from_sorted r x Hr Hall) as [Hs' Hall'].
  split; [constructor; assumption|]. split.
  - intros y. cbn. split.
    + intros [<-|H]; [left; reflexivity|right; exact (ilist_dedup_from_in _ _ _ H)].
    + intros [<-|H]; [left; reflexivity|].
      destruct (ilist_dedup_from_keeps r x y H) as [->|Hin];
        [left; reflexivity|right; exact Hin].
  - cbn. apply le_n_S. clear. generalize x. induction r as [|y r IH]; intros last.
    + constructor.
    + cbn. destruct (y =? last); [specialize (IH last)|specialize (IH y)]; cbn; lia.
Qed.

Lemma ilist_deduplicate_sorted_witness :
  StronglySorted Z.lt (ilist_deduplicate [1; 1; 2; 5; 5; 5]) /\
  (forall x, In x (ilist_deduplicate [1; 1; 2; 5; 5; 5]) <->
             In x [1; 1; 2; 5; 5; 5]) /\
  (length (ilist_deduplicate [1; 1; 2; 5; 5; 5]%Z) <= 6)%nat.
Proof.
  apply (ilist_deduplicate_sorted [1; 1; 2; 5; 5; 5]).
  repeat (constructor; [|repeat constructor; lia]). constructor.
Defined.

(** For two ascending lists [ilist_is_disjoint] answers true ([None])
    exactly when they share no value, and the value it reports otherwise
    is in both. *)
Theorem ilist_is_disjoint_spec (l1 l2 : list Z) :
  StronglySorted Z.le l1 -> StronglySorted Z.le l2 ->
  (ilist_is_disjoint l1 l2 = None <-> forall x, In x l1 -> ~ In x l2) /\
  (forall v, ilist_is_disjoint l1 l2 = Some v -> In v l1 /\ In v l2).
Proof.
  intros H1 H2. split; [|apply ilist_is_disjoint_some]. split.
  - revert l2 H1 H2.
    induction l1 as [|v1 r1 IH1]; intros l2 H1 H2 H x Hx1 Hx2; [destruct Hx1|].
    induction l2 as [|v2 r2 IH2]; [destruct Hx2|].
    apply StronglySorted_inv in H1 as [Hs1 Hall1].
    pose proof (StronglySorted_inv H2) as [Hs2 Hall2].
    rewrite List.Forall_forall in Hall1, Hall2.
    cbn in H. destruct (Z.eqb_spec v1 v2) as [->|Hne]; [discriminate|].
    destruct (Z.ltb_spec v1 v2) as [Hlt|Hge].
    + destruct Hx1 as [<-|Hx1].
      * destruct Hx2 as [->|Hx2]; [lia|]. specialize (Hall2 _ Hx2). lia.
      * exact (IH1 _ Hs1 H2 H x Hx1 Hx2).
    + destruct Hx2 as [->|Hx2].
      * destruct Hx1 as [->|Hx1]; [lia|]. specialize (Hall1 _ Hx1). lia.
      * apply (IH2 Hs2 H Hx2).
  - intros Hdis. destruct (ilist_is_disjoint l1 l2) as [v|] eqn:E; [|reflexivity].
    destruct (ilist_is_disjoint_some _ _ _ E) as [Ha Hb].
    destruct (Hdis v Ha Hb).
Qed.

Lemma ilist_is_disjoint_spec_witness :
  (ilist_is_disjoint [1; 3; 3; 7] [2; 4; 4; 8] = None <->
     forall x, In x [1; 3; 3; 7] -> ~ In x [2; 4; 4; 8]) /\
  (forall v, ilist_is_disjoint [1; 3; 3; 7] [2; 4; 4; 8] = Some v ->
             In v [1; 3; 3; 7] /\ In v [2; 4; 4; 8]).
Proof.
  apply (ilist_is_disjoint_spec [1; 3; 3; 7] [2; 4; 4; 8]);
    repeat (constructor; [|repeat constructor; lia]); constructor.
Defined.

(** The union of two strictly ascending lists is strictly ascending and
    holds the values of either list, also when the lists share values. *)
Theorem ilist_union_spec (l1 l2 : list Z) :
  StronglySorted Z.lt l1 -> StronglySorted Z.lt l2 ->
  StronglySorted Z.lt (ilist_union l1 l2) /\
  (forall x, In x (ilist_union l1 l2) <-> In x l1 \/ In x l2).
Proof.
  intros H1 H2.
  assert (Hin : forall l1 l2 x, In x (ilist_union l1 l2) <-> In x l1 \/ In x l2).
  { clear. induction l1 as [|v1 r1 IH1]; intros l2 x.
    - destruct l2; cbn; tauto.
    - induction l2 as [|v2 r2 IH2]; [cbn; tauto|].
      cbn. destruct (Z.ltb_spec v1 v2) as [Hlt|Hge].
      + cbn. rewrite IH1. cbn. tauto.
      + destruct (Z.ltb_spec v2 v1) as [Hlt|Hge'].
        * cbn. cbn in IH2. rewrite IH2. tauto.
        * assert (v1 = v2) as -> by lia. cbn. rewrite IH1. tauto. }
  split; [|apply Hin].
  revert l2 H1 H2. induction l1 as [|v1 r1 IH1]; intros l2 H1 H2.
  - destruct l2; cbn; auto.
  - induction l2 as [|v2 r2 IH2]; [exact H1|].
    pose proof (StronglySorted_inv H1) as [Hs1 Hall1].
    pose proof (StronglySorted_inv H2) as [Hs2 Hall2].
    rewrite List.Forall_forall in Hall1, Hall2.
    cbn. destruct (Z.ltb_spec v1 v2) as [Hlt|Hge].
    + constructor; [apply IH1; assumption|].
      apply List.Forall_forall. intros y Hy. apply Hin in Hy.
      destruct Hy as [Hy|[<-|Hy]]; [apply Hall1, Hy|lia|].
      specialize (Hall2 _ Hy). lia.
    + destruct (Z.ltb_spec v2 v1) as [Hlt|Hge'].
      * constructor; [apply IH2; assumption|].
        apply List.Forall_forall. intros y Hy.
        change (In y (ilist_union (v1 :: r1) r2)) in Hy. apply Hin in Hy.
        destruct Hy as [[<-|Hy]|Hy]; [lia| |apply Hall2, Hy].
        specialize (Hall1 _ Hy). lia.
      * assert (v1 = v2) as <- by lia.
        constructor; [apply IH1; assumption|].
        apply List.Forall_forall. intros y Hy. apply Hin in Hy.
        destruct Hy as [Hy|Hy]; [apply Hall1, Hy|apply Hall2, Hy].
Qed.

Lemma ilist_union_spec_witness :
  StronglySorted Z.lt (ilist_union [1; 3; 5] [2; 3; 9]) /\
  (forall x, In x (ilist_union [1; 3; 5] [2; 3; 9]) <->
             In x [1; 3; 5] \/ In x [2; 3; 9]).
Proof.
  apply (ilist_union_spec [1; 3; 5] [2; 3; 9]);
    repeat (constructor; [|repeat constructor; lia]); constructor.
Defined.

Section LsetMore.

Implicit Types (s : lset_t).

Lemma lset_check_size_bounded var s :
  lset_ok s -> lset_bounded s -> lset_bounded (lset_check_size var s).
Proof.
  intros Hok Hb. unfold lset_check_size.
  destruct (var <=? lset_asize s); [exact Hb|].
  destruct (Z.eqb_spec (lset_asize s) 0) as [H0|Hn0].
  - unfold lset_bounded, lset_init. cbn.
    apply Forall_replicate. lia.
  - unfold lset_bounded. cbn. apply Forall_app. split; [exact Hb|].
    apply Forall_replicate.
    destruct Hok as [Hg|[Hnil _]]; [lia|].
    unfold lset_asize, zlength in Hn0. rewrite Hnil in Hn0. cbn in Hn0. lia.
Qed.

Lemma arr_set_Forall {A} (P : A -> Prop) (l a : list A) i x :
  arr_set l i x = Some a -> Forall P l -> P x -> Forall P a.
Proof.
  unfold arr_set. destruct ((i <? 0) || (Z.of_nat (length l) <=? i)); [discriminate|].
  intros [= <-] Hl Hx. apply Forall_insert; assumption.
Qed.

(** What [lset_add_lit] does to the set, in terms of [lset_get_lit]. *)
Lemma lset_add_lit_effect lit s :
  lset_ok s -> lset_bounded s -> lit <> 0 ->
  exists b s',
    lset_add_lit lit s = Some (b, s') /\ lset_ok s' /\ lset_bounded s' /\
    b = negb (lset_get_lit (IABS lit) s =? - lit) /\
    (forall v, lset_get_lit v s' =
               if b && (v =? IABS lit) then lit else lset_get_lit v s).
Proof.
  intros Hok Hb Hnz.
  assert (Hvar : 1 <= IABS lit) by (rewrite IABS_abs; lia).
  pose proof (lset_check_size_covers (IABS lit) s) as Hcov.
  pose proof (lset_check_size_generation (IABS lit) s Hok Hvar) as Hgen.
  pose proof (fun v => lset_check_size_get (IABS lit) v s Hok) as Hget.
  pose proof (lset_check_size_ok (IABS lit) s Hok) as Hok1.
  pose proof (lset_check_size_bounded (IABS lit) s Hok Hb) as Hb1.
  unfold lset_add_lit.
  set (s1 := lset_check_size (IABS lit) s) in *.
  rewrite Hget.
  pose proof (lset_get_lit_cases (IABS lit) s) as Hcases.
  pose proof (IABS_abs lit) as Habs.
  destruct (Z.eqb_spec (lset_get_lit (IABS lit) s) 0) as [H0|Hn0];
    [|destruct (Z.eqb_spec (lset_get_lit (IABS lit) s) lit) as [Hl|Hnl]]; cbn [negb andb].
  3:{ (* the opposite literal is there *)
    exists false, s1. split; [reflexivity|]. split; [exact Hok1|].
    split; [exact Hb1|]. split.
    - destruct (Z.eqb_spec (lset_get_lit (IABS lit) s) (- lit)); [reflexivity|lia].
    - intros v. cbn. apply Hget. }
  all: destruct (arr_set_in_range (lset_array s1) (IABS lit - 1)
                (if 0 <? lit then lset_generation s1 else - lset_generation s1))
      as [a Ha]; [unfold lset_asize in Hcov; lia|];
    rewrite Ha; eexists true, _; (split; [reflexivity|]);
    (split; [left; cbn; destruct Hok1 as [?|[_ ?]]; lia|]);
    (split; [unfold lset_bounded; cbn;
             apply (arr_set_Forall _ _ _ _ _ Ha Hb1); destruct (0 <? lit); lia|]);
    (split; [destruct (Z.eqb_spec (lset_get_lit (IABS lit) s) (- lit));
               [lia|reflexivity]|]);
    intros v; rewrite (lset_get_lit_store s1 a (IABS lit) _ _ Hgen Ha);
    cbn [andb]; destruct (Z.eqb_spec v (IABS lit)) as [->|Hne]; [|apply Hget];
    destruct (Z.ltb_spec 0 lit);
      [rewrite Z.eqb_refl; lia
      |destruct (Z.eqb_spec (- lset_generation s1) (lset_generation s1)); [lia|];
       rewrite Z.eqb_refl; lia].
Qed.

(** The set after [lset_clear]. *)
Lemma lset_clear_post s :
  lset_ok s -> lset_bounded s ->
  lset_ok (lset_clear s) /\ lset_bounded (lset_clear s) /\
  1 <= lset_generation (lset_clear s) /\
  forall v, lset_get_lit v (lset_clear s) = 0.
Proof.
  intros Hok Hb. unfold lset_clear.
  assert (Hg : 0 <= lset_generation s <= INT_MAX)
    by (destruct Hok as [?|[_ ?]]; lia).
  destruct (Z.eq_dec (lset_generation s) INT_MAX) as [Hmax|Hlt].
  - (* the increment wraps around *)
    rewrite Hmax. change (int_wrap (INT_MAX + 1) <? 0) with true. cbv iota.
    split; [left; cbn; unfold INT_MAX; lia|].
    split; [unfold lset_bounded; cbn; apply Forall_replicate; lia|].
    split; [cbn; lia|].
    intros v. unfold lset_get_lit. cbn [lset_array lset_generation].
    destruct ((v <=? 0) || (lset_asize _ <? v)); [reflexivity|].
    destruct (arr_get _ (v - 1)) as [g|] eqn:E; [|reflexivity].
    unfold arr_get in E. destruct (v - 1 <? 0); [discriminate|].
    apply lookup_replicate in E as [-> _]. reflexivity.
  - assert (Hw : int_wrap (lset_generation s + 1) = lset_generation s + 1).
    { unfold int_wrap, INT_MAX in *.
      rewrite Z.mod_small by lia. lia. }
    rewrite Hw. destruct (Z.ltb_spec (lset_generation s + 1) 0); [lia|].
    split; [left; cbn; unfold INT_MAX in *; lia|].
    split.
    { unfold lset_bounded. cbn. eapply Forall_impl; [exact Hb|].
      intros g Hgb. cbv beta in Hgb. lia. }
    split; [cbn; lia|].
    intros v. unfold lset_get_lit, lset_asize. cbn [lset_array lset_generation].
    destruct ((v <=? 0) || (zlength (lset_array s) <? v)); [reflexivity|].
    destruct (arr_get (lset_array s) (v - 1)) as [g|] eqn:E; [|reflexivity].
    assert (Hgb : - lset_generation s <= g <= lset_generation s).
    { unfold arr_get in E. destruct (v - 1 <? 0); [discriminate|].
      unfold lset_bounded in Hb. rewrite Forall_lookup in Hb.
      exact (Hb _ _ E). }
    destruct (Z.eqb_spec g (lset_generation s + 1)); [lia|].
    destruct (Z.eqb_spec g (- (lset_generation s + 1))); [lia|reflexivity].
Qed.

End LsetMore.

Section SetupFacts.

Implicit Types (s : checker) (ls : lset_t) (lits : list Z).

Lemma set_lset_again ls ls' s : set_lset ls (set_lset ls' s) = set_lset ls s.
Proof. reflexivity. Qed.

Lemma rup_setup_loop_spec : forall lits s,
  lset_ok (lset s) -> lset_bounded (lset s) ->
  Forall (fun l => l <> 0) lits ->
  exists b ls',
    rup_setup_loop lits s = Ok b (set_lset ls' s) /\
    lset_ok ls' /\ lset_bounded ls' /\
    (b = true <->
       forall x, In x lits ->
         lset_get_lit (IABS x) (lset s) <> x /\ ~ In (- x) lits) /\
    (b = true -> forall lit, lit <> 0 ->
       (lset_get_lit (IABS lit) ls' = lit <->
        lset_get_lit (IABS lit) (lset s) = lit \/ In (- lit) lits)).
Proof.
  induction lits as [|x r IH]; intros s Hok Hb Hnz.
  - exists true, (lset s). split; [destruct s; reflexivity|].
    split; [exact Hok|]. split; [exact Hb|]. split.
    + split; [intros _ y []|reflexivity].
    + intros _ lit _. cbn. tauto.
  - inversion Hnz as [|? ? Hx Hr]; subst.
    destruct (lset_add_lit_effect (- x) (lset s) Hok Hb ltac:(lia))
      as (b1 & ls1 & Hadd & Hok1 & Hb1 & Hbv & Hget).
    assert (Habs : IABS (- x) = IABS x) by (rewrite !IABS_abs; lia).
    rewrite Habs, Z.opp_involutive in *.
    cbn [rup_setup_loop]. unfold bind at 1, lset_add_lit_m at 1. rewrite Hadd.
    destruct b1.
    + (* the literal went in *)
      assert (Hnx : lset_get_lit (IABS x) (lset s) <> x).
      { destruct (Z.eqb_spec (lset_get_lit (IABS x) (lset s)) x);
          [discriminate|assumption]. }
      cbn [andb] in Hget.
      destruct (IH (set_lset ls1 s) Hok1 Hb1 Hr)
        as (b & ls' & Hrun & Hok' & Hb' & Hbt & Hmem).
      change (lset (set_lset ls1 s)) with ls1 in *.
      rewrite set_lset_again in Hrun.
      exists b, ls'. split; [exact Hrun|]. split; [exact Hok'|].
      split; [exact Hb'|].
      assert (Hiff : b = true <->
                (forall y, In y (x :: r) ->
                   lset_get_lit (IABS y) (lset s) <> y /\ ~ In (- y) (x :: r))).
      { rewrite Hbt. split.
        - intros Hall y [<-|Hy].
          + split; [exact Hnx|]. intros [Heq|Hin]; [lia|].
            destruct (Hall _ Hin) as [Hg _]. apply Hg.
            rewrite Hget. rewrite Habs, Z.eqb_refl. reflexivity.
          + destruct (Hall _ Hy) as [Hg Hni].
            assert (Hyx : y <> - x).
            { intros ->. apply Hg. rewrite Hget, Habs, Z.eqb_refl. reflexivity. }
            split.
            * rewrite Hget in Hg.
              destruct (Z.eqb_spec (IABS y) (IABS x)) as [He|Hne]; [|exact Hg].
              rewrite He. rewrite !IABS_abs in He.
              assert (y = x) as -> by lia. exact Hnx.
            * intros [Heq|Hin]; [lia|exact (Hni Hin)].
        - intros Hall y Hy.
          destruct (Hall y (or_intror Hy)) as [Hg Hni].
          destruct (Hall x (or_introl eq_refl)) as [_ Hnix].
          split; [|intros Hin; apply Hni; right; exact Hin].
          rewrite Hget.
          destruct (Z.eqb_spec (IABS y) (IABS x)) as [He|Hne]; [|exact Hg].
          intros Heq. apply Hnix. right. rewrite Heq. exact Hy. }
      split; [exact Hiff|].
      intros Hbtrue lit Hlit. rewrite (Hmem Hbtrue lit Hlit), Hget.
      destruct (proj1 Hiff Hbtrue x (or_introl eq_refl)) as [_ Hnix].
      destruct (Z.eqb_spec (IABS lit) (IABS x)) as [He|Hne].
      * rewrite He. rewrite !IABS_abs in He. cbn [In].
        split.
        -- intros [Heq|Hin]; [right; left; lia|right; right; exact Hin].
        -- intros [Heq|[Heq|Hin]]; [|left; lia|right; exact Hin].
           left. destruct (Z.eq_dec lit x) as [->|Hd]; [contradiction|lia].
      * cbn [In]. split.
        -- intros [Heq|Hin]; [left; exact Heq|right; right; exact Hin].
        -- intros [Heq|[Heq|Hin]]; [left; exact Heq| |right; exact Hin].
           rewrite !IABS_abs in Hne. lia.
    + (* the opposite literal was there *)
      cbn [andb] in Hget.
      exists false, ls1. split; [reflexivity|]. split; [exact Hok1|].
      split; [exact Hb1|]. split; [|discriminate].
      split; [discriminate|]. intros Hall.
      destruct (Hall x (or_introl eq_refl)) as [Hg _].
      destruct (Z.eqb_spec (lset_get_lit (IABS x) (lset s)) x);
        [contradiction|discriminate].
Qed.

End SetupFacts.

(** [lset_clear] leaves the empty set, also when the generation wraps
    around: no variable has a literal in it, and the invariants of the
    literal set hold again. *)
Theorem lset_clear_empties (s : lset_t) :
  lset_ok s -> lset_bounded s ->
  lset_ok (lset_clear s) /\ lset_bounded (lset_clear s) /\
  1 <= lset_generation (lset_clear s) /\
  forall v, lset_get_lit v (lset_clear s) = 0.
Proof. exact (lset_clear_post s). Qed.

Lemma lset_clear_empties_witness :
  let s := mk_lset INT_MAX [INT_MAX; - INT_MAX; 7] in
  lset_ok (lset_clear s) /\ lset_bounded (lset_clear s) /\
  1 <= lset_generation (lset_clear s) /\
  forall v, lset_get_lit v (lset_clear s) = 0.
Proof.
  apply (lset_clear_empties (mk_lset INT_MAX [INT_MAX; - INT_MAX; 7])).
  - left. cbn. unfold INT_MAX. lia.
  - unfold lset_bounded, INT_MAX. cbn. repeat constructor; lia.
Defined.

(** [rup_setup] on the literals of a clause returns false exactly when the
    clause holds a literal and its opposite; when it returns true, the
    literal set holds the opposites of the literals of the clause and
    nothing else, and nothing but the literal set has changed. *)
Theorem rup_setup_spec (lits : list Z) (s : checker) :
  lset_ok (lset s) -> lset_bounded (lset s) ->
  Forall (fun l => l <> 0) lits ->
  exists b ls',
    rup_setup lits s = Ok b (set_lset ls' s) /\
    lset_ok ls' /\ lset_bounded ls' /\
    (b = true <-> forall x, In x lits -> ~ In (- x) lits) /\
    (b = true -> forall lit, lit <> 0 ->
       (lset_get_lit (IABS lit) ls' = lit <-> In (- lit) lits)).
Proof.
  intros Hok Hb Hnz.
  destruct (lset_clear_post (lset s) Hok Hb) as (Hok0 & Hb0 & _ & Hempty).
  destruct (rup_setup_loop_spec lits (set_lset (lset_clear (lset s)) s) Hok0 Hb0 Hnz)
    as (b & ls' & Hrun & Hok' & Hb' & Hbt & Hmem).
  change (lset (set_lset (lset_clear (lset s)) s)) with (lset_clear (lset s)) in *.
  rewrite set_lset_again in Hrun.
  exists b, ls'. split; [exact Hrun|]. split; [exact Hok'|].
  split; [exact Hb'|]. split.
  - rewrite Hbt. split.
    + intros Hall x Hx. exact (proj2 (Hall x Hx)).
    + intros Hall x Hx. split; [|exact (Hall x Hx)].
      rewrite Hempty. rewrite List.Forall_forall in Hnz.
      specialize (Hnz _ Hx). lia.
  - intros Hbtrue lit Hlit. rewrite (Hmem Hbtrue lit Hlit), Hempty.
    split; [intros [?|?]; [lia|assumption]|intros ?; right; assumption].
Qed.

Lemma rup_setup_spec_witness :
  let s := clause_init (default_options 3 0) in
  exists b ls',
    rup_setup [1; -2; 3] s = Ok b (set_lset ls' s) /\
    lset_ok ls' /\ lset_bounded ls' /\
    (b = true <-> forall x, In x [1; -2; 3] -> ~ In (- x) [1; -2; 3]) /\
    (b = true -> forall lit, lit <> 0 ->
       (lset_get_lit (IABS lit) ls' = lit <-> In (- lit) [1; -2; 3])).
Proof.
  apply (rup_setup_spec [1; -2; 3] (clause_init (default_options 3 0))).
  - right. split; [reflexivity|]. cbn. unfold INT_MAX. lia.
  - constructor.
  - repeat constructor; lia.
Defined.

Section UnitPropMore.

Variable ls : lset_t.

(** A literal is satisfied, falsified or free. *)
Lemma lit_status lit :
  lit_satisfied ls lit \/ lit_falsified ls lit \/ lit_free ls lit.
Proof.
  unfold lit_satisfied, lit_falsified, lit_free.
  pose proof (lset_get_lit_cases (IABS lit) ls) as H.
  pose proof (IABS_abs lit). lia.
Qed.

(** The three ways the traversal of [rup_unit_prop] ends, [unit] being
    what it has found so far. *)
Lemma rup_unit_prop_loop_cases : forall lits,
  Forall is_literal lits -> forall unit,
  unit = RUP_CONFLICT \/ (is_literal unit /\ lit_free ls unit) ->
  (rup_unit_prop_loop ls unit lits = RUP_STALL /\
     ((exists l, In l lits /\ lit_satisfied ls l) \/
      (exists a, In a lits /\ lit_free ls a /\ a <> unit /\
                 (unit <> RUP_CONFLICT \/
                  exists b, In b lits /\ lit_free ls b /\ a <> b)))) \/
  (rup_unit_prop_loop ls unit lits = unit /\
     Forall (fun x => x = unit \/ lit_falsified ls x) lits) \/
  (unit = RUP_CONFLICT /\
     is_literal (rup_unit_prop_loop ls unit lits) /\
     In (rup_unit_prop_loop ls unit lits) lits /\
     lit_free ls (rup_unit_prop_loop ls unit lits) /\
     Forall (fun x => x = rup_unit_prop_loop ls unit lits \/ lit_falsified ls x)
            lits).
Proof.
  induction 1 as [|x r Hx Hr IH]; intros unit Hunit.
  - right. left. split; [reflexivity|constructor].
  - pose proof (RUP_CONFLICT_not_literal x Hx) as Hxc.
    cbn [rup_unit_prop_loop].
    destruct (Z.eqb_spec x unit) as [Hxu|Hxu].
    { destruct (IH unit Hunit) as [[Hs Hc]|[[Hu Hall]|(Hc & _)]].
      - left. split; [exact Hs|].
        destruct Hc as [(l & Hl & Hsat)|(a & Ha & Hfa & Hau & Hrest)].
        + left. exists l. split; [right; exact Hl|exact Hsat].
        + right. exists a. split; [right; exact Ha|]. split; [exact Hfa|].
          split; [exact Hau|].
          destruct Hrest as [Hne|(b & Hb & Hfb & Hab)]; [left; exact Hne|].
          right. exists b. split; [right; exact Hb|]. split; assumption.
      - right. left. split; [exact Hu|]. constructor; [left; exact Hxu|exact Hall].
      - congruence. }
    fold (lit_satisfied ls x).
    destruct (Z.eqb_spec (lset_get_lit (IABS x) ls) x) as [Hsat|Hnsat].
    { left. split; [reflexivity|]. left. exists x. split; [left; reflexivity|exact Hsat]. }
    destruct (Z.eqb_spec (lset_get_lit (IABS x) ls) (- x)) as [Hfal|Hnfal].
    { destruct (IH unit Hunit) as [[Hs Hc]|[[Hu Hall]|(Hc & Hlit & Hin & Hfree & Hall)]].
      - left. split; [exact Hs|].
        destruct Hc as [(l & Hl & Hsat)|(a & Ha & Hfa & Hau & Hrest)].
        + left. exists l. split; [right; exact Hl|exact Hsat].
        + right. exists a. split; [right; exact Ha|]. split; [exact Hfa|].
          split; [exact Hau|].
          destruct Hrest as [Hne|(b & Hb & Hfb & Hab)]; [left; exact Hne|].
          right. exists b. split; [right; exact Hb|]. split; assumption.
      - right. left. split; [exact Hu|]. constructor; [right; exact Hfal|exact Hall].
      - right. right. split; [exact Hc|]. split; [exact Hlit|].
        split; [right; exact Hin|]. split; [exact Hfree|].
        constructor; [right; exact Hfal|exact Hall]. }
    assert (Hfx : lit_free ls x).
    { destruct (lit_status x) as [?|[?|?]]; [contradiction..|assumption]. }
    destruct (Z.eqb_spec unit RUP_CONFLICT) as [Huc|Huc].
    + destruct (IH x (or_intror (conj Hx Hfx)))
        as [[Hs Hc]|[[Hu Hall]|(Hc & _)]]; [| |contradiction].
      * left. split; [exact Hs|].
        destruct Hc as [(l & Hl & Hsat)|(a & Ha & Hfa & Hax & _)].
        -- left. exists l. split; [right; exact Hl|exact Hsat].
        -- right. exists a. split; [right; exact Ha|]. split; [exact Hfa|].
           rewrite List.Forall_forall in Hr.
           split; [rewrite Huc; apply RUP_CONFLICT_not_literal, Hr, Ha|].
           right. exists x. split; [left; reflexivity|]. split; assumption.
      * right. right. split; [exact Huc|]. rewrite Hu.
        split; [exact Hx|]. split; [left; reflexivity|]. split; [exact Hfx|].
        constructor; [left; reflexivity|exact Hall].
    + left. split; [reflexivity|]. right. exists x.
      split; [left; reflexivity|]. split; [exact Hfx|]. split; [exact Hxu|].
      left. exact Huc.
Qed.

End UnitPropMore.

(** The answer of [rup_unit_prop] on a clause does not depend on the order
    of its literals: it is the conflict exactly when every literal is
    falsified, a stall exactly when a literal is satisfied or two different
    literals are free, and a literal [u] exactly when [u] is free and every
    other literal of the clause is falsified. *)
Theorem rup_unit_prop_cases (ls : lset_t) (lits : list Z) :
  Forall is_literal lits ->
  (rup_unit_prop lits ls = RUP_CONFLICT <-> Forall (lit_falsified ls) lits) /\
  (rup_unit_prop lits ls = RUP_STALL <->
     (exists l, In l lits /\ lit_satisfied ls l) \/
     (exists a b, In a lits /\ In b lits /\ a <> b /\
                  lit_free ls a /\ lit_free ls b)) /\
  (forall u, u <> RUP_CONFLICT -> u <> RUP_STALL ->
     (rup_unit_prop lits ls = u <->
      In u lits /\ lit_free ls u /\
      Forall (fun x => x = u \/ lit_falsified ls x) lits)).
Proof.
  intros Hlits.
  pose proof (rup_unit_prop_loop_cases ls lits Hlits RUP_CONFLICT (or_introl eq_refl))
    as Hcases.
  fold (rup_unit_prop lits ls) in Hcases.
  pose proof Hlits as Hl. rewrite List.Forall_forall in Hl.
  assert (Hfs : forall x, In x lits -> lit_falsified ls x -> ~ lit_free ls x).
  { intros x Hx Hf Hfr. unfold lit_falsified, lit_free in *.
    destruct (Hl x Hx). lia. }
  assert (Hss : forall x, In x lits -> lit_satisfied ls x -> ~ lit_free ls x).
  { intros x Hx Hf Hfr. unfold lit_satisfied, lit_free in *.
    destruct (Hl x Hx). lia. }
  assert (Hsf : forall x, In x lits -> lit_satisfied ls x -> ~ lit_falsified ls x).
  { intros x Hx Hf Hfr. unfold lit_satisfied, lit_falsified in *.
    destruct (Hl x Hx). lia. }
  assert (Hcs : RUP_CONFLICT <> RUP_STALL) by discriminate.
  split; [|split].
  - split.
    + intros Hc.
      destruct Hcases as [[Hs _]|[[_ Hall]|(_ & Hlit & _)]].
      * congruence.
      * apply List.Forall_forall. intros x Hx.
        rewrite List.Forall_forall in Hall.
        destruct (Hall x Hx) as [->|Hf]; [|exact Hf].
        destruct (RUP_CONFLICT_not_literal _ (Hl _ Hx) eq_refl).
      * rewrite Hc in Hlit. destruct (RUP_CONFLICT_not_literal _ Hlit eq_refl).
    + intros Hall. apply rup_unit_prop_conflict.
      apply List.Forall_forall. intros x Hx.
      rewrite List.Forall_forall in Hall.
      split; [apply (Hl x Hx)|exact (Hall x Hx)].
  - split.
    + intros Hs.
      destruct Hcases as [[_ Hc]|[[Hu _]|(_ & Hlit & _)]].
      * destruct Hc as [Hsat|(a & Ha & Hfa & _ & [Hne|(b & Hb & Hfb & Hab)])];
          [left; exact Hsat|congruence|].
        right. exists a, b. repeat (split; [assumption|]). assumption.
      * congruence.
      * rewrite Hs in Hlit. destruct Hlit as [Hnz _]. destruct (Hnz eq_refl).
    + intros [(l & Hin & Hsat)|(a & b & Ha & Hb & Hab & Hfa & Hfb)].
      * apply (rup_unit_prop_loop_satisfied ls lits l); auto.
      * destruct Hcases as [[Hs _]|[[_ Hall]|(_ & _ & _ & _ & Hall)]];
          [exact Hs|exfalso..]; rewrite List.Forall_forall in Hall.
        -- destruct (Hall a Ha) as [->|Hf];
             [exact (RUP_CONFLICT_not_literal _ (Hl _ Ha) eq_refl)
             |exact (Hfs a Ha Hf Hfa)].
        -- destruct (Hall a Ha) as [Ea|Hf]; [|exact (Hfs a Ha Hf Hfa)].
           destruct (Hall b Hb) as [Eb|Hf]; [|exact (Hfs b Hb Hf Hfb)].
           congruence.
  - intros u Huc Hus. split.
    + intros Hu.
      destruct Hcases as [[Hs _]|[[Hc _]|(_ & _ & Hin & Hfree & Hall)]];
        [congruence..|].
      rewrite Hu in *. auto.
    + intros (Hin & Hfree & Hall).
      apply (rup_unit_prop_loop_unit ls lits u RUP_CONFLICT (Hl u Hin) Hfree);
        [|reflexivity|exact Hin].
      apply List.Forall_forall. intros x Hx.
      rewrite List.Forall_forall in Hall.
      destruct (Hall x Hx) as [->|Hf]; [left; reflexivity|right].
      split; [apply (Hl x Hx)|exact Hf].
Qed.

Lemma rup_unit_prop_cases_witness :
  let ls := mk_lset 1 [-1; 0; 1] in
  (rup_unit_prop [1; 2; -3] ls = RUP_CONFLICT <->
     Forall (lit_falsified ls) [1; 2; -3]) /\
  (rup_unit_prop [1; 2; -3] ls = RUP_STALL <->
     (exists l, In l [1; 2; -3] /\ lit_satisfied ls l) \/
     (exists a b, In a [1; 2; -3] /\ In b [1; 2; -3] /\ a <> b /\
                  lit_free ls a /\ lit_free ls b)) /\
  (forall u, u <> RUP_CONFLICT -> u <> RUP_STALL ->
     (rup_unit_prop [1; 2; -3] ls = u <->
      In u [1; 2; -3] /\ lit_free ls u /\
      Forall (fun x => x = u \/ lit_falsified ls x) [1; 2; -3])).
Proof.
  apply (rup_unit_prop_cases (mk_lset 1 [-1; 0; 1]) [1; 2; -3]).
  repeat constructor; unfold IABS, INT_MAX; cbn; lia.
Defined.

(** [rup_skip] reads up to the first integer 0 and leaves the tokens
    behind it, whatever the tokens before are; the rest of the state is
    left as it is.  A file without a 0 keeps it reading at the end of the
    file for ever. *)
Theorem rup_skip_spec (tcid : Z) (s : checker) :
  (forall pre rest,
      Forall (fun t => t <> TOK_INT 0) pre ->
      tokens s = pre ++ TOK_INT 0 :: rest ->
      rup_skip tcid s = Ok tt (set_tokens rest s)) /\
  (Forall (fun t => t <> TOK_INT 0) (tokens s) ->
   rup_skip tcid s = Diverge).
Proof.
  unfold rup_skip, bind at 1, get. split.
  - intros pre rest Hpre ->. revert s.
    induction Hpre as [|t pre Ht _ IH]; intros s.
    + cbn. unfold bind, modify. reflexivity.
    + cbn [app rup_skip_loop].
      assert (Hstep : forall k : M checker unit,
                 bind (modify (set_tokens (pre ++ TOK_INT 0 :: rest))) (fun _ => k) s
                 = k (set_tokens (pre ++ TOK_INT 0 :: rest) s)) by reflexivity.
      assert (Hgo : rup_skip_loop (pre ++ TOK_INT 0 :: rest)
                      (set_tokens (pre ++ TOK_INT 0 :: rest) s)
                    = Ok tt (set_tokens rest s)) by (rewrite IH; reflexivity).
      destruct t as [v| | | | | |]; rewrite Hstep; try exact Hgo.
      destruct (Z.eqb_spec v 0) as [->|_]; [congruence|exact Hgo].
  - intros Hall. change (rup_skip_loop (tokens s) s = Diverge).
    revert Hall. generalize (tokens s) as ts. intros ts Hall. revert s.
    induction Hall as [|t ts Ht _ IH]; intros s; [reflexivity|].
    cbn [rup_skip_loop].
    assert (Hstep : forall k : M checker unit,
               bind (modify (set_tokens ts)) (fun _ => k) s
               = k (set_tokens ts s)) by reflexivity.
    destruct t as [v| | | | | |]; rewrite Hstep; try apply IH.
    destruct (Z.eqb_spec v 0) as [->|_]; [congruence|apply IH].
Qed.

Lemma rup_skip_spec_witness :
  rup_skip 5 (set_tokens [TOK_INT 3; TOK_STAR; TOK_EOL; TOK_INT 0; TOK_INT 9]
                         (clause_init (default_options 1 0)))
  = Ok tt (set_tokens [TOK_INT 9] (clause_init (default_options 1 0))).
Proof.
  apply (proj1 (rup_skip_spec 5
           (set_tokens [TOK_INT 3; TOK_STAR; TOK_EOL; TOK_INT 0; TOK_INT 9]
                       (clause_init (default_options 1 0))))
           [TOK_INT 3; TOK_STAR; TOK_EOL] [TOK_INT 9]).
  - repeat constructor; discriminate.
  - reflexivity.
Defined.

Section SearchFacts.

Lemma find_clause_loop_sound blocks cid : forall fuel lid rid loc,
  find_clause_loop fuel blocks cid lid rid = Some loc ->
  exists b, arr_get blocks (bid loc) = Some b /\
            0 <= pos loc < blk_length b /\ start_id b + pos loc = cid.
Proof.
  induction fuel as [|fuel IH]; intros lid rid loc H; [discriminate|].
  cbn [find_clause_loop] in H.
  destruct (lid <=? rid); [|discriminate]. cbv zeta in H.
  destruct (arr_get blocks ((lid + rid) / 2)) as [b|] eqn:Hb; [|discriminate].
  destruct (Z.ltb_spec (cid - start_id b) 0); [exact (IH _ _ _ H)|].
  destruct (Z.leb_spec (blk_length b) (cid - start_id b)); [exact (IH _ _ _ H)|].
  injection H as <-. exists b. cbn. split; [exact Hb|]. lia.
Qed.

Lemma find_clause_loop_complete blocks cid k bk :
  blocks_sorted blocks ->
  arr_get blocks k = Some bk ->
  0 <= cid - start_id bk < blk_length bk ->
  forall fuel lid rid,
    0 <= lid -> rid < zlength blocks -> lid <= k <= rid ->
    rid - lid + 1 < Z.of_nat fuel ->
    find_clause_loop fuel blocks cid lid rid = Some (mk_loc k (cid - start_id bk)).
Proof.
  intros [Hlen Hsorted] Hk Hin.
  induction fuel as [|fuel IH]; intros lid rid Hlid Hrid Hlk Hfuel; [lia|].
  cbn [find_clause_loop].
  destruct (Z.leb_spec lid rid) as [_|]; [|lia]. cbv zeta.
  assert (Hmid : lid <= (lid + rid) / 2 <= rid).
  { split; [apply Z.div_le_lower_bound; lia|].
    apply Z.lt_succ_r. apply Z.div_lt_upper_bound; lia. }
  destruct (arr_get_in_range blocks ((lid + rid) / 2)) as [bm Hbm];
    [lia|].
  rewrite Hbm.
  assert (Hbm0 : 0 <= blk_length bm).
  { rewrite Forall_lookup in Hlen. apply (Hlen (Z.to_nat ((lid + rid) / 2))).
    unfold arr_get in Hbm. destruct ((lid + rid) / 2 <? 0); [discriminate|exact Hbm]. }
  destruct (Z.lt_trichotomy ((lid + rid) / 2) k) as [Hlt|[Heq|Hgt]].
  - pose proof (Hsorted _ _ _ _ Hlt Hbm Hk).
    destruct (Z.ltb_spec (cid - start_id bm) 0); [lia|].
    destruct (Z.leb_spec (blk_length bm) (cid - start_id bm)); [|lia].
    apply IH; lia.
  - rewrite Heq in Hbm. rewrite Hk in Hbm. injection Hbm as <-.
    destruct (Z.ltb_spec (cid - start_id bk) 0); [lia|].
    destruct (Z.leb_spec (blk_length bk) (cid - start_id bk)); [lia|].
    rewrite Heq. reflexivity.
  - pose proof (Hsorted _ _ _ _ Hgt Hk Hbm).
    destruct (Z.ltb_spec (cid - start_id bm) 0); [|lia].
    apply IH; lia.
Qed.

Lemma find_clause_slot s cid loc :
  blocks_sorted (clause_blocks s) ->
  find_clause cid s = Some loc <-> slot_of cid loc s.
Proof.
  intros Hs. split.
  - apply find_clause_loop_sound.
  - intros (b & Hb & Hpos & Hcid). destruct loc as [k p]. cbn [bid pos] in *.
    assert (p = cid - start_id b) as -> by lia.
    pose proof (arr_get_some_range _ _ _ Hb) as Hrange.
    unfold find_clause.
    apply (find_clause_loop_complete _ _ _ _ Hs Hb);
      unfold clause_block_count, zlength in *; lia.
Qed.

End SearchFacts.

(** The binary search of [find_clause] over blocks in ascending order
    finds the slot of a clause id whenever a block has one, and nothing
    else: the block holds the id at the position found.  An id between the
    blocks or beyond them is not found. *)
Theorem find_clause_spec (s : checker) (cid : Z) :
  blocks_sorted (clause_blocks s) ->
  (forall loc, find_clause cid s = Some loc <-> slot_of cid loc s) /\
  (find_clause cid s = None <-> forall loc, ~ slot_of cid loc s).
Proof.
  intros Hs. split; [intros loc; apply find_clause_slot, Hs|].
  split.
  - intros Hnone loc Hslot. apply (find_clause_slot s cid loc Hs) in Hslot. congruence.
  - intros Hno. destruct (find_clause cid s) as [loc|] eqn:E; [|reflexivity].
    apply (find_clause_slot s cid loc Hs) in E. destruct (Hno loc E).
Qed.

Lemma find_clause_spec_witness :
  (forall loc, find_clause 3 after_first_addition = Some loc <->
               slot_of 3 loc after_first_addition) /\
  (find_clause 3 after_first_addition = None <->
   forall loc, ~ slot_of 3 loc after_first_addition).
Proof.
  apply (find_clause_spec after_first_addition 3).
  split.
  - vm_compute. repeat constructor; discriminate.
  - intros i j bi bj Hij Hi Hj.
    pose proof (arr_get_some_range _ _ _ Hi) as Ri.
    pose proof (arr_get_some_range _ _ _ Hj) as Rj.
    change (zlength (clause_blocks after_first_addition)) with 2 in *.
    assert (i = 0) as -> by lia. assert (j = 1) as -> by lia.
    vm_compute in Hi, Hj. injection Hi as <-. injection Hj as <-.
    vm_compute. discriminate.
Defined.

Section StoreRun.

Implicit Types (s : checker) (b : clause_block_t).

Lemma clause_add_literals_run : forall lits s,
  Forall (var_in_range s) lits ->
  clause_add_literals lits s
  = Ok tt (set_current_clause (current_clause s ++ lits) s).
Proof.
  induction lits as [|lit r IH]; intros s Hall.
  - cbn. unfold ret. rewrite app_nil_r. destruct s; reflexivity.
  - inversion Hall as [|? ? Hlit Hr]; subst.
    cbn [clause_add_literals]. unfold bind at 1.
    assert (Hone : clause_add_literal lit s
                   = Ok tt (set_current_clause (current_clause s ++ [lit]) s)).
    { unfold clause_add_literal, bind, modify, get. cbn.
      destruct Hlit as [Hlit|Hlit].
      - destruct (Z.ltb_spec (input_variable_count (opts s)) (IABS lit)); [lia|].
        reflexivity.
      - destruct (Z.ltb_spec (variable_limit s) (IABS lit)); [lia|].
        rewrite andb_false_r. reflexivity. }
    rewrite Hone. rewrite IH by exact Hr. cbn. rewrite <- app_assoc. reflexivity.
Qed.

Lemma start_clause_run s cid front b :
  clause_last_id s < cid ->
  clause_blocks s = front ++ [b] ->
  exists bfront b0,
    start_clause cid s
    = Ok tt (set_current_clause []
               (set_clause_count (clause_count s + 1)
                  (set_clause_last_id cid
                     (set_clause_blocks (bfront ++ [b0]) s)))) /\
    ((bfront = front ++ [b] /\ b0 = new_block cid) \/
     (bfront = front /\ b0 = padded (Z.to_nat (cid - (clause_last_id s + 1))) b)).
Proof.
  intros Hlt Hblocks.
  unfold start_clause, bind at 1, get at 1.
  destruct (Z.leb_spec cid (clause_last_id s)); [lia|].
  destruct (_ || _).
  - exists (front ++ [b]), (new_block cid). split; [|left; auto].
    rewrite Hblocks. reflexivity.
  - unfold clause_block_count. rewrite Hblocks.
    unfold bind at 2, bind at 1, defined at 1. rewrite arr_get_last. unfold ret.
    unfold bind at 2, bind at 1, defined at 1. rewrite arr_set_last. unfold ret.
    rewrite iter_push_hole.
    exists front, (padded (Z.to_nat (cid - (clause_last_id s + 1))) b).
    split; [reflexivity|right; auto].
Qed.

Lemma finish_clause_run s cid type cfront c bfront b :
  chunk_set s = cfront ++ [c] ->
  clause_blocks s = bfront ++ [b] ->
  zlength (current_clause s) <= CHUNK_SIZE ->
  zlength (current_clause s) + zlength c <= CHUNK_SIZE
  \/ chunk_count s < CHUNK_MAX - 1 ->
  exists chunks k off,
    finish_clause cid type s
    = Ok tt (set_clause_blocks (bfront ++ [with_slot k off type b])
               (set_chunk_set chunks s)) /\
    ((chunks = cfront ++ [c ++ current_clause s] /\
      k = zlength cfront /\ off = zlength c) \/
     (chunks = cfront ++ [c; current_clause s] /\
      k = zlength cfront + 1 /\ off = 0)).
Proof.
  intros Hchunks Hblocks Hneed Hroom.
  unfold finish_clause, bind at 1, get at 1.
  destruct (Z.ltb_spec CHUNK_SIZE (zlength (current_clause s))); [lia|].
  assert (Hused : chunk_used s = zlength c).
  { unfold chunk_used. rewrite Hchunks, last_snoc. reflexivity. }
  rewrite Hused.
  destruct (Z.ltb_spec CHUNK_SIZE (zlength (current_clause s) + zlength c)).
  - (* a chunk is started *)
    destruct Hroom as [|Hroom]; [lia|].
    destruct (Z.leb_spec (CHUNK_MAX - 1) (chunk_count s)); [lia|].
    exists (cfront ++ [c; current_clause s]), (zlength cfront + 1), 0.
    split; [|right; auto].
    unfold bind at 1, modify at 1. unfold bind at 1, get at 1.
    unfold chunk_count, chunk_used, clause_block_count.
    cbn [chunk_set set_chunk_set clause_blocks current_clause].
    rewrite Hchunks, Hblocks.
    replace ((cfront ++ [c]) ++ [[]]) with ((cfront ++ [c]) ++ [@nil Z]) by reflexivity.
    rewrite last_snoc.
    unfold bind at 1, defined at 1. rewrite arr_get_last. unfold ret.
    unfold bind at 1, defined at 1. rewrite arr_set_last. unfold ret.
    unfold bind at 1, modify at 1.
    unfold bind at 1, defined at 1. rewrite arr_get_last. unfold ret.
    unfold bind at 1, defined at 1. rewrite arr_set_last. unfold ret.
    unfold modify. cbn [app]. rewrite <- app_assoc. cbn [app].
    unfold with_slot, zlength. rewrite !length_app. cbn [length].
    replace (Z.of_nat (length cfront + 2) - 1) with (Z.of_nat (length cfront) + 1)
      by lia.
    rewrite <- (app_assoc cfront [c] [current_clause s]). reflexivity.
  - exists (cfront ++ [c ++ current_clause s]), (zlength cfront), (zlength c).
    split; [|left; auto].
    unfold bind at 1, ret at 1. unfold bind at 1, get at 1.
    unfold chunk_count, clause_block_count. rewrite Hused, Hchunks, Hblocks.
    unfold bind at 1, defined at 1. rewrite arr_get_last. unfold ret.
    unfold bind at 1, defined at 1. rewrite arr_set_last. unfold ret.
    unfold bind at 1, modify at 1.
    unfold bind at 1, defined at 1. rewrite arr_get_last. unfold ret.
    unfold bind at 1, defined at 1. rewrite arr_set_last. unfold ret.
    unfold modify.
    unfold with_slot, zlength. rewrite !length_app. cbn [length].
    replace (Z.of_nat (length cfront + 1) - 1) with (Z.of_nat (length cfront))
      by lia.
    reflexivity.
Qed.

End StoreRun.

Section StoreGrowth.

Implicit Types (s : checker) (b : clause_block_t).

Lemma arr_get_snoc {A} (l : list A) x : arr_get (l ++ [x]) (zlength l) = Some x.
Proof.
  pose proof (arr_get_last l x) as H.
  replace (zlength (l ++ [x]) - 1) with (zlength l) in H; [exact H|].
  unfold zlength. rewrite length_app. cbn. lia.
Qed.

Lemma arr_get_snoc_inv {A} (l : list A) x i y :
  arr_get (l ++ [x]) i = Some y ->
  (0 <= i < zlength l /\ arr_get l i = Some y) \/ (i = zlength l /\ y = x).
Proof.
  intros H. pose proof (arr_get_some_range _ _ _ H) as R.
  unfold zlength in R. rewrite length_app in R. cbn in R.
  destruct (Z.eq_dec i (zlength l)) as [->|Hne].
  - right. rewrite arr_get_snoc in H. split; congruence.
  - left. assert (Hi : 0 <= i < zlength l) by (unfold zlength in *; lia).
    split; [exact Hi|]. rewrite arr_get_app_l in H; assumption.
Qed.

Lemma read_lits_app_zero : forall a ext,
  In 0 a -> read_lits (a ++ ext) = read_lits a.
Proof.
  induction a as [|x a IH]; intros ext Hin; [destruct Hin|].
  cbn. destruct (Z.eqb_spec x 0); [reflexivity|].
  destruct Hin as [?|Hin]; [contradiction|]. rewrite IH by exact Hin. reflexivity.
Qed.

Lemma read_lits_terminated : forall lits rest,
  Forall (fun l => l <> 0) lits -> read_lits (lits ++ 0 :: rest) = lits.
Proof.
  induction lits as [|x r IH]; intros rest Hall; [reflexivity|].
  inversion Hall as [|? ? Hx Hr]; subst. cbn.
  destruct (Z.eqb_spec x 0); [contradiction|]. rewrite IH by exact Hr. reflexivity.
Qed.

Lemma In_drop_app {A} (x : A) n (c ext : list A) :
  In x (drop n c) -> drop n (c ++ ext) = drop n c ++ ext.
Proof.
  intros Hin. apply drop_app_le.
  destruct (Nat.le_gt_cases n (length c)) as [|Hgt]; [assumption|].
  rewrite drop_ge in Hin by lia. destruct Hin.
Qed.

(** The last block after the holes and the slot of the clause. *)
Lemma with_slot_padded k off type n bb :
  block_wf bb -> 0 <= blk_length bb ->
  let B := with_slot k off type (padded n bb) in
  block_wf B /\ start_id B = start_id bb /\
  blk_length B = blk_length bb + Z.of_nat n + 1 /\
  block_extends bb B /\
  (arr_get (blk_chunk B) (blk_length bb + Z.of_nat n) = Some k /\
   arr_get (blk_offset B) (blk_length bb + Z.of_nat n) = Some off /\
   arr_get (blk_type B) (blk_length bb + Z.of_nat n) = Some type) /\
  (forall p ch, arr_get (blk_chunk B) p = Some ch ->
     0 <= p < blk_length bb \/ ch = -1 \/ p = blk_length bb + Z.of_nat n).
Proof.
  intros (Hc & Ho & Ht) Hlen B. subst B. unfold with_slot, padded.
  cbn [start_id blk_length blk_chunk blk_offset blk_type].
  assert (Hzc : zlength (blk_chunk bb ++ replicate n (-1)) = blk_length bb + Z.of_nat n).
  { unfold zlength in *. rewrite length_app, length_replicate. lia. }
  assert (Hzo : zlength (blk_offset bb ++ replicate n (-1)) = blk_length bb + Z.of_nat n).
  { unfold zlength in *. rewrite length_app, length_replicate. lia. }
  assert (Hzt : zlength (blk_type bb ++ replicate n CLAUSE_UNKNOWN)
                = blk_length bb + Z.of_nat n).
  { unfold zlength in *. rewrite length_app, length_replicate. lia. }
  split; [|split; [reflexivity|split; [reflexivity|split; [|split]]]].
  - unfold block_wf. cbn [start_id blk_length blk_chunk blk_offset blk_type].
    unfold zlength in *. rewrite !length_app, !length_replicate. cbn [length]. lia.
  - unfold block_extends.
    cbn [start_id blk_length blk_chunk blk_offset blk_type].
    split; [reflexivity|]. split; [lia|]. intros p Hp.
    rewrite <- !app_assoc.
    rewrite !arr_get_app_l by lia. auto.
  - rewrite <- Hzc at 1. rewrite <- Hzo at 1. rewrite <- Hzt.
    rewrite !arr_get_snoc. auto.
  - intros p ch Hget.
    apply arr_get_snoc_inv in Hget. rewrite Hzc in Hget.
    destruct Hget as [[Hp Hget]|[-> _]]; [|right; right; reflexivity].
    destruct (Z.lt_ge_cases p (blk_length bb)) as [Hlt|Hge]; [left; lia|].
    right. left. rewrite arr_get_app_replicate in Hget by lia. congruence.
Qed.

Lemma block_extends_refl b : 0 <= blk_length b -> block_extends b b.
Proof. intros H. split; [reflexivity|]. split; [lia|]. auto. Qed.

Lemma blocks_sorted_snoc bs b :
  blocks_sorted bs ->
  0 <= blk_length b ->
  (forall i bi, arr_get bs i = Some bi -> start_id bi + blk_length bi <= start_id b) ->
  blocks_sorted (bs ++ [b]).
Proof.
  intros [Hlen Hs] Hb Hall. split.
  - apply Forall_app. split; [exact Hlen|]. constructor; [exact Hb|constructor].
  - intros i j bi bj Hij Hi Hj.
    apply arr_get_snoc_inv in Hj. destruct Hj as [[Rj Hj]|[-> ->]].
    + rewrite arr_get_app_l in Hi by (pose proof (arr_get_some_range _ _ _ Hi); lia).
      exact (Hs _ _ _ _ Hij Hi Hj).
    + apply arr_get_snoc_inv in Hi. destruct Hi as [[Ri Hi]|[-> _]]; [|lia].
      exact (Hall _ _ Hi).
Qed.

Lemma blocks_sorted_front bs b : blocks_sorted (bs ++ [b]) -> blocks_sorted bs.
Proof.
  intros [Hlen Hs]. apply Forall_app in Hlen as [Hlen _]. split; [exact Hlen|].
  intros i j bi bj Hij Hi Hj.
  pose proof (arr_get_some_range _ _ _ Hi). pose proof (arr_get_some_range _ _ _ Hj).
  apply (Hs i j); [exact Hij|rewrite arr_get_app_l by lia; assumption..].
Qed.

End StoreGrowth.

Section StoreInvariant.

Implicit Types (s : checker) (b : clause_block_t).

(** Clauses stored before are found where they were, as they were. *)
Lemma store_frame s s' :
  store_ok s -> blocks_sorted (clause_blocks s') ->
  blocks_extend (clause_blocks s) (clause_blocks s') ->
  chunks_extend (chunk_set s) (chunk_set s') ->
  forall cid loc, find_clause cid s = Some loc ->
    find_clause cid s' = Some loc /\
    clause_type loc s' = clause_type loc s /\
    lits_at loc s' = lits_at loc s.
Proof.
  intros (Hsorted & Hwf & _ & _ & Hterm) Hsorted' Hbe Hce cid loc Hfind.
  pose proof (proj1 (find_clause_slot s cid loc Hsorted) Hfind) as (bl & Hbl & Hpos & Hcid).
  destruct (Hbe _ _ Hbl) as (bl' & Hbl' & Hst & Hlen & Hslots).
  destruct (Hslots _ Hpos) as (Hch & Hof & Hty).
  split; [|split].
  - apply (find_clause_slot s' cid loc Hsorted').
    exists bl'. split; [exact Hbl'|]. split; lia.
  - unfold clause_type. rewrite Hbl, Hbl'. exact Hty.
  - unfold lits_at.
    assert (Hloc : clause_locate loc s' = clause_locate loc s).
    { unfold clause_locate. rewrite Hbl, Hbl', Hch, Hof. reflexivity. }
    rewrite Hloc.
    destruct (clause_locate loc s) as [[[ch off]|]|] eqn:E; [|reflexivity..].
    destruct (Hterm _ _ E) as (c0 & Hc0 & Hzero). cbn [fst snd] in *.
    destruct (Hce _ _ Hc0) as (ext & Hc0').
    unfold clause_lits. cbn [fst snd]. rewrite Hc0, Hc0'.
    rewrite (In_drop_app _ _ _ _ Hzero), read_lits_app_zero by exact Hzero.
    reflexivity.
Qed.

Lemma store_clause_post s cid type lits :
  store_ok s -> clause_last_id s < cid ->
  Forall (fun l => l <> 0) lits -> Forall (var_in_range s) (lits ++ [0]) ->
  zlength lits + 1 <= CHUNK_SIZE ->
  zlength lits + 1 + chunk_used s <= CHUNK_SIZE
  \/ chunk_count s < CHUNK_MAX - 1 ->
  exists s',
    (start_clause cid ;;; clause_add_literals (lits ++ [0]) ;;;
     finish_clause cid type) s = Ok tt s' /\
    store_ok s' /\ clause_last_id s' = cid /\
    blocks_extend (clause_blocks s) (clause_blocks s') /\
    chunks_extend (chunk_set s) (chunk_set s') /\
    (exists loc, slot_of cid loc s' /\ clause_type loc s' = Some type /\
                 lits_at loc s' = Some lits).
Proof.
  intros (Hsorted & Hwf & (b & Hlast & Hend) & Hcount & Hterm) Hcid Hnz Hvars
         Hneed Hroom.
  destruct (arr_get_last_inv _ _ Hlast) as [front Hblocks].
  assert (Hcs : exists cfront c, chunk_set s = cfront ++ [c]).
  { unfold chunk_count, zlength in Hcount.
    destruct (chunk_set s) as [|x l] using rev_ind; [cbn in Hcount; lia|eauto]. }
  destruct Hcs as (cfront & c & Hchunks).
  assert (Hused : chunk_used s = zlength c).
  { unfold chunk_used. rewrite Hchunks, last_snoc. reflexivity. }
  (* the run *)
  destruct (start_clause_run s cid front b Hcid Hblocks)
    as (bfront & b0 & Hstart & Hcase).
  set (s1 := set_current_clause [] _) in Hstart.
  assert (Hadd : clause_add_literals (lits ++ [0]) s1
                 = Ok tt (set_current_clause (lits ++ [0]) s1)).
  { rewrite clause_add_literals_run; [reflexivity|exact Hvars]. }
  set (s2 := set_current_clause (lits ++ [0]) s1) in Hadd.
  assert (Hcur : zlength (current_clause s2) = zlength lits + 1).
  { unfold zlength. cbn. rewrite length_app. cbn. lia. }
  destruct (finish_clause_run s2 cid type cfront c bfront b0)
    as (chunks & k & off & Hfinish & Hchunk_case);
    [exact Hchunks|reflexivity|lia| |].
  { rewrite Hcur. destruct Hroom as [Hroom|Hroom]; [left; lia|right; exact Hroom]. }
  set (s' := set_clause_blocks _ _) in Hfinish.
  exists s'. split.
  { unfold bind at 1. rewrite Hstart. unfold bind at 1. rewrite Hadd. exact Hfinish. }
  (* the last block *)
  assert (Hb0 : exists n bb,
             b0 = padded n bb /\ block_wf bb /\ 0 <= blk_length bb /\
             start_id bb + blk_length bb + Z.of_nat n = cid /\
             blocks_sorted bfront /\ Forall block_wf bfront /\
             (forall i bi, arr_get bfront i = Some bi ->
                           start_id bi + blk_length bi <= start_id bb) /\
             (forall i bi, arr_get (clause_blocks s) i = Some bi ->
                arr_get bfront i = Some bi \/
                (i = zlength bfront /\ bi = bb)) /\
             (forall p, 0 <= p < blk_length bb ->
                arr_get (clause_blocks s) (zlength bfront) = Some bb) /\
             (forall i bi, arr_get bfront i = Some bi ->
                           arr_get (clause_blocks s) i = Some bi)).
  { assert (Hb_len : 0 <= blk_length b).
    { destruct Hsorted as [Hlen _]. rewrite Hblocks in Hlen.
      apply Forall_app in Hlen as [_ Hlen]. inversion Hlen; assumption. }
    assert (Hb_wf : block_wf b).
    { rewrite Hblocks in Hwf. apply Forall_app in Hwf as [_ Hwf].
      inversion Hwf; assumption. }
    destruct Hcase as [[-> ->]|[-> ->]].
    - exists 0%nat, (new_block cid). split; [reflexivity|].
      split; [repeat split|]. split; [cbn; lia|]. split; [cbn; lia|].
      rewrite <- Hblocks.
      split; [exact Hsorted|]. split; [exact Hwf|]. split; [|split; [|split]].
      + intros i bi Hi. cbn [start_id new_block].
        rewrite Hblocks in Hi. apply arr_get_snoc_inv in Hi.
        destruct Hi as [[Ri Hi]|[-> ->]]; [|lia].
        destruct Hsorted as [Hlen Hs]. rewrite Hblocks in Hs.
        pose proof (Hs i (zlength front) bi b ltac:(lia)
                      ltac:(rewrite arr_get_app_l by lia; exact Hi)
                      (arr_get_snoc front b)).
        lia.
      + intros i bi Hi. left. exact Hi.
      + cbn. intros p Hp. lia.
      + intros i bi Hi. exact Hi.
    - exists (Z.to_nat (cid - (clause_last_id s + 1))), b.
      split; [reflexivity|]. split; [exact Hb_wf|]. split; [exact Hb_len|].
      split; [lia|]. rewrite Hblocks in Hsorted, Hwf.
      split; [exact (blocks_sorted_front _ _ Hsorted)|].
      split; [apply Forall_app in Hwf as [Hwf _]; exact Hwf|].
      split; [|split; [|split]].
      + intros i bi Hi. destruct Hsorted as [_ Hs].
        pose proof (arr_get_some_range _ _ _ Hi).
        pose proof (Hs i (zlength front) bi b ltac:(lia)
                      ltac:(rewrite arr_get_app_l by lia; exact Hi)
                      (arr_get_snoc front b)).
        lia.
      + intros i bi Hi. rewrite Hblocks in Hi. apply arr_get_snoc_inv in Hi.
        destruct Hi as [[Ri Hi]|[-> ->]]; [left; exact Hi|right; auto].
      + intros p Hp. rewrite Hblocks. apply arr_get_snoc.
      + intros i bi Hi. rewrite Hblocks.
        rewrite arr_get_app_l by (apply (arr_get_some_range _ _ _ Hi)). exact Hi. }
  clear Hcase.
  destruct Hb0 as (n & bb & -> & Hbb_wf & Hbb_len & Hbb_end & Hfront_sorted
                   & Hfront_wf & Hfront_below & Hold & Hbb_old & Hfront_old).
  destruct (with_slot_padded k off type n bb Hbb_wf Hbb_len)
    as (HB_wf & HB_start & HB_len & HB_ext & (HB_k & HB_off & HB_type) & HB_cases).
  set (B := with_slot k off type (padded n bb)) in *.
  assert (Hblocks' : clause_blocks s' = bfront ++ [B]) by reflexivity.
  assert (Hchunks' : chunk_set s' = chunks) by reflexivity.
  (* the chunks *)
  assert (Hce : chunks_extend (chunk_set s) chunks).
  { intros i ci Hi. rewrite Hchunks in Hi.
    destruct Hchunk_case as [(-> & _ & _)|(-> & _ & _)].
    - apply arr_get_snoc_inv in Hi. destruct Hi as [[Ri Hi]|[-> ->]].
      + exists []. rewrite app_nil_r, arr_get_app_l by lia. exact Hi.
      + exists (current_clause s2). apply arr_get_snoc.
    - exists []. rewrite app_nil_r.
      change (cfront ++ [c; current_clause s2])
        with (cfront ++ [c] ++ [current_clause s2]).
      rewrite app_assoc.
      rewrite arr_get_app_l by (apply (arr_get_some_range _ _ _ Hi)). exact Hi. }
  assert (Hnew : 0 <= k /\ 0 <= off /\
                 exists cnew, arr_get chunks k = Some cnew /\
                              drop (Z.to_nat off) cnew = lits ++ [0]).
  { destruct Hchunk_case as [(-> & -> & ->)|(-> & -> & ->)].
    - split; [unfold zlength; lia|]. split; [unfold zlength; lia|].
      exists (c ++ current_clause s2). split; [apply arr_get_snoc|].
      unfold zlength. rewrite Nat2Z.id. rewrite drop_app_length. reflexivity.
    - split; [unfold zlength; lia|]. split; [lia|].
      exists (current_clause s2). split; [|reflexivity].
      change (cfront ++ [c; current_clause s2])
        with (cfront ++ [c] ++ [current_clause s2]).
      rewrite app_assoc.
      replace (zlength cfront + 1) with (zlength (cfront ++ [c]))
        by (unfold zlength; rewrite length_app; cbn; lia).
      apply arr_get_snoc. }
  destruct Hnew as (Hk & Hoff & cnew & Hcnew & Hdrop).
  (* the blocks *)
  assert (Hbe : blocks_extend (clause_blocks s) (clause_blocks s')).
  { intros i bi Hi. rewrite Hblocks'.
    destruct (Hold _ _ Hi) as [Hi'|[-> ->]].
    - exists bi. split.
      + rewrite arr_get_app_l by (apply (arr_get_some_range _ _ _ Hi')). exact Hi'.
      + apply block_extends_refl. destruct Hsorted as [Hlen _].
        rewrite Forall_lookup in Hlen. unfold arr_get in Hi.
        destruct (i <? 0); [discriminate|]. exact (Hlen _ _ Hi).
    - exists B. split; [apply arr_get_snoc|exact HB_ext]. }
  assert (Hsorted' : blocks_sorted (clause_blocks s')).
  { rewrite Hblocks'. apply blocks_sorted_snoc; [exact Hfront_sorted|lia|].
    intros i bi Hi. rewrite HB_start. exact (Hfront_below _ _ Hi). }
  assert (Hlocate : forall loc p,
             clause_locate loc s' = Some (Some p) ->
             clause_locate loc s = Some (Some p) \/ p = (k, off)).
  { intros loc p Hloc. unfold clause_locate in Hloc. rewrite Hblocks' in Hloc.
    destruct (arr_get (bfront ++ [B]) (bid loc)) as [bl'|] eqn:Hbl'; [|discriminate].
    apply arr_get_snoc_inv in Hbl'. destruct Hbl' as [[Rb Hbl']|[Hbid ->]].
    - left. unfold clause_locate.
      pose proof (Hfront_old _ _ Hbl') as Hsame.
      rewrite Hsame. exact Hloc.
    - destruct (arr_get (blk_chunk B) (pos loc)) as [ch|] eqn:Hch; [|discriminate].
      destruct (arr_get (blk_offset B) (pos loc)) as [ofs|] eqn:Hof; [|discriminate].
      destruct (HB_cases _ _ Hch) as [Hp|[->|Hp]].
      + left. unfold clause_locate. rewrite Hbid, (Hbb_old _ Hp).
        destruct HB_ext as (_ & _ & Hslots). destruct (Hslots _ Hp) as (E1 & E2 & _).
        rewrite <- E1, <- E2, Hch, Hof. exact Hloc.
      + discriminate.
      + right. rewrite Hp in Hch, Hof. rewrite HB_k in Hch. rewrite HB_off in Hof.
        injection Hch as <-. injection Hof as <-.
        destruct (k <? 0); [discriminate|]. destruct (off <? 0); [discriminate|].
        congruence. }
  split; [|split; [reflexivity|split; [exact Hbe|split; [exact Hce|]]]].
  - (* the invariant *)
    split; [exact Hsorted'|]. split; [|split; [|split]].
    + rewrite Hblocks'. apply Forall_app. split; [exact Hfront_wf|].
      constructor; [exact HB_wf|constructor].
    + exists B. unfold clause_block_count. rewrite Hblocks'.
      split; [apply arr_get_last|].
      change (clause_last_id s') with cid. lia.
    + unfold chunk_count. rewrite Hchunks'.
      pose proof (arr_get_some_range _ _ _ Hcnew). lia.
    + intros loc p Hloc. destruct (Hlocate _ _ Hloc) as [Hold_loc| ->].
      * destruct (Hterm _ _ Hold_loc) as (c0 & Hc0 & Hzero).
        destruct (Hce _ _ Hc0) as (ext & Hc0').
        exists (c0 ++ ext). split; [exact Hc0'|].
        rewrite (In_drop_app _ _ _ _ Hzero). apply in_or_app. left. exact Hzero.
      * exists cnew. cbn [fst snd]. split; [exact Hcnew|].
        rewrite Hdrop. apply in_or_app. right. left. reflexivity.
  - (* the clause *)
    exists (mk_loc (zlength bfront) (blk_length bb + Z.of_nat n)).
    split; [|split].
    + exists B. cbn [bid pos]. rewrite Hblocks'.
      split; [apply arr_get_snoc|]. split; lia.
    + unfold clause_type. cbn [bid pos]. rewrite Hblocks', arr_get_snoc. exact HB_type.
    + unfold lits_at, clause_locate. cbn [bid pos].
      rewrite Hblocks', arr_get_snoc, HB_k, HB_off.
      destruct (Z.ltb_spec k 0); [lia|]. destruct (Z.ltb_spec off 0); [lia|].
      unfold clause_lits. cbn [fst snd]. rewrite Hchunks', Hcnew, Hdrop.
      rewrite (read_lits_terminated lits [] Hnz). reflexivity.
Qed.

(** The conditions under which the three steps return. *)
Lemma clause_add_literals_ok_inv : forall lits s u s',
  clause_add_literals lits s = Ok u s' -> Forall (var_in_range s) lits.
Proof.
  induction lits as [|lit r IH]; intros s u s' H; [constructor|].
  cbn [clause_add_literals] in H.
  apply bind_ok in H. destruct H as (u1 & s1 & H1 & H).
  pose proof (clause_add_literal_post _ _ _ _ H1) as ->.
  constructor; [|exact (IH _ _ _ H)].
  unfold clause_add_literal, bind, modify, get in H1. cbn in H1.
  unfold var_in_range.
  destruct (Z.ltb_spec (input_variable_count (opts s)) (IABS lit)); [|lia].
  destruct (Z.ltb_spec (variable_limit s) (IABS lit)); [discriminate|lia].
Qed.

Lemma store_clause_ok_inv s cid type lits u s' :
  (start_clause cid ;;; clause_add_literals (lits ++ [0]) ;;;
   finish_clause cid type) s = Ok u s' ->
  clause_last_id s < cid /\ Forall (var_in_range s) (lits ++ [0]) /\
  zlength lits + 1 <= CHUNK_SIZE /\
  (zlength lits + 1 + chunk_used s <= CHUNK_SIZE
   \/ chunk_count s < CHUNK_MAX - 1).
Proof.
  intros H.
  apply bind_ok in H. destruct H as (u1 & s1 & Hstart & H).
  apply bind_ok in H. destruct H as (u2 & s2 & Hadd & Hfinish).
  assert (Hcid : clause_last_id s < cid).
  { unfold start_clause, bind at 1, get at 1 in Hstart.
    destruct (Z.leb_spec cid (clause_last_id s)); [discriminate|lia]. }
  destruct (start_clause_post _ _ _ _ Hstart) as (Hcs & Hcur & _ & _ & Hopts & Hvl).
  pose proof (clause_add_literals_ok_inv _ _ _ _ Hadd) as Hvars.
  pose proof (clause_add_literals_post _ _ _ _ Hadd) as ->.
  split; [exact Hcid|]. split.
  { eapply Forall_impl; [exact Hvars|]. intros l. unfold var_in_range.
    rewrite Hopts, Hvl. auto. }
  unfold finish_clause, bind at 1, get at 1 in Hfinish.
  assert (Hlen : zlength (current_clause (set_current_clause
                   (current_clause s1 ++ lits ++ [0]) s1)) = zlength lits + 1).
  { cbn. rewrite Hcur. unfold zlength. cbn. rewrite length_app. cbn. lia. }
  rewrite Hlen in Hfinish.
  assert (Hused : chunk_used (set_current_clause
                    (current_clause s1 ++ lits ++ [0]) s1) = chunk_used s).
  { unfold chunk_used. cbn. rewrite Hcs. reflexivity. }
  assert (Hcount : chunk_count (set_current_clause
                     (current_clause s1 ++ lits ++ [0]) s1) = chunk_count s).
  { unfold chunk_count. cbn. rewrite Hcs. reflexivity. }
  rewrite Hused, Hcount in Hfinish.
  destruct (Z.ltb_spec CHUNK_SIZE (zlength lits + 1)); [discriminate|].
  split; [lia|].
  destruct (Z.ltb_spec CHUNK_SIZE (zlength lits + 1 + chunk_used s)); [|left; lia].
  destruct (Z.leb_spec (CHUNK_MAX - 1) (chunk_count s)); [discriminate|right; lia].
Qed.

Lemma clause_init_store_ok o : store_ok (clause_init o).
Proof.
  split; [|split; [|split; [|split]]].
  - split; [repeat constructor; cbn; lia|].
    intros i j bi bj Hij Hi Hj.
    pose proof (arr_get_some_range _ _ _ Hi) as Ri.
    pose proof (arr_get_some_range _ _ _ Hj) as Rj.
    change (zlength (clause_blocks (clause_init o))) with 1 in Ri, Rj. lia.
  - repeat constructor.
  - exists (new_block 1). split; reflexivity.
  - unfold chunk_count, zlength. cbn. lia.
  - intros loc p Hloc. unfold clause_locate in Hloc. cbn [clause_blocks clause_init] in Hloc.
    destruct (arr_get [new_block 1] (bid loc)) as [bl|] eqn:E; [|discriminate].
    change [new_block 1] with ([] ++ [new_block 1]) in E.
    apply arr_get_snoc_inv in E. destruct E as [[R _]|[_ ->]]; [unfold zlength in R; cbn in R; lia|].
    cbn in Hloc. unfold arr_get in Hloc. destruct (pos loc <? 0); discriminate.
Qed.

End StoreInvariant.

(** Storing a clause ([start_clause], [clause_add_literal] for its literals
    and the terminating 0, [finish_clause]) returns exactly when the id is
    above the last id, every variable passes the limit, the clause fits a
    chunk and there is room for it.  The clause is then found under its id
    with its type and its literals, every clause stored before is found as
    it was, and the store is well formed again. *)
Theorem clause_store_round_trip (s : checker) (cid : Z) (type : clause_type_t)
    (lits : list Z) :
  store_ok s -> Forall (fun l => l <> 0) lits ->
  ((exists s', (start_clause cid ;;; clause_add_literals (lits ++ [0]) ;;;
                finish_clause cid type) s = Ok tt s') <->
   (clause_last_id s < cid /\ Forall (var_in_range s) (lits ++ [0]) /\
    zlength lits + 1 <= CHUNK_SIZE /\
    (zlength lits + 1 + chunk_used s <= CHUNK_SIZE
     \/ chunk_count s < CHUNK_MAX - 1))) /\
  (forall s',
     (start_clause cid ;;; clause_add_literals (lits ++ [0]) ;;;
      finish_clause cid type) s = Ok tt s' ->
     store_ok s' /\
     (exists loc, find_clause cid s' = Some loc /\
                  clause_type loc s' = Some type /\ lits_at loc s' = Some lits) /\
     (forall cid' loc, find_clause cid' s = Some loc ->
        find_clause cid' s' = Some loc /\
        clause_type loc s' = clause_type loc s /\
        lits_at loc s' = lits_at loc s)).
Proof.
  intros Hok Hnz. split.
  - split.
    + intros [s' H]. exact (store_clause_ok_inv _ _ _ _ _ _ H).
    + intros (Hcid & Hvars & Hneed & Hroom).
      destruct (store_clause_post s cid type lits Hok Hcid Hnz Hvars Hneed Hroom)
        as (s' & Hrun & _). exists s'. exact Hrun.
  - intros s' Hrun.
    destruct (store_clause_ok_inv _ _ _ _ _ _ Hrun) as (Hcid & Hvars & Hneed & Hroom).
    destruct (store_clause_post s cid type lits Hok Hcid Hnz Hvars Hneed Hroom)
      as (s'' & Hrun' & Hok' & _ & Hbe & Hce & (loc & Hslot & Hty & Hlits)).
    rewrite Hrun in Hrun'. injection Hrun' as <-.
    split; [exact Hok'|]. split.
    + exists loc. split; [|auto].
      apply find_clause_slot; [apply Hok'|exact Hslot].
    + apply (store_frame s s' Hok); [apply Hok'|exact Hbe|exact Hce].
Qed.

Lemma clause_store_round_trip_witness :
  exists s',
    (start_clause 1 ;;; clause_add_literals ([1; -2] ++ [0]) ;;;
     finish_clause 1 CLAUSE_INPUT) (clause_init (default_options 2 1)) = Ok tt s' /\
    exists loc, find_clause 1 s' = Some loc /\
                clause_type loc s' = Some CLAUSE_INPUT /\
                lits_at loc s' = Some [1; -2].
Proof.
  destruct (clause_store_round_trip (clause_init (default_options 2 1)) 1
              CLAUSE_INPUT [1; -2]) as [Hiff H].
  - apply clause_init_store_ok.
  - repeat constructor; lia.
  - destruct (proj2 Hiff) as [s' Hrun].
    + split; [cbn; lia|]. split.
      * cbn [app].
        repeat (constructor; [left; vm_compute; discriminate|]). constructor.
      * split; [vm_compute; discriminate|left; vm_compute; discriminate].
    + exists s'. split; [exact Hrun|]. exact (proj1 (proj2 (H s' Hrun))).
Defined.

Section CnfStore.

Lemma cnf_read_clauses_post : forall clauses n s0 s,
  Forall (Forall (fun l => l <> 0)) clauses ->
  store_ok s0 -> clause_last_id s0 = n ->
  cnf_read_clauses n clauses s0 = Ok tt s ->
  store_ok s /\ clause_last_id s = n + zlength clauses /\
  (forall i c, clauses !! i = Some c ->
     exists loc, find_clause (n + Z.of_nat i + 1) s = Some loc /\
                 clause_type loc s = Some CLAUSE_INPUT /\
                 lits_at loc s = Some c) /\
  (forall cid loc, find_clause cid s0 = Some loc ->
     find_clause cid s = Some loc /\
     clause_type loc s = clause_type loc s0 /\
     lits_at loc s = lits_at loc s0).
Proof.
  induction clauses as [|c r IH]; intros n s0 s Hnz Hok Hlast Hrun.
  - injection Hrun as <-. split; [exact Hok|]. split; [unfold zlength; cbn; lia|].
    split; [intros i c Hi; discriminate|]. auto.
  - inversion Hnz as [|? ? Hc Hr]; subst.
    cbn [cnf_read_clauses] in Hrun.
    apply bind_ok in Hrun. destruct Hrun as (u1 & s1 & Hone & Hrest).
    destruct u1. unfold cnf_read_clause in Hone.
    destruct (store_clause_ok_inv _ _ _ _ _ _ Hone) as (Hcid & Hvars & Hneed & Hroom).
    destruct (store_clause_post s0 _ CLAUSE_INPUT c Hok Hcid Hc Hvars Hneed Hroom)
      as (s1' & Hone' & Hok1 & Hlast1 & Hbe & Hce & (loc1 & Hslot1 & Hty1 & Hlits1)).
    rewrite Hone in Hone'. injection Hone' as <-.
    pose proof (store_frame s0 s1 Hok (proj1 Hok1) Hbe Hce) as Hframe1.
    destruct (IH _ _ _ Hr Hok1 Hlast1 Hrest) as (Hok' & Hlast' & Hnew & Hframe).
    split; [exact Hok'|]. split.
    { rewrite Hlast'. unfold zlength. cbn [length]. lia. }
    split.
    + intros [|i] c' Hi.
      * injection Hi as <-. exists loc1.
        apply (find_clause_slot s1 _ _ (proj1 Hok1)) in Hslot1.
        destruct (Hframe _ _ Hslot1) as (Hf & Ht & Hl).
        replace (clause_last_id s0 + Z.of_nat 0 + 1) with (clause_last_id s0 + 1) by lia.
        split; [exact Hf|]. split; congruence.
      * destruct (Hnew i c' Hi) as (loc & Hf & Ht & Hl). exists loc.
        replace (clause_last_id s0 + Z.of_nat (S i) + 1)
          with (clause_last_id s0 + 1 + Z.of_nat i + 1) by lia.
        auto.
    + intros cid loc Hfind.
      destruct (Hframe1 _ _ Hfind) as (Hf1 & Ht1 & Hl1).
      destruct (Hframe _ _ Hf1) as (Hf & Ht & Hl).
      split; [exact Hf|]. split; congruence.
Qed.

End CnfStore.

Section Chars.

Import Lexer.

Section LexerFacts.

Implicit Types (c : ascii) (cs ds rest : list ascii) (st : scan_t).

Lemma isdigit_code c : isdigit c = true <-> 48 <= char_code c <= 57.
Proof. unfold isdigit. rewrite andb_true_iff, !Z.leb_le. tauto. Qed.

Lemma isspace_code c :
  isspace c = true <-> char_code c = 32 \/ 9 <= char_code c <= 13.
Proof.
  unfold isspace. rewrite orb_true_iff, andb_true_iff, Z.eqb_eq, !Z.leb_le. tauto.
Qed.

Lemma eqb_code c c' : char_code c <> char_code c' -> Ascii.eqb c c' = false.
Proof.
  intros H. destruct (Ascii.eqb_spec c c') as [->|]; [contradiction|reflexivity].
Qed.

Lemma digits_value_ge : forall ds m,
  Forall (fun c => isdigit c = true) ds -> 0 <= m ->
  m <= digits_value m ds.
Proof.
  induction ds as [|c ds IH]; intros m Hds Hm; [cbn; lia|].
  inversion Hds as [|? ? Hc Hr]; subst. apply isdigit_code in Hc.
  cbn. specialize (IH (10 * m + (char_code c - 48)) Hr ltac:(lia)).
  unfold digits_value in IH. lia.
Qed.

Lemma digits_value_lower : forall ds m,
  Forall (fun c => isdigit c = true) ds -> 1 <= m ->
  m * 10 ^ zlength ds <= digits_value m ds.
Proof.
  induction ds as [|c ds IH]; intros m Hds Hm;
    [change (zlength (@nil ascii)) with 0; rewrite Z.pow_0_r; cbn; lia|].
  inversion Hds as [|? ? Hc Hr]; subst. apply isdigit_code in Hc.
  specialize (IH (10 * m + (char_code c - 48)) Hr ltac:(lia)).
  cbn [digits_value fold_left]. unfold digits_value in IH.
  replace (zlength (c :: ds)) with (zlength ds + 1)
    by (unfold zlength; cbn [length]; lia).
  rewrite Z.pow_add_r by (unfold zlength; lia).
  assert (0 <= 10 ^ zlength ds) by (apply Z.pow_nonneg; lia).
  nia.
Qed.

(** The digits of a token, up to the white space that ends it. *)
Lemma token_scan_digits : forall ds st rest,
  Forall (fun c => isdigit c = true) ds ->
  ttype st = T_INT \/ (ttype st = T_NONE /\ ds <> []) ->
  token_pos st + zlength ds <= TOKEN_MAX - 2 ->
  0 <= mag st -> digits_value (mag st) ds <= INT_MAX ->
  token_value st = sign st * mag st ->
  ends_token rest ->
  token_scan (ds ++ rest) st
  = Some (mk_lexeme T_INT (token_last st ++ ds)
                    (sign st * digits_value (mag st) ds),
          after_token rest).
Proof.
  induction ds as [|c ds IH]; intros st rest Hds Hty Hpos Hmag Hval Htv Hend.
  - destruct Hty as [Hty|[_ Hne]]; [|contradiction].
    assert (Hfull : (TOKEN_MAX - 1 <=? token_pos st) = false).
    { apply Z.leb_gt. unfold TOKEN_MAX, token_pos, zlength in *. cbn in Hpos. lia. }
    cbn [app]. rewrite app_nil_r. destruct rest as [|c r].
    + cbn [token_scan]. unfold token_step. rewrite Hfull. cbv iota zeta.
      unfold lexeme_of. rewrite Hty, Htv. reflexivity.
    + cbn in Hend. pose proof (proj1 (isspace_code c) Hend) as Hc.
      cbn [token_scan]. unfold token_step. rewrite Hfull. cbv iota zeta.
      rewrite (eqb_code c "-") by (change (char_code "-") with 45; lia).
      assert (Hnd : isdigit c = false).
      { destruct (isdigit c) eqn:E; [|reflexivity].
        apply isdigit_code in E. lia. }
      rewrite Hnd, Hend. cbv iota.
      unfold lexeme_of, after_token. rewrite Hty, Htv. reflexivity.
  - inversion Hds as [|? ? Hc Hr]; subst.
    pose proof (proj1 (isdigit_code c) Hc) as Hcode.
    assert (Hlen : zlength (c :: ds) = zlength ds + 1)
      by (unfold zlength; cbn [length]; lia).
    assert (Hfull : (TOKEN_MAX - 1 <=? token_pos st) = false).
    { apply Z.leb_gt. unfold TOKEN_MAX, token_pos, zlength in *. lia. }
    pose proof (digits_value_ge ds (10 * mag st + (char_code c - 48)) Hr ltac:(lia))
      as Hge.
    cbn [digits_value fold_left] in Hval. fold (digits_value (10 * mag st + (char_code c - 48)) ds) in Hval.
    cbn [app token_scan]. unfold token_step. rewrite Hfull. cbv iota zeta.
    rewrite (eqb_code c "-") by (change (char_code "-") with 45; lia).
    rewrite Hc. cbv iota.
    assert (Hok : negb (ttype_eqb (ttype st) T_NONE)
                  && negb (ttype_eqb (ttype st) T_INT) = false).
    { destruct Hty as [->|[-> _]]; reflexivity. }
    rewrite Hok.
    destruct (Z.ltb_spec INT_MAX (10 * mag st + (char_code c - 48))); [lia|].
    unfold push_char, token_pos. cbn [token_last]. fold (token_pos st).
    rewrite Hfull. cbn [sign mag ttype token_last].
    rewrite IH; [|exact Hr|left; reflexivity| | | |reflexivity|exact Hend].
    + cbn [token_last sign mag]. rewrite <- app_assoc. reflexivity.
    + unfold token_pos. cbn [token_last]. unfold TOKEN_MAX, token_pos, zlength in *.
      rewrite length_app. cbn [length] in *. lia.
    + cbn [mag]. lia.
    + cbn [mag]. exact Hval.
Qed.

Lemma token_skip_spaces : forall ws c rest,
  Forall (fun c => isspace c = true /\ c <> newline) ws ->
  isspace c = false ->
  token_skip (ws ++ c :: rest) = (None, c :: rest).
Proof.
  induction ws as [|w ws IH]; intros c rest Hws Hc.
  - cbn. destruct (Ascii.eqb_spec c newline) as [->|_]; [discriminate|].
    rewrite Hc. reflexivity.
  - inversion Hws as [|? ? [Hw Hnl] Hr]; subst. cbn.
    destruct (Ascii.eqb_spec w newline); [contradiction|].
    rewrite Hw. cbn. apply IH; assumption.
Qed.

(** The characters of a decimal numeral. *)
Lemma uint_chars_digits : forall d,
  Forall (fun c => isdigit c = true)
         (list_ascii_of_string (DecimalString.NilEmpty.string_of_uint d)).
Proof. induction d; cbn; constructor; auto. Qed.

Lemma uint_chars_value : forall d,
  (forall acc,
     digits_value (Z.pos acc) (list_ascii_of_string (DecimalString.NilEmpty.string_of_uint d))
     = Z.pos (Pos.of_uint_acc d acc)) /\
  digits_value 0 (list_ascii_of_string (DecimalString.NilEmpty.string_of_uint d))
  = Z.of_N (Pos.of_uint d).
Proof.
  induction d as [|d [IHa IH0]|d [IHa IH0]|d [IHa IH0]|d [IHa IH0]|d [IHa IH0]
                  |d [IHa IH0]|d [IHa IH0]|d [IHa IH0]|d [IHa IH0]|d [IHa IH0]];
    (split; [intros acc|]);
    cbn [DecimalString.NilEmpty.string_of_uint list_ascii_of_string Pos.of_uint_acc Pos.of_uint
         N.to_nat Z.of_N];
    try reflexivity;
    unfold digits_value; cbn [fold_left];
    match goal with
    | |- context [char_code ?c] =>
        let v := eval vm_compute in (char_code c) in
        change (char_code c) with v
    end;
    fold (digits_value (10 * Z.pos acc + (48 - 48))
            (list_ascii_of_string (DecimalString.NilEmpty.string_of_uint d)))
    || idtac.
  all: try (rewrite <- IHa; unfold digits_value; f_equal;
            rewrite ?Pos2Z.inj_add, ?Pos2Z.inj_mul; lia).
  all: try (exact IH0).
  all: try (rewrite <- (IHa _); unfold digits_value; f_equal).
Qed.

End LexerFacts.

Section DecimalFacts.

Implicit Types (c : ascii) (cs ds rest : list ascii) (st : scan_t).

Local Abbreviation chars d := (list_ascii_of_string (DecimalString.NilEmpty.string_of_uint d)).

Lemma to_uint_head p :
  exists c cs, chars (Pos.to_uint p) = c :: cs /\ 49 <= char_code c <= 57.
Proof.
  pose proof (DecimalPos.Unsigned.to_of (Pos.to_uint p)) as Hnorm.
  rewrite DecimalPos.Unsigned.of_to in Hnorm. cbn [N.to_uint] in Hnorm.
  pose proof (DecimalPos.Unsigned.to_uint_nonnil p) as Hnil.
  pose proof (DecimalPos.Unsigned.to_uint_nonzero p) as Hzero.
  destruct (Pos.to_uint p) as [|u|u|u|u|u|u|u|u|u|u] eqn:E;
    [contradiction| |cbn; eexists _, _; (split; [reflexivity|vm_compute; split; discriminate])..].
  exfalso. rewrite DecimalFacts.unorm_D0 in Hnorm. unfold Decimal.unorm in Hnorm.
  destruct (Decimal.nzhead u) as [|v|v|v|v|v|v|v|v|v|v] eqn:Hu;
    pose proof (DecimalFacts.nzhead_nonzero u u) as Hnz; rewrite Hu in Hnz; congruence.
Qed.

Lemma to_uint_length p :
  Z.pos p <= INT_MAX -> zlength (chars (Pos.to_uint p)) <= 10.
Proof.
  intros Hp. destruct (to_uint_head p) as (c & cs & Hcs & Hc).
  pose proof (uint_chars_digits (Pos.to_uint p)) as Hd.
  pose proof (proj2 (uint_chars_value (Pos.to_uint p))) as Hv.
  rewrite DecimalPos.Unsigned.of_to in Hv. cbn [Z.of_N] in Hv.
  rewrite Hcs in *. inversion Hd as [|? ? _ Hr]; subst.
  cbn [digits_value fold_left] in Hv.
  pose proof (digits_value_lower cs (10 * 0 + (char_code c - 48)) Hr ltac:(lia)) as Hlow.
  unfold digits_value in Hlow. rewrite Hv in Hlow.
  assert (Hlt : 10 ^ zlength cs < 10 ^ 10).
  { assert (0 < 10 ^ zlength cs) by (apply Z.pow_pos_nonneg; unfold zlength; lia).
    unfold INT_MAX in Hp. change (10 ^ 10) with 10000000000. nia. }
  apply Z.pow_lt_mono_r_iff in Hlt; [|lia|lia].
  unfold zlength in *. cbn [length]. lia.
Qed.

(** The numeral of [n]: a sign and the digits of its absolute value. *)
Lemma decimal_digits n :
  - INT_MAX <= n <= INT_MAX ->
  exists ds,
    decimal n = (if n <? 0 then ["-"%char] else []) ++ ds /\
    ds <> [] /\ Forall (fun c => isdigit c = true) ds /\
    digits_value 0 ds = Z.abs n /\ zlength ds <= 10.
Proof.
  intros Hn. unfold decimal. destruct n as [|p|p]; cbn [Z.to_int Z.ltb Z.compare].
  - exists ["0"%char]. repeat split; try discriminate.
    repeat constructor.
  - exists (chars (Pos.to_uint p)).
    assert (Hs : DecimalString.NilZero.string_of_int (Decimal.Pos (Pos.to_uint p))
                 = DecimalString.NilEmpty.string_of_uint (Pos.to_uint p)).
    { cbn. pose proof (DecimalPos.Unsigned.to_uint_nonnil p).
      destruct (Pos.to_uint p); [contradiction|reflexivity..]. }
    rewrite Hs. split; [reflexivity|].
    destruct (to_uint_head p) as (c & cs & Hcs & _).
    split; [rewrite Hcs; discriminate|]. split; [apply uint_chars_digits|].
    split; [|apply to_uint_length; lia].
    rewrite (proj2 (uint_chars_value _)), DecimalPos.Unsigned.of_to. reflexivity.
  - exists (chars (Pos.to_uint p)).
    assert (Hs : DecimalString.NilZero.string_of_int (Decimal.Neg (Pos.to_uint p))
                 = String "-" (DecimalString.NilEmpty.string_of_uint (Pos.to_uint p))).
    { cbn. pose proof (DecimalPos.Unsigned.to_uint_nonnil p).
      destruct (Pos.to_uint p); [contradiction|reflexivity..]. }
    rewrite Hs. split; [reflexivity|].
    destruct (to_uint_head p) as (c & cs & Hcs & _).
    split; [rewrite Hcs; discriminate|]. split; [apply uint_chars_digits|].
    split; [|apply to_uint_length; lia].
    rewrite (proj2 (uint_chars_value _)), DecimalPos.Unsigned.of_to. reflexivity.
Qed.

End DecimalFacts.

(** [token_next] reads the decimal numeral of an [int] back: behind any
    white space of the line, the numeral of [n], between [-INT_MAX] and
    [INT_MAX] and ended by white space or by the end of the file, is an
    integer token with the value [n] and the numeral as its text; the
    character that ends it is taken, unless it is a newline. *)
Theorem token_next_decimal (n : Z) (ws rest : list ascii) :
  - INT_MAX <= n <= INT_MAX ->
  Forall (fun c => isspace c = true /\ c <> newline) ws ->
  ends_token rest ->
  Lexer.token_next (ws ++ decimal n ++ rest)
  = Some (mk_lexeme T_INT (decimal n) n, after_token rest).
Proof.
  intros Hn Hws Hend.
  destruct (decimal_digits n Hn) as (ds & Hdec & Hne & Hds & Hval & Hlen).
  rewrite Hdec. unfold Lexer.token_next.
  destruct (Z.ltb_spec n 0) as [Hneg|Hpos].
  - cbn [app]. rewrite token_skip_spaces; [|exact Hws|reflexivity].
    cbn [token_scan]. unfold token_step.
    change (TOKEN_MAX - 1 <=? token_pos (mk_scan 1 0 T_NONE [] 0)) with false.
    cbv iota zeta. change (Ascii.eqb "-" "-") with true. cbv iota.
    cbn [ttype ttype_eqb negb]. unfold push_char.
    change (TOKEN_MAX - 1 <=? token_pos (mk_scan (- sign (mk_scan 1 0 T_NONE [] 0))
              (mag (mk_scan 1 0 T_NONE [] 0)) T_INT
              (token_last (mk_scan 1 0 T_NONE [] 0))
              (token_value (mk_scan 1 0 T_NONE [] 0)))) with false.
    cbv iota. cbn [sign mag ttype token_last token_value].
    rewrite token_scan_digits;
      [|exact Hds|left; reflexivity| |cbn; lia|cbn [mag]; rewrite Hval; lia
       |reflexivity|exact Hend].
    + cbn [sign mag token_last]. rewrite Hval. do 3 f_equal. lia.
    + unfold token_pos, TOKEN_MAX, zlength in *. cbn [token_last length app]. lia.
  - cbn [app].
    destruct ds as [|c cs]; [contradiction|].
    inversion Hds as [|? ? Hc _]; subst.
    cbn [app]. rewrite token_skip_spaces; [|exact Hws|].
    2:{ apply isdigit_code in Hc. destruct (isspace c) eqn:E; [|reflexivity].
        apply isspace_code in E. lia. }
    change (c :: cs ++ rest) with ((c :: cs) ++ rest).
    rewrite token_scan_digits;
      [|exact Hds|right; split; [reflexivity|discriminate]| |cbn; lia
       |cbn [mag]; rewrite Hval; lia|reflexivity|exact Hend].
    + cbn [sign mag token_last app]. rewrite Hval. do 3 f_equal. lia.
    + unfold token_pos, TOKEN_MAX, zlength in *. cbn [token_last length] in *. lia.
Qed.

Lemma token_next_decimal_witness :
  Lexer.token_next (list_ascii_of_string "  -42" ++ [newline])
  = Some (mk_lexeme T_INT (list_ascii_of_string "-42") (-42), [newline]).
Proof.
  apply (token_next_decimal (-42) [" "%char; " "%char] [newline]).
  - unfold INT_MAX. lia.
  - repeat constructor; discriminate.
  - reflexivity.
Defined.

Section ScanFacts.

Implicit Types (c : ascii) (cs ds rest : list ascii) (st : scan_t).

(** The rounds of the second loop, one by one. *)
#[local] Ltac unknown_done :=
  intros [= <- <- <-];
  (split; [assumption|]); (split; [discriminate|]); (split; [discriminate|]);
  (split; [left; reflexivity|discriminate]).

Lemma token_step_cases st c st' done unget :
  token_pos st <= TOKEN_MAX - 1 ->
  token_step st (Some c) = Some (st', done, unget) ->
  token_pos st' <= TOKEN_MAX - 1 /\
  (unget = true -> c = newline) /\
  (unget = true -> isspace c = true) /\
  (done = true ->
     ttype st' = T_UNKNOWN \/
     (token_last st' = token_last st /\ ttype st' = ttype st /\
      token_value st' = token_value st /\ token_pos st < TOKEN_MAX - 1)) /\
  (done = false -> token_pos st < TOKEN_MAX - 1).
Proof.
  intros Hpos. unfold token_step. cbv zeta.
  destruct (Z.leb_spec (TOKEN_MAX - 1) (token_pos st)) as [Hfull|Hfree].
  - (* the text is full *)
    cbn [ttype set_ttype ttype_eqb negb andb].
    destruct (Ascii.eqb c "-"); [unknown_done|].
    destruct (isdigit c); [unknown_done|].
    destruct (isspace c) eqn:Hsp.
    + intros [= <- <- <-]. split; [exact Hpos|].
      split; [intros H; apply Ascii.eqb_eq; exact H|]. split; [auto|].
      split; [left; reflexivity|discriminate].
    + destruct (Ascii.eqb c "*"); unknown_done.
  - assert (Hpush : forall st0, token_last st0 = token_last st ->
              push_char c st0
              = Some (mk_scan (sign st0) (mag st0) (ttype st0)
                        (token_last st ++ [c]) (token_value st0))).
    { intros st0 H0. unfold push_char, token_pos. rewrite H0.
      fold (token_pos st).
      destruct (Z.leb_spec (TOKEN_MAX - 1) (token_pos st)); [lia|reflexivity]. }
    assert (Hnext : zlength (token_last st ++ [c]) <= TOKEN_MAX - 1).
    { unfold token_pos, zlength in *. rewrite length_app. cbn [length]. lia. }
    destruct (Ascii.eqb c "-").
    { destruct (negb (ttype_eqb (ttype st) T_NONE)).
      - unknown_done.
      - rewrite Hpush by reflexivity. intros [= <- <- <-].
        unfold token_pos. cbn [token_last]. repeat split; try discriminate; auto. }
    destruct (isdigit c).
    { destruct (negb (ttype_eqb (ttype st) T_NONE) && negb (ttype_eqb (ttype st) T_INT)).
      - unknown_done.
      - cbv zeta. destruct (INT_MAX <? _); [discriminate|].
        rewrite Hpush by reflexivity. intros [= <- <- <-].
        unfold token_pos. cbn [token_last]. repeat split; try discriminate; auto. }
    destruct (isspace c) eqn:Hsp.
    { intros [= <- <- <-]. split; [exact Hpos|].
      split; [intros H; apply Ascii.eqb_eq; exact H|]. split; [auto|].
      split; [right; auto|discriminate]. }
    destruct (Ascii.eqb c "*").
    { destruct (negb (ttype_eqb (ttype st) T_NONE)).
      - unknown_done.
      - rewrite Hpush by reflexivity. intros [= <- <- <-].
        unfold token_pos. cbn [token_last set_ttype].
        repeat split; try discriminate; auto. }
    destruct (negb (ttype_eqb (ttype st) T_NONE) && negb (ttype_eqb (ttype st) T_STRING)).
    + unknown_done.
    + rewrite Hpush by reflexivity. intros [= <- <- <-].
      unfold token_pos. cbn [token_last]. repeat split; try discriminate; auto.
Qed.

Lemma token_scan_bounds : forall cs st l rest,
  token_pos st <= TOKEN_MAX - 1 ->
  token_scan cs st = Some (l, rest) ->
  zlength (lex_last l) <= TOKEN_MAX - 1 /\
  (zlength (lex_last l) = TOKEN_MAX - 1 -> lex_type l = T_UNKNOWN) /\
  exists pre, cs = pre ++ rest /\
              (forall c r, cs = c :: r -> isspace c = false -> pre <> []).
Proof.
  induction cs as [|c r IH]; intros st l rest Hpos H.
  - cbn [token_scan] in H. unfold token_step in H.
    destruct (Z.leb_spec (TOKEN_MAX - 1) (token_pos st)) as [Hfull|Hfree];
      injection H as <- <-; cbn [lexeme_of lex_last lex_type set_ttype ttype token_last].
    + split; [exact Hpos|]. split; [reflexivity|]. exists []. split; [reflexivity|].
      intros ? ? [=].
    + split; [exact Hpos|]. split; [unfold token_pos in Hfree; lia|].
      exists []. split; [reflexivity|]. intros ? ? [=].
  - cbn [token_scan] in H.
    destruct (token_step st (Some c)) as [[[st' done] unget]|] eqn:Hstep; [|discriminate].
    destruct (token_step_cases _ _ _ _ _ Hpos Hstep)
      as (Hpos' & Hnl & Hsp & Hdone & Hcont).
    destruct done.
    + injection H as <- <-. cbn [lexeme_of lex_last lex_type].
      split; [exact Hpos'|]. split.
      * intros Hlen. destruct (Hdone eq_refl) as [Hu|(Hl & _ & _ & Hlt)]; [exact Hu|].
        unfold token_pos in *. rewrite Hl in Hlen. lia.
      * destruct unget.
        -- exists []. split; [reflexivity|]. intros c0 r0 [= <- <-] Hns.
           rewrite (Hsp eq_refl) in Hns. discriminate.
        -- exists [c]. split; [reflexivity|]. intros; discriminate.
    + destruct (IH _ _ _ Hpos' H) as (Hlen & Hfull & pre & Hpre & _).
      split; [exact Hlen|]. split; [exact Hfull|].
      exists (c :: pre). split; [rewrite Hpre at 1; reflexivity|]. intros; discriminate.
Qed.

Lemma token_skip_spec : forall cs t rest,
  token_skip cs = (t, rest) ->
  exists pre, cs = pre ++ rest /\
    match t with
    | Some _ => cs <> [] -> pre <> []
    | None => exists c r, rest = c :: r /\ isspace c = false
    end.
Proof.
  induction cs as [|c r IH]; intros t rest H.
  - injection H as <- <-. exists []. split; [reflexivity|]. intros Hne. contradiction.
  - cbn in H. destruct (Ascii.eqb c newline).
    + injection H as <- <-. exists [c]. split; [reflexivity|]. discriminate.
    + destruct (isspace c) eqn:Hsp; cbn in H.
      * destruct (IH _ _ H) as (pre & Hpre & Ht). exists (c :: pre).
        split; [rewrite Hpre at 1; reflexivity|].
        destruct t; [discriminate|exact Ht].
      * injection H as <- <-. exists []. split; [reflexivity|]. eauto.
Qed.

(** An undefined scan has run into a number above [INT_MAX]. *)
Lemma token_scan_none : forall cs st ds0,
  token_pos st <= TOKEN_MAX - 1 ->
  Forall (fun c => isdigit c = true) ds0 ->
  mag st = digits_value 0 ds0 ->
  (ttype st <> T_INT -> ds0 = []) ->
  token_scan cs st = None ->
  exists a ds1 b,
    cs = a ++ ds1 ++ b /\ Forall (fun c => isdigit c = true) ds1 /\
    (a = [] \/ ds0 = []) /\ INT_MAX < digits_value 0 (ds0 ++ ds1).
Proof.
  induction cs as [|c r IH]; intros st ds0 Hpos Hds0 Hmag Hty H.
  - cbn in H. discriminate.
  - cbn [token_scan] in H.
    destruct (token_step st (Some c)) as [[[st' done] unget]|] eqn:Hstep.
    + destruct done; [discriminate|].
      destruct (token_step_cases _ _ _ _ _ Hpos Hstep) as (Hpos' & _ & _ & _ & Hcont).
      specialize (Hcont eq_refl).
      unfold token_step in Hstep.
      destruct (Z.leb_spec (TOKEN_MAX - 1) (token_pos st)) as [|_]; [lia|].
      cbv zeta in Hstep.
      assert (Hpush : forall st0, token_last st0 = token_last st ->
                push_char c st0
                = Some (mk_scan (sign st0) (mag st0) (ttype st0)
                          (token_last st ++ [c]) (token_value st0))).
      { intros st0 H0. unfold push_char, token_pos. rewrite H0.
        fold (token_pos st).
        destruct (Z.leb_spec (TOKEN_MAX - 1) (token_pos st)); [lia|reflexivity]. }
      assert (Hother : forall st1,
                 mag st1 = mag st ->
                 token_scan r st1 = None -> token_pos st1 <= TOKEN_MAX - 1 ->
                 (ttype st = T_NONE \/ ttype st <> T_INT) ->
                 exists a ds1 b,
                   c :: r = a ++ ds1 ++ b /\ Forall (fun c => isdigit c = true) ds1 /\
                   (a = [] \/ ds0 = []) /\ INT_MAX < digits_value 0 (ds0 ++ ds1)).
      { intros st1 Hm1 Hnone Hp1 Hst.
        assert (Hnil : ds0 = []).
        { apply Hty. destruct Hst as [->|Hne]; [discriminate|exact Hne]. }
        destruct (IH st1 [] Hp1 ltac:(constructor)) as (a & ds1 & b & Hr & Hd1 & _ & Hov).
        - rewrite Hm1, Hmag, Hnil. reflexivity.
        - intros _. reflexivity.
        - exact Hnone.
        - exists (c :: a), ds1, b. rewrite Hr. split; [reflexivity|].
          split; [exact Hd1|]. split; [right; exact Hnil|]. rewrite Hnil. exact Hov. }
      destruct (Ascii.eqb c "-").
      { destruct (ttype st) eqn:Ety; cbn [ttype_eqb negb] in Hstep;
          try discriminate.
        rewrite Hpush in Hstep by reflexivity. injection Hstep as <- _.
        match type of H with
        | token_scan _ ?s = _ => exact (Hother s eq_refl H Hpos' (or_introl eq_refl))
        end. }
      destruct (isdigit c) eqn:Hdig.
      { destruct (negb (ttype_eqb (ttype st) T_NONE) && negb (ttype_eqb (ttype st) T_INT));
          [discriminate|].
        destruct (INT_MAX <? _); [discriminate|].
        rewrite Hpush in Hstep by reflexivity. injection Hstep as <- _.
        destruct (IH _ (ds0 ++ [c]) Hpos' ltac:(apply Forall_app; split; [exact Hds0|repeat constructor; exact Hdig]))
          as (a & ds1 & b & Hr & Hd1 & Ha & Hov).
        - cbn [mag sign]. unfold digits_value. rewrite fold_left_app. cbn [fold_left].
          fold (digits_value 0 ds0). rewrite <- Hmag. reflexivity.
        - intros Hne. exfalso. apply Hne. reflexivity.
        - exact H.
        - destruct Ha as [->|Ha]; [|destruct ds0; discriminate].
          exists [], (c :: ds1), b. rewrite Hr. split; [reflexivity|].
          split; [constructor; assumption|]. split; [left; reflexivity|].
          rewrite <- app_assoc in Hov. exact Hov. }
      destruct (isspace c); [discriminate|].
      destruct (Ascii.eqb c "*").
      { destruct (ttype st) eqn:Ety; cbn [ttype_eqb negb] in Hstep;
          try discriminate.
        rewrite Hpush in Hstep by reflexivity. injection Hstep as <- _.
        match type of H with
        | token_scan _ ?s = _ => exact (Hother s eq_refl H Hpos' (or_introl eq_refl))
        end. }
      destruct (ttype st) eqn:Ety; cbn [ttype_eqb negb andb] in Hstep;
        try discriminate;
        rewrite Hpush in Hstep by reflexivity; injection Hstep as <- _.
      * match type of H with
        | token_scan _ ?s = _ =>
            refine (Hother s eq_refl H Hpos' (or_intror _)); discriminate
        end.
      * match type of H with
        | token_scan _ ?s = _ => exact (Hother s eq_refl H Hpos' (or_introl eq_refl))
        end.
    + (* the round itself is undefined *)
      clear H IH. unfold token_step in Hstep.
      destruct (Z.leb_spec (TOKEN_MAX - 1) (token_pos st)) as [Hfull|Hfree].
      { cbn [ttype set_ttype ttype_eqb negb andb] in Hstep.
        destruct (Ascii.eqb c "-"); [discriminate|].
        destruct (isdigit c); [discriminate|].
        destruct (isspace c); [discriminate|].
        destruct (Ascii.eqb c "*"); discriminate. }
      assert (Hpush : forall st0, token_last st0 = token_last st ->
                push_char c st0 <> None).
      { intros st0 H0. unfold push_char, token_pos. rewrite H0.
        fold (token_pos st).
        destruct (Z.leb_spec (TOKEN_MAX - 1) (token_pos st)); [lia|discriminate]. }
      cbv zeta in Hstep.
      destruct (Ascii.eqb c "-").
      { destruct (negb (ttype_eqb (ttype st) T_NONE)); [discriminate|].
        destruct (push_char c _) eqn:E; [discriminate|].
        exfalso. revert E. apply Hpush. reflexivity. }
      destruct (isdigit c) eqn:Hdig.
      { destruct (negb (ttype_eqb (ttype st) T_NONE) && negb (ttype_eqb (ttype st) T_INT));
          [discriminate|].
        destruct (Z.ltb_spec INT_MAX (10 * mag st + (char_code c - 48))) as [Hov|].
        - exists [], [c], r. split; [reflexivity|].
          split; [repeat constructor; exact Hdig|]. split; [left; reflexivity|].
          unfold digits_value. rewrite fold_left_app. cbn [fold_left].
          fold (digits_value 0 ds0). rewrite <- Hmag. exact Hov.
        - destruct (push_char c _) eqn:E; [discriminate|].
          exfalso. revert E. apply Hpush. reflexivity. }
      destruct (isspace c); [discriminate|].
      destruct (Ascii.eqb c "*").
      { destruct (negb (ttype_eqb (ttype st) T_NONE)); [discriminate|].
        destruct (push_char c _) eqn:E; [discriminate|].
        exfalso. revert E. apply Hpush. reflexivity. }
      destruct (negb (ttype_eqb (ttype st) T_NONE) && negb (ttype_eqb (ttype st) T_STRING));
        [discriminate|].
      destruct (push_char c _) eqn:E; [discriminate|].
      exfalso. revert E. apply Hpush. reflexivity.
Qed.

End ScanFacts.

Section NextFacts.

Lemma token_next_some (cs : list ascii) l rest :
  Lexer.token_next cs = Some (l, rest) ->
  zlength (lex_last l) <= TOKEN_MAX - 1 /\
  (zlength (lex_last l) = TOKEN_MAX - 1 -> lex_type l = T_UNKNOWN) /\
  exists pre, cs = pre ++ rest /\ (cs <> [] -> pre <> []).
Proof.
  unfold Lexer.token_next.
  destruct (token_skip cs) as [[t|] rest0] eqn:Hskip;
    destruct (token_skip_spec _ _ _ Hskip) as (pre0 & Hcs & Ht).
  - intros [= <- <-]. cbn [lex_last lex_type].
    split; [unfold TOKEN_MAX, zlength; cbn; lia|].
    split; [unfold TOKEN_MAX, zlength; cbn; lia|].
    exists pre0. split; [exact Hcs|exact Ht].
  - destruct Ht as (c & r & -> & Hns).
    assert (Hstart : token_pos (mk_scan 1 0 T_NONE [] 0) <= TOKEN_MAX - 1)
      by (unfold TOKEN_MAX, token_pos, zlength; cbn; lia).
    intros H.
    destruct (token_scan_bounds _ _ _ _ Hstart H)
      as (Hlen & Hfull & pre & Hpre & Hprog).
    split; [exact Hlen|]. split; [exact Hfull|].
    exists (pre0 ++ pre). split; [rewrite Hcs, Hpre, app_assoc; reflexivity|].
    intros _ Happ. apply app_eq_nil in Happ as [_ Hnil].
    exact (Hprog c r eq_refl Hns Hnil).
Qed.

Lemma token_next_none (cs : list ascii) :
  Lexer.token_next cs = None ->
  exists a ds b, cs = a ++ ds ++ b /\
                 Forall (fun c => isdigit c = true) ds /\
                 INT_MAX < digits_value 0 ds.
Proof.
  unfold Lexer.token_next.
  destruct (token_skip cs) as [[t|] rest0] eqn:Hskip;
    destruct (token_skip_spec _ _ _ Hskip) as (pre0 & Hcs & Ht); [discriminate|].
  destruct Ht as (c & r & -> & Hns).
  assert (Hstart : token_pos (mk_scan 1 0 T_NONE [] 0) <= TOKEN_MAX - 1)
    by (unfold TOKEN_MAX, token_pos, zlength; cbn; lia).
  intros H.
  destruct (token_scan_none _ _ [] Hstart (List.Forall_nil _) eq_refl
              (fun _ => eq_refl) H)
    as (a & ds & b & Hr & Hds & _ & Hov).
  exists (pre0 ++ a), ds, b. split; [rewrite Hcs, Hr, app_assoc; reflexivity|].
  split; [exact Hds|exact Hov].
Qed.

End NextFacts.

(** [token_next] never writes behind [token_last]: the text it leaves has
    [TOKEN_MAX - 1] characters at most, and a text of that length comes
    with the type unknown.  It takes a character at least from a file that
    has one, and what it leaves is the rest of the file.  The one input it
    is not defined on is a run of digits whose value exceeds [INT_MAX]. *)
Theorem token_next_bounds (cs : list ascii) :
  (forall l rest, Lexer.token_next cs = Some (l, rest) ->
     zlength (lex_last l) <= TOKEN_MAX - 1 /\
     (zlength (lex_last l) = TOKEN_MAX - 1 -> lex_type l = T_UNKNOWN) /\
     exists pre, cs = pre ++ rest /\ (cs <> [] -> pre <> [])) /\
  (Lexer.token_next cs = None ->
     exists a ds b, cs = a ++ ds ++ b /\
                    Forall (fun c => isdigit c = true) ds /\
                    INT_MAX < digits_value 0 ds).
Proof.
  split; [intros l rest; apply token_next_some|apply token_next_none].
Qed.

Section LineFacts.

Implicit Types (c : ascii) (cs ds rest pre : list ascii) (st : scan_t).

Lemma token_find_eol_app : forall pre rest,
  Forall (fun c => c <> newline) pre ->
  Lexer.token_find_eol (pre ++ rest) = Lexer.token_find_eol rest.
Proof.
  induction pre as [|c pre IH]; intros rest Hpre; [reflexivity|].
  inversion Hpre as [|? ? Hc Hr]; subst. cbn.
  destruct (Ascii.eqb_spec c newline); [contradiction|]. apply IH, Hr.
Qed.

Lemma token_find_eol_none : forall cs,
  Forall (fun c => c <> newline) cs -> Lexer.token_find_eol cs = [].
Proof.
  intros cs H. rewrite <- (app_nil_r cs), token_find_eol_app by exact H. reflexivity.
Qed.

(** A newline ends the token and stays in the file. *)
Lemma token_step_newline st st' done unget :
  token_step st (Some newline) = Some (st', done, unget) ->
  done = true /\ unget = true /\ ttype st' = (if TOKEN_MAX - 1 <=? token_pos st
                                              then T_UNKNOWN else ttype st).
Proof.
  unfold token_step. cbv zeta.
  change (Ascii.eqb newline "-") with false. change (isdigit newline) with false.
  change (isspace newline) with true. cbv iota.
  intros [= <- <- <-]. destruct (TOKEN_MAX - 1 <=? token_pos st); auto.
Qed.

(** The type of the token under construction: never one of the two that
    the first loop returns. *)
Lemma token_step_type st (oc : option ascii) st' done unget :
  token_step st oc = Some (st', done, unget) ->
  ttype st <> T_EOL /\ ttype st <> T_EOF ->
  (ttype st' <> T_EOL /\ ttype st' <> T_EOF) /\
  (done = true -> ttype st' <> T_NONE \/ ttype st = T_NONE).
Proof.
  unfold token_step. cbv zeta. intros H Hty.
  assert (Hty' : ttype (if TOKEN_MAX - 1 <=? token_pos st
                        then set_ttype T_UNKNOWN st else st) <> T_EOL /\
                 ttype (if TOKEN_MAX - 1 <=? token_pos st
                        then set_ttype T_UNKNOWN st else st) <> T_EOF).
  { destruct (_ <=? _); [split; discriminate|exact Hty]. }
  assert (Hn : ttype (if TOKEN_MAX - 1 <=? token_pos st
                      then set_ttype T_UNKNOWN st else st) <> T_NONE
               \/ ttype st = T_NONE).
  { destruct (_ <=? _); [left; discriminate|].
    destruct (ttype st); (right; reflexivity) || (left; discriminate). }
  set (st0 := if _ <=? _ then _ else _) in *.
  destruct oc as [c|]; [|injection H as <- <- <-; auto].
  unfold push_char in H.
  repeat match type of H with
         | (if ?b then _ else _) = _ => destruct b
         | match (if ?b then _ else _) with _ => _ end = _ => destruct b
         end;
    try discriminate; injection H as <- <- <-;
    cbn [ttype set_ttype]; (split; [split; discriminate || apply Hty'|]);
    intros _; try (left; discriminate); exact Hn.
Qed.

Lemma token_scan_line : forall cs st l rest,
  token_scan cs st = Some (l, rest) ->
  ttype st <> T_EOL /\ ttype st <> T_EOF ->
  (lex_type l <> T_EOL /\ lex_type l <> T_EOF) /\
  exists pre, cs = pre ++ rest /\ Forall (fun c => c <> newline) pre.
Proof.
  induction cs as [|c r IH]; intros st l rest H Hty.
  - cbn [token_scan] in H.
    destruct (token_step st None) as [[[st' done] unget]|] eqn:Hstep; [|discriminate].
    injection H as <- <-.
    destruct (token_step_type _ _ _ _ _ Hstep Hty) as [Hty' _].
    split; [exact Hty'|]. exists []. split; [reflexivity|constructor].
  - cbn [token_scan] in H.
    destruct (token_step st (Some c)) as [[[st' done] unget]|] eqn:Hstep; [|discriminate].
    destruct (token_step_type _ _ _ _ _ Hstep Hty) as [Hty' _].
    assert (Hc : unget = false -> c <> newline).
    { intros Hu ->. apply token_step_newline in Hstep as (_ & Hu' & _). congruence. }
    destruct done.
    + injection H as <- <-. split; [exact Hty'|].
      destruct unget.
      * exists []. split; [reflexivity|constructor].
      * exists [c]. split; [reflexivity|]. constructor; [auto|constructor].
    + assert (Hu : unget = false).
      { unfold token_step in Hstep. cbv zeta in Hstep. unfold push_char in Hstep.
        repeat match type of Hstep with
               | (if ?b then _ else _) = _ => destruct b
               | match (if ?b then _ else _) with _ => _ end = _ => destruct b
               end; try discriminate; injection Hstep as _ _ <-; reflexivity. }
      destruct (IH _ _ _ H Hty') as (Hl & pre & Hpre & Hnl).
      split; [exact Hl|]. exists (c :: pre). split; [rewrite Hpre at 1; reflexivity|].
      constructor; [auto|exact Hnl].
Qed.

Lemma token_skip_line : forall cs t rest,
  token_skip cs = (t, rest) ->
  match t with
  | Some ty =>
      (ty = T_EOL /\ Lexer.token_find_eol cs = rest) \/
      (ty = T_EOF /\ rest = [] /\ Lexer.token_find_eol cs = [])
  | None => exists pre, cs = pre ++ rest /\ Forall (fun c => c <> newline) pre
  end.
Proof.
  induction cs as [|c r IH]; intros t rest H.
  - injection H as <- <-. right. auto.
  - cbn in H. cbn [Lexer.token_find_eol].
    destruct (Ascii.eqb_spec c newline) as [->|Hc].
    + injection H as <- <-. left. auto.
    + destruct (isspace c); cbn in H.
      * specialize (IH _ _ H). destruct t as [ty|]; [exact IH|].
        destruct IH as (pre & Hpre & Hnl). exists (c :: pre).
        split; [rewrite Hpre at 1; reflexivity|constructor; assumption].
      * injection H as <- <-. exists []. split; [reflexivity|constructor].
Qed.

(** What [token_next] takes from the file, line-wise. *)
Lemma token_next_line cs l rest :
  Lexer.token_next cs = Some (l, rest) ->
  (lex_type l = T_EOL /\ Lexer.token_find_eol cs = rest) \/
  (lex_type l = T_EOF /\ rest = [] /\ Lexer.token_find_eol cs = []) \/
  (lex_type l <> T_EOL /\ lex_type l <> T_EOF /\
   Lexer.token_find_eol cs = Lexer.token_find_eol rest).
Proof.
  unfold Lexer.token_next.
  destruct (token_skip cs) as [[t|] rest0] eqn:Hskip;
    pose proof (token_skip_line _ _ _ Hskip) as Hline; cbv iota beta in Hline.
  - intros [= <- <-]. cbn [lex_type].
    destruct Hline as [[-> Hl]|[-> [-> Hl]]]; auto.
  - intros H. destruct Hline as (pre0 & -> & Hnl0).
    destruct (token_scan_line _ _ _ _ H ltac:(split; discriminate))
      as ((Hl1 & Hl2) & pre & -> & Hnl).
    right. right. split; [exact Hl1|]. split; [exact Hl2|].
    rewrite !token_find_eol_app by assumption. reflexivity.
Qed.

Lemma token_next_shorter cs l rest :
  Lexer.token_next cs = Some (l, rest) ->
  (length rest <= length cs)%nat /\ (cs <> [] -> (length rest < length cs)%nat).
Proof.
  intros H. destruct (token_next_some cs _ _ H) as (_ & _ & pre & -> & Hp).
  rewrite length_app. split; [lia|]. intros Hne. specialize (Hp Hne).
  destruct pre; [contradiction|cbn; lia].
Qed.

Lemma token_next_nil : Lexer.token_next [] = Some (mk_lexeme T_EOF [] 0, []).
Proof. reflexivity. Qed.

Lemma tokens_from_S fuel cs :
  tokens_from (S fuel) cs
  = match Lexer.token_next cs with
    | None => None
    | Some (l, rest) =>
        match lex_type l with
        | T_EOF => Some []
        | _ => match tokens_from fuel rest with
               | Some ts => Some (to_token l :: ts)
               | None => None
               end
        end
    end.
Proof. reflexivity. Qed.

(** Fuel above the length of the file is never used up. *)
Lemma tokens_from_enough : forall fuel cs,
  (length cs < fuel)%nat ->
  tokens_from (S fuel) cs = tokens_from fuel cs.
Proof.
  induction fuel as [|fuel IH]; intros cs Hlen; [lia|].
  rewrite (tokens_from_S (S fuel)), (tokens_from_S fuel).
  destruct (Lexer.token_next cs) as [[l rest]|] eqn:Hnext; [|reflexivity].
  destruct (token_next_shorter _ _ _ Hnext) as [_ Hlt].
  destruct cs as [|c r].
  - rewrite token_next_nil in Hnext. injection Hnext as <- <-. reflexivity.
  - specialize (Hlt ltac:(discriminate)). cbn [length] in *.
    rewrite IH by lia. reflexivity.
Qed.

Lemma tokens_from_tokenize : forall fuel cs,
  (length cs < fuel)%nat -> tokens_from fuel cs = tokenize cs.
Proof.
  unfold tokenize. intros fuel cs H.
  induction H as [|fuel Hle IH]; [reflexivity|].
  rewrite tokens_from_enough; [exact IH|lia].
Qed.

Lemma tokenize_step cs :
  tokenize cs
  = match Lexer.token_next cs with
    | None => None
    | Some (l, rest) =>
        match lex_type l with
        | T_EOF => Some []
        | _ => match tokenize rest with
               | Some ts => Some (to_token l :: ts)
               | None => None
               end
        end
    end.
Proof.
  unfold tokenize at 1. rewrite tokens_from_S.
  destruct (Lexer.token_next cs) as [[l rest]|] eqn:Hnext; [|reflexivity].
  destruct (token_next_shorter _ _ _ Hnext) as [Hle Hlt].
  destruct cs as [|c r].
  - rewrite token_next_nil in Hnext. injection Hnext as <- <-. reflexivity.
  - specialize (Hlt ltac:(discriminate)). cbn [length] in *.
    rewrite tokens_from_tokenize by lia. reflexivity.
Qed.

End LineFacts.

End Chars.

(** The token stream of the checker is the one the characters give: when
    the file tokenizes to [ts], [token_next] on the stream returns the
    token that [Lexer.token_next] reads from the file, and leaves the
    tokens of the rest of the file; and the characters that
    [Lexer.token_find_eol] leaves tokenize to what [token_find_eol] leaves
    of the stream, the tokens behind the next end of line. *)
Theorem token_stream_faithful (cs : list ascii) (ts : list token_t) :
  Lexer.tokenize cs = Some ts ->
  (exists l rest ts',
     Lexer.token_next cs = Some (l, rest) /\ Lexer.tokenize rest = Some ts' /\
     forall s, tokens s = ts ->
       token_next s = Ok (Lexer.to_token l) (set_tokens ts' s)) /\
  Lexer.tokenize (Lexer.token_find_eol cs) = Some (skip_line ts).
Proof.
  remember (length cs) as n eqn:Hn. revert cs ts Hn.
  induction n as [n IH] using lt_wf_ind. intros cs ts Hn Htok.
  rewrite tokenize_step in Htok.
  destruct (Lexer.token_next cs) as [[l rest]|] eqn:Hnext; [|discriminate].
  destruct (token_next_shorter _ _ _ Hnext) as [_ Hlt].
  assert (Hnil : Lexer.tokenize [] = Some []) by reflexivity.
  assert (Hstream : forall t ts' s,
             tokens s = t :: ts' -> token_next s = Ok t (set_tokens ts' s)).
  { intros t ts' s Hs. unfold token_next. rewrite Hs. reflexivity. }
  destruct (token_next_line _ _ _ Hnext)
    as [[Hty Heol]|[(Hty & -> & Heol)|(Hty1 & Hty2 & Heol)]].
  - (* an end of line *)
    rewrite Hty in Htok.
    destruct (Lexer.tokenize rest) as [ts'|] eqn:Hrest; [|discriminate].
    injection Htok as <-. unfold Lexer.to_token. rewrite Hty. split.
    + exists l, rest, ts'. split; [reflexivity|]. split; [exact Hrest|].
      unfold Lexer.to_token. rewrite Hty. intros s Hs. apply Hstream, Hs.
    + rewrite Heol. exact Hrest.
  - (* the end of the file *)
    rewrite Hty in Htok. injection Htok as <-. split.
    + exists l, [], []. split; [reflexivity|]. split; [exact Hnil|].
      unfold Lexer.to_token. rewrite Hty. intros s Hs.
      unfold token_next. rewrite Hs. destruct s; cbn in *; subst; reflexivity.
    + rewrite Heol. exact Hnil.
  - (* a token of the line *)
    assert (Hcont : match Lexer.tokenize rest with
                    | Some ts0 => Some (Lexer.to_token l :: ts0)
                    | None => None
                    end = Some ts).
    { destruct (Lexer.lex_type l); try exact Htok. contradiction. }
    destruct (Lexer.tokenize rest) as [ts'|] eqn:Hrest; [|discriminate].
    injection Hcont as <-. split.
    + exists l, rest, ts'. split; [reflexivity|]. split; [exact Hrest|].
      intros s Hs. apply Hstream, Hs.
    + rewrite Heol.
      assert (Hne : cs <> []).
      { intros ->. rewrite token_next_nil in Hnext. injection Hnext as <- _.
        apply Hty2. reflexivity. }
      destruct (IH (length rest) ltac:(specialize (Hlt Hne); lia) rest ts' eq_refl Hrest)
        as [_ Hskip].
      rewrite Hskip. f_equal. unfold Lexer.to_token.
      destruct (Lexer.lex_type l); try reflexivity. contradiction.
Qed.

(* the file [7 a 1 -2 0] and a second line *)
Lemma token_stream_faithful_witness :
  Lexer.tokenize
    (Lexer.token_find_eol
       (list_ascii_of_string "7 a 1 -2 0" ++ [Lexer.newline]
        ++ list_ascii_of_string "8 d 7"))
  = Some (skip_line [TOK_INT 7; TOK_STRING "a"; TOK_INT 1; TOK_INT (-2);
                     TOK_INT 0; TOK_EOL; TOK_INT 8; TOK_STRING "d"; TOK_INT 7]).
Proof.
  apply (token_stream_faithful
           (list_ascii_of_string "7 a 1 -2 0" ++ [Lexer.newline]
            ++ list_ascii_of_string "8 d 7")).
  vm_compute. reflexivity.
Defined.

Section HeapFacts.

Implicit Types (p : propagate_t).

Lemma queue_at_get p i x : arr_get (priority_queue p) i = Some x -> queue_at p i = x.
Proof. unfold queue_at. intros ->. reflexivity. Qed.

Lemma swap_queue_run i j p :
  0 <= i < priority_count p -> 0 <= j < priority_count p ->
  priority_count p <= zlength (priority_queue p) ->
  exists p',
    swap_queue i j p = Ok tt p' /\ same_queue p p' /\
    forall k, queue_at p' k =
              if k =? j then queue_at p i
              else if k =? i then queue_at p j else queue_at p k.
Proof.
  intros Hi Hj Hlen.
  destruct (swap_queue_ok i j p Hi Hj Hlen) as (p' & Hrun & Hsame).
  exists p'. split; [exact Hrun|]. split; [exact Hsame|].
  unfold swap_queue in Hrun.
  destruct (arr_get_in_range (priority_queue p) i) as [qi Hqi]; [lia|].
  destruct (arr_get_in_range (priority_queue p) j) as [qj Hqj]; [lia|].
  destruct (arr_set_in_range (priority_queue p) i qj) as [q1 Hq1]; [lia|].
  assert (Hl1 : zlength q1 = zlength (priority_queue p)).
  { unfold zlength. rewrite (arr_set_length _ _ _ _ Hq1). reflexivity. }
  destruct (arr_set_in_range q1 j qi) as [q2 Hq2]; [lia|].
  unfold bind, get, defined, modify, ret in Hrun.
  rewrite Hqi in Hrun. cbn beta iota in Hrun. rewrite Hqj in Hrun.
  cbn beta iota in Hrun. rewrite Hq1 in Hrun. cbn beta iota in Hrun.
  rewrite Hq2 in Hrun. injection Hrun as <-.
  intros k. unfold queue_at. cbn [priority_queue set_priority_queue].
  rewrite Hqi, Hqj.
  destruct (Z.eqb_spec k j) as [->|Hkj].
  - rewrite (arr_get_set_eq _ _ _ _ Hq2). reflexivity.
  - rewrite (arr_get_set_ne _ _ _ _ _ Hq2) by congruence.
    destruct (Z.eqb_spec k i) as [->|Hki].
    + rewrite (arr_get_set_eq _ _ _ _ Hq1). reflexivity.
    + rewrite (arr_get_set_ne _ _ _ _ _ Hq1) by congruence. reflexivity.
Qed.

#[local] Ltac parent_facts :=
  repeat match goal with
         | |- context [(?i - 1) / 2] =>
             lazymatch goal with
             | _ : (i - 1) = 2 * ((i - 1) / 2) + (i - 1) mod 2 |- _ => fail
             | _ => pose proof (Z.div_mod (i - 1) 2 ltac:(lia));
                    pose proof (Z.mod_pos_bound (i - 1) 2 ltac:(lia))
             end
         | _ : context [(?i - 1) / 2] |- _ =>
             lazymatch goal with
             | _ : (i - 1) = 2 * ((i - 1) / 2) + (i - 1) mod 2 |- _ => fail
             | _ => pose proof (Z.div_mod (i - 1) 2 ltac:(lia));
                    pose proof (Z.mod_pos_bound (i - 1) 2 ltac:(lia))
             end
         end.

(** [sift_up] restores the heap order. *)
Lemma sift_up_heap fuel : forall idx p,
  0 <= idx < Z.of_nat fuel ->
  idx < priority_count p ->
  priority_count p <= zlength (priority_queue p) ->
  heap_but_up idx p ->
  exists p', sift_up fuel idx p = Ok tt p' /\ same_queue p p' /\ heap_ok p'.
Proof.
  induction fuel as [|fuel IH]; intros idx p Hfuel Hidx Hlen [Hup1 Hup2]; [lia|].
  cbn [sift_up]. destruct (Z.ltb_spec 0 idx) as [Hpos|Hnpos].
  2:{ exists p. split; [reflexivity|]. split; [apply same_queue_refl|].
      intros i Hi. apply Hup1; lia. }
  assert (Hpar : 0 <= (idx - 1) / 2 < idx).
  { split; [apply Z.div_pos; lia|]. apply Z.div_lt_upper_bound; lia. }
  destruct (arr_get_in_range (priority_queue p) idx) as [qi Hqi]; [lia|].
  destruct (arr_get_in_range (priority_queue p) ((idx - 1) / 2)) as [qp Hqp]; [lia|].
  unfold bind at 1, get at 1. unfold bind at 1, defined at 1. rewrite Hqi. unfold ret at 1.
  unfold bind at 1, defined at 1. rewrite Hqp. unfold ret at 1.
  pose proof (queue_at_get _ _ _ Hqi) as Ei. pose proof (queue_at_get _ _ _ Hqp) as Ep.
  destruct (Z.ltb_spec qi qp) as [Hlt|Hge].
  2:{ exists p. split; [reflexivity|]. split; [apply same_queue_refl|].
      intros i Hi. destruct (Z.eq_dec i idx) as [->|Hne]; [lia|]. apply Hup1; lia. }
  destruct (swap_queue_run idx ((idx - 1) / 2) p) as (p1 & Hs & Hsame & Hat); [lia|lia|lia|].
  unfold bind at 1. rewrite Hs.
  pose proof Hsame as (H1 & H2 & H3 & H4).
  destruct (IH ((idx - 1) / 2) p1) as (p2 & Hs2 & Hsame2 & Hheap); [lia|lia|lia| |].
  - (* the order but for the parent *)
    split.
    + intros i Hi Hne. rewrite H2 in Hi. rewrite !Hat.
      destruct (Z.eqb_spec i ((idx - 1) / 2)) as [|_]; [contradiction|].
      destruct (Z.eqb_spec ((i - 1) / 2) ((idx - 1) / 2)) as [Hsib|Hnsib].
      * (* a child of the parent *)
        destruct (Z.eqb_spec i idx) as [->|Hni]; [lia|].
        specialize (Hup1 i Hi Hni). rewrite Hsib in Hup1. lia.
      * destruct (Z.eqb_spec ((i - 1) / 2) idx) as [Hch|Hnch].
        -- (* a child of [idx] *)
           destruct (Z.eqb_spec i idx) as [->|Hni]; [parent_facts; lia|].
           specialize (Hup2 i Hi Hch Hpos). lia.
        -- destruct (Z.eqb_spec i idx) as [->|Hni]; [contradiction|].
           apply Hup1; assumption.
    + intros i Hi Hpi Hpp. rewrite H2 in Hi. rewrite !Hat.
      assert (Hgp : (((idx - 1) / 2) - 1) / 2 < (idx - 1) / 2).
      { apply Z.div_lt_upper_bound; lia. }
      destruct (Z.eqb_spec ((((idx - 1) / 2) - 1) / 2) ((idx - 1) / 2)); [lia|].
      destruct (Z.eqb_spec ((((idx - 1) / 2) - 1) / 2) idx); [lia|].
      destruct (Z.eqb_spec i ((idx - 1) / 2)) as [Hi'|_];
        [rewrite Hi' in Hpi; lia|].
      pose proof (Hup1 ((idx - 1) / 2) ltac:(lia) ltac:(lia)) as Hgpar.
      destruct (Z.eqb_spec i idx) as [->|Hni]; [lia|].
      specialize (Hup1 i Hi Hni). rewrite Hpi in Hup1. lia.
  - exists p2. split; [exact Hs2|]. split; [|exact Hheap].
    eapply same_queue_trans; [|exact Hsame2]. exact Hsame.
Qed.

(** [sift_down] restores the heap order. *)
Lemma sift_down_heap fuel : forall idx p,
  0 <= idx ->
  (0 < fuel)%nat ->
  priority_count p - idx < Z.of_nat fuel ->
  priority_count p <= zlength (priority_queue p) ->
  heap_but_down idx p ->
  exists p', sift_down fuel idx p = Ok tt p' /\ same_queue p p' /\ heap_ok p'.
Proof.
  induction fuel as [|fuel IH]; intros idx p Hidx Hpos Hfuel Hlen [Hd1 Hd2]; [lia|].
  assert (Hchild : forall i, 0 < i -> (i - 1) / 2 = idx ->
                             i = 2 * idx + 1 \/ i = 2 * idx + 1 + 1).
  { intros i Hi Hp. parent_facts. lia. }
  assert (Htail : forall min,
             (min = idx \/
              ((min = 2 * idx + 1 \/ min = 2 * idx + 1 + 1) /\
               min < priority_count p /\ queue_at p min < queue_at p idx)) ->
             (forall i, 0 < i < priority_count p -> (i - 1) / 2 = idx ->
                        queue_at p min <= queue_at p i) ->
             idx < priority_count p ->
             exists p', (if min =? idx then ret tt
                         else swap_queue min idx ;;; sift_down fuel min) p
                        = Ok tt p' /\ same_queue p p' /\ heap_ok p').
  { intros min Hmin Hleast Hi. destruct (Z.eqb_spec min idx) as [->|Hne].
    - exists p. split; [reflexivity|]. split; [apply same_queue_refl|].
      intros i Hr. destruct (Z.eq_dec ((i - 1) / 2) idx) as [He|Hn].
      + rewrite He. apply Hleast; assumption.
      + apply Hd1; assumption.
    - destruct Hmin as [|(Hmin & Hmr & Hmlt)]; [contradiction|].
      assert (Hmp : (min - 1) / 2 = idx).
      { destruct Hmin as [->| ->].
        - replace (2 * idx + 1 - 1) with (idx * 2) by lia. apply Z.div_mul. lia.
        - replace (2 * idx + 1 + 1 - 1) with (1 + idx * 2) by lia.
          rewrite Z.div_add by lia. reflexivity. }
      destruct (swap_queue_run min idx p) as (p1 & Hs & Hsame & Hat); [lia|lia|lia|].
      unfold bind. rewrite Hs. pose proof Hsame as (H1 & H2 & H3 & H4).
      destruct (IH min p1) as (p2 & Hs2 & Hsame2 & Hheap); [lia|lia|lia|lia| |].
      + split.
        * intros i Hr Hpn. rewrite H2 in Hr. rewrite !Hat.
          destruct (Z.eqb_spec ((i - 1) / 2) idx) as [Hpi|Hnpi].
          -- (* a child of [idx] *)
             destruct (Z.eqb_spec i idx) as [->|_]; [parent_facts; lia|].
             destruct (Z.eqb_spec i min) as [->|_]; [lia|].
             apply Hleast; assumption.
          -- destruct (Z.eqb_spec ((i - 1) / 2) min) as [|_]; [contradiction|].
             destruct (Z.eqb_spec i idx) as [->|Hni].
             ++ (* [idx] itself, under its parent *)
                assert (0 < idx) by lia.
                apply (Hd2 min); [lia|exact Hmp|assumption].
             ++ destruct (Z.eqb_spec i min) as [->|_]; [contradiction|].
                apply Hd1; assumption.
        * intros i Hr Hpi Hmpos. rewrite H2 in Hr. rewrite !Hat.
          rewrite Hmp. rewrite Z.eqb_refl.
          destruct (Z.eqb_spec i idx) as [->|_]; [parent_facts; lia|].
          destruct (Z.eqb_spec i min) as [->|_]; [parent_facts; lia|].
          rewrite <- Hpi. apply Hd1; [assumption|lia].
      + exists p2. split; [exact Hs2|]. split; [|exact Hheap].
        eapply same_queue_trans; eassumption. }
  cbn [sift_down]. unfold bind at 1, get at 1.
  destruct (Z.ltb_spec (2 * idx + 1) (priority_count p)) as [Hleft|Hnleft].
  2:{ exists p. split; [reflexivity|]. split; [apply same_queue_refl|].
      intros i Hr. destruct (Z.eq_dec ((i - 1) / 2) idx) as [He|Hn];
        [|apply Hd1; assumption].
      destruct (Hchild i ltac:(lia) He); lia. }
  destruct (arr_get_in_range (priority_queue p) idx) as [qi Hqi]; [lia|].
  destruct (arr_get_in_range (priority_queue p) (2 * idx + 1)) as [ql Hql]; [lia|].
  unfold bind at 1, defined at 1. rewrite Hqi. unfold ret at 1.
  unfold bind at 1, defined at 1. rewrite Hql. unfold ret at 1.
  pose proof (queue_at_get _ _ _ Hqi) as Ei. pose proof (queue_at_get _ _ _ Hql) as El.
  set (min1 := if ql <? qi then 2 * idx + 1 else idx).
  assert (Hmin1 : idx < min1 < priority_count p \/ min1 = idx).
  { unfold min1. destruct (ql <? qi); lia. }
  destruct (arr_get_in_range (priority_queue p) min1) as [qm Hqm]; [lia|].
  unfold bind at 1, defined at 1. rewrite Hqm. unfold ret at 1.
  pose proof (queue_at_get _ _ _ Hqm) as Em.
  assert (Hqm_le : qm <= qi /\ qm <= ql).
  { unfold min1 in Hqm. destruct (Z.ltb_spec ql qi).
    - rewrite Hql in Hqm. injection Hqm as <-. lia.
    - rewrite Hqi in Hqm. injection Hqm as <-. lia. }
  unfold bind at 1.
  destruct (Z.ltb_spec (2 * idx + 1 + 1) (priority_count p)) as [Hright|Hnright].
  + destruct (arr_get_in_range (priority_queue p) (2 * idx + 1 + 1))
      as [qr Hqr]; [lia|].
    unfold bind at 1, defined at 1. rewrite Hqr. unfold ret at 1. unfold ret at 1.
    pose proof (queue_at_get _ _ _ Hqr) as Er.
    apply Htail; [| |lia].
    * destruct (Z.ltb_spec qr qm).
      -- right. split; [right; reflexivity|]. split; [lia|]. lia.
      -- unfold min1. destruct (Z.ltb_spec ql qi); [|left; reflexivity].
         right. split; [left; reflexivity|]. split; lia.
    * intros i Hr Hp.
      assert (Hmin : queue_at p (if qr <? qm then 2 * idx + 1 + 1 else min1)
                     <= ql /\
                     queue_at p (if qr <? qm then 2 * idx + 1 + 1 else min1)
                     <= qr).
      { destruct (Z.ltb_spec qr qm); lia. }
      destruct (Hchild i ltac:(lia) Hp) as [-> | ->]; lia.
  + unfold ret at 1. apply Htail; [| |lia].
    * unfold min1. destruct (Z.ltb_spec ql qi); [|left; reflexivity].
      right. split; [left; reflexivity|]. split; lia.
    * intros i Hr Hp. destruct (Hchild i ltac:(lia) Hp) as [-> | ->]; lia.
Qed.

End HeapFacts.

Section HeapUse.

Implicit Types (p : propagate_t).

(** In heap order the first entry is the least. *)
Lemma heap_root_least p :
  heap_ok p -> forall i, 0 <= i < priority_count p -> queue_at p 0 <= queue_at p i.
Proof.
  intros Hheap i [Hi0 Hi]. revert Hi. pattern i.
  apply Zlt_0_ind; [|exact Hi0]. clear i Hi0.
  intros i IH Hi0 Hi.
  destruct (Z.eq_dec i 0) as [->|Hne]; [lia|].
  assert (Hpar : 0 <= (i - 1) / 2 < i).
  { split; [apply Z.div_pos; lia|]. apply Z.div_lt_upper_bound; lia. }
  specialize (IH ((i - 1) / 2) Hpar ltac:(lia)).
  specialize (Hheap i ltac:(lia)). lia.
Qed.

Lemma queued_at p x :
  priority_count p <= zlength (priority_queue p) ->
  In x (queued p) <-> exists i, 0 <= i < priority_count p /\
                                arr_get (priority_queue p) i = Some x.
Proof.
  intros Hlen. unfold queued. rewrite <- list_elem_of_In, list_elem_of_lookup. split.
  - intros [k Hk]. pose proof (lookup_lt_Some _ _ _ Hk) as Hlt.
    rewrite length_take in Hlt. rewrite lookup_take_lt in Hk by lia.
    exists (Z.of_nat k). split; [lia|]. unfold arr_get.
    destruct (Z.ltb_spec (Z.of_nat k) 0); [lia|]. rewrite Nat2Z.id. exact Hk.
  - intros (i & Hi & Hget). exists (Z.to_nat i).
    rewrite lookup_take_lt by lia. apply arr_get_lookup, Hget.
Qed.

End HeapUse.

Section HeapQueue.

Variable s : checker.
Variable f : fanouts_t.
Implicit Types (p : propagate_t).

Lemma priority_next_run p :
  heap_ok p ->
  0 < priority_count p <= zlength (priority_queue p) ->
  exists var p',
    priority_next p = Ok var p' /\ heap_ok p' /\
    Permutation (queued p) (var :: queued p') /\
    Forall (fun x => var <= x) (queued p) /\
    priority_count p' = priority_count p - 1 /\
    node_event_count p' = node_event_count p.
Proof.
  intros Hheap Hcnt. unfold priority_next. unfold bind at 1, get at 1.
  destruct (Z.eqb_spec (priority_count p) 0) as [|_]; [lia|].
  destruct (arr_get_in_range (priority_queue p) 0) as [var Hvar]; [lia|].
  destruct (arr_get_in_range (priority_queue p) (priority_count p - 1))
    as [qlast Hlast]; [lia|].
  destruct (arr_set_in_range (priority_queue p) 0 qlast) as [q' Hq']; [lia|].
  unfold bind at 1, defined at 1. rewrite Hvar. unfold ret at 1.
  unfold bind at 1, defined at 1. rewrite Hlast. unfold ret at 1.
  unfold bind at 1, defined at 1. rewrite Hq'. unfold ret at 1.
  unfold bind at 1, modify at 1. unfold bind at 1, modify at 1.
  set (p1 := set_priority_count (priority_count p - 1) (set_priority_queue q' p)).
  assert (Hlen1 : zlength (priority_queue p1) = zlength (priority_queue p)).
  { unfold p1, zlength. simpl. rewrite (arr_set_length _ _ _ _ Hq'). reflexivity. }
  assert (Hat1 : forall k, k <> 0 -> queue_at p1 k = queue_at p k).
  { intros k Hk. unfold queue_at, p1. simpl.
    rewrite (arr_get_set_ne _ _ _ _ _ Hq') by congruence. reflexivity. }
  destruct (sift_down_heap (S (Z.to_nat (priority_count p - 1))) 0 p1)
    as (p2 & Hs2 & Hsame & Hheap2); [lia|lia| | | |].
  { unfold p1. simpl. lia. }
  { rewrite Hlen1. unfold p1. simpl. lia. }
  { split; [|intros; lia].
    intros i Hi Hpar. change (priority_count p1) with (priority_count p - 1) in Hi.
    assert (0 <= (i - 1) / 2) by (apply Z.div_pos; lia).
    rewrite !Hat1 by lia. apply Hheap. lia. }
  unfold bind at 1. rewrite Hs2. unfold bind, modify, ret.
  exists var, (set_event_count (event_count p2 + 1) p2).
  split; [reflexivity|].
  destruct Hsame as (H1 & H2 & H3 & H4).
  split; [exact Hheap2|]. split; [|split; [|split]].
  - change (queued (set_event_count (event_count p2 + 1) p2)) with (queued p2).
    rewrite H4. unfold queued, p1. simpl.
    unfold arr_set in Hq'. simpl in Hq'.
    destruct (Z.of_nat (length (priority_queue p)) <=? 0); [discriminate|].
    injection Hq' as <-.
    replace (Z.to_nat (priority_count p))
      with (S (Z.to_nat (priority_count p - 1))) by lia.
    apply take_pop; [exact (arr_get_lookup _ _ _ Hvar)|].
    exact (arr_get_lookup _ _ _ Hlast).
  - apply List.Forall_forall. intros x Hx.
    apply queued_at in Hx; [|lia]. destruct Hx as (i & Hi & Hget).
    pose proof (heap_root_least p Hheap i Hi) as Hle.
    rewrite (queue_at_get _ _ _ Hvar), (queue_at_get _ _ _ Hget) in Hle. exact Hle.
  - simpl. rewrite H2. reflexivity.
  - simpl. exact H1.
Qed.

Local Abbreviation nvar := (input_variable_count (opts s)).

Lemma priority_add_run var p :
  prop_ok s f p -> heap_ok p ->
  node_ok s f (zlength (node_event_count p)) var = true ->
  exists p', priority_add s var p = Ok tt p' /\ heap_ok p'.
Proof.
  intros (Hq & Hcnt & Hnd & Hall) Hheap Hnode.
  destruct (node_ok_spec _ _ _ _ Hnode) as (Hvar & _).
  set (i := var - nvar - 1).
  destruct (arr_get_in_range (node_event_count p) i) as [c Hc]; [unfold i; lia|].
  unfold priority_add, var_to_index. fold i.
  unfold bind at 1. rewrite (plusplus_max2_ok _ _ _ Hc).
  destruct (Z.eqb_spec c 0) as [->|Hc0].
  - change (0 <? 2) with true. cbn iota.
    set (p1 := set_node_event_count (<[Z.to_nat i:=0 + 1]> (node_event_count p)) p).
    assert (Hnotin : ~ elem_of var (queued p)).
    { intros Hin. rewrite Forall_forall in Hall.
      destruct (Hall var Hin) as (_ & c & Hc' & Hpos). fold i in Hc'.
      rewrite Hc in Hc'. injection Hc' as <-. lia. }
    assert (Hroom : priority_count p < zlength (node_event_count p)).
    { assert (Hb : zlength (var :: queued p) <= zlength (node_event_count p)).
      { apply (ids_bounded nvar); [lia| |].
        - apply NoDup_cons. auto.
        - constructor; [lia|]. eapply Forall_impl; [exact Hall|].
          intros id [Hr _]. apply node_ok_spec in Hr. tauto. }
      unfold zlength in Hb. cbn [length] in Hb. unfold queued in Hb.
      rewrite length_take in Hb. unfold zlength in *. lia. }
    unfold bind at 1, get at 1.
    change (priority_queue p1) with (priority_queue p).
    change (priority_count p1) with (priority_count p).
    destruct (arr_set_in_range (priority_queue p) (priority_count p) var)
      as [q' Hq']; [lia|].
    unfold bind at 1, defined at 1. rewrite Hq'. unfold ret at 1.
    unfold bind at 1, modify at 1. unfold bind at 1, modify at 1.
    set (p2 := set_priority_count (priority_count p + 1)
                 (set_priority_queue q' p1)).
    assert (Hat2 : forall k, k <> priority_count p -> queue_at p2 k = queue_at p k).
    { intros k Hk. unfold queue_at, p2. simpl.
      rewrite (arr_get_set_ne _ _ _ _ _ Hq') by congruence. reflexivity. }
    destruct (sift_up_heap (Z.to_nat (priority_count p + 1)) (priority_count p) p2)
      as (p3 & Hs3 & _ & Hheap3).
    { lia. }
    { unfold p2. simpl. lia. }
    { unfold p2, zlength. simpl. rewrite (arr_set_length _ _ _ _ Hq').
      unfold zlength in *. lia. }
    { unfold heap_but_up. change (priority_count p2) with (priority_count p + 1). split.
      - intros k Hk Hne.
        assert (0 <= (k - 1) / 2 < k).
        { split; [apply Z.div_pos; lia|]. apply Z.div_lt_upper_bound; lia. }
        rewrite !Hat2 by lia. apply Hheap. lia.
      - intros k Hk Hpar Hpos.
        assert ((k - 1) / 2 < k) by (apply Z.div_lt_upper_bound; lia).
        pose proof (Z.div_mod (k - 1) 2 ltac:(lia)).
        pose proof (Z.mod_pos_bound (k - 1) 2 ltac:(lia)). lia. }
    exists p3. split; [exact Hs3|exact Hheap3].
  - exists (if c <? 2
            then set_node_event_count (<[Z.to_nat i:=c + 1]> (node_event_count p)) p
            else p).
    split; [reflexivity|]. destruct (c <? 2); exact Hheap.
Qed.

End HeapQueue.

(** The queue is a heap: [priority_next] on a queue in heap order returns
    its least entry, takes it out of the queue and leaves the queue in
    heap order. *)
Theorem priority_next_least (p : propagate_t) :
  heap_ok p ->
  0 < priority_count p <= zlength (priority_queue p) ->
  exists var p',
    priority_next p = Ok var p' /\ heap_ok p' /\
    Permutation (queued p) (var :: queued p') /\
    Forall (fun x => var <= x) (queued p) /\
    priority_count p' = priority_count p - 1.
Proof.
  intros Hheap Hcnt.
  destruct (priority_next_run p Hheap Hcnt) as (var & p' & H1 & H2 & H3 & H4 & H5 & _).
  exists var, p'. auto.
Qed.

Lemma priority_next_least_witness :
  let p := mk_propagate [1; 1; 1; 0] [5; 8; 6; 0] 3 0 0 in
  exists var p',
    priority_next p = Ok var p' /\ heap_ok p' /\
    Permutation (queued p) (var :: queued p') /\
    Forall (fun x => var <= x) (queued p) /\
    priority_count p' = priority_count p - 1.
Proof.
  apply (priority_next_least (mk_propagate [1; 1; 1; 0] [5; 8; 6; 0] 3 0 0)).
  - intros i Hi. cbn in Hi.
    assert (i = 1 \/ i = 2) as [-> | ->] by lia; vm_compute; discriminate.
  - vm_compute. split; [reflexivity|discriminate].
Defined.

(** [priority_add] keeps the heap order of the queue, whether the node
    enters the queue or is counted once more. *)
Theorem priority_add_keeps_heap (s : checker) (f : fanouts_t) (var : Z)
    (p : propagate_t) :
  prop_ok s f p -> heap_ok p ->
  node_ok s f (zlength (node_event_count p)) var = true ->
  exists p', priority_add s var p = Ok tt p' /\ heap_ok p' /\ prop_ok s f p'.
Proof.
  intros Hok Hheap Hnode.
  destruct (priority_add_run s f var p Hok Hheap Hnode) as (p' & Hrun & Hheap').
  destruct (priority_add_ok s f var p Hok Hnode) as (p'' & Hrun' & Hok' & _).
  rewrite Hrun in Hrun'. injection Hrun' as <-.
  exists p'. auto.
Qed.

Lemma priority_add_keeps_heap_witness :
  exists p', priority_add xor_pog 3 (new_propagator xor_pog) = Ok tt p' /\
             heap_ok p' /\ prop_ok xor_pog xor_fanouts p'.
Proof.
  apply (priority_add_keeps_heap xor_pog xor_fanouts 3 (new_propagator xor_pog)).
  - apply new_propagator_ok.
  - intros i Hi. vm_compute in Hi. destruct Hi as [Hi1 Hi2].
    destruct i; discriminate.
  - vm_compute. reflexivity.
Defined.

Section FanoutFacts.

Implicit Types (f : fanouts_t) (l : list (list Z)).

Lemma fanout_at_set_eq l k x a :
  arr_set l k x = Some a -> fanout_at a k = x.
Proof. intros H. unfold fanout_at. rewrite (arr_get_set_eq _ _ _ _ H). reflexivity. Qed.

Lemma fanout_at_set_ne l k x a j :
  arr_set l k x = Some a -> j <> k -> fanout_at a j = fanout_at l j.
Proof.
  intros H Hne. unfold fanout_at. rewrite (arr_get_set_ne _ _ _ _ _ H) by congruence.
  reflexivity.
Qed.

Lemma push_fanouts_spec id : forall cs f f',
  push_fanouts id cs f = Some f' ->
  zlength (neg_fanouts f') = zlength (neg_fanouts f) /\
  zlength (pos_fanouts f') = zlength (pos_fanouts f) /\
  (forall k x, 0 <= k ->
     (In x (fanout_at (pos_fanouts f') k) <->
      In x (fanout_at (pos_fanouts f) k) \/ (x = id /\ In (k + 1) cs))) /\
  (forall k x, 0 <= k ->
     (In x (fanout_at (neg_fanouts f') k) <->
      In x (fanout_at (neg_fanouts f) k) \/ (x = id /\ In (- (k + 1)) cs))).
Proof.
  induction cs as [|clit r IH]; intros f f' H.
  - injection H as <-. cbn. repeat split; tauto.
  - cbn [push_fanouts] in H. cbv zeta in H.
    pose proof (IABS_abs clit) as Habs.
    destruct (Z.ltb_spec clit 0) as [Hneg|Hpos].
    + destruct (arr_get (neg_fanouts f) (IABS clit - 1)) as [l|] eqn:Hl; [|discriminate].
      destruct (arr_set (neg_fanouts f) (IABS clit - 1) (l ++ [id])) as [a|] eqn:Ha;
        [|discriminate].
      destruct (IH _ _ H) as (L1 & L2 & P & N). cbn in L1, L2, P, N.
      split; [unfold zlength in *; rewrite L1, (arr_set_length _ _ _ _ Ha); reflexivity|].
      split; [exact L2|]. split.
      * intros k x Hk. rewrite (P k x Hk). cbn [In].
        intuition (try congruence; try lia).
      * intros k x Hk. rewrite (N k x Hk). cbn [In].
        destruct (Z.eq_dec k (IABS clit - 1)) as [->|Hne].
        -- rewrite (fanout_at_set_eq _ _ _ _ Ha). unfold fanout_at. rewrite Hl.
           rewrite in_app_iff. cbn [In].
           assert (clit = - (IABS clit - 1 + 1)) by lia.
           intuition (try congruence; try lia).
        -- rewrite (fanout_at_set_ne _ _ _ _ _ Ha Hne).
           intuition (try congruence; try lia).
    + destruct (arr_get (pos_fanouts f) (IABS clit - 1)) as [l|] eqn:Hl; [|discriminate].
      destruct (arr_set (pos_fanouts f) (IABS clit - 1) (l ++ [id])) as [a|] eqn:Ha;
        [|discriminate].
      destruct (IH _ _ H) as (L1 & L2 & P & N). cbn in L1, L2, P, N.
      split; [exact L1|].
      split; [unfold zlength in *; rewrite L2, (arr_set_length _ _ _ _ Ha); reflexivity|].
      split.
      * intros k x Hk. rewrite (P k x Hk). cbn [In].
        destruct (Z.eq_dec k (IABS clit - 1)) as [->|Hne].
        -- rewrite (fanout_at_set_eq _ _ _ _ Ha). unfold fanout_at. rewrite Hl.
           rewrite in_app_iff. cbn [In].
           assert (clit = IABS clit - 1 + 1) by lia.
           intuition (try congruence; try lia).
        -- rewrite (fanout_at_set_ne _ _ _ _ _ Ha Hne).
           intuition (try congruence; try lia).
      * intros k x Hk. rewrite (N k x Hk). cbn [In].
        intuition (try congruence; try lia).
Qed.

(** The node [node] passes its children to the fan-outs. *)
Let feeds (nodes : list node_t) (lit id : Z) : Prop :=
  exists node, In node nodes /\ node_type node <> NODE_NONE /\
               node_id node = id /\ In lit (children node).

Lemma build_fanouts_spec : forall nodes f f',
  build_fanouts nodes f = Some f' ->
  zlength (neg_fanouts f') = zlength (neg_fanouts f) /\
  zlength (pos_fanouts f') = zlength (pos_fanouts f) /\
  (forall k x, 0 <= k ->
     (In x (fanout_at (pos_fanouts f') k) <->
      In x (fanout_at (pos_fanouts f) k) \/ feeds nodes (k + 1) x)) /\
  (forall k x, 0 <= k ->
     (In x (fanout_at (neg_fanouts f') k) <->
      In x (fanout_at (neg_fanouts f) k) \/ feeds nodes (- (k + 1)) x)).
Proof.
  induction nodes as [|node r IH]; intros f f' H.
  - injection H as <-. unfold feeds. cbn.
    repeat split; try tauto; intros [|(? & [] & _)]; tauto.
  - cbn [build_fanouts] in H.
    assert (Hfeeds : forall lit id,
              feeds (node :: r) lit id <->
              (node_type node <> NODE_NONE /\ node_id node = id /\
               In lit (children node)) \/ feeds r lit id).
    { intros lit id. unfold feeds. cbn [In]. split.
      - intros (n & [<-|Hin] & H1 & H2 & H3); [left; auto|right; eauto].
      - intros [(H1 & H2 & H3)|(n & Hin & H1 & H2 & H3)]; eauto 10. }
    destruct (node_type_eqb (node_type node) NODE_NONE) eqn:Hty.
    + destruct (IH _ _ H) as (L1 & L2 & P & N).
      assert (node_type node = NODE_NONE) by (destruct (node_type node); auto; discriminate).
      split; [exact L1|]. split; [exact L2|].
      split; intros k x Hk; [rewrite (P k x Hk)|rewrite (N k x Hk)];
        rewrite Hfeeds; tauto.
    + destruct (push_fanouts (node_id node) (children node) f) as [f1|] eqn:Hpush;
        [|discriminate].
      destruct (push_fanouts_spec _ _ _ _ Hpush) as (M1 & M2 & P1 & N1).
      destruct (IH _ _ H) as (L1 & L2 & P & N).
      assert (node_type node <> NODE_NONE) by (intros E; rewrite E in Hty; discriminate).
      split; [congruence|]. split; [congruence|].
      split; intros k x Hk;
        [rewrite (P k x Hk), (P1 k x Hk)|rewrite (N k x Hk), (N1 k x Hk)];
        rewrite Hfeeds; intuition auto.
Qed.

Lemma ilist_deduplicate_in (ils : list Z) x :
  In x (ilist_deduplicate ils) <-> In x ils.
Proof.
  destruct ils as [|y r]; [tauto|]. cbn [ilist_deduplicate In]. split.
  - intros [?|H]; [tauto|]. right. exact (ilist_dedup_from_in _ _ _ H).
  - intros [?|H]; [tauto|].
    destruct (ilist_dedup_from_keeps r y x H); auto.
Qed.

Lemma dedup_first_in n l k x :
  In x (fanout_at (dedup_first n l) k) <-> In x (fanout_at l k).
Proof.
  unfold fanout_at, dedup_first, arr_get.
  destruct (k <? 0); [tauto|].
  destruct (Nat.lt_ge_cases (Z.to_nat k) (length (take n l))) as [Hlt|Hge].
  - rewrite lookup_app_l by (rewrite length_map; exact Hlt).
    rewrite list_lookup_fmap.
    rewrite lookup_take_lt; [|rewrite length_take in Hlt; lia].
    destruct (l !! Z.to_nat k); cbn; [apply ilist_deduplicate_in|tauto].
  - rewrite lookup_app_r by (rewrite length_map; exact Hge).
    rewrite length_map, lookup_drop.
    rewrite length_take in *.
    destruct (Nat.le_ge_cases n (length l)).
    + replace (n `min` length l)%nat with n in * by lia.
      replace (n + (Z.to_nat k - n))%nat with (Z.to_nat k) by lia. tauto.
    + replace (n `min` length l)%nat with (length l) in * by lia.
      rewrite !lookup_ge_None_2 by lia. tauto.
Qed.

Lemma dedup_first_length n l : length (dedup_first n l) = length l.
Proof.
  unfold dedup_first. rewrite length_app, length_map, <- length_app, take_drop.
  reflexivity.
Qed.

Lemma fanout_at_replicate n k : fanout_at (replicate n []) k = [].
Proof.
  unfold fanout_at, arr_get. destruct (k <? 0); [reflexivity|].
  destruct (replicate n [] !! Z.to_nat k) eqn:E; [|reflexivity].
  apply lookup_replicate in E. tauto.
Qed.

Lemma build_deletion_structures_post s f :
  build_deletion_structures s = Some f ->
  zlength (neg_fanouts f) = Z.max 0 (input_variable_count (opts s)) /\
  zlength (pos_fanouts f) = Z.max 0 (declared_root s) /\
  forall var id, 0 < var ->
    (In id (fanout_at (pos_fanouts f) (var - 1)) <-> counted_parent s var id) /\
    (In id (fanout_at (neg_fanouts f) (var - 1)) <-> counted_parent s (- var) id).
Proof.
  unfold build_deletion_structures. cbv zeta.
  destruct (Z.ltb_spec (node_asize s) (node_count s)) as [|Hsize]; [discriminate|].
  destruct (build_fanouts _ _) as [f1|] eqn:Hb; [|discriminate].
  destruct (build_fanouts_spec _ _ _ Hb) as (L1 & L2 & P & N).
  cbn in L1, L2, P, N.
  assert (Hfeeds : forall lit id,
            (exists node, In node (take (Z.to_nat (node_count s)) (node_list s)) /\
               node_type node <> NODE_NONE /\ node_id node = id /\
               In lit (children node)) <-> counted_parent s lit id).
  { intros lit id. unfold counted_parent. split.
    - intros (node & Hin & H1 & H2 & H3).
      apply list_elem_of_In, list_elem_of_lookup in Hin. destruct Hin as [i Hi].
      apply lookup_take_Some in Hi. destruct Hi as [Hi Hlt].
      exists (Z.of_nat i), node. split; [lia|]. split; [|auto].
      unfold arr_get. destruct (Z.ltb_spec (Z.of_nat i) 0); [lia|].
      rewrite Nat2Z.id. exact Hi.
    - intros (idx & node & Hidx & Hget & H1 & H2 & H3).
      exists node. split; [|auto].
      apply list_elem_of_In, list_elem_of_lookup. exists (Z.to_nat idx).
      apply lookup_take_Some. split; [exact (arr_get_lookup _ _ _ Hget)|lia]. }
  assert (Hres : forall var id, 0 < var ->
            (In id (fanout_at (pos_fanouts f1) (var - 1)) <-> counted_parent s var id) /\
            (In id (fanout_at (neg_fanouts f1) (var - 1)) <-> counted_parent s (- var) id)).
  { intros var id Hvar. split.
    - rewrite (P (var - 1) id) by lia. rewrite fanout_at_replicate.
      replace (var - 1 + 1) with var by lia. rewrite <- Hfeeds. cbn [In]. tauto.
    - rewrite (N (var - 1) id) by lia. rewrite fanout_at_replicate.
      replace (var - 1 + 1) with var by lia. rewrite <- Hfeeds. cbn [In]. tauto. }
  assert (K1 : zlength (neg_fanouts f1) = Z.max 0 (input_variable_count (opts s))).
  { rewrite L1. unfold zlength. rewrite length_replicate. lia. }
  assert (K2 : zlength (pos_fanouts f1) = Z.max 0 (declared_root s)).
  { rewrite L2. unfold zlength. rewrite length_replicate. lia. }
  destruct (repeated_literal_ok (opts s)).
  - destruct (zlength (pos_fanouts f1) <? input_variable_count (opts s));
      [discriminate|].
    intros H. injection H as <-. cbn [neg_fanouts pos_fanouts].
    unfold zlength in *. rewrite !dedup_first_length.
    split; [exact K1|]. split; [exact K2|].
    intros var id Hvar. rewrite !dedup_first_in. apply Hres, Hvar.
  - intros H. injection H as <-. auto.
Qed.

End FanoutFacts.

(** The fan-outs that [build_deletion_structures] builds are the inverse
    of the children lists of the first [node_count] entries of
    [node_list]: the node [id] is in the positive (negative) fan-out of
    the variable [var] exactly when such an entry with a type has the id
    [id] and lists [var] ([-var]) as a child.  A node stored at an index
    from [node_count] on is in no fan-out. *)
Theorem fanouts_invert_children (s : checker) (f : fanouts_t) :
  build_deletion_structures s = Some f ->
  zlength (neg_fanouts f) = Z.max 0 (input_variable_count (opts s)) /\
  zlength (pos_fanouts f) = Z.max 0 (declared_root s) /\
  forall var id, 0 < var ->
    (In id (fanout_at (pos_fanouts f) (var - 1)) <-> counted_parent s var id) /\
    (In id (fanout_at (neg_fanouts f) (var - 1)) <-> counted_parent s (- var) id).
Proof. exact (build_deletion_structures_post s f). Qed.

Lemma fanouts_invert_children_witness :
  zlength (neg_fanouts xor_fanouts) = Z.max 0 (input_variable_count (opts xor_pog)) /\
  zlength (pos_fanouts xor_fanouts) = Z.max 0 (declared_root xor_pog) /\
  forall var id, 0 < var ->
    (In id (fanout_at (pos_fanouts xor_fanouts) (var - 1)) <->
     counted_parent xor_pog var id) /\
    (In id (fanout_at (neg_fanouts xor_fanouts) (var - 1)) <->
     counted_parent xor_pog (- var) id).
Proof.
  apply (fanouts_invert_children xor_pog xor_fanouts).
  vm_compute. reflexivity.
Defined.

Section NodeNew.

Implicit Types (s : checker) (n : node_t).

Lemma arr_get_fresh nvar from count idx n :
  arr_get (fresh_nodes nvar from count) idx = Some n ->
  n = mk_node NODE_NONE (Z.of_nat from + idx + nvar + 1) 0 [] [] None.
Proof.
  intros H. pose proof (arr_get_some_range _ _ _ H) as R.
  apply arr_get_lookup in H. unfold fresh_nodes in H.
  rewrite list_lookup_fmap in H.
  destruct (seq from count !! Z.to_nat idx) as [i|] eqn:E; [|discriminate].
  apply lookup_seq in E. destruct E as [-> _]. cbn in H. injection H as <-.
  f_equal. lia.
Qed.

Lemma arr_get_app_cases {A} (l1 l2 : list A) i x :
  arr_get (l1 ++ l2) i = Some x ->
  arr_get l1 i = Some x \/
  (arr_get l1 i = None /\ zlength l1 <= i /\ arr_get l2 (i - zlength l1) = Some x).
Proof.
  unfold arr_get, zlength. destruct (Z.ltb_spec i 0) as [|Hi]; [discriminate|].
  intros Hx. apply lookup_app_Some in Hx.
  destruct Hx as [H1|[Hge H1]]; [left; exact H1|].
  right. split; [apply lookup_ge_None_2; exact Hge|]. split; [lia|].
  destruct (Z.ltb_spec (i - Z.of_nat (length l1)) 0); [lia|].
  replace (Z.to_nat (i - Z.of_nat (length l1)))
    with (Z.to_nat i - length l1)%nat by lia.
  exact H1.
Qed.

Lemma node_new_run type id cid s :
  nodes_ok s -> input_variable_count (opts s) < id ->
  let idx := id - input_variable_count (opts s) - 1 in
  exists s1 n,
    nodes_ok s1 /\ opts s1 = opts s /\ node_count s1 = node_count s /\
    clause_store s1 = clause_store s /\
    arr_get (node_list s1) idx = Some n /\
    (forall j m, arr_get (node_list s) j = Some m -> arr_get (node_list s1) j = Some m) /\
    (forall j m, arr_get (node_list s) j = None ->
                 arr_get (node_list s1) j = Some m -> node_type m = NODE_NONE) /\
    (idx < node_asize s -> s1 = s) /\
    node_new type id cid s =
      if negb (node_type_eqb (node_type n) NODE_NONE)
      then Err (InvalidOperationId id) s1
      else Ok idx
             (set_node_count (node_count s + 1)
                (set_node_list
                   (<[Z.to_nat idx :=
                        set_ring_value None (set_node_cid cid (set_node_type type n))]>
                      (node_list s1)) s1)).
Proof.
  intros [Hids Hlim] Hid idx.
  set (nvar := input_variable_count (opts s)) in *.
  assert (Htail : forall s1 n,
            opts s1 = opts s -> node_count s1 = node_count s ->
            arr_get (node_list s1) idx = Some n ->
            (s0 <- get ;;
             i <- defined (node_find id s0) ;;
             node <- read_node i ;;
             if negb (node_type_eqb (node_type node) NODE_NONE)
             then err_printf (InvalidOperationId id)
             else
               update_node i (fun n => set_ring_value None
                                         (set_node_cid cid (set_node_type type n))) ;;;
               modify (fun s => set_node_count (node_count s + 1) s) ;;;
               ret i) s1
            = if negb (node_type_eqb (node_type n) NODE_NONE)
              then Err (InvalidOperationId id) s1
              else Ok idx
                     (set_node_count (node_count s + 1)
                        (set_node_list
                           (<[Z.to_nat idx :=
                                set_ring_value None
                                  (set_node_cid cid (set_node_type type n))]>
                              (node_list s1)) s1))).
  { intros s1 n Ho Hc Hn.
    unfold bind at 1, get at 1.
    assert (Hf : node_find id s1 = Some idx).
    { unfold idx, nvar. rewrite <- Ho. apply (node_find_some s1 id n).
      rewrite Ho. exact Hn. }
    rewrite Hf. unfold bind at 1, defined at 1, ret at 1.
    unfold bind at 1, read_node at 1, bind at 1, get at 1, defined at 1.
    rewrite Hn. unfold ret at 1.
    destruct (negb (node_type_eqb (node_type n) NODE_NONE)); [reflexivity|].
    destruct (update_node_ok idx
                (fun n => set_ring_value None (set_node_cid cid (set_node_type type n)))
                s1 n Hn) as (nl & Hnl & Hup).
    unfold bind at 1. rewrite Hup. unfold bind, modify, ret.
    unfold arr_set in Hnl. destruct (_ || _); [discriminate|]. injection Hnl as <-.
    cbn. rewrite Hc. reflexivity. }
  unfold node_new. unfold bind at 1, get at 1. fold nvar.
  destruct (Z.leb_spec id nvar) as [|_]; [lia|].
  destruct (Z.ltb_spec (node_asize s) (id - nvar)) as [Hgrow|Hin].
  - set (nasize1 := if id - nvar <? MIN_SIZE then MIN_SIZE else id - nvar).
    set (nasize := if nasize1 <? grow (node_asize s) then grow (node_asize s)
                   else nasize1).
    assert (Hna : id - nvar <= nasize).
    { unfold nasize, nasize1.
      destruct (Z.ltb_spec (id - nvar) MIN_SIZE);
        match goal with
        | |- context [?a <? ?b] => destruct (Z.ltb_spec a b)
        end; lia. }
    set (fresh := fresh_nodes nvar (length (node_list s))
                              (Z.to_nat (nasize - node_asize s))).
    set (s1 := set_variable_limit (nasize + nvar)
                 (set_node_list (node_list s ++ fresh) s)).
    unfold bind at 1. unfold bind at 1, modify at 1. unfold modify at 1.
    fold s1.
    assert (Hlen : zlength (node_list s1) = nasize).
    { unfold s1, zlength, fresh, fresh_nodes. cbn.
      rewrite length_app, length_map, length_seq. unfold node_asize, zlength in *. lia. }
    destruct (arr_get_in_range (node_list s1) idx) as [n Hn];
      [unfold idx; lia|].
    assert (Hfresh : forall j m, arr_get (node_list s) j = None ->
                       arr_get (node_list s1) j = Some m ->
                       m = mk_node NODE_NONE (j + nvar + 1) 0 [] [] None).
    { intros j m Hnone Hm. cbn in Hm.
      destruct (arr_get_app_cases _ _ _ _ Hm) as [E|(_ & Hge & E)]; [congruence|].
      apply arr_get_fresh in E. rewrite E. f_equal. unfold zlength. lia. }
    assert (Hold : forall j m, arr_get (node_list s) j = Some m ->
                     arr_get (node_list s1) j = Some m).
    { intros j m Hm. cbn. pose proof (arr_get_some_range _ _ _ Hm).
      unfold arr_get in *. destruct (j <? 0); [discriminate|].
      apply lookup_app_l_Some. exact Hm. }
    exists s1, n.
    split.
    { split; [|unfold node_asize; rewrite Hlen; reflexivity].
      intros j m Hm. change (opts s1) with (opts s). fold nvar.
      destruct (arr_get (node_list s) j) as [m0|] eqn:E.
      - rewrite (Hold _ _ E) in Hm. injection Hm as <-. apply Hids. exact E.
      - rewrite (Hfresh _ _ E Hm). reflexivity. }
    split; [reflexivity|]. split; [reflexivity|]. split; [reflexivity|].
    split; [exact Hn|]. split; [exact Hold|].
    split; [intros j m E Hm; rewrite (Hfresh _ _ E Hm); reflexivity|].
    split; [unfold idx; lia|].
    apply Htail; [reflexivity|reflexivity|exact Hn].
  - destruct (arr_get_in_range (node_list s) idx) as [n Hn];
      [unfold idx, node_asize in *; lia|].
    exists s, n.
    split; [split; assumption|].
    split; [reflexivity|]. split; [reflexivity|]. split; [reflexivity|].
    split; [exact Hn|]. split; [auto|].
    split; [intros; congruence|]. split; [reflexivity|].
    unfold bind at 1, ret at 1.
    apply Htail; [reflexivity|reflexivity|exact Hn].
Qed.

Lemma node_new_low type id cid s :
  id <= input_variable_count (opts s) ->
  node_new type id cid s = Err (InvalidOperationId id) s.
Proof.
  intros H. unfold node_new, bind, get.
  destruct (Z.leb_spec id (input_variable_count (opts s))); [reflexivity|lia].
Qed.

Lemma node_type_eqb_none t :
  node_type_eqb t NODE_NONE = true <-> t = NODE_NONE.
Proof. destruct t; cbn; split; congruence. Qed.

Lemma node_new_cases type id cid s :
  nodes_ok s -> type <> NODE_NONE ->
  let idx := id - input_variable_count (opts s) - 1 in
  ((exists i s', node_new type id cid s = Ok i s') <->
   (0 <= idx /\ forall n, arr_get (node_list s) idx = Some n -> node_type n = NODE_NONE)) /\
  (forall e s', node_new type id cid s = Err e s' -> e = InvalidOperationId id) /\
  (forall i s', node_new type id cid s = Ok i s' ->
     nodes_ok s' /\ i = idx /\
     (exists n, arr_get (node_list s') idx = Some n /\
                node_type n = type /\ node_id n = id /\ node_cid n = cid /\
                ring_value n = None) /\
     (forall j n, j <> idx -> arr_get (node_list s) j = Some n ->
                  arr_get (node_list s') j = Some n) /\
     (forall j n, j <> idx -> arr_get (node_list s) j = None ->
                  arr_get (node_list s') j = Some n -> node_type n = NODE_NONE) /\
     id <= variable_limit s' /\
     node_count s' = node_count s + 1 /\
     clause_store s' = clause_store s /\
     forall type' cid', node_new type' id cid' s' = Err (InvalidOperationId id) s').
Proof.
  intros Hok Hty idx.
  destruct (Z.le_gt_cases id (input_variable_count (opts s))) as [Hlow|Hhigh].
  { rewrite (node_new_low _ _ _ _ Hlow).
    split; [split; [intros (i & s' & H); discriminate|unfold idx; lia]|].
    split; [intros e s' H; congruence|intros i s' H; discriminate]. }
  destruct (node_new_run type id cid s Hok Hhigh)
    as (s1 & n & Hok1 & Ho1 & Hc1 & Hcl1 & Hn & Hold & Hnew & Hsame & Hrun).
  fold idx in Hn, Hsame, Hrun. rewrite Hrun.
  destruct (node_type_eqb (node_type n) NODE_NONE) eqn:Hnone; cbn [negb].
  - apply node_type_eqb_none in Hnone.
    split.
    { split; [intros _|eauto]. split; [unfold idx; lia|].
      intros m Hm. rewrite (Hold _ _ Hm) in Hn. congruence. }
    split; [intros e s' H; discriminate|].
    intros i s' H. injection H as <- <-.
    set (n' := set_ring_value None (set_node_cid cid (set_node_type type n))).
    pose proof (arr_get_some_range _ _ _ Hn) as Hr.
    assert (Hset : arr_set (node_list s1) idx n'
                   = Some (<[Z.to_nat idx := n']> (node_list s1))).
    { unfold arr_set. destruct (Z.ltb_spec idx 0); [lia|].
      unfold zlength in Hr. destruct (Z.leb_spec (Z.of_nat (length (node_list s1))) idx);
        [lia|reflexivity]. }
    assert (Hn' : arr_get (<[Z.to_nat idx := n']> (node_list s1)) idx = Some n').
    { exact (arr_get_set_eq _ _ _ _ Hset). }
    assert (Hne : forall j, j <> idx ->
               arr_get (<[Z.to_nat idx := n']> (node_list s1)) j
               = arr_get (node_list s1) j).
    { intros j Hj. apply (arr_get_set_ne _ _ _ _ _ Hset). congruence. }
    destruct Hok1 as [Hids1 Hlim1].
    assert (Hid : node_id n = id).
    { rewrite (Hids1 _ _ Hn), Ho1. unfold idx. lia. }
    split.
    { split.
      - intros j m Hm. cbn in Hm. change (opts _) with (opts s1).
        destruct (Z.eq_dec j idx) as [->|Hj].
        + rewrite Hn' in Hm. injection Hm as <-. cbn. apply Hids1, Hn.
        + rewrite (Hne _ Hj) in Hm. apply Hids1, Hm.
      - cbn. unfold node_asize, zlength. cbn. rewrite length_insert. exact Hlim1. }
    split; [reflexivity|].
    split; [exists n'; cbn; auto|].
    split; [intros j m Hj Hm; cbn; rewrite (Hne _ Hj); auto|].
    split; [intros j m Hj E Hm; cbn in Hm; rewrite (Hne _ Hj) in Hm; eauto|].
    split.
    { cbn. rewrite Hlim1, Ho1. unfold node_asize. unfold idx in Hr. lia. }
    split; [reflexivity|]. split; [exact Hcl1|].
    intros type' cid'.
    set (s2 := set_node_count _ _).
    assert (Hok2 : nodes_ok s2).
    { split.
      - intros j m Hm. cbn in Hm. change (opts s2) with (opts s1).
        destruct (Z.eq_dec j idx) as [->|Hj].
        + rewrite Hn' in Hm. injection Hm as <-. cbn. apply Hids1, Hn.
        + rewrite (Hne _ Hj) in Hm. apply Hids1, Hm.
      - cbn. unfold node_asize, zlength. cbn. rewrite length_insert. exact Hlim1. }
    assert (Hhigh2 : input_variable_count (opts s2) < id).
    { change (opts s2) with (opts s1). rewrite Ho1. exact Hhigh. }
    destruct (node_new_run type' id cid' s2 Hok2 Hhigh2)
      as (s3 & n3 & _ & _ & _ & _ & Hn3 & Hold3 & _ & Hsame3 & Hrun3).
    change (opts s2) with (opts s1) in Hn3, Hrun3, Hsame3.
    rewrite Ho1 in Hn3, Hrun3, Hsame3.
    fold idx in Hn3, Hrun3, Hsame3.
    assert (Hn2 : arr_get (node_list s2) idx = Some n') by exact Hn'.
    rewrite (Hold3 _ _ Hn2) in Hn3. injection Hn3 as <-.
    rewrite Hsame3 in Hrun3.
    2:{ unfold node_asize, zlength, s2. cbn. rewrite length_insert.
        unfold zlength in Hr. lia. }
    rewrite Hrun3. cbn.
    destruct type; cbn; try reflexivity. congruence.
  - split.
    { split; [intros (i & s' & H); discriminate|].
      intros [_ Hfree].
      assert (Hin : idx < node_asize s \/ node_asize s <= idx) by lia.
      destruct Hin as [Hin|Hout].
      - rewrite (Hsame Hin) in Hn. rewrite (Hfree _ Hn) in Hnone. discriminate.
      - assert (E : arr_get (node_list s) idx = None).
        { unfold arr_get. destruct (idx <? 0); [reflexivity|].
          apply lookup_ge_None_2. unfold node_asize, zlength in Hout. lia. }
        rewrite (Hnew _ _ E Hn) in Hnone. discriminate. }
    split; [intros e s' H; congruence|intros i s' H; discriminate].
Qed.

End NodeNew.

(** A node id is defined once.  With the node array as the commands leave
    it, [node_new] returns a node exactly when the id is above the input
    variables and its entry, if allocated, has no type; every refusal is the
    error for an invalid operation id.  The node returned is the entry of
    the id, with the type and the clause id given; the other entries are as
    before, those newly allocated without a type; the id is within
    [variable_limit]; the clauses are untouched; and a second [node_new]
    for the id is refused, leaving the state as it is. *)
Theorem node_new_once (type : node_type_t) (id cid : Z) (s : checker) :
  nodes_ok s -> type <> NODE_NONE ->
  let idx := id - input_variable_count (opts s) - 1 in
  ((exists i s', node_new type id cid s = Ok i s') <->
   (0 <= idx /\ forall n, arr_get (node_list s) idx = Some n -> node_type n = NODE_NONE)) /\
  (forall e s', node_new type id cid s = Err e s' -> e = InvalidOperationId id) /\
  (forall i s', node_new type id cid s = Ok i s' ->
     nodes_ok s' /\ i = idx /\
     (exists n, arr_get (node_list s') idx = Some n /\
                node_type n = type /\ node_id n = id /\ node_cid n = cid /\
                ring_value n = None) /\
     (forall j n, j <> idx -> arr_get (node_list s) j = Some n ->
                  arr_get (node_list s') j = Some n) /\
     (forall j n, j <> idx -> arr_get (node_list s) j = None ->
                  arr_get (node_list s') j = Some n -> node_type n = NODE_NONE) /\
     id <= variable_limit s' /\
     node_count s' = node_count s + 1 /\
     clause_store s' = clause_store s /\
     forall type' cid', node_new type' id cid' s' = Err (InvalidOperationId id) s').
Proof. exact (node_new_cases type id cid s). Qed.

Lemma node_new_once_witness :
  exists i s',
    node_new NODE_PRODUCT 1 1 (clause_init (default_options 0 0)) = Ok i s' /\
    nodes_ok s' /\
    node_new NODE_SUM 1 2 s' = Err (InvalidOperationId 1) s'.
Proof.
  assert (Hok : nodes_ok (clause_init (default_options 0 0))).
  { split; [intros idx n H; destruct idx; discriminate|reflexivity]. }
  assert (Hty : NODE_PRODUCT <> NODE_NONE) by discriminate.
  destruct (node_new_once NODE_PRODUCT 1 1 (clause_init (default_options 0 0)) Hok Hty)
    as (Hiff & _ & Hpost).
  destruct (proj2 Hiff) as (i & s' & Hrun).
  { split; [vm_compute; discriminate|intros n H; discriminate]. }
  exists i, s'. split; [exact Hrun|].
  destruct (Hpost i s' Hrun) as (H1 & _ & _ & _ & _ & _ & _ & _ & H2).
  split; [exact H1|apply H2].
Defined.

Section BatchDelete.

Implicit Types (s : checker) (loc : clause_location_t).

Lemma retyped_refl s : retyped s s.
Proof.
  repeat split; try reflexivity. intros i b Hb. exists b. repeat split; auto.
Qed.

Lemma retyped_trans s1 s2 s3 : retyped s1 s2 -> retyped s2 s3 -> retyped s1 s3.
Proof.
  intros (A1 & A2 & A3 & A4 & A5) (B1 & B2 & B3 & B4 & B5).
  split; [congruence|]. split; [congruence|]. split; [congruence|].
  split; [congruence|].
  intros i b Hb. destruct (A5 i b Hb) as (b2 & Hb2 & R1 & R2 & R3 & R4).
  destruct (B5 i b2 Hb2) as (b3 & Hb3 & Q1 & Q2 & Q3 & Q4).
  exists b3. split; [exact Hb3|]. repeat split; congruence.
Qed.

Lemma retyped_tokens s s' ts : retyped s s' -> retyped s (set_tokens ts s').
Proof. intros H. exact H. Qed.

Lemma retyped_get s s' i :
  retyped s s' ->
  match arr_get (clause_blocks s) i, arr_get (clause_blocks s') i with
  | Some b, Some b' => retyped_block b b'
  | None, None => True
  | _, _ => False
  end.
Proof.
  intros (_ & _ & _ & Hlen & Hget).
  destruct (arr_get (clause_blocks s) i) as [b|] eqn:Hb.
  - destruct (Hget i b Hb) as (b' & -> & R). exact R.
  - destruct (arr_get (clause_blocks s') i) as [b'|] eqn:Hb'; [|exact I].
    apply arr_get_some_range in Hb'. unfold zlength in Hb'. rewrite Hlen in Hb'.
    destruct (arr_get_in_range (clause_blocks s) i) as [b Hb2]; [exact Hb'|].
    congruence.
Qed.

Lemma find_clause_loop_retyped s s' cid :
  retyped s s' ->
  forall fuel lid rid,
    find_clause_loop fuel (clause_blocks s') cid lid rid
    = find_clause_loop fuel (clause_blocks s) cid lid rid.
Proof.
  intros R. induction fuel as [|fuel IH]; intros lid rid; [reflexivity|].
  cbn [find_clause_loop]. destruct (lid <=? rid); [|reflexivity]. cbv zeta.
  pose proof (retyped_get s s' ((lid + rid) / 2) R) as Hg.
  destruct (arr_get (clause_blocks s) ((lid + rid) / 2)) as [b|],
           (arr_get (clause_blocks s') ((lid + rid) / 2)) as [b'|];
    try contradiction; [|reflexivity].
  destruct Hg as (-> & -> & _). rewrite !IH. reflexivity.
Qed.

Lemma retyped_same s s' :
  retyped s s' ->
  (forall cid, find_clause cid s' = find_clause cid s) /\
  (forall loc, clause_locate loc s' = clause_locate loc s) /\
  (forall loc, lits_at loc s' = lits_at loc s).
Proof.
  intros R.
  assert (Hloc : forall loc, clause_locate loc s' = clause_locate loc s).
  { intros loc. unfold clause_locate.
    pose proof (retyped_get s s' (bid loc) R) as Hg.
    destruct (arr_get (clause_blocks s) (bid loc)) as [b|],
             (arr_get (clause_blocks s') (bid loc)) as [b'|];
      try contradiction; [|reflexivity].
    destruct Hg as (_ & _ & -> & ->). reflexivity. }
  split; [|split; [exact Hloc|]].
  - intros cid. unfold find_clause, clause_block_count, zlength.
    destruct R as (R1 & R2 & R3 & R4 & R5). rewrite R4.
    apply find_clause_loop_retyped. repeat split; assumption.
  - intros loc. unfold lits_at. rewrite Hloc.
    destruct (clause_locate loc s) as [[p|]|]; try reflexivity.
    unfold clause_lits. destruct R as (-> & _). reflexivity.
Qed.

(** What a deletion that returns has done. *)
Lemma clause_delete_post loc s d s' :
  clause_delete loc s = Ok d s' ->
  d = true /\ retyped s s' /\ tokens s' = tokens s /\
  clause_type loc s' = Some CLAUSE_UNKNOWN /\
  forall loc', (bid loc' <> bid loc \/ pos loc' <> pos loc) ->
               clause_type loc' s' = clause_type loc' s.
Proof.
  unfold clause_delete. unfold bind at 1, get at 1.
  destruct (arr_get (clause_blocks s) (bid loc)) as [b|] eqn:Hb; [|discriminate].
  unfold bind at 1, defined at 1, ret.
  destruct (arr_get (blk_chunk b) (pos loc)) as [chunk|] eqn:Hch; [|discriminate].
  unfold bind at 1, defined at 1, ret.
  destruct (arr_get (blk_offset b) (pos loc)) as [offset|] eqn:Hof; [|discriminate].
  unfold bind at 1, defined at 1, ret.
  destruct (0 <=? offset) eqn:Hdel.
  2:{ destruct (generate_clause_id loc s); discriminate. }
  destruct (clause_lits (chunk, offset) s) as [lits|] eqn:Hlits; [|discriminate].
  unfold bind at 1, defined at 1, ret.
  unfold bind at 1.
  destruct (clause_delete_scan lits s) as [[] s0| | |] eqn:Hscan; try discriminate.
  destruct (clause_delete_scan_ok _ _ _ Hscan) as [-> _].
  destruct (arr_set (blk_type b) (pos loc) CLAUSE_UNKNOWN) as [ty|] eqn:Hty;
    [|discriminate].
  unfold bind at 1, defined at 1, ret.
  set (b' := mk_block (start_id b) (blk_length b) (blk_chunk b) (blk_offset b) ty).
  destruct (arr_set (clause_blocks s) (bid loc) b') as [blocks|] eqn:Hbl;
    [|discriminate].
  unfold bind at 1, defined at 1, ret. unfold bind, modify.
  intros [= <- <-].
  assert (Hb' : arr_get blocks (bid loc) = Some b') by (eapply arr_get_set_eq; eauto).
  split; [reflexivity|]. split; [|split; [reflexivity|split]].
  - split; [reflexivity|]. split; [reflexivity|]. split; [reflexivity|].
    split; [exact (arr_set_length _ _ _ _ Hbl)|].
    intros i c Hc. cbn.
    destruct (Z.eq_dec i (bid loc)) as [->|Hne].
    + exists b'. split; [exact Hb'|]. rewrite Hb in Hc. injection Hc as <-.
      repeat split.
    + exists c. rewrite (arr_get_set_ne _ _ _ _ _ Hbl) by congruence.
      split; [exact Hc|]. repeat split.
  - unfold clause_type. cbn. rewrite Hb'. cbn. exact (arr_get_set_eq _ _ _ _ Hty).
  - intros loc' Hne. unfold clause_type. cbn.
    destruct (Z.eq_dec (bid loc') (bid loc)) as [E|E].
    + rewrite E, Hb', Hb. cbn.
      apply (arr_get_set_ne _ _ _ _ _ Hty). destruct Hne; congruence.
    + rewrite (arr_get_set_ne _ _ _ _ _ Hbl) by congruence. reflexivity.
Qed.

Lemma find_clause_inj s cid cid' loc :
  find_clause cid s = Some loc -> find_clause cid' s = Some loc -> cid = cid'.
Proof.
  intros H1 H2.
  apply find_clause_loop_sound in H1, H2.
  destruct H1 as (b & Hb & _ & <-), H2 as (b2 & Hb2 & _ & <-).
  congruence.
Qed.

Lemma loc_cases loc loc' :
  loc' = loc \/ bid loc' <> bid loc \/ pos loc' <> pos loc.
Proof.
  destruct loc as [b p], loc' as [b' p']. cbn.
  destruct (Z.eq_dec b' b) as [->|]; [|auto].
  destruct (Z.eq_dec p' p) as [->|]; auto.
Qed.

(** The clause [cid] is of a type that the command deletes. *)
Let deletable (s : checker) (cid : Z) : Prop :=
  exists loc, find_clause cid s = Some loc /\
    (clause_type loc s = Some CLAUSE_FORWARD \/
     clause_type loc s = Some CLAUSE_STRUCTURAL).

Lemma batch_delete_loop_post : forall ts s s',
  batch_delete_loop ts s = Ok tt s' ->
  exists cids rest,
    ts = map TOK_INT cids ++ TOK_INT 0 :: rest /\
    Forall (fun cid => cid <> 0) cids /\
    tokens s' = rest /\
    retyped s s' /\
    NoDup cids /\
    Forall (deletable s) cids /\
    (forall cid loc, find_clause cid s = Some loc ->
       clause_type loc s' =
       if in_dec Z.eq_dec cid cids then Some CLAUSE_UNKNOWN else clause_type loc s).
Proof.
  induction ts as [|t r IH]; intros s s' H; [discriminate|].
  cbn [batch_delete_loop] in H.
  destruct t as [cid| | | | | |];
    try (unfold bind, modify, err_printf in H; discriminate).
  unfold bind at 1, modify at 1 in H.
  destruct (Z.eqb_spec cid 0) as [->|Hnz].
  - unfold ret in H. injection H as <-.
    exists [], r. split; [reflexivity|]. split; [constructor|].
    split; [reflexivity|]. split; [exact (retyped_tokens s s r (retyped_refl s))|].
    split; [constructor|]. split; [constructor|].
    intros cid loc _. reflexivity.
  - unfold bind at 1, get at 1 in H.
    change (find_clause cid (set_tokens r s)) with (find_clause cid s) in H.
    destruct (find_clause cid s) as [loc|] eqn:Hfind; [|discriminate].
    change (clause_type loc (set_tokens r s)) with (clause_type loc s) in H.
    unfold bind at 1, defined at 1 in H.
    destruct (clause_type loc s) as [ctype|] eqn:Hct; [|discriminate].
    unfold ret at 1 in H.
    destruct (negb _) eqn:Hty in H; [discriminate|].
    unfold bind at 1 in H.
    destruct (clause_delete loc (set_tokens r s)) as [d s1| | |] eqn:Hdel;
      try discriminate.
    destruct (clause_delete_post _ _ _ _ Hdel) as (-> & R1 & Htok & Hun & Hoth).
    cbn [negb] in H.
    assert (R1' : retyped s s1) by exact R1.
    destruct (retyped_same s s1 R1') as (Hfc1 & _ & _).
    change (clause_type loc (set_tokens r s)) with (clause_type loc s) in *.
    assert (Hoth' : forall loc', (bid loc' <> bid loc \/ pos loc' <> pos loc) ->
                      clause_type loc' s1 = clause_type loc' s) by exact Hoth.
    assert (Hrun : batch_delete_loop (tokens s1) s1 = Ok tt s').
    { rewrite Htok. exact H. }
    rewrite Htok in Hrun. cbn [tokens set_tokens] in Hrun.
    destruct (IH _ _ Hrun) as (cids & rest & -> & Hnz' & Hrest & R2 & Hnd & Hall & Hty').
    assert (Hnotin : ~ In cid cids).
    { intros Hin. rewrite List.Forall_forall in Hall.
      destruct (Hall cid Hin) as (loc1 & Hf1 & Ht1).
      rewrite Hfc1, Hfind in Hf1. injection Hf1 as <-.
      rewrite Hun in Ht1. destruct Ht1; discriminate. }
    exists (cid :: cids), rest.
    split; [reflexivity|]. split; [constructor; assumption|].
    split; [exact Hrest|]. split; [exact (retyped_trans _ _ _ R1' R2)|].
    split; [apply NoDup_cons; split; [rewrite list_elem_of_In; exact Hnotin|exact Hnd]|].
    split.
    + constructor.
      * exists loc. split; [exact Hfind|]. rewrite Hct.
        destruct ctype; cbn in Hty; try discriminate; auto.
      * rewrite List.Forall_forall in Hall |- *. intros c Hc.
        destruct (Hall c Hc) as (loc1 & Hf1 & Ht1).
        exists loc1. rewrite Hfc1 in Hf1. split; [exact Hf1|].
        destruct (loc_cases loc loc1) as [->|Hne].
        -- rewrite Hun in Ht1. destruct Ht1; discriminate.
        -- rewrite <- (Hoth' _ Hne). exact Ht1.
    + intros c locc Hc.
      assert (Hc1 : find_clause c s1 = Some locc) by (rewrite Hfc1; exact Hc).
      rewrite (Hty' c locc Hc1).
      destruct (in_dec Z.eq_dec c cids) as [Hin|Hnin];
        destruct (in_dec Z.eq_dec c (cid :: cids)) as [Hin'|Hnin'].
      * reflexivity.
      * destruct Hnin'. right. exact Hin.
      * destruct Hin' as [<-|Hin']; [|contradiction].
        rewrite Hfind in Hc. injection Hc as <-. exact Hun.
      * destruct (loc_cases loc locc) as [->|Hl]; [|exact (Hoth' _ Hl)].
        destruct Hnin'. left. exact (find_clause_inj s cid c loc Hfind Hc).
Qed.

Lemma cpog_batch_delete_clauses_post s s' :
  cpog_batch_delete_clauses s = Ok tt s' ->
  exists cids rest,
    tokens s = map TOK_INT cids ++ TOK_INT 0 :: rest /\
    Forall (fun cid => cid <> 0) cids /\
    tokens s' = skip_line rest /\
    NoDup cids /\
    Forall (fun cid => exists loc, find_clause cid s = Some loc /\
              (clause_type loc s = Some CLAUSE_FORWARD \/
               clause_type loc s = Some CLAUSE_STRUCTURAL)) cids /\
    chunk_set s' = chunk_set s /\
    (forall cid, find_clause cid s' = find_clause cid s) /\
    (forall loc, lits_at loc s' = lits_at loc s) /\
    (forall cid loc, find_clause cid s = Some loc ->
       clause_type loc s' =
       if in_dec Z.eq_dec cid cids then Some CLAUSE_UNKNOWN else clause_type loc s).
Proof.
  unfold cpog_batch_delete_clauses. intros H.
  unfold bind at 1, get at 1 in H. unfold bind in H.
  destruct (batch_delete_loop (tokens s) s) as [[] s1| | |] eqn:Hloop; try discriminate.
  unfold token_find_eol, modify in H. injection H as <-.
  destruct (batch_delete_loop_post _ _ _ Hloop)
    as (cids & rest & Hts & Hnz & Hrest & R & Hnd & Hall & Hty).
  exists cids, rest.
  destruct (retyped_same s s1 R) as (Hf & _ & Hl).
  split; [exact Hts|]. split; [exact Hnz|].
  split; [cbn; rewrite Hrest; reflexivity|].
  split; [exact Hnd|]. split; [exact Hall|].
  split; [exact (proj1 R)|]. split; [exact Hf|]. split; [exact Hl|exact Hty].
Qed.

End BatchDelete.

(** The command [D] deletes added clauses only, each once.  When
    [cpog_batch_delete_clauses] returns, the line read was a list of
    different non-zero clause ids and its terminating 0; each id was that of
    a clause of type forward or structural; those clauses, and no others,
    have changed their type, to unknown; and the payload, the search by id
    and the literals of every clause are as before.  An id of an input,
    Tseitin, Skolem, root or disable clause, or one already deleted, makes
    the command fail. *)
Theorem batch_delete_only_added (s s' : checker) :
  cpog_batch_delete_clauses s = Ok tt s' ->
  exists cids rest,
    tokens s = map TOK_INT cids ++ TOK_INT 0 :: rest /\
    Forall (fun cid => cid <> 0) cids /\
    tokens s' = skip_line rest /\
    NoDup cids /\
    Forall (fun cid => exists loc, find_clause cid s = Some loc /\
              (clause_type loc s = Some CLAUSE_FORWARD \/
               clause_type loc s = Some CLAUSE_STRUCTURAL)) cids /\
    chunk_set s' = chunk_set s /\
    (forall cid, find_clause cid s' = find_clause cid s) /\
    (forall loc, lits_at loc s' = lits_at loc s) /\
    (forall cid loc, find_clause cid s = Some loc ->
       clause_type loc s' =
       if in_dec Z.eq_dec cid cids then Some CLAUSE_UNKNOWN else clause_type loc s).
Proof. exact (cpog_batch_delete_clauses_post s s'). Qed.

Lemma batch_delete_only_added_witness :
  let s := set_tokens [TOK_INT 12; TOK_INT 13; TOK_INT 0; TOK_EOL] xor_pog in
  exists s',
    cpog_batch_delete_clauses s = Ok tt s' /\
    exists cids rest,
      tokens s = map TOK_INT cids ++ TOK_INT 0 :: rest /\
      Forall (fun cid => cid <> 0) cids /\
      tokens s' = skip_line rest /\
      NoDup cids /\
      Forall (fun cid => exists loc, find_clause cid s = Some loc /\
                (clause_type loc s = Some CLAUSE_FORWARD \/
                 clause_type loc s = Some CLAUSE_STRUCTURAL)) cids /\
      chunk_set s' = chunk_set s /\
      (forall cid, find_clause cid s' = find_clause cid s) /\
      (forall loc, lits_at loc s' = lits_at loc s) /\
      (forall cid loc, find_clause cid s = Some loc ->
         clause_type loc s' =
         if in_dec Z.eq_dec cid cids then Some CLAUSE_UNKNOWN else clause_type loc s).
Proof.
  intros s.
  destruct (cpog_batch_delete_clauses s) as [[] s'|e s'| |] eqn:Hrun;
    try (vm_compute in Hrun; discriminate).
  exists s'. split; [reflexivity|].
  exact (batch_delete_only_added s s' Hrun).
Defined.

Section NextClause.

Implicit Types (s : checker) (loc : clause_location_t).

Lemma goto_next_clause_slots s cid loc :
  blocks_sorted (clause_blocks s) -> later_blocks_filled s ->
  slot_of cid loc s ->
  match goto_next_clause loc s with
  | Some loc' =>
      exists cid', slot_of cid' loc' s /\ cid < cid' /\
        forall c l, slot_of c l s -> cid < c -> cid' <= c
  | None => forall c l, slot_of c l s -> c <= cid
  end.
Proof.
  intros [Hlen Hsorted] Hfilled (b & Hb & Hpos & Hcid).
  unfold goto_next_clause. rewrite Hb.
  assert (Hbelow : forall c l bl,
            arr_get (clause_blocks s) (bid l) = Some bl ->
            0 <= pos l < blk_length bl -> start_id bl + pos l = c ->
            bid l <= bid loc -> c < start_id b + blk_length b).
  { intros c l bl Hbl Hp Hc Hle.
    destruct (Z.eq_dec (bid l) (bid loc)) as [E|E].
    - rewrite E, Hb in Hbl. injection Hbl as <-. lia.
    - assert (Hlt : bid l < bid loc) by lia.
      pose proof (Hsorted _ _ _ _ Hlt Hbl Hb). lia. }
  destruct (Z.ltb_spec (pos loc + 1) (blk_length b)) as [Hin|Hend].
  - exists (cid + 1). split; [|split; [lia|intros; lia]].
    exists b. cbn. split; [exact Hb|]. lia.
  - destruct (Z.ltb_spec (bid loc + 1) (clause_block_count s)) as [Hmore|Hlast].
    + pose proof (arr_get_some_range _ _ _ Hb) as Hr.
      destruct (arr_get_in_range (clause_blocks s) (bid loc + 1)) as [b1 Hb1];
        [unfold clause_block_count in Hmore; lia|].
      assert (Hnext : 0 < bid loc + 1) by lia.
      pose proof (Hfilled _ _ Hnext Hb1) as Hne.
      assert (Hstep : bid loc < bid loc + 1) by lia.
      pose proof (Hsorted _ _ _ _ Hstep Hb Hb1) as Hord.
      exists (start_id b1). split; [|split; [lia|]].
      * exists b1. cbn. split; [exact Hb1|]. lia.
      * intros c l (bl & Hbl & Hp & Hc) Hgt.
        destruct (Z.le_gt_cases (bid l) (bid loc)) as [Hle|Hgt'].
        { pose proof (Hbelow c l bl Hbl Hp Hc Hle). lia. }
        destruct (Z.eq_dec (bid l) (bid loc + 1)) as [E|E].
        -- rewrite E, Hb1 in Hbl. injection Hbl as <-. lia.
        -- assert (Hlt : bid loc + 1 < bid l) by lia.
           pose proof (Hsorted _ _ _ _ Hlt Hb1 Hbl). lia.
    + intros c l (bl & Hbl & Hp & Hc).
      pose proof (arr_get_some_range _ _ _ Hbl) as Hr.
      unfold clause_block_count in Hlast.
      assert (Hle : bid l <= bid loc) by lia.
      pose proof (Hbelow c l bl Hbl Hp Hc Hle). lia.
Qed.

Lemma goto_next_clause_post s cid loc :
  blocks_sorted (clause_blocks s) -> later_blocks_filled s ->
  find_clause cid s = Some loc ->
  match goto_next_clause loc s with
  | Some loc' =>
      exists cid',
        generate_clause_id loc' s = Some cid' /\
        find_clause cid' s = Some loc' /\
        cid < cid' /\
        forall c, cid < c < cid' -> find_clause c s = None
  | None => forall c, cid < c -> find_clause c s = None
  end.
Proof.
  intros Hs Hfilled Hfind.
  apply (find_clause_slot s cid loc Hs) in Hfind.
  pose proof (goto_next_clause_slots s cid loc Hs Hfilled Hfind) as H.
  destruct (goto_next_clause loc s) as [loc'|].
  - destruct H as (cid' & Hslot & Hlt & Hmin).
    exists cid'. split; [|split; [|split; [exact Hlt|]]].
    + destruct Hslot as (b1 & Hb1 & _ & Hc). unfold generate_clause_id.
      rewrite Hb1, Hc. reflexivity.
    + apply (find_clause_slot s cid' loc' Hs). exact Hslot.
    + intros c Hc. destruct (find_clause c s) as [l|] eqn:E; [|reflexivity].
      apply (find_clause_slot s c l Hs) in E. pose proof (Hmin c l E). lia.
  - intros c Hc. destruct (find_clause c s) as [l|] eqn:E; [|reflexivity].
    apply (find_clause_slot s c l Hs) in E. pose proof (H c l E). lia.
Qed.

End NextClause.

(** [goto_next_clause] walks the slots in the order of their ids.  From
    the slot that [find_clause] finds for an id, it steps to the slot of
    the least larger id that [find_clause] finds, which
    [generate_clause_id] gives back; it returns false when no larger id has
    a slot.  The blocks are in ascending order and only the first may be
    empty. *)
Theorem goto_next_clause_ascends (s : checker) (cid : Z) (loc : clause_location_t) :
  blocks_sorted (clause_blocks s) -> later_blocks_filled s ->
  find_clause cid s = Some loc ->
  match goto_next_clause loc s with
  | Some loc' =>
      exists cid',
        generate_clause_id loc' s = Some cid' /\
        find_clause cid' s = Some loc' /\
        cid < cid' /\
        forall c, cid < c < cid' -> find_clause c s = None
  | None => forall c, cid < c -> find_clause c s = None
  end.
Proof. exact (goto_next_clause_post s cid loc). Qed.

Lemma goto_next_clause_ascends_witness :
  match goto_next_clause (mk_loc 0 1) after_first_addition with
  | Some loc' =>
      exists cid',
        generate_clause_id loc' after_first_addition = Some cid' /\
        find_clause cid' after_first_addition = Some loc' /\
        2 < cid' /\
        forall c, 2 < c < cid' -> find_clause c after_first_addition = None
  | None => forall c, 2 < c -> find_clause c after_first_addition = None
  end.
Proof.
  apply (goto_next_clause_ascends after_first_addition 2 (mk_loc 0 1)).
  - split.
    + vm_compute. repeat constructor; discriminate.
    + intros i j bi bj Hij Hi Hj.
      pose proof (arr_get_some_range _ _ _ Hi) as Ri.
      pose proof (arr_get_some_range _ _ _ Hj) as Rj.
      change (zlength (clause_blocks after_first_addition)) with 2 in *.
      assert (i = 0) as -> by lia. assert (j = 1) as -> by lia.
      vm_compute in Hi, Hj. injection Hi as <-. injection Hj as <-.
      vm_compute. discriminate.
  - intros i b Hi Hb.
    pose proof (arr_get_some_range _ _ _ Hb) as Rb.
    change (zlength (clause_blocks after_first_addition)) with 2 in *.
    assert (i = 1) as -> by lia.
    vm_compute in Hb. injection Hb as <-. reflexivity.
  - vm_compute. reflexivity.
Defined.

Section DefiningClauses.

Implicit Types (s : checker).

Lemma clauses_kept_refl s : clauses_kept s s.
Proof. intros cid loc H. auto. Qed.

Lemma clauses_kept_trans s1 s2 s3 :
  clauses_kept s1 s2 -> clauses_kept s2 s3 -> clauses_kept s1 s3.
Proof.
  intros H12 H23 cid loc H.
  destruct (H12 _ _ H) as (F & T & L).
  destruct (H23 _ _ F) as (F' & T' & L').
  split; [exact F'|]. split; congruence.
Qed.

Lemma stored_kept s s' cid type lits :
  clauses_kept s s' -> stored s cid type lits -> stored s' cid type lits.
Proof.
  intros K (loc & F & T & L). destruct (K _ _ F) as (F' & T' & L').
  exists loc. split; [exact F'|]. split; congruence.
Qed.

(** The parts of the state that the store reads. *)
Lemma store_ok_same s s' :
  chunk_set s' = chunk_set s -> clause_blocks s' = clause_blocks s ->
  clause_last_id s' = clause_last_id s ->
  store_ok s -> store_ok s' /\ clauses_kept s s'.
Proof.
  intros Hc Hb Hl (H1 & H2 & H3 & H4 & H5).
  assert (Hloc : forall loc, clause_locate loc s' = clause_locate loc s).
  { intros loc. unfold clause_locate. rewrite Hb. reflexivity. }
  split.
  - split; [rewrite Hb; exact H1|]. split; [rewrite Hb; exact H2|].
    split; [unfold clause_block_count; rewrite Hb, Hl; exact H3|].
    split; [unfold chunk_count; rewrite Hc; exact H4|].
    intros loc p Hp. rewrite Hloc in Hp. unfold clause_terminated. rewrite Hc.
    exact (H5 loc p Hp).
  - intros cid loc F. split; [|split].
    + unfold find_clause, clause_block_count in *. rewrite Hb. exact F.
    + unfold clause_type. rewrite Hb. reflexivity.
    + unfold lits_at. rewrite Hloc. unfold clause_lits. rewrite Hc. reflexivity.
Qed.

(** One clause stored: what the three steps leave. *)
Lemma store_clause_full s cid type lits u s' :
  store_ok s -> Forall (fun l => l <> 0) lits ->
  (start_clause cid ;;; clause_add_literals (lits ++ [0]) ;;;
   finish_clause cid type) s = Ok u s' ->
  store_ok s' /\ clause_last_id s' = cid /\
  stored s' cid type lits /\ clauses_kept s s' /\
  node_list s' = node_list s /\ opts s' = opts s /\
  variable_limit s' = variable_limit s /\ tokens s' = tokens s /\
  declared_root s' = declared_root s /\
  root_clause_added s' = root_clause_added s.
Proof.
  intros Hok Hnz Hrun. destruct u.
  destruct (store_clause_ok_inv _ _ _ _ _ _ Hrun) as (Hcid & Hvars & Hneed & Hroom).
  destruct (store_clause_post s cid type lits Hok Hcid Hnz Hvars Hneed Hroom)
    as (s'' & Hrun' & Hok' & Hlast & Hbe & Hce & (loc & Hslot & Hty & Hlits)).
  rewrite Hrun in Hrun'. injection Hrun' as <-.
  split; [exact Hok'|]. split; [exact Hlast|]. split; [|split].
  - exists loc. split; [|auto].
    apply find_clause_slot; [apply Hok'|exact Hslot].
  - exact (store_frame s s' Hok (proj1 Hok') Hbe Hce).
  - apply bind_ok in Hrun. destruct Hrun as (u1 & s1 & Hstart & H).
    apply bind_ok in H. destruct H as (u2 & s2 & Hadd & Hfinish).
    pose proof (clause_add_literals_post _ _ _ _ Hadd) as ->.
    assert (Hs1 : node_list s1 = node_list s /\ opts s1 = opts s /\
                  variable_limit s1 = variable_limit s /\ tokens s1 = tokens s /\
                  declared_root s1 = declared_root s /\
                  root_clause_added s1 = root_clause_added s).
    { clear Hfinish Hadd. unfold start_clause in Hstart.
      apply bind_ok in Hstart. destruct Hstart as (s0 & sa & Hget & H).
      apply get_ok in Hget. destruct Hget as [-> ->].
      destruct (cid <=? clause_last_id s); [discriminate|].
      apply bind_ok in H. destruct H as (u3 & sa & Hblocks & H).
      assert (Hsa : exists bl, sa = set_clause_blocks bl s).
      { destruct (_ || _).
        - apply modify_ok in Hblocks. eauto.
        - apply bind_ok in Hblocks. destruct Hblocks as (b & sb & Hb & Hblocks).
          apply defined_ok in Hb. destruct Hb as [_ ->].
          apply bind_ok in Hblocks. destruct Hblocks as (bl & sb & Hbl & Hblocks).
          apply defined_ok in Hbl. destruct Hbl as [_ ->].
          apply modify_ok in Hblocks. eauto. }
      destruct Hsa as [bl ->].
      apply bind_ok in H. destruct H as (u4 & sb & H4 & H). apply modify_ok in H4. subst sb.
      apply bind_ok in H. destruct H as (u5 & sb & H5 & H). apply modify_ok in H5. subst sb.
      apply modify_ok in H. subst s1. repeat split; reflexivity. }
    assert (Hs' : node_list s' = node_list s1 /\ opts s' = opts s1 /\
                  variable_limit s' = variable_limit s1 /\ tokens s' = tokens s1 /\
                  declared_root s' = declared_root s1 /\
                  root_clause_added s' = root_clause_added s1).
    { clear Hstart Hs1. unfold finish_clause in Hfinish.
      apply bind_ok in Hfinish. destruct Hfinish as (s0 & sa & Hget & H).
      apply get_ok in Hget. destruct Hget as [-> ->].
      destruct (CHUNK_SIZE <? _); [discriminate|].
      apply bind_ok in H. destruct H as (u3 & sa & Hchunk & H).
      assert (Hsa : exists cs, sa = set_chunk_set cs
                      (set_current_clause (current_clause s1 ++ lits ++ [0]) s1)).
      { destruct (CHUNK_SIZE <? _).
        - destruct (_ <=? _); [discriminate|]. apply modify_ok in Hchunk. eauto.
        - apply ret_ok in Hchunk. destruct Hchunk as [_ ->].
          eexists (chunk_set _). destruct s1; reflexivity. }
      destruct Hsa as (cs & ->).
      apply bind_ok in H. destruct H as (s0 & sa & Hget & H).
      apply get_ok in Hget. destruct Hget as [-> ->].
      apply bind_ok in H. destruct H as (c & sa & Hc & H).
      apply defined_ok in Hc. destruct Hc as [_ ->].
      apply bind_ok in H. destruct H as (chunks & sa & Hchunks & H).
      apply defined_ok in Hchunks. destruct Hchunks as [_ ->].
      apply bind_ok in H. destruct H as (u4 & sa & H4 & H). apply modify_ok in H4. subst sa.
      apply bind_ok in H. destruct H as (b & sa & Hb & H).
      apply defined_ok in Hb. destruct Hb as [_ ->].
      apply bind_ok in H. destruct H as (bl & sa & Hbl & H).
      apply defined_ok in Hbl. destruct Hbl as [_ ->].
      apply modify_ok in H. subst s'. repeat split; reflexivity. }
    destruct Hs1 as (A1 & A2 & A3 & A4 & A5 & A6).
    destruct Hs' as (B1 & B2 & B3 & B4 & B5 & B6).
    repeat split; congruence.
Qed.

Lemma clause_add_literals_snoc lits lit s u s1 u' s2 :
  clause_add_literals lits s = Ok u s1 ->
  clause_add_literal lit s1 = Ok u' s2 ->
  clause_add_literals (lits ++ [lit]) s = Ok tt s2.
Proof.
  revert s. induction lits as [|l r IH]; intros s H1 H2.
  - apply ret_ok in H1. destruct H1 as [_ ->]. cbn. unfold bind. rewrite H2.
    destruct u'. reflexivity.
  - cbn [clause_add_literals app] in *.
    apply bind_ok in H1. destruct H1 as (u1 & sa & Ha & H1).
    unfold bind. rewrite Ha. exact (IH _ H1 H2).
Qed.

Lemma clause_add_literals_cons lit lits s u s1 u' s2 :
  clause_add_literal lit s = Ok u s1 ->
  clause_add_literals lits s1 = Ok u' s2 ->
  clause_add_literals (lit :: lits) s = Ok u' s2.
Proof.
  intros H1 H2. cbn [clause_add_literals]. unfold bind. rewrite H1. exact H2.
Qed.

(** The clauses of the children: one clause of two literals for each
    child, from [cid] on. *)
Lemma child_clauses_stored first sign ctype : forall cs cid s u s',
  store_ok s -> first <> 0 -> sign <> 0 -> Forall (fun c => c <> 0) cs ->
  child_clauses cid first sign ctype cs s = Ok u s' ->
  store_ok s' /\
  (forall i c, cs !! i = Some c ->
     stored s' (cid + Z.of_nat i) ctype [first; sign * c]) /\
  clauses_kept s s' /\
  node_list s' = node_list s /\ opts s' = opts s /\
  variable_limit s' = variable_limit s /\ tokens s' = tokens s /\
  declared_root s' = declared_root s /\
  root_clause_added s' = root_clause_added s.
Proof.
  induction cs as [|c r IH]; intros cid s u s' Hok Hf Hs Hnz H.
  - apply ret_ok in H. destruct H as [_ ->].
    split; [exact Hok|]. split; [intros i c Hi; discriminate|].
    split; [apply clauses_kept_refl|]. repeat split; reflexivity.
  - inversion Hnz as [|? ? Hc Hnz']; subst.
    cbn [child_clauses] in H.
    apply bind_ok in H. destruct H as (u1 & s1 & H1 & H).
    apply bind_ok in H. destruct H as (u2 & s2 & H2 & H).
    apply bind_ok in H. destruct H as (u3 & s3 & H3 & H).
    apply bind_ok in H. destruct H as (u4 & s4 & H4 & H).
    apply bind_ok in H. destruct H as (u5 & s5 & H5 & H).
    assert (Hrun : (start_clause cid ;;; clause_add_literals ([first; sign * c] ++ [0]) ;;;
                    finish_clause cid ctype) s = Ok u5 s5).
    { unfold bind at 1. rewrite H1. unfold bind at 1.
      cbn [app clause_add_literals]. unfold bind at 1. rewrite H2.
      unfold bind at 1. rewrite H3. unfold bind at 1. rewrite H4.
      unfold ret at 1. exact H5. }
    assert (Hlits : Forall (fun l => l <> 0) [first; sign * c]).
    { constructor; [exact Hf|]. constructor; [nia|constructor]. }
    destruct (store_clause_full _ _ _ _ _ _ Hok Hlits Hrun)
      as (Hok5 & Hlast5 & Hst5 & Hk5 & A1 & A2 & A3 & A4 & A5 & A6).
    destruct (IH _ _ _ _ Hok5 Hf Hs Hnz' H)
      as (Hok' & Hall & Hk' & B1 & B2 & B3 & B4 & B5 & B6).
    split; [exact Hok'|]. split; [|split].
    + intros i x Hi. destruct i as [|i].
      * cbn in Hi. injection Hi as <-. rewrite Z.add_0_r.
        exact (stored_kept _ _ _ _ _ Hk' Hst5).
      * cbn in Hi. replace (cid + Z.of_nat (S i)) with (cid + 1 + Z.of_nat i) by lia.
        exact (Hall i x Hi).
    + exact (clauses_kept_trans _ _ _ Hk5 Hk').
    + repeat split; congruence.
Qed.

End DefiningClauses.

Section ProductClauses.

Implicit Types (s : checker).

(** The loop over the children reads them up to the 0 and appends them to
    the children of the node; it writes to the nodes only. *)
Lemma product_children_run nid idx : forall ts local s1 local' s2 node1,
  product_children_loop ts nid idx local s1 = Ok local' s2 ->
  arr_get (node_list s1) idx = Some node1 ->
  exists cs rest nl node2,
    ts = map TOK_INT cs ++ TOK_INT 0 :: rest /\
    Forall (fun c => c <> 0) cs /\
    s2 = set_tokens rest (set_node_list nl s1) /\
    arr_get nl idx = Some node2 /\
    node_type node2 = node_type node1 /\ node_cid node2 = node_cid node1 /\
    children node2 = children node1 ++ cs.
Proof.
  induction ts as [|t r IH]; intros local s1 local' s2 node1 H Hn1; [discriminate|].
  cbn [product_children_loop] in H.
  destruct t as [lit| | | | | |];
    try (unfold bind, modify, err_printf in H; discriminate).
  apply bind_ok in H. destruct H as (u & sa & Hm & H).
  apply modify_ok in Hm. subst sa.
  destruct (Z.eqb_spec lit 0) as [->|Hnz].
  - apply ret_ok in H. destruct H as [_ ->].
    exists [], r, (node_list s1), node1. cbn. rewrite app_nil_r.
    repeat split; try reflexivity; [constructor|exact Hn1].
  - apply bind_ok in H. destruct H as (u1 & sb & Hup & H).
    apply update_node_post in Hup. destruct Hup as (n0 & nl & Hn0 & Hnl & ->).
    change (node_list (set_tokens r s1)) with (node_list s1) in Hn0, Hnl.
    rewrite Hn1 in Hn0. injection Hn0 as <-.
    set (nodeb := set_children (children node1 ++ [lit]) node1) in *.
    set (sb := set_node_list nl (set_tokens r s1)) in *.
    assert (Hnb : arr_get (node_list sb) idx = Some nodeb)
      by exact (arr_get_set_eq _ _ _ _ Hnl).
    apply bind_ok in H. destruct H as (sx & sc & Hget & H).
    apply get_ok in Hget. destruct Hget as [-> ->].
    assert (Hrec : exists sc nodec,
              product_children_loop r nid idx
                (if IABS lit <=? input_variable_count (opts sb)
                 then local ++ [IABS lit] else local) sc = Ok local' s2 /\
              (exists nlc, sc = set_node_list nlc sb) /\
              tokens sc = r /\
              arr_get (node_list sc) idx = Some nodec /\
              node_type nodec = node_type node1 /\ node_cid nodec = node_cid node1 /\
              children nodec = children node1 ++ [lit]).
    { destruct (IABS lit <=? input_variable_count (opts sb)).
      - apply bind_ok in H. destruct H as (u2 & sc & Hchk & H).
        assert (sc = sb) as ->.
        { destruct (is_pkc (opts sb)).
          - apply bind_ok in Hchk. destruct Hchk as (show & sd & Hshow & Hchk).
            apply defined_ok in Hshow. destruct Hshow as [_ ->].
            destruct (negb show && _); [discriminate|].
            apply ret_ok in Hchk. apply Hchk.
          - apply ret_ok in Hchk. apply Hchk. }
        exists sb, nodeb. split; [exact H|].
        split; [exists nl; reflexivity|]. repeat split; auto.
      - destruct (negb (IABS lit =? lit)); [discriminate|].
        destruct (node_find (IABS lit) sb) as [cidx|]; [|discriminate].
        apply bind_ok in H. destruct H as (cnode & sc & Hcn & H).
        apply read_node_ok in Hcn. destruct Hcn as [_ ->].
        destruct (node_type_eqb (node_type cnode) NODE_NONE); [discriminate|].
        apply bind_ok in H. destruct H as (node & sc & Hrn & H).
        apply read_node_ok in Hrn. destruct Hrn as [Hrn ->].
        rewrite Hnb in Hrn. injection Hrn as <-.
        destruct (ilist_is_disjoint _ _); [discriminate|].
        apply bind_ok in H. destruct H as (u3 & sc & Hup & H).
        apply update_node_post in Hup. destruct Hup as (n1 & nlc & Hn1' & Hnlc & ->).
        rewrite Hnb in Hn1'. injection Hn1' as <-.
        eexists _, _. split; [exact H|].
        split; [exists nlc; reflexivity|].
        split; [reflexivity|].
        split; [exact (arr_get_set_eq _ _ _ _ Hnlc)|]. repeat split. }
    destruct Hrec as (sc & nodec & Hloop & [nlc ->] & Htok & Hnc & Hty & Hcid & Hch).
    destruct (IH _ _ _ _ _ Hloop Hnc)
      as (cs & rest & nl2 & node2 & -> & Hnz' & -> & Hn2 & Hty2 & Hcid2 & Hch2).
    exists (lit :: cs), rest, nl2, node2.
    split; [reflexivity|]. split; [constructor; assumption|].
    split; [reflexivity|]. split; [exact Hn2|].
    split; [congruence|]. split; [congruence|].
    rewrite Hch2, Hch, <- app_assoc. reflexivity.
Qed.


(** The parts of the state that the commands on nodes leave alone. *)
Let store_part s :=
  (chunk_set s, clause_blocks s, clause_last_id s, declared_root s).

Lemma cpog_add_product_post s cid s' :
  store_ok s -> 0 <= input_variable_count (opts s) ->
  cpog_add_product cid s = Ok tt s' ->
  exists nid cs rest node,
    tokens s = TOK_INT nid :: map TOK_INT cs ++ TOK_INT 0 :: TOK_EOL :: rest /\
    tokens s' = rest /\
    Forall (fun c => c <> 0) cs /\
    arr_get (node_list s') (nid - input_variable_count (opts s) - 1) = Some node /\
    node_type node = NODE_PRODUCT /\ node_cid node = cid /\ children node = cs /\
    store_ok s' /\
    stored s' cid
      (if (zlength cs =? 0) && (nid =? declared_root s)
       then CLAUSE_ROOT else CLAUSE_TSEITIN)
      (nid :: map Z.opp cs) /\
    (forall i c, cs !! i = Some c ->
       stored s' (cid + 1 + Z.of_nat i) CLAUSE_TSEITIN [- nid; c]) /\
    clauses_kept s s'.
Proof.
  intros Hok Hnvar H. unfold cpog_add_product in H.
  apply bind_ok in H. destruct H as (t & s0 & Ht & H).
  destruct t as [nid| | | | | |]; try discriminate.
  assert (Hs0 : exists ts, tokens s = TOK_INT nid :: ts /\ s0 = set_tokens ts s).
  { unfold token_next in Ht. destruct (tokens s) as [|t ts]; [discriminate|].
    injection Ht as -> <-. eauto. }
  destruct Hs0 as (ts & Htok & ->). clear Ht.
  apply bind_ok in H. destruct H as (idx & s1 & Hnew & H).
  assert (Hkeep1 : store_part s1 = store_part s).
  { pose proof (keeps_node_new store_part
                  ltac:(reflexivity) ltac:(reflexivity) ltac:(reflexivity)
                  NODE_PRODUCT nid cid (set_tokens ts s)) as K.
    rewrite Hnew in K. exact K. }
  apply node_new_post in Hnew.
  destruct Hnew as (Hid & Hidx & Hopts1 & Htok1 & extra & node0 & _ & Hn0 & Hset1).
  change (opts (set_tokens ts s)) with (opts s) in Hid, Hidx, Hopts1.
  change (tokens (set_tokens ts s)) with ts in Htok1.
  change (node_list (set_tokens ts s)) with (node_list s) in Hn0, Hset1.
  apply bind_ok in H. destruct H as (u2 & s2 & Hup2 & H).
  apply update_node_post in Hup2. destruct Hup2 as (n1 & nl2 & Hn1 & Hset2 & ->).
  rewrite (arr_get_set_eq _ _ _ _ Hset1) in Hn1. injection Hn1 as <-.
  apply bind_ok in H. destruct H as (u3 & s3 & Hup3 & H).
  apply update_node_post in Hup3. destruct Hup3 as (n2 & nl3 & Hn2 & Hset3 & ->).
  change (node_list (set_node_list nl2 s1)) with nl2 in Hn2, Hset3.
  rewrite (arr_get_set_eq _ _ _ _ Hset2) in Hn2. injection Hn2 as <-.
  apply bind_ok in H. destruct H as (sx & s3 & Hget & H).
  apply get_ok in Hget. destruct Hget as [-> ->].
  set (s3 := set_node_list nl3 (set_node_list nl2 s1)) in *.
  change (tokens s3) with (tokens s1) in H. rewrite Htok1 in H.
  apply bind_ok in H. destruct H as (local & s4 & Hloop & H).
  assert (Hn3 : arr_get (node_list s3) idx = Some
                  (set_dependency_list []
                     (set_children []
                        (set_ring_value None
                           (set_node_cid cid (set_node_type NODE_PRODUCT node0))))))
    by exact (arr_get_set_eq _ _ _ _ Hset3).
  destruct (product_children_run _ _ _ _ _ _ _ _ Hloop Hn3)
    as (cs & rest0 & nl4 & node4 & Hts & Hnz & -> & Hn4 & Hty4 & Hcid4 & Hch4).
  cbn in Hty4, Hcid4, Hch4.
  apply bind_ok in H. destruct H as (sx & s4 & Hget & H).
  apply get_ok in Hget. destruct Hget as [-> ->].
  set (s4 := set_tokens rest0 (set_node_list nl4 s3)) in *.
  apply bind_ok in H. destruct H as (u5 & s5 & Hblock & H).
  assert (Hs5 : exists nl5 node5,
            s5 = set_node_list nl5 s4 /\ arr_get nl5 idx = Some node5 /\
            node_type node5 = NODE_PRODUCT /\ node_cid node5 = cid /\
            children node5 = cs).
  { destruct (0 <? zlength local).
    - apply bind_ok in Hblock. destruct Hblock as (local' & sa & Hl & Hblock).
      assert (sa = s4) as ->.
      { destruct (repeated_literal_ok (opts s4)).
        - apply ret_ok in Hl. apply Hl.
        - destruct (ilist_find_duplicate _); [discriminate|].
          apply ret_ok in Hl. apply Hl. }
      apply bind_ok in Hblock. destruct Hblock as (node & sa & Hrn & Hblock).
      apply read_node_ok in Hrn. destruct Hrn as [Hrn ->].
      change (node_list s4) with nl4 in Hrn. rewrite Hn4 in Hrn. injection Hrn as <-.
      destruct (ilist_is_disjoint _ _); [discriminate|].
      apply update_node_post in Hblock.
      destruct Hblock as (n5 & nl5 & Hn5 & Hnl5 & ->).
      change (node_list s4) with nl4 in Hn5, Hnl5.
      rewrite Hn4 in Hn5. injection Hn5 as <-.
      eexists nl5, _. split; [reflexivity|].
      split; [exact (arr_get_set_eq _ _ _ _ Hnl5)|]. cbn. auto.
    - apply ret_ok in Hblock. destruct Hblock as [_ ->].
      exists nl4, node4. split; [reflexivity|]. auto. }
  destruct Hs5 as (nl5 & node5 & -> & Hn5 & Hty5 & Hcid5 & Hch5).
  set (s5 := set_node_list nl5 s4) in *.
  apply bind_ok in H. destruct H as (t & s6 & Ht & H).
  destruct t; try discriminate.
  assert (Hs6 : exists rest, rest0 = TOK_EOL :: rest /\ s6 = set_tokens rest s5).
  { unfold token_next in Ht. change (tokens s5) with rest0 in Ht.
    destruct rest0 as [|t r]; [discriminate|]. injection Ht as -> <-. eauto. }
  destruct Hs6 as (rest & -> & ->). clear Ht.
  set (s6 := set_tokens rest s5) in *.
  assert (Hstore6 : store_part s6 = store_part s) by exact Hkeep1.
  injection Hstore6 as Hc6 Hb6 Hl6 Hr6.
  destruct (store_ok_same s s6 Hc6 Hb6 Hl6 Hok) as (Hok6 & Hk6).
  apply bind_ok in H. destruct H as (u7 & s7 & Hstart & H).
  apply bind_ok in H. destruct H as (u8 & s8 & Hadd1 & H).
  apply bind_ok in H. destruct H as (node & s9 & Hrn & H).
  apply read_node_ok in Hrn. destruct Hrn as [Hrn ->].
  apply bind_ok in H. destruct H as (sx & s9 & Hget & H).
  apply get_ok in Hget. destruct Hget as [-> ->]. cbv zeta in H.
  apply bind_ok in H. destruct H as (u9 & s9 & Hadd2 & H).
  apply bind_ok in H. destruct H as (u10 & s10 & Hadd3 & H).
  apply bind_ok in H. destruct H as (u11 & s11 & Hfin & H).
  apply bind_ok in H. destruct H as (u12 & s12 & Hchild & H).
  assert (Hnode : node = node5).
  { pose proof (clause_add_literal_post _ _ _ _ Hadd1) as E. rewrite E in Hrn.
    destruct (start_clause_post _ _ _ _ Hstart) as (_ & _ & _ & Hnl7 & _).
    cbn in Hrn. rewrite Hnl7 in Hrn. change (node_list s6) with nl5 in Hrn.
    congruence. }
  subst node. rewrite Hch5 in Hadd2, Hfin, Hchild, H.
  assert (Hroot8 : declared_root s8 = declared_root s).
  { pose proof (clause_add_literal_post _ _ _ _ Hadd1) as E. rewrite E. cbn.
    clear - Hstart Hr6. unfold start_clause in Hstart.
    apply bind_ok in Hstart. destruct Hstart as (s0 & sa & Hget & H).
    apply get_ok in Hget. destruct Hget as [-> ->].
    destruct (cid <=? clause_last_id s6); [discriminate|].
    apply bind_ok in H. destruct H as (u3 & sa & Hblocks & H).
    assert (Hsa : exists bl, sa = set_clause_blocks bl s6).
    { destruct (_ || _).
      - apply modify_ok in Hblocks. eauto.
      - apply bind_ok in Hblocks. destruct Hblocks as (b & sb & Hb & Hblocks).
        apply defined_ok in Hb. destruct Hb as [_ ->].
        apply bind_ok in Hblocks. destruct Hblocks as (bl & sb & Hbl & Hblocks).
        apply defined_ok in Hbl. destruct Hbl as [_ ->].
        apply modify_ok in Hblocks. eauto. }
    destruct Hsa as [bl ->].
    apply bind_ok in H. destruct H as (u4 & sb & H4 & H). apply modify_ok in H4. subst sb.
    apply bind_ok in H. destruct H as (u5 & sb & H5 & H). apply modify_ok in H5. subst sb.
    apply modify_ok in H. subst s7. exact Hr6. }
  rewrite Hroot8 in Hfin, H.
  set (ctype := if (zlength cs =? 0) && (nid =? declared_root s)
                then CLAUSE_ROOT else CLAUSE_TSEITIN) in *.
  assert (Hrun : (start_clause cid ;;;
                  clause_add_literals ((nid :: map Z.opp cs) ++ [0]) ;;;
                  finish_clause cid ctype) s6 = Ok u11 s11).
  { unfold bind at 1. rewrite Hstart. unfold bind at 1.
    rewrite (clause_add_literals_snoc (nid :: map Z.opp cs) 0 s7 u9 s9 u10 s10).
    - exact Hfin.
    - exact (clause_add_literals_cons _ _ _ _ _ _ _ Hadd1 Hadd2).
    - exact Hadd3. }
  assert (Hlits : Forall (fun l => l <> 0) (nid :: map Z.opp cs)).
  { constructor; [lia|]. apply List.Forall_forall. intros x Hx.
    apply in_map_iff in Hx. destruct Hx as (c & <- & Hc).
    rewrite List.Forall_forall in Hnz. specialize (Hnz _ Hc). lia. }
  destruct (store_clause_full _ _ _ _ _ _ Hok6 Hlits Hrun)
    as (Hok11 & _ & Hst11 & Hk11 & A1 & A2 & A3 & A4 & A5 & A6).
  assert (Hneg : - nid <> 0) by lia.
  assert (Hone : 1 <> 0) by lia.
  destruct (child_clauses_stored _ _ _ _ _ _ _ _ Hok11 Hneg Hone Hnz Hchild)
    as (Hok12 & Hall12 & Hk12 & B1 & B2 & B3 & B4 & B5 & B6).
  assert (Hlast : chunk_set s' = chunk_set s12 /\
                  clause_blocks s' = clause_blocks s12 /\
                  clause_last_id s' = clause_last_id s12 /\
                  node_list s' = node_list s12 /\ tokens s' = tokens s12).
  { destruct (_ && _).
    - apply modify_ok in H. subst s'. repeat split; reflexivity.
    - apply ret_ok in H. destruct H as [_ ->]. repeat split; reflexivity. }
  destruct Hlast as (C1 & C2 & C3 & C4 & C5).
  destruct (store_ok_same s12 s' C1 C2 C3 Hok12) as (Hok' & Hk').
  exists nid, cs, rest, node5.
  split; [rewrite Htok, Hts; reflexivity|].
  split; [rewrite C5, B4, A4; reflexivity|].
  split; [exact Hnz|].
  split; [rewrite C4, B1, A1, <- Hidx; exact Hn5|].
  split; [exact Hty5|]. split; [exact Hcid5|]. split; [exact Hch5|].
  split; [exact Hok'|].
  split.
  { apply (stored_kept s12 s' _ _ _ Hk').
    apply (stored_kept s11 s12 _ _ _ Hk12). exact Hst11. }
  split.
  { intros i c Hi. apply (stored_kept s12 s' _ _ _ Hk').
    pose proof (Hall12 i c Hi) as Hs. rewrite Z.mul_1_l in Hs. exact Hs. }
  exact (clauses_kept_trans _ _ _ Hk6
           (clauses_kept_trans _ _ _ Hk11 (clauses_kept_trans _ _ _ Hk12 Hk'))).
Qed.

End ProductClauses.

(** The command [p] stores the defining clauses of the product.  When
    [cpog_add_product] returns on a well-formed store, the line was the id
    of the node, its children, none of them 0, a 0 and the end of the line;
    the node has these children and the clause id [cid]; the clause [cid]
    holds the node and the negated children, of type Tseitin (root for a
    product without children that is the declared root); the clause
    [cid + i] holds the negated node and the [i]-th child; and every clause
    stored before is found as it was. *)
Theorem product_clauses_stored (s : checker) (cid : Z) (s' : checker) :
  store_ok s -> 0 <= input_variable_count (opts s) ->
  cpog_add_product cid s = Ok tt s' ->
  exists nid cs rest node,
    tokens s = TOK_INT nid :: map TOK_INT cs ++ TOK_INT 0 :: TOK_EOL :: rest /\
    tokens s' = rest /\
    Forall (fun c => c <> 0) cs /\
    arr_get (node_list s') (nid - input_variable_count (opts s) - 1) = Some node /\
    node_type node = NODE_PRODUCT /\ node_cid node = cid /\ children node = cs /\
    store_ok s' /\
    stored s' cid
      (if (zlength cs =? 0) && (nid =? declared_root s)
       then CLAUSE_ROOT else CLAUSE_TSEITIN)
      (nid :: map Z.opp cs) /\
    (forall i c, cs !! i = Some c ->
       stored s' (cid + 1 + Z.of_nat i) CLAUSE_TSEITIN [- nid; c]) /\
    clauses_kept s s'.
Proof. exact (cpog_add_product_post s cid s'). Qed.

Lemma product_clauses_stored_witness :
  let s := set_tokens [TOK_INT 3; TOK_INT 1; TOK_INT (-2); TOK_INT 0; TOK_EOL]
                      (clause_init (default_options 2 0)) in
  exists s',
    cpog_add_product 1 s = Ok tt s' /\
    stored s' 1 CLAUSE_TSEITIN [3; -1; 2] /\
    stored s' 2 CLAUSE_TSEITIN [-3; 1] /\
    stored s' 3 CLAUSE_TSEITIN [-3; -2].
Proof.
  intros s.
  destruct (cpog_add_product 1 s) as [[] s'|e s'| |] eqn:Hrun.
  2-4: vm_compute in Hrun; discriminate.
  exists s'. split; [reflexivity|].
  assert (Hok : store_ok s) by exact (clause_init_store_ok (default_options 2 0)).
  assert (Hnvar : 0 <= input_variable_count (opts s)) by (vm_compute; discriminate).
  destruct (product_clauses_stored s 1 s' Hok Hnvar Hrun)
    as (nid & cs & rest & node & Htok & _ & _ & _ & _ & _ & _ & _ & H1 & Hall & _).
  change (tokens s) with [TOK_INT 3; TOK_INT 1; TOK_INT (-2); TOK_INT 0; TOK_EOL]
    in Htok.
  assert (Hcs : nid = 3 /\ cs = [1; -2]).
  { clear - Htok. injection Htok as <- Htok.
    destruct cs as [|c1 cs]; [discriminate|]. injection Htok as <- Htok.
    destruct cs as [|c2 cs]; [discriminate|]. injection Htok as <- Htok.
    destruct cs as [|c3 cs]; [auto|].
    injection Htok as _ Htok. destruct cs; discriminate. }
  destruct Hcs as [-> ->].
  split; [exact H1|].
  split; [exact (Hall 0%nat 1 eq_refl)|exact (Hall 1%nat (-2) eq_refl)].
Defined.

Section SkolemClauses.

Implicit Types (s : checker).

(** A child that the command [t] accepts: a literal of a projection
    variable. *)
Let projected s (c : Z) : Prop :=
  c <> 0 /\ IABS c <= input_variable_count (opts s) /\
  arr_get (show_variables (opts s)) (IABS c - 1) = Some false.

Lemma skolem_children_run nid idx : forall ts s1 u s2 node1,
  skolem_children_loop ts nid idx s1 = Ok u s2 ->
  arr_get (node_list s1) idx = Some node1 ->
  exists cs rest nl node2,
    ts = map TOK_INT cs ++ TOK_INT 0 :: rest /\
    Forall (projected s1) cs /\
    s2 = set_tokens rest (set_node_list nl s1) /\
    arr_get nl idx = Some node2 /\
    node_type node2 = node_type node1 /\ node_cid node2 = node_cid node1 /\
    children node2 = children node1 ++ cs /\
    dependency_list node2 = dependency_list node1 ++ map IABS cs.
Proof.
  induction ts as [|t r IH]; intros s1 u s2 node1 H Hn1; [discriminate|].
  cbn [skolem_children_loop] in H.
  destruct t as [lit| | | | | |];
    try (unfold bind, modify, err_printf in H; discriminate).
  apply bind_ok in H. destruct H as (u0 & sa & Hm & H).
  apply modify_ok in Hm. subst sa.
  destruct (Z.eqb_spec lit 0) as [->|Hnz].
  - apply ret_ok in H. destruct H as [_ ->].
    exists [], r, (node_list s1), node1. cbn. rewrite !app_nil_r.
    repeat split; try reflexivity; [constructor|exact Hn1].
  - apply bind_ok in H. destruct H as (u1 & sb & Hup & H).
    apply update_node_post in Hup. destruct Hup as (n0 & nl & Hn0 & Hnl & ->).
    change (node_list (set_tokens r s1)) with (node_list s1) in Hn0, Hnl.
    rewrite Hn1 in Hn0. injection Hn0 as <-.
    set (sb := set_node_list nl (set_tokens r s1)) in *.
    assert (Hnb : arr_get (node_list sb) idx
                  = Some (set_children (children node1 ++ [lit]) node1))
      by exact (arr_get_set_eq _ _ _ _ Hnl).
    apply bind_ok in H. destruct H as (sx & sc & Hget & H).
    apply get_ok in Hget. destruct Hget as [-> ->].
    change (opts sb) with (opts s1) in H.
    destruct (Z.leb_spec (IABS lit) (input_variable_count (opts s1))) as [Hin|];
      [|discriminate].
    apply bind_ok in H. destruct H as (show & sc & Hshow & H).
    apply defined_ok in Hshow. destruct Hshow as [Hshow ->].
    destruct show; [discriminate|].
    apply bind_ok in H. destruct H as (u3 & sc & Hup & H).
    apply update_node_post in Hup. destruct Hup as (n1 & nlc & Hn1' & Hnlc & ->).
    rewrite Hnb in Hn1'. injection Hn1' as <-.
    set (sc := set_node_list nlc sb) in *.
    assert (Hnc : arr_get (node_list sc) idx = Some
                    (set_dependency_list (dependency_list node1 ++ [IABS lit])
                       (set_children (children node1 ++ [lit]) node1)))
      by exact (arr_get_set_eq _ _ _ _ Hnlc).
    destruct (IH _ _ _ _ H Hnc)
      as (cs & rest & nl2 & node2 & -> & Hall & -> & Hn2 & Hty2 & Hcid2 & Hch2 & Hdep2).
    exists (lit :: cs), rest, nl2, node2.
    split; [reflexivity|].
    split; [constructor; [repeat split; assumption|exact Hall]|].
    split; [reflexivity|]. split; [exact Hn2|].
    split; [exact Hty2|]. split; [exact Hcid2|].
    cbn in Hch2, Hdep2. rewrite Hch2, Hdep2, <- !app_assoc. split; reflexivity.
Qed.


End SkolemClauses.

Section StoreFrames.

Context {X : Type} (proj : checker -> X).
(** The part [proj] is untouched by the clause store. *)
Hypothesis proj_blocks : forall x s, proj (set_clause_blocks x s) = proj s.
Hypothesis proj_last : forall x s, proj (set_clause_last_id x s) = proj s.
Hypothesis proj_count : forall x s, proj (set_clause_count x s) = proj s.
Hypothesis proj_current : forall x s, proj (set_current_clause x s) = proj s.
Hypothesis proj_chunks : forall x s, proj (set_chunk_set x s) = proj s.

Lemma keeps_start_clause cid : keeps proj (start_clause cid).
Proof.
  unfold start_clause. apply keeps_get_bind. intros s0.
  destruct (cid <=? _); [apply keeps_err|].
  apply keeps_bind.
  - destruct (_ || _).
    + apply keeps_modify. intros. apply proj_blocks.
    + apply keeps_bind; [apply keeps_defined|intros b].
      apply keeps_bind; [apply keeps_defined|intros bl].
      apply keeps_modify. intros. apply proj_blocks.
  - intros _. apply keeps_bind; [apply keeps_modify; intros; apply proj_last|intros _].
    apply keeps_bind; [apply keeps_modify; intros; apply proj_count|intros _].
    apply keeps_modify; intros; apply proj_current.
Qed.

Lemma keeps_clause_add_literal lit : keeps proj (clause_add_literal lit).
Proof.
  unfold clause_add_literal.
  apply keeps_bind; [apply keeps_modify; intros; apply proj_current|intros _].
  apply keeps_get_bind. intros s0.
  destruct (_ && _); [apply keeps_err|apply keeps_ret].
Qed.

Lemma keeps_finish_clause cid type : keeps proj (finish_clause cid type).
Proof.
  unfold finish_clause. apply keeps_get_bind. intros s0. cbv zeta.
  destruct (CHUNK_SIZE <? _); [apply keeps_err|].
  apply keeps_bind.
  - destruct (CHUNK_SIZE <? _); [|apply keeps_ret].
    destruct (_ <=? _); [apply keeps_err|].
    apply keeps_modify. intros. apply proj_chunks.
  - intros _. apply keeps_get_bind. intros s1.
    apply keeps_bind; [apply keeps_defined|intros c].
    apply keeps_bind; [apply keeps_defined|intros chunks].
    apply keeps_bind; [apply keeps_modify; intros; apply proj_chunks|intros _].
    apply keeps_bind; [apply keeps_defined|intros b].
    apply keeps_bind; [apply keeps_defined|intros bl].
    apply keeps_modify. intros. apply proj_blocks.
Qed.

Lemma keeps_child_clauses first sign ctype : forall cs cid,
  keeps proj (child_clauses cid first sign ctype cs).
Proof.
  induction cs as [|c r IH]; intros cid; cbn [child_clauses]; [apply keeps_ret|].
  apply keeps_bind; [apply keeps_start_clause|intros _].
  apply keeps_bind; [apply keeps_clause_add_literal|intros _].
  apply keeps_bind; [apply keeps_clause_add_literal|intros _].
  apply keeps_bind; [apply keeps_clause_add_literal|intros _].
  apply keeps_bind; [apply keeps_finish_clause|intros _].
  apply IH.
Qed.

End StoreFrames.

Section SkolemCommand.

Implicit Types (s : checker).

Let store_part s :=
  (chunk_set s, clause_blocks s, clause_last_id s, virtual_clause_count s).

Lemma cpog_add_skolem_post s cid s' :
  store_ok s -> 0 <= input_variable_count (opts s) ->
  cpog_add_skolem cid s = Ok tt s' ->
  exists nid cs rest node,
    tokens s = TOK_INT nid :: map TOK_INT cs ++ TOK_INT 0 :: TOK_EOL :: rest /\
    tokens s' = rest /\
    is_pkc (opts s) = true /\
    Forall (fun c => c <> 0 /\ IABS c <= input_variable_count (opts s) /\
              arr_get (show_variables (opts s)) (IABS c - 1) = Some false) cs /\
    arr_get (node_list s') (nid - input_variable_count (opts s) - 1) = Some node /\
    node_type node = NODE_SKOLEM /\ node_cid node = cid /\ children node = cs /\
    dependency_list node =
      (if repeated_literal_ok (opts s)
       then ilist_deduplicate (ilist_sort (map IABS cs))
       else ilist_sort (map IABS cs)) /\
    (repeated_literal_ok (opts s) = false -> NoDup (map IABS cs)) /\
    store_ok s' /\
    stored s' cid CLAUSE_DISABLE [nid] /\
    (if use_explicit_deletion (opts s)
     then (forall i c, cs !! i = Some c ->
             stored s' (cid + 1 + Z.of_nat i) CLAUSE_SKOLEM [- nid; c]) /\
          virtual_clause_count s' = virtual_clause_count s
     else clause_last_id s' = cid /\
          virtual_clause_count s' = virtual_clause_count s + zlength cs) /\
    clauses_kept s s'.
Proof.
  intros Hok Hnvar H. unfold cpog_add_skolem in H.
  apply bind_ok in H. destruct H as (t & s0 & Ht & H).
  destruct t as [nid| | | | | |]; try discriminate.
  assert (Hs0 : exists ts, tokens s = TOK_INT nid :: ts /\ s0 = set_tokens ts s).
  { unfold token_next in Ht. destruct (tokens s) as [|t ts]; [discriminate|].
    injection Ht as -> <-. eauto. }
  destruct Hs0 as (ts & Htok & ->). clear Ht.
  apply bind_ok in H. destruct H as (sx & sa & Hget & H).
  apply get_ok in Hget. destruct Hget as [-> ->].
  change (opts (set_tokens ts s)) with (opts s) in H.
  destruct (is_pkc (opts s)) eqn:Hpkc; [|discriminate]. cbn [negb] in H.
  apply bind_ok in H. destruct H as (idx & s1 & Hnew & H).
  assert (Hkeep1 : store_part s1 = store_part s).
  { pose proof (keeps_node_new store_part
                  ltac:(reflexivity) ltac:(reflexivity) ltac:(reflexivity)
                  NODE_SKOLEM nid cid (set_tokens ts s)) as K.
    rewrite Hnew in K. exact K. }
  apply node_new_post in Hnew.
  destruct Hnew as (Hid & Hidx & Hopts1 & Htok1 & extra & node0 & _ & Hn0 & Hset1).
  change (opts (set_tokens ts s)) with (opts s) in Hid, Hidx, Hopts1.
  change (tokens (set_tokens ts s)) with ts in Htok1.
  change (node_list (set_tokens ts s)) with (node_list s) in Hn0, Hset1.
  apply bind_ok in H. destruct H as (u2 & s2 & Hup2 & H).
  apply update_node_post in Hup2. destruct Hup2 as (n1 & nl2 & Hn1 & Hset2 & ->).
  rewrite (arr_get_set_eq _ _ _ _ Hset1) in Hn1. injection Hn1 as <-.
  apply bind_ok in H. destruct H as (u3 & s3 & Hup3 & H).
  apply update_node_post in Hup3. destruct Hup3 as (n2 & nl3 & Hn2 & Hset3 & ->).
  change (node_list (set_node_list nl2 s1)) with nl2 in Hn2, Hset3.
  rewrite (arr_get_set_eq _ _ _ _ Hset2) in Hn2. injection Hn2 as <-.
  apply bind_ok in H. destruct H as (sx & s3 & Hget & H).
  apply get_ok in Hget. destruct Hget as [-> ->].
  set (s3 := set_node_list nl3 (set_node_list nl2 s1)) in *.
  change (tokens s3) with (tokens s1) in H. rewrite Htok1 in H.
  apply bind_ok in H. destruct H as (u4 & s4 & Hloop & H).
  assert (Hn3 : arr_get (node_list s3) idx = Some
                  (set_dependency_list []
                     (set_children []
                        (set_ring_value None
                           (set_node_cid cid (set_node_type NODE_SKOLEM node0))))))
    by exact (arr_get_set_eq _ _ _ _ Hset3).
  destruct (skolem_children_run _ _ _ _ _ _ _ Hloop Hn3)
    as (cs & rest0 & nl4 & node4 & Hts & Hall & -> & Hn4 & Hty4 & Hcid4 & Hch4 & Hdep4).
  cbn in Hty4, Hcid4, Hch4, Hdep4.
  change (opts s3) with (opts s1) in Hall. rewrite Hopts1 in Hall.
  set (s4 := set_tokens rest0 (set_node_list nl4 s3)) in *.
  apply bind_ok in H. destruct H as (u5 & s5 & Hup5 & H).
  apply update_node_post in Hup5. destruct Hup5 as (n5 & nl5 & Hn5 & Hset5 & ->).
  change (node_list s4) with nl4 in Hn5, Hset5.
  rewrite Hn4 in Hn5. injection Hn5 as <-.
  apply bind_ok in H. destruct H as (sx & s5 & Hget & H).
  apply get_ok in Hget. destruct Hget as [-> ->].
  set (s5 := set_node_list nl5 s4) in *.
  apply bind_ok in H. destruct H as (node & sb & Hrn & H).
  apply read_node_ok in Hrn. destruct Hrn as [Hrn ->].
  change (node_list s5) with nl5 in Hrn.
  rewrite (arr_get_set_eq _ _ _ _ Hset5) in Hrn. injection Hrn as <-.
  cbn [dependency_list set_dependency_list] in H. rewrite Hdep4 in H.
  change (opts s5) with (opts s1) in H. rewrite Hopts1 in H.
  apply bind_ok in H. destruct H as (u6 & s6 & Hdup & H).
  assert (Hs6 : exists nl6 node6,
            s6 = set_node_list nl6 s5 /\ arr_get nl6 idx = Some node6 /\
            node_type node6 = NODE_SKOLEM /\ node_cid node6 = cid /\
            children node6 = cs /\
            dependency_list node6 =
              (if repeated_literal_ok (opts s)
               then ilist_deduplicate (ilist_sort (map IABS cs))
               else ilist_sort (map IABS cs)) /\
            (repeated_literal_ok (opts s) = false -> NoDup (map IABS cs))).
  { destruct (repeated_literal_ok (opts s)).
    - apply update_node_post in Hdup. destruct Hdup as (n6 & nl6 & Hn6 & Hset6 & ->).
      change (node_list s5) with nl5 in Hn6, Hset6.
      rewrite (arr_get_set_eq _ _ _ _ Hset5) in Hn6. injection Hn6 as <-.
      eexists nl6, _. split; [reflexivity|].
      split; [exact (arr_get_set_eq _ _ _ _ Hset6)|]. cbn.
      repeat split; auto. discriminate.
    - destruct (ilist_find_duplicate (ilist_sort (map IABS cs))) eqn:Hfd;
        [discriminate|].
      apply ret_ok in Hdup. destruct Hdup as [_ ->].
      eexists nl5, _. split; [reflexivity|].
      split; [exact (arr_get_set_eq _ _ _ _ Hset5)|]. cbn. rewrite Hdep4.
      repeat split; auto. intros _.
      rewrite <- (ilist_sort_perm (map IABS cs)).
      apply strictly_sorted_NoDup, ilist_find_duplicate_none;
        [apply ilist_sort_sorted|exact Hfd]. }
  destruct Hs6 as (nl6 & node6 & -> & Hn6 & Hty6 & Hcid6 & Hch6 & Hdep6 & Hnd).
  set (s6 := set_node_list nl6 s5) in *.
  apply bind_ok in H. destruct H as (t & s7 & Ht & H).
  destruct t; try discriminate.
  assert (Hs7 : exists rest, rest0 = TOK_EOL :: rest /\ s7 = set_tokens rest s6).
  { unfold token_next in Ht. change (tokens s6) with rest0 in Ht.
    destruct rest0 as [|t r]; [discriminate|]. injection Ht as -> <-. eauto. }
  destruct Hs7 as (rest & -> & ->). clear Ht.
  set (s7 := set_tokens rest s6) in *.
  assert (Hstore7 : store_part s7 = store_part s) by exact Hkeep1.
  injection Hstore7 as Hc7 Hb7 Hl7 Hv7.
  destruct (store_ok_same s s7 Hc7 Hb7 Hl7 Hok) as (Hok7 & Hk7).
  apply bind_ok in H. destruct H as (u8 & s8 & Hstart & H).
  apply bind_ok in H. destruct H as (u9 & s9 & Hadd1 & H).
  apply bind_ok in H. destruct H as (u10 & s10 & Hadd2 & H).
  apply bind_ok in H. destruct H as (u11 & s11 & Hfin & H).
  apply bind_ok in H. destruct H as (node & sb & Hrn & H).
  apply read_node_ok in Hrn. destruct Hrn as [Hrn ->].
  cbv zeta in H.
  assert (Hrun : (start_clause cid ;;; clause_add_literals ([nid] ++ [0]) ;;;
                  finish_clause cid CLAUSE_DISABLE) s7 = Ok u11 s11).
  { unfold bind at 1. rewrite Hstart. unfold bind at 1.
    cbn [app clause_add_literals]. unfold bind at 1. rewrite Hadd1.
    unfold bind at 1. rewrite Hadd2. unfold ret at 1. exact Hfin. }
  assert (Hlits : Forall (fun l => l <> 0) [nid]).
  { constructor; [lia|constructor]. }
  destruct (store_clause_full _ _ _ _ _ _ Hok7 Hlits Hrun)
    as (Hok11 & Hlast11 & Hst11 & Hk11 & A1 & A2 & A3 & A4 & A5 & A6).
  assert (Hv11 : virtual_clause_count s11 = virtual_clause_count s).
  { assert (K : keeps virtual_clause_count
                  (start_clause cid ;;; clause_add_literals ([nid] ++ [0]) ;;;
                   finish_clause cid CLAUSE_DISABLE)).
    { apply keeps_bind; [apply keeps_start_clause; reflexivity|intros _].
      apply keeps_bind; [|intros _; apply keeps_finish_clause; reflexivity].
      cbn [app clause_add_literals].
      apply keeps_bind; [apply keeps_clause_add_literal; reflexivity|intros _].
      apply keeps_bind; [apply keeps_clause_add_literal; reflexivity|intros _].
      apply keeps_ret. }
    specialize (K s7). rewrite Hrun in K. rewrite K. exact Hv7. }
  assert (Hnode : node = node6).
  { rewrite A1 in Hrn. change (node_list s7) with nl6 in Hrn. congruence. }
  subst node. rewrite Hch6 in H.
  exists nid, cs, rest, node6.
  split; [rewrite Htok, Hts; reflexivity|].
  assert (Hmid : Forall (fun c => c <> 0) cs).
  { eapply Forall_impl; [exact Hall|]. intros c Hc. apply Hc. }
  destruct (use_explicit_deletion (opts s)).
  - assert (Hneg : - nid <> 0) by lia.
    assert (Hone : 1 <> 0) by lia.
    destruct (child_clauses_stored _ _ _ _ _ _ _ _ Hok11 Hneg Hone Hmid H)
      as (Hok' & Hall' & Hk' & B1 & B2 & B3 & B4 & B5 & B6).
    split; [rewrite B4, A4; reflexivity|].
    split; [reflexivity|]. split; [exact Hall|].
    split; [rewrite B1, A1, <- Hidx; exact Hn6|].
    split; [exact Hty6|]. split; [exact Hcid6|]. split; [exact Hch6|].
    split; [exact Hdep6|]. split; [exact Hnd|]. split; [exact Hok'|].
    split; [exact (stored_kept _ _ _ _ _ Hk' Hst11)|].
    split; [split|].
    + intros i c Hi. pose proof (Hall' i c Hi) as Hs.
      rewrite Z.mul_1_l in Hs. exact Hs.
    + pose proof (keeps_child_clauses virtual_clause_count
                    ltac:(reflexivity) ltac:(reflexivity) ltac:(reflexivity)
                    ltac:(reflexivity) ltac:(reflexivity)
                    (- nid) 1 CLAUSE_SKOLEM cs (cid + 1) s11) as K.
      rewrite H in K. rewrite K. exact Hv11.
    + exact (clauses_kept_trans _ _ _ Hk7 (clauses_kept_trans _ _ _ Hk11 Hk')).
  - apply modify_ok in H. subst s'.
    destruct (store_ok_same s11 (set_virtual_clause_count
                                   (virtual_clause_count s11 + zlength cs) s11)
                eq_refl eq_refl eq_refl Hok11) as (Hok' & Hk').
    split; [cbn; rewrite A4; reflexivity|].
    split; [reflexivity|]. split; [exact Hall|].
    split; [cbn; rewrite A1, <- Hidx; exact Hn6|].
    split; [exact Hty6|]. split; [exact Hcid6|]. split; [exact Hch6|].
    split; [exact Hdep6|]. split; [exact Hnd|]. split; [exact Hok'|].
    split; [exact (stored_kept _ _ _ _ _ Hk' Hst11)|].
    split; [split; [exact Hlast11|cbn; rewrite Hv11; reflexivity]|].
    exact (clauses_kept_trans _ _ _ Hk7 (clauses_kept_trans _ _ _ Hk11 Hk')).
Qed.

End SkolemCommand.

(** The command [t] stores the clauses of a Skolem node.  When
    [cpog_add_skolem] returns on a well-formed store, the compilation is
    projected; the line was the id of the node, its children, a 0 and the
    end of the line; every child is a literal of an input variable that is
    not a show variable; the node has these children, and their variables,
    sorted, as its dependency set, without duplicates unless repeated
    literals are allowed, in which case they are removed.  The clause [cid]
    holds the node alone, with the type disable.  With explicit deletion
    the clause [cid + 1 + i] holds the negated node and the [i]-th child,
    with the type Skolem; otherwise no such clause is stored and the
    children are counted as virtual clauses.  Every clause stored before
    is found as it was. *)
Theorem skolem_clauses_stored (s : checker) (cid : Z) (s' : checker) :
  store_ok s -> 0 <= input_variable_count (opts s) ->
  cpog_add_skolem cid s = Ok tt s' ->
  exists nid cs rest node,
    tokens s = TOK_INT nid :: map TOK_INT cs ++ TOK_INT 0 :: TOK_EOL :: rest /\
    tokens s' = rest /\
    is_pkc (opts s) = true /\
    Forall (fun c => c <> 0 /\ IABS c <= input_variable_count (opts s) /\
              arr_get (show_variables (opts s)) (IABS c - 1) = Some false) cs /\
    arr_get (node_list s') (nid - input_variable_count (opts s) - 1) = Some node /\
    node_type node = NODE_SKOLEM /\ node_cid node = cid /\ children node = cs /\
    dependency_list node =
      (if repeated_literal_ok (opts s)
       then ilist_deduplicate (ilist_sort (map IABS cs))
       else ilist_sort (map IABS cs)) /\
    (repeated_literal_ok (opts s) = false -> NoDup (map IABS cs)) /\
    store_ok s' /\
    stored s' cid CLAUSE_DISABLE [nid] /\
    (if use_explicit_deletion (opts s)
     then (forall i c, cs !! i = Some c ->
             stored s' (cid + 1 + Z.of_nat i) CLAUSE_SKOLEM [- nid; c]) /\
          virtual_clause_count s' = virtual_clause_count s
     else clause_last_id s' = cid /\
          virtual_clause_count s' = virtual_clause_count s + zlength cs) /\
    clauses_kept s s'.
Proof. exact (cpog_add_skolem_post s cid s'). Qed.

Lemma skolem_clauses_stored_witness :
  let o := mk_options true true false false false true [true; false; false]
                      true false 0 3 in
  let s := set_tokens [TOK_INT 4; TOK_INT (-3); TOK_INT 2; TOK_INT 0; TOK_EOL]
                      (clause_init o) in
  exists s' node,
    cpog_add_skolem 1 s = Ok tt s' /\
    arr_get (node_list s') 0 = Some node /\
    dependency_list node = [2; 3] /\
    stored s' 1 CLAUSE_DISABLE [4] /\
    clause_last_id s' = 1 /\
    virtual_clause_count s' = 2.
Proof.
  intros o s.
  destruct (cpog_add_skolem 1 s) as [[] s'|e s'| |] eqn:Hrun.
  2-4: vm_compute in Hrun; discriminate.
  assert (Hok : store_ok s) by exact (clause_init_store_ok o).
  assert (Hnvar : 0 <= input_variable_count (opts s)) by (vm_compute; discriminate).
  destruct (skolem_clauses_stored s 1 s' Hok Hnvar Hrun)
    as (nid & cs & rest & node & Htok & _ & _ & _ & Hn & _ & _ & _ & Hdep & _ & _ &
        Hst & Hrest & _).
  change (tokens s) with [TOK_INT 4; TOK_INT (-3); TOK_INT 2; TOK_INT 0; TOK_EOL]
    in Htok.
  assert (Hcs : nid = 4 /\ cs = [-3; 2]).
  { clear - Htok. injection Htok as <- Htok.
    destruct cs as [|c1 cs]; [discriminate|]. injection Htok as <- Htok.
    destruct cs as [|c2 cs]; [discriminate|]. injection Htok as <- Htok.
    destruct cs as [|c3 cs]; [auto|].
    injection Htok as _ Htok. destruct cs; discriminate. }
  destruct Hcs as [-> ->].
  exists s', node. split; [reflexivity|].
  split; [exact Hn|]. split; [exact Hdep|]. split; [exact Hst|].
  exact Hrest.
Defined.

(** ** The check of the input clauses *)

Section CheckReads.

(** The check reads the nodes, the number of input variables and the
    declared root of the checker, and nothing else of it. *)
Variables s s' : checker.
Variable f : fanouts_t.
Hypothesis same_nodes : node_list s' = node_list s.
Hypothesis same_opts : opts s' = opts s.
Hypothesis same_root : declared_root s' = declared_root s.

Lemma priority_add_reads var : priority_add s' var = priority_add s var.
Proof. unfold priority_add, var_to_index. rewrite same_opts. reflexivity. Qed.

Lemma priority_add_all_reads l : priority_add_all s' l = priority_add_all s l.
Proof.
  induction l as [|v r IH]; [reflexivity|].
  cbn [priority_add_all]. rewrite priority_add_reads, IH. reflexivity.
Qed.

Lemma process_fanout_reads lit p :
  process_fanout s' f lit p = process_fanout s f lit p.
Proof.
  unfold process_fanout, bind. cbv zeta.
  destruct (defined _ p); try reflexivity.
  rewrite priority_add_all_reads. reflexivity.
Qed.

Lemma seed_fanouts_reads lits : forall p,
  seed_fanouts s' f lits p = seed_fanouts s f lits p.
Proof.
  induction lits as [|lit r IH]; intros p; [reflexivity|].
  cbn [seed_fanouts]. unfold bind. rewrite process_fanout_reads.
  destruct (process_fanout s f (- lit) p); try reflexivity. apply IH.
Qed.

Lemma visit_node_reads var p : visit_node s' f var p = visit_node s f var p.
Proof.
  unfold visit_node, var_to_index. rewrite same_nodes, same_opts, same_root.
  cbv zeta. unfold bind.
  destruct (defined _ p) as [node p1| | |]; try reflexivity.
  destruct (get p1) as [p2 p3| | |]; try reflexivity.
  destruct (defined _ p3) as [ecount p4| | |]; try reflexivity.
  destruct (defined _ p4) as [a p5| | |]; try reflexivity.
  destruct (modify _ p5) as [u p6| | |]; try reflexivity.
  destruct (_ <=? _); [|reflexivity].
  rewrite process_fanout_reads. reflexivity.
Qed.

Lemma rup_input_loop_reads : forall fuel p,
  rup_input_loop fuel s' f p = rup_input_loop fuel s f p.
Proof.
  induction fuel as [|fuel IH]; intros p; [reflexivity|].
  cbn [rup_input_loop].
  destruct (priority_next p) as [var p1| | |]; try reflexivity.
  destruct (0 <? var); [|reflexivity].
  rewrite visit_node_reads.
  destruct (visit_node s f var p1) as [c p2| | |]; try reflexivity.
  destruct c; [reflexivity|apply IH].
Qed.

Lemma rup_run_input_reads fuel tcid lits p :
  rup_run_input fuel s' f tcid lits p = rup_run_input fuel s f tcid lits p.
Proof.
  unfold rup_run_input. rewrite seed_fanouts_reads.
  destruct (seed_fanouts s f lits p); try reflexivity.
  rewrite rup_input_loop_reads. reflexivity.
Qed.

End CheckReads.

(** A deletion that returns has changed the blocks only. *)
Lemma clause_delete_state loc s d s1 :
  clause_delete loc s = Ok d s1 ->
  d = true /\ exists blocks, s1 = set_clause_blocks blocks s.
Proof.
  unfold clause_delete. unfold bind at 1, get at 1.
  destruct (arr_get (clause_blocks s) (bid loc)) as [b|]; [|discriminate].
  unfold bind at 1, defined at 1, ret.
  destruct (arr_get (blk_chunk b) (pos loc)) as [chunk|]; [|discriminate].
  unfold bind at 1, defined at 1, ret.
  destruct (arr_get (blk_offset b) (pos loc)) as [offset|]; [|discriminate].
  unfold bind at 1, defined at 1, ret.
  destruct (0 <=? offset).
  2:{ destruct (generate_clause_id loc s); discriminate. }
  destruct (clause_lits (chunk, offset) s) as [lits|]; [|discriminate].
  unfold bind at 1, defined at 1, ret.
  unfold bind at 1.
  destruct (clause_delete_scan lits s) as [[] s0| | |] eqn:Hscan; try discriminate.
  destruct (clause_delete_scan_ok _ _ _ Hscan) as [-> _].
  destruct (arr_set (blk_type b) (pos loc) CLAUSE_UNKNOWN) as [ty|]; [|discriminate].
  unfold bind at 1, defined at 1, ret.
  destruct (arr_set (clause_blocks s) (bid loc) _) as [blocks|]; [|discriminate].
  unfold bind at 1, defined at 1, ret. unfold bind, modify.
  intros [= <- <-]. split; [reflexivity|]. exists blocks. reflexivity.
Qed.

Lemma clause_delete_scan_input s : forall lits,
  input_literals s lits -> clause_delete_scan lits s = Ok tt s.
Proof.
  induction lits as [|lit r IH]; intros H; [reflexivity|].
  inversion H as [|? ? Hl Hr]; subst.
  cbn [clause_delete_scan]. unfold bind at 1, get at 1.
  destruct (Z.ltb_spec (input_variable_count (opts s)) (IABS lit)); [lia|].
  cbn [andb]. apply IH, Hr.
Qed.

(** The deletion of an input clause over the input variables returns. *)
Lemma clause_delete_input loc s type lits :
  clause_type loc s = Some type ->
  lits_at loc s = Some lits ->
  input_literals s lits ->
  exists s1, clause_delete loc s = Ok true s1.
Proof.
  unfold clause_type, lits_at, clause_locate, clause_delete.
  intros Hty Hlits Hin. unfold bind at 1, get at 1.
  destruct (arr_get (clause_blocks s) (bid loc)) as [b|] eqn:Hb; [|discriminate].
  unfold bind at 1, defined at 1, ret.
  destruct (arr_get (blk_chunk b) (pos loc)) as [chunk|]; [|discriminate].
  unfold bind at 1, defined at 1, ret.
  destruct (arr_get (blk_offset b) (pos loc)) as [offset|]; [|discriminate].
  unfold bind at 1, defined at 1, ret.
  destruct (Z.ltb_spec chunk 0); [discriminate|].
  destruct (Z.ltb_spec offset 0); [discriminate|].
  destruct (Z.leb_spec 0 offset); [|lia].
  rewrite Hlits. unfold bind at 1, defined at 1, ret.
  unfold bind at 1. rewrite (clause_delete_scan_input s lits Hin).
  destruct (arr_set_in_range (blk_type b) (pos loc) CLAUSE_UNKNOWN) as [ty Hset];
    [exact (arr_get_some_range _ _ _ Hty)|].
  rewrite Hset. unfold bind at 1, defined at 1, ret.
  match goal with
  | |- context [arr_set (clause_blocks s) (bid loc) ?b'] =>
      destruct (arr_set_in_range (clause_blocks s) (bid loc) b') as [bl Hbl];
        [exact (arr_get_some_range _ _ _ Hb)|]; rewrite Hbl
  end.
  unfold bind at 1, defined at 1, ret. unfold bind, modify.
  eexists. reflexivity.
Qed.

(** The check of one input clause: the clause is deleted, then checked
    from the propagator. *)
Lemma implicit_delete_run fuel f cid loc s p type lits :
  clause_type loc s = Some type ->
  lits_at loc s = Some lits ->
  input_literals s lits ->
  exists s1,
    clause_delete loc s = Ok true s1 /\
    implicit_delete_input_clause fuel f cid loc s p =
    match rup_run_input fuel s f cid lits p with
    | Some (Ok _ p1) => Some (Ok tt (s1, deletion_counted p1))
    | Some (Err e p1) => Some (Err e (s1, p1))
    | Some Undef => Some Undef
    | Some Diverge => Some Diverge
    | None => None
    end.
Proof.
  intros Hty Hlits Hin.
  destruct (clause_delete_input loc s type lits Hty Hlits Hin) as [s1 Hdel].
  exists s1. split; [exact Hdel|].
  unfold implicit_delete_input_clause. unfold lits_at in Hlits.
  destruct (clause_locate loc s) as [[ptr|]|]; try discriminate.
  rewrite Hdel. cbn [negb].
  destruct (clause_delete_state _ _ _ _ Hdel) as (_ & blocks & ->).
  change (clause_lits ptr (set_clause_blocks blocks s)) with (clause_lits ptr s).
  rewrite Hlits.
  rewrite (rup_run_input_reads s (set_clause_blocks blocks s) f
             eq_refl eq_refl eq_refl).
  reflexivity.
Qed.

(** The check of a clause over the input variables ends when the
    fan-outs lead upward: it returns when the root fires and exits when
    it does not. *)
Lemma check_total s f tcid lits p :
  fanouts_ok s f (zlength (node_event_count p)) = true ->
  prop_ok s f p ->
  input_literals s lits ->
  exists fuel0 p0 p1,
    seed_fanouts s f lits p = Ok tt p0 /\
    prop_ok s f p1 /\
    zlength (node_event_count p1) = zlength (node_event_count p) /\
    ((root_fires s f p0 /\
      forall fuel, (fuel0 <= fuel)%nat ->
        rup_run_input fuel s f tcid lits p = Some (Ok tt p1)) \/
     (~ root_fires s f p0 /\
      forall fuel, (fuel0 <= fuel)%nat ->
        rup_run_input fuel s f tcid lits p
        = Some (Err (ImplicitDeletionFailed tcid) p1))).
Proof.
  intros Hf Hok Hlits.
  destruct (seed_fanouts_ok s f lits p Hf Hok Hlits) as (p0 & Hseed & Hok0 & Hlen0).
  destruct (rup_input_loop_ends s f (rounds_left f p0) p0)
    as (c & p1 & Hloop & Hok1 & Hlen1).
  { rewrite Hlen0. exact Hf. }
  { exact Hok0. }
  { lia. }
  assert (Hreset : prop_ok s f (set_priority_count 0 p1)).
  { destruct Hok1 as (K1 & K2 & K3 & K4). unfold prop_ok, queued. cbn.
    split; [exact K1|]. split; [lia|].
    split; [apply NoDup_nil_2|apply Forall_nil_2]. }
  pose proof (rup_input_loop_conflict s f _ _ _ _ Hloop) as Hc.
  exists (S (rounds_left f p0)), p0, (set_priority_count 0 p1).
  split; [exact Hseed|]. split; [exact Hreset|].
  split; [cbn; congruence|].
  assert (Hrun : rup_run_input (S (rounds_left f p0)) s f tcid lits p =
                 Some (if c then Ok tt (set_priority_count 0 p1)
                       else Err (ImplicitDeletionFailed tcid)
                                (set_priority_count 0 p1))).
  { unfold rup_run_input. rewrite Hseed, Hloop. destruct c; reflexivity. }
  destruct c.
  - left. split; [apply Hc; reflexivity|].
    intros fuel Hfuel.
    exact (rup_run_input_mono _ _ _ _ _ _ _ _ Hfuel Hrun).
  - right. split; [intros Hr; apply Hc in Hr; discriminate|].
    intros fuel Hfuel.
    exact (rup_run_input_mono _ _ _ _ _ _ _ _ Hfuel Hrun).
Qed.

Lemma clause_delete_blocks loc s d s' :
  clause_delete loc s = Ok d s' ->
  exists b ty blocks,
    arr_get (clause_blocks s) (bid loc) = Some b /\
    arr_set (blk_type b) (pos loc) CLAUSE_UNKNOWN = Some ty /\
    arr_set (clause_blocks s) (bid loc)
      (mk_block (start_id b) (blk_length b) (blk_chunk b) (blk_offset b) ty)
    = Some blocks /\
    s' = set_clause_blocks blocks s.
Proof.
  unfold clause_delete. unfold bind at 1, get at 1.
  destruct (arr_get (clause_blocks s) (bid loc)) as [b|] eqn:Hb; [|discriminate].
  unfold bind at 1, defined at 1, ret.
  destruct (arr_get (blk_chunk b) (pos loc)) as [chunk|] eqn:Hch; [|discriminate].
  unfold bind at 1, defined at 1, ret.
  destruct (arr_get (blk_offset b) (pos loc)) as [offset|] eqn:Hof; [|discriminate].
  unfold bind at 1, defined at 1, ret.
  destruct (0 <=? offset) eqn:Hdel.
  2:{ destruct (generate_clause_id loc s); discriminate. }
  destruct (clause_lits (chunk, offset) s) as [lits|] eqn:Hlits; [|discriminate].
  unfold bind at 1, defined at 1, ret.
  unfold bind at 1.
  destruct (clause_delete_scan lits s) as [[] s0| | |] eqn:Hscan; try discriminate.
  destruct (clause_delete_scan_ok _ _ _ Hscan) as [-> _].
  destruct (arr_set (blk_type b) (pos loc) CLAUSE_UNKNOWN) as [ty|] eqn:Hty;
    [|discriminate].
  unfold bind at 1, defined at 1, ret.
  destruct (arr_set (clause_blocks s) (bid loc) _) as [blocks|] eqn:Hbl;
    [|discriminate].
  unfold bind at 1, defined at 1, ret. unfold bind, modify.
  intros [= <- <-]. exists b, ty, blocks. auto.
Qed.

Section RangeFacts.

Implicit Types (s : checker) (loc : clause_location_t).

Lemma retyped_slot s s' cid loc :
  retyped s s' -> (slot_of cid loc s' <-> slot_of cid loc s).
Proof.
  intros R. pose proof (retyped_get s s' (bid loc) R) as G.
  unfold slot_of. split; intros (b & Hb & Hpos & Hcid); rewrite Hb in G.
  - destruct (arr_get (clause_blocks s) (bid loc)) as [b0|]; [|destruct G].
    destruct G as (G1 & G2 & _). exists b0. split; [reflexivity|]. lia.
  - destruct (arr_get (clause_blocks s') (bid loc)) as [b0|]; [|destruct G].
    destruct G as (G1 & G2 & _). exists b0. split; [reflexivity|]. lia.
Qed.

Lemma retyped_sorted s s' :
  retyped s s' -> blocks_sorted (clause_blocks s) ->
  blocks_sorted (clause_blocks s').
Proof.
  intros R [Hlen Hord]. split.
  - apply List.Forall_forall. intros b' Hin.
    apply list_elem_of_In, list_elem_of_lookup in Hin. destruct Hin as [i Hi].
    pose proof (retyped_get s s' (Z.of_nat i) R) as G.
    assert (Hget : arr_get (clause_blocks s') (Z.of_nat i) = Some b').
    { unfold arr_get. destruct (Z.ltb_spec (Z.of_nat i) 0); [lia|].
      rewrite Nat2Z.id. exact Hi. }
    rewrite Hget in G.
    destruct (arr_get (clause_blocks s) (Z.of_nat i)) as [b|] eqn:Hb; [|destruct G].
    destruct G as (_ & G2 & _). rewrite G2.
    apply arr_get_lookup in Hb.
    rewrite List.Forall_forall in Hlen. apply Hlen.
    apply list_elem_of_In, list_elem_of_lookup. eauto.
  - intros i j bi bj Hij Hi Hj.
    pose proof (retyped_get s s' i R) as Gi. rewrite Hi in Gi.
    pose proof (retyped_get s s' j R) as Gj. rewrite Hj in Gj.
    destruct (arr_get (clause_blocks s) i) as [ci|] eqn:Ei; [|destruct Gi].
    destruct (arr_get (clause_blocks s) j) as [cj|] eqn:Ej; [|destruct Gj].
    destruct Gi as (A1 & A2 & _). destruct Gj as (B1 & B2 & _).
    pose proof (Hord i j ci cj Hij Ei Ej). lia.
Qed.

Lemma retyped_filled s s' :
  retyped s s' -> later_blocks_filled s -> later_blocks_filled s'.
Proof.
  intros R H i b' Hi Hb'.
  pose proof (retyped_get s s' i R) as G. rewrite Hb' in G.
  destruct (arr_get (clause_blocks s) i) as [b|] eqn:Hb; [|destruct G].
  destruct G as (_ & G2 & _). rewrite G2. exact (H i b Hi Hb).
Qed.

(** The deletion of the clause [cid] keeps what the loop needs, and
    leaves the other clauses as they are. *)
Lemma delete_keeps_inv s0 s cid loc d s1 :
  range_inv s0 s -> slot_of cid loc s ->
  clause_delete loc s = Ok d s1 ->
  range_inv s0 s1 /\ retyped s s1 /\ slot_of cid loc s1 /\
  forall c, c <> cid -> input_clause_at s1 c = input_clause_at s c.
Proof.
  intros (Hpog & Hsorted & Hfilled & Hwf & Hin) Hslot Hdel.
  destruct (clause_delete_post _ _ _ _ Hdel) as (_ & R & _ & Hun & Hother).
  destruct (clause_delete_blocks _ _ _ _ Hdel) as (b & ty & blocks & Hb & Hty & Hbl & ->).
  destruct (retyped_same _ _ R) as (Hfind & _ & Hlits).
  assert (Hslot1 : slot_of cid loc (set_clause_blocks blocks s))
    by (apply (retyped_slot _ _ _ _ R); exact Hslot).
  split; [|split; [exact R|split; [exact Hslot1|]]].
  - split; [exact Hpog|]. split; [exact (retyped_sorted _ _ R Hsorted)|].
    split; [exact (retyped_filled _ _ R Hfilled)|]. split.
    + cbn. unfold arr_set in Hbl.
      destruct ((bid loc <? 0) || (Z.of_nat (length (clause_blocks s)) <=? bid loc));
        [discriminate|].
      injection Hbl as <-. apply Forall_insert; [exact Hwf|].
      assert (Hwb : block_wf b).
      { rewrite List.Forall_forall in Hwf. apply Hwf.
        apply list_elem_of_In, list_elem_of_lookup.
        exists (Z.to_nat (bid loc)). exact (arr_get_lookup _ _ _ Hb). }
      destruct Hwb as (W1 & W2 & W3). split; [exact W1|]. split; [exact W2|].
      cbn. unfold zlength in *. rewrite (arr_set_length _ _ _ _ Hty). exact W3.
    + intros loc' Hty'.
      destruct (loc_cases loc loc') as [->|Hne].
      * rewrite Hun in Hty'. discriminate.
      * rewrite (Hother loc' Hne) in Hty'.
        destruct (Hin loc' Hty') as (lits & Hl & Hi).
        exists lits. rewrite Hlits. split; [exact Hl|exact Hi].
  - intros c Hc. unfold input_clause_at. rewrite Hfind.
    destruct (find_clause c s) as [l|] eqn:Hf; [|reflexivity].
    destruct (loc_cases loc l) as [->|Hne].
    + apply (find_clause_slot s cid loc Hsorted) in Hslot.
      destruct Hc. exact (find_clause_inj s c cid loc Hf Hslot).
    + rewrite (Hother l Hne), Hlits. reflexivity.
Qed.

Lemma omap_seqZ_skip {B} (g : Z -> option B) (hi : Z) : forall (k : nat) lo mid,
  mid - lo = Z.of_nat k ->
  (forall c, lo <= c < mid -> c <= hi -> g c = None) ->
  omap g (seqZ lo (hi - lo + 1)) = omap g (seqZ mid (hi - mid + 1)).
Proof.
  induction k as [|k IH]; intros lo mid Hk Hnone.
  - assert (mid = lo) as -> by lia. reflexivity.
  - destruct (Z_lt_le_dec hi lo) as [Hlt|Hle].
    + rewrite !seqZ_nil by lia. reflexivity.
    + rewrite (seqZ_cons lo) by lia. cbn [omap list_omap].
      rewrite (Hnone lo) by lia.
      replace (Z.pred (hi - lo + 1)) with (hi - Z.succ lo + 1) by lia.
      apply IH; [lia|]. intros c Hc Hc'. apply Hnone; lia.
Qed.

Lemma omap_ext_in {A B} (g g' : A -> option B) (l : list A) :
  (forall x, In x l -> g x = g' x) -> omap g l = omap g' l.
Proof.
  induction l as [|x r IH]; intros H; [reflexivity|].
  cbn [omap list_omap]. rewrite (H x) by (left; reflexivity).
  rewrite IH by (intros y Hy; apply H; right; exact Hy). reflexivity.
Qed.

Lemma input_clauses_in_ext s s' lo hi :
  (forall c, lo <= c -> input_clause_at s' c = input_clause_at s c) ->
  input_clauses_in s' lo hi = input_clauses_in s lo hi.
Proof.
  intros H. unfold input_clauses_in. apply omap_ext_in.
  intros c Hc. apply list_elem_of_In, elem_of_seqZ in Hc.
  rewrite H by lia. reflexivity.
Qed.

Lemma input_clauses_in_nil s lo hi :
  (forall c, lo <= c <= hi -> find_clause c s = None) ->
  input_clauses_in s lo hi = [].
Proof.
  intros H. unfold input_clauses_in.
  destruct (Z_lt_le_dec hi lo) as [Hlt|Hle]; [rewrite seqZ_nil by lia; reflexivity|].
  rewrite (omap_seqZ_skip _ hi (Z.to_nat (hi + 1 - lo)) lo (hi + 1)).
  - rewrite seqZ_nil by lia. reflexivity.
  - lia.
  - intros c Hc _. unfold input_clause_at. rewrite H by lia. reflexivity.
Qed.

Lemma input_clauses_in_skip s lo mid hi :
  lo <= mid ->
  (forall c, lo <= c < mid -> find_clause c s = None) ->
  input_clauses_in s lo hi = input_clauses_in s mid hi.
Proof.
  intros Hle H. unfold input_clauses_in.
  apply (omap_seqZ_skip _ hi (Z.to_nat (mid - lo))); [lia|].
  intros c Hc _. unfold input_clause_at. rewrite H by lia. reflexivity.
Qed.

Lemma input_clauses_in_cons s lo hi :
  lo <= hi ->
  input_clauses_in s lo hi =
  match input_clause_at s lo with
  | Some lits => [(lo, lits)]
  | None => []
  end ++ input_clauses_in s (lo + 1) hi.
Proof.
  intros Hle. unfold input_clauses_in.
  rewrite (seqZ_cons lo) by lia. cbn [omap list_omap].
  replace (Z.pred (hi - lo + 1)) with (hi - (lo + 1) + 1) by lia.
  replace (Z.succ lo) with (lo + 1) by lia.
  destruct (input_clause_at s lo); reflexivity.
Qed.

(** From the slot of [cid] the loop goes to the slot of the next id that
    has one; the ids between have no clause. *)
Lemma next_slot s0 s cid loc cid_max :
  range_inv s0 s -> slot_of cid loc s ->
  match goto_next_clause loc s with
  | Some loc' =>
      exists cid', slot_of cid' loc' s /\ cid < cid' /\
        input_clauses_in s (cid + 1) cid_max = input_clauses_in s cid' cid_max
  | None => input_clauses_in s (cid + 1) cid_max = []
  end.
Proof.
  intros (_ & Hsorted & Hfilled & _ & _) Hslot.
  pose proof (goto_next_clause_slots s cid loc Hsorted Hfilled Hslot) as H.
  destruct (goto_next_clause loc s) as [loc'|].
  - destruct H as (cid' & Hs' & Hlt & Hleast). exists cid'.
    split; [exact Hs'|]. split; [exact Hlt|].
    apply input_clauses_in_skip; [lia|].
    intros c Hc. destruct (find_clause c s) as [l|] eqn:Hf; [|reflexivity].
    apply (find_clause_slot s c l Hsorted) in Hf.
    pose proof (Hleast c l Hf). lia.
  - apply input_clauses_in_nil. intros c Hc.
    destruct (find_clause c s) as [l|] eqn:Hf; [|reflexivity].
    apply (find_clause_slot s c l Hsorted) in Hf.
    pose proof (H c l Hf). lia.
Qed.

Lemma prop_ok_counted s f p :
  prop_ok s f p -> prop_ok s f (deletion_counted p).
Proof. intros H. exact H. Qed.

Lemma zlength_cons {A} (x : A) (l : list A) : zlength (x :: l) = 1 + zlength l.
Proof. unfold zlength. cbn [length]. lia. Qed.

(** A check that returns, put before the checks of the clauses [cls]. *)
Lemma range_checked_cons s0 f cid lits cls s s1 p p0 p1 dcount r :
  seed_fanouts s0 f lits p = Ok tt p0 ->
  root_fires s0 f p0 ->
  (exists fuel, rup_run_input fuel s0 f cid lits p = Some (Ok tt p1)) ->
  retyped s s1 ->
  zlength (node_event_count p1) = zlength (node_event_count p) ->
  range_checked s0 f cls s1 (deletion_counted p1) (dcount + 1) r ->
  range_checked s0 f ((cid, lits) :: cls) s p dcount r.
Proof.
  intros Hseed Hfires Hrun R Hlen [H|H].
  - destruct H as (s' & p' & -> & Hch & R' & Hok & Hl). left.
    exists s', p'. rewrite zlength_cons.
    split; [f_equal; lia|].
    split; [exact (checked_cons s0 f cid lits cls p p0 p1 p' Hseed Hfires Hrun Hch)|].
    split; [exact (retyped_trans _ _ _ R R')|].
    split; [exact Hok|]. rewrite Hl. exact Hlen.
  - destruct H as (pre & c & l & post & pc & pz & s' & p' & -> & Hch & Hs & Hn & ->).
    right. exists ((cid, lits) :: pre), c, l, post, pc, pz, s', p'.
    split; [reflexivity|].
    split; [exact (checked_cons s0 f cid lits pre p p0 p1 pc Hseed Hfires Hrun Hch)|].
    auto.
Qed.

Lemma delete_range_loop_S fuel f cid_max loc dcount s p :
  delete_range_loop (S fuel) f cid_max loc dcount s p =
  match generate_clause_id loc s with
  | None => Some Undef
  | Some cid =>
      if cid_max <? cid then Some (Ok dcount (s, p))
      else
        match clause_type loc s with
        | None => Some Undef
        | Some ctype =>
            if clause_type_eqb ctype CLAUSE_INPUT then
              match implicit_delete_input_clause fuel f cid loc s p with
              | Some (Ok _ (s1, p1)) =>
                  match goto_next_clause loc s1 with
                  | Some loc' =>
                      delete_range_loop fuel f cid_max loc' (dcount + 1) s1 p1
                  | None => Some (Ok (dcount + 1) (s1, p1))
                  end
              | Some (Err e sp) => Some (Err e sp)
              | Some Undef => Some Undef
              | Some Diverge => Some Diverge
              | None => None
              end
            else
              match goto_next_clause loc s with
              | Some loc' => delete_range_loop fuel f cid_max loc' dcount s p
              | None => Some (Ok dcount (s, p))
              end
        end
  end.
Proof. reflexivity. Qed.

(** The loop of [cpog_delete_range] checks the input clauses from the
    slot of [cid] up to [cid_max], and ends. *)
Lemma delete_range_loop_total s0 f cid_max : forall (m : nat) cid loc s p dcount,
  range_inv s0 s -> slot_of cid loc s ->
  fanouts_ok s0 f (zlength (node_event_count p)) = true ->
  prop_ok s0 f p ->
  cid_max - cid + 1 <= Z.of_nat m ->
  exists fuel0 r,
    (forall fuel, (fuel0 <= fuel)%nat ->
       delete_range_loop fuel f cid_max loc dcount s p = Some r) /\
    range_checked s0 f (input_clauses_in s cid cid_max) s p dcount r.
Proof.
  induction m as [|m IH]; intros cid loc s p dcount Hinv Hslot Hf Hok Hm.
  all: assert (Hgen : generate_clause_id loc s = Some cid)
    by (destruct Hslot as (b & Hb & _ & Hc); unfold generate_clause_id;
        rewrite Hb, Hc; reflexivity).
  all: assert (Hpast : cid_max < cid ->
         exists fuel0 r,
           (forall fuel, (fuel0 <= fuel)%nat ->
              delete_range_loop fuel f cid_max loc dcount s p = Some r) /\
           range_checked s0 f (input_clauses_in s cid cid_max) s p dcount r).
  1,3: intros Hlt; exists 1%nat, (Ok dcount (s, p)); split;
    [intros [|fuel] Hfuel; [lia|]; rewrite delete_range_loop_S, Hgen;
     destruct (Z.ltb_spec cid_max cid); [reflexivity|lia]
    |left; exists s, p; unfold input_clauses_in; rewrite seqZ_nil by lia;
     cbn [omap list_omap]; change (zlength []) with 0; rewrite Z.add_0_r;
     split; [reflexivity|]; split; [constructor|];
     split; [apply retyped_refl|]; split; [exact Hok|reflexivity]].
  - apply Hpast. lia.
  - destruct (Z_lt_le_dec cid_max cid) as [Hlt|Hle]; [exact (Hpast Hlt)|].
    clear Hpast.
    pose proof Hinv as (Hpog & Hsorted & Hfilled & Hwf & Hin).
    destruct Hpog as (Hnodes & Hopts & Hroot).
    assert (Hty : exists ctype, clause_type loc s = Some ctype).
    { destruct Hslot as (b & Hb & Hpos & _). unfold clause_type. rewrite Hb.
      apply arr_get_in_range.
      assert (Hwb : block_wf b).
      { rewrite List.Forall_forall in Hwf. apply Hwf.
        apply list_elem_of_In, list_elem_of_lookup.
        exists (Z.to_nat (bid loc)). exact (arr_get_lookup _ _ _ Hb). }
      destruct Hwb as (_ & _ & W3). lia. }
    destruct Hty as [ctype Hty].
    pose proof (proj2 (find_clause_slot s cid loc Hsorted) Hslot) as Hfind.
    (* the rest of the loop, from the slot after that of [cid] *)
    assert (Hcont : forall s1 p1 dcount1,
      range_inv s0 s1 -> slot_of cid loc s1 ->
      fanouts_ok s0 f (zlength (node_event_count p1)) = true ->
      prop_ok s0 f p1 ->
      exists fuel0 r,
        (forall fuel, (fuel0 <= fuel)%nat ->
           match goto_next_clause loc s1 with
           | Some loc' => delete_range_loop fuel f cid_max loc' dcount1 s1 p1
           | None => Some (Ok dcount1 (s1, p1))
           end = Some r) /\
        range_checked s0 f (input_clauses_in s1 (cid + 1) cid_max) s1 p1 dcount1 r).
    { intros s1 p1 dcount1 Hinv1 Hslot1 Hf1 Hok1.
      pose proof (next_slot s0 s1 cid loc cid_max Hinv1 Hslot1) as Hnext.
      destruct (goto_next_clause loc s1) as [loc'|].
      - destruct Hnext as (cid' & Hs' & Hlt & ->).
        apply IH; try assumption. lia.
      - rewrite Hnext. exists 0%nat, (Ok dcount1 (s1, p1)).
        split; [reflexivity|]. left. exists s1, p1.
        change (zlength []) with 0. rewrite Z.add_0_r.
        split; [reflexivity|]. split; [constructor|].
        split; [apply retyped_refl|]. split; [exact Hok1|reflexivity]. }
    rewrite (input_clauses_in_cons s cid cid_max Hle).
    unfold input_clause_at at 1. rewrite Hfind, Hty.
    destruct (clause_type_eqb ctype CLAUSE_INPUT) eqn:Heqb.
    + assert (ctype = CLAUSE_INPUT) as -> by (destruct ctype; try discriminate; reflexivity).
      destruct (Hin loc Hty) as (lits & Hlits & Hil).
      rewrite Hlits. cbn [app].
      destruct (implicit_delete_run 0 f cid loc s p _ lits Hty Hlits Hil)
        as (s1 & Hdel & _).
      assert (Himp : forall fuel,
        implicit_delete_input_clause fuel f cid loc s p =
        match rup_run_input fuel s0 f cid lits p with
        | Some (Ok _ p1) => Some (Ok tt (s1, deletion_counted p1))
        | Some (Err e p1) => Some (Err e (s1, p1))
        | Some Undef => Some Undef
        | Some Diverge => Some Diverge
        | None => None
        end).
      { intros fuel.
        destruct (implicit_delete_run fuel f cid loc s p _ lits Hty Hlits Hil)
          as (s1' & Hdel' & ->).
        rewrite Hdel in Hdel'. injection Hdel' as <-.
        rewrite (rup_run_input_reads s0 s f Hnodes Hopts Hroot). reflexivity. }
      assert (Hil0 : input_literals s0 lits)
        by (unfold input_literals in *; rewrite <- Hopts; exact Hil).
      destruct (check_total s0 f cid lits p Hf Hok Hil0)
        as (fuel_h & p0 & p1 & Hseed & Hok1 & Hlen1 & Hcases).
      destruct (delete_keeps_inv s0 s cid loc true s1 Hinv Hslot Hdel)
        as (Hinv1 & R & Hslot1 & Hsame).
      destruct Hcases as [[Hfires Hrun]|[Hnot Hrun]].
      * destruct (Hcont s1 (deletion_counted p1) (dcount + 1) Hinv1 Hslot1)
          as (fuel_r & r & Hr & Hpost).
        { cbn. rewrite Hlen1. exact Hf. }
        { apply prop_ok_counted, Hok1. }
        exists (S (Nat.max fuel_h fuel_r)), r. split.
        -- intros [|fuel] Hfuel; [lia|].
           rewrite delete_range_loop_S, Hgen.
           destruct (Z.ltb_spec cid_max cid); [lia|].
           rewrite Hty, Heqb, Himp, (Hrun fuel) by lia.
           apply Hr. lia.
        -- apply (range_checked_cons s0 f cid lits _ s s1 p p0 p1 dcount r
                    Hseed Hfires); [exists fuel_h; apply Hrun; lia|exact R|exact Hlen1|].
           rewrite <- (input_clauses_in_ext s s1 (cid + 1) cid_max)
             by (intros c Hc; apply Hsame; lia).
           exact Hpost.
      * exists (S fuel_h), (Err (ImplicitDeletionFailed cid) (s1, p1)). split.
        -- intros [|fuel] Hfuel; [lia|].
           rewrite delete_range_loop_S, Hgen.
           destruct (Z.ltb_spec cid_max cid); [lia|].
           rewrite Hty, Heqb, Himp, (Hrun fuel) by lia. reflexivity.
        -- right. exists [], cid, lits, (input_clauses_in s (cid + 1) cid_max),
             p, p0, s1, p1.
           split; [reflexivity|]. split; [constructor|]. auto.
    + assert (Hnone : match ctype with
                      | CLAUSE_INPUT => lits_at loc s
                      | _ => None
                      end = None)
        by (destruct ctype; try reflexivity; discriminate).
      rewrite Hnone. cbn [app].
      destruct (Hcont s p dcount Hinv Hslot Hf Hok) as (fuel_r & r & Hr & Hpost).
      exists (S fuel_r), r. split; [|exact Hpost].
      intros [|fuel] Hfuel; [lia|].
      rewrite delete_range_loop_S, Hgen.
      destruct (Z.ltb_spec cid_max cid); [lia|].
      rewrite Hty, Heqb. apply Hr. lia.
Qed.

End RangeFacts.

Section RangeFuel.

Variable f : fanouts_t.

Lemma implicit_delete_mono fuel fuel' cid loc s p r :
  (fuel <= fuel')%nat ->
  implicit_delete_input_clause fuel f cid loc s p = Some r ->
  implicit_delete_input_clause fuel' f cid loc s p = Some r.
Proof.
  intros Hle. unfold implicit_delete_input_clause.
  destruct (clause_locate loc s) as [lits|]; [|auto].
  destruct (clause_delete loc s) as [d s1| | |]; try auto.
  destruct (negb d); [auto|].
  destruct lits as [ptr|]; [|auto].
  destruct (clause_lits ptr s1) as [lits|]; [|auto].
  destruct (rup_run_input fuel s1 f cid lits p) as [x|] eqn:Hrun; [|discriminate].
  rewrite (rup_run_input_mono _ _ _ _ _ _ _ _ Hle Hrun). auto.
Qed.

Lemma delete_range_loop_mono cid_max : forall fuel fuel' loc dcount s p r,
  (fuel <= fuel')%nat ->
  delete_range_loop fuel f cid_max loc dcount s p = Some r ->
  delete_range_loop fuel' f cid_max loc dcount s p = Some r.
Proof.
  induction fuel as [|fuel IH]; intros fuel' loc dcount s p r Hle H;
    [discriminate|].
  destruct fuel' as [|fuel']; [lia|].
  rewrite delete_range_loop_S in *.
  destruct (generate_clause_id loc s) as [cid|]; [|exact H].
  destruct (cid_max <? cid); [exact H|].
  destruct (clause_type loc s) as [ctype|]; [|exact H].
  destruct (clause_type_eqb ctype CLAUSE_INPUT).
  - destruct (implicit_delete_input_clause fuel f cid loc s p) as [x|] eqn:Himp;
      [|discriminate].
    rewrite (implicit_delete_mono fuel fuel' _ _ _ _ _ ltac:(lia) Himp).
    destruct x as [[] [s1 p1]| | |]; try exact H.
    destruct (goto_next_clause loc s1); [|exact H].
    apply (IH fuel'); [lia|exact H].
  - destruct (goto_next_clause loc s); [|exact H].
    apply (IH fuel'); [lia|exact H].
Qed.

Lemma cpog_delete_range_mono fuel fuel' cid_min cid_max s p r :
  (fuel <= fuel')%nat ->
  cpog_delete_range fuel f cid_min cid_max s p = Some r ->
  cpog_delete_range fuel' f cid_min cid_max s p = Some r.
Proof.
  intros Hle. unfold cpog_delete_range.
  destruct (find_clause cid_min s) as [loc|]; [|auto].
  destruct (delete_range_loop fuel f cid_max loc 0 s p) as [x|] eqn:Hloop;
    [|discriminate].
  rewrite (delete_range_loop_mono _ _ _ _ _ _ _ _ Hle Hloop). auto.
Qed.

End RangeFuel.

(** The input clauses from [cid_min] to [cid_max] that
    [cpog_delete_range] checks: none when [cid_min] has no slot. *)
Lemma cpog_delete_range_total s f cid_min cid_max p :
  blocks_sorted (clause_blocks s) ->
  later_blocks_filled s ->
  Forall block_wf (clause_blocks s) ->
  input_clauses_ok s ->
  fanouts_ok s f (zlength (node_event_count p)) = true ->
  prop_ok s f p ->
  let cls := match find_clause cid_min s with
             | Some _ => input_clauses_in s cid_min cid_max
             | None => []
             end in
  exists fuel0 r,
    (forall fuel, (fuel0 <= fuel)%nat ->
       cpog_delete_range fuel f cid_min cid_max s p = Some r) /\
    ((exists s' p',
        r = Ok (zlength cls) (s', update_report p') /\
        checked s f cls p p' /\ retyped s s' /\ prop_ok s f p') \/
     (exists pre cid lits post pc p0 sp,
        cls = pre ++ (cid, lits) :: post /\
        checked s f pre p pc /\
        seed_fanouts s f lits pc = Ok tt p0 /\
        ~ root_fires s f p0 /\
        r = Err (ImplicitDeletionFailed cid) sp)).
Proof.
  intros Hsorted Hfilled Hwf Hin Hf Hok cls. unfold cpog_delete_range. subst cls.
  destruct (find_clause cid_min s) as [loc|] eqn:Hfind.
  - assert (Hinv : range_inv s s).
    { split; [repeat split|]. split; [exact Hsorted|]. split; [exact Hfilled|].
      split; [exact Hwf|exact Hin]. }
    apply (find_clause_slot s cid_min loc Hsorted) in Hfind.
    destruct (delete_range_loop_total s f cid_max
                (Z.to_nat (cid_max - cid_min + 1)) cid_min loc s p 0
                Hinv Hfind Hf Hok ltac:(lia)) as (fuel0 & r & Hr & Hpost).
    destruct Hpost as [H|H].
    + destruct H as (s' & p' & -> & Hch & R & Hok' & _).
      exists fuel0, (Ok (zlength (input_clauses_in s cid_min cid_max))
                        (s', update_report p')).
      split; [intros fuel Hfuel; rewrite (Hr fuel Hfuel); reflexivity|].
      left. exists s', p'. auto.
    + destruct H as (pre & cid & lits & post & pc & p0 & s' & p' &
                     Hcls & Hch & Hseed & Hnot & ->).
      exists fuel0, (Err (ImplicitDeletionFailed cid) (s', p')).
      split; [intros fuel Hfuel; rewrite (Hr fuel Hfuel); reflexivity|].
      right. exists pre, cid, lits, post, pc, p0, (s', p'). auto.
  - exists 0%nat, (Ok 0 (s, update_report p)).
    split; [reflexivity|]. left. exists s, p.
    split; [reflexivity|]. split; [constructor|].
    split; [apply retyped_refl|exact Hok].
Qed.

Section OrderedPog.

Variable s : checker.
Variable f : fanouts_t.
Hypothesis ordered : pog_ordered s.
Hypothesis built : build_deletion_structures s = Some f.

Lemma counted_parent_node_ok lit id :
  counted_parent s lit id -> lit < id /\ node_ok s f (node_count s) id = true.
Proof.
  intros (idx & node & Hidx & Hnode & Hty & Hid & Hin).
  destruct ordered as (Hnvar & Hord).
  destruct (Hord idx node Hidx Hnode Hty) as (Hid' & Hroot & Hch).
  destruct (build_deletion_structures_post s f built) as (_ & Hpos & _).
  split.
  - rewrite List.Forall_forall in Hch. pose proof (Hch lit Hin). lia.
  - unfold node_ok.
    replace (id - input_variable_count (opts s) - 1) with idx by lia.
    rewrite Hnode.
    destruct (Z.ltb_spec (input_variable_count (opts s)) id); [|lia].
    destruct (Z.leb_spec id (input_variable_count (opts s) + node_count s)); [|lia].
    destruct (Z.leb_spec id (zlength (pos_fanouts f))); [|lia].
    cbn. apply Z.eqb_eq. exact Hid.
Qed.

Lemma fanouts_upward_intro (ok : Z -> bool) : forall ls var,
  (forall k l id, ls !! k = Some l -> In id l ->
                  var + Z.of_nat k < id /\ ok id = true) ->
  fanouts_upward ok var ls = true.
Proof.
  induction ls as [|l r IH]; intros var H; [reflexivity|].
  cbn [fanouts_upward]. apply andb_true_iff. split.
  - apply forallb_forall. intros id Hid.
    destruct (H 0%nat l id eq_refl Hid) as [Hlt Hok].
    rewrite Hok. destruct (Z.ltb_spec var id); [reflexivity|lia].
  - apply IH. intros k l' id Hk Hid.
    destruct (H (S k) l' id Hk Hid) as [Hlt Hok]. split; [lia|exact Hok].
Qed.

Lemma fanout_at_lookup (ls : list (list Z)) k l :
  ls !! k = Some l -> fanout_at ls (Z.of_nat k) = l.
Proof.
  intros H. unfold fanout_at, arr_get.
  destruct (Z.ltb_spec (Z.of_nat k) 0); [lia|].
  rewrite Nat2Z.id, H. reflexivity.
Qed.

(** The fan-outs built from a POG in the order of its construction lead
    upward, and a new propagator is well formed for them. *)
Lemma ordered_fanouts_ok :
  fanouts_ok s f (zlength (node_event_count (new_propagator s))) = true /\
  prop_ok s f (new_propagator s).
Proof.
  split; [|apply new_propagator_ok].
  destruct (build_deletion_structures_post s f built) as (Hneg & Hpos & Hfan).
  destruct ordered as ((Hnvar & Hroot) & _).
  assert (Hcount : 0 <= node_count s ->
            zlength (node_event_count (new_propagator s)) = node_count s).
  { intros H. unfold new_propagator, zlength. cbn.
    rewrite length_replicate. lia. }
  assert (Hnode : forall lit id, counted_parent s lit id ->
            lit < id /\
            node_ok s f (zlength (node_event_count (new_propagator s))) id = true).
  { intros lit id Hc. pose proof Hc as (idx & _ & Hidx & _).
    rewrite Hcount by lia. exact (counted_parent_node_ok lit id Hc). }
  unfold fanouts_ok. repeat (apply andb_true_iff; split).
  - apply Z.leb_le. lia.
  - apply Z.leb_le. lia.
  - apply Z.leb_le. lia.
  - apply forallb_forall. intros l Hl. apply forallb_forall. intros id Hid.
    apply list_elem_of_In, list_elem_of_lookup in Hl. destruct Hl as [k Hk].
    pose proof (fanout_at_lookup _ _ _ Hk) as Hat.
    destruct (Hfan (Z.of_nat k + 1) id ltac:(lia)) as [_ Hn].
    replace (Z.of_nat k + 1 - 1) with (Z.of_nat k) in Hn by lia.
    rewrite Hat in Hn. apply Hn in Hid. exact (proj2 (Hnode _ _ Hid)).
  - apply fanouts_upward_intro. intros k l id Hk Hid.
    pose proof (fanout_at_lookup _ _ _ Hk) as Hat.
    destruct (Hfan (Z.of_nat k + 1) id ltac:(lia)) as [Hp _].
    replace (Z.of_nat k + 1 - 1) with (Z.of_nat k) in Hp by lia.
    rewrite Hat in Hp. apply Hp in Hid.
    destruct (Hnode _ _ Hid) as [Hlt Hok]. split; [lia|exact Hok].
Qed.

End OrderedPog.




(** ** The clause loop of the CNF file *)

Section ClauseLines.

Implicit Types (s : checker) (ts : list token_t).

Ltac split_cases :=
  repeat match goal with
         | |- context [if ?c then _ else _] => destruct c
         | |- context [match ?o with Some _ => _ | None => _ end] => destruct o
         end.

(** The clause store does not read the tokens. *)
Lemma start_clause_tokens cid ts s :
  start_clause cid (set_tokens ts s) =
  match start_clause cid s with
  | Ok a s' => Ok a (set_tokens ts s')
  | Err e s' => Err e (set_tokens ts s')
  | Undef => Undef
  | Diverge => Diverge
  end.
Proof.
  unfold start_clause, bind, get, modify, defined, err_printf, ret, undef.
  change (clause_last_id (set_tokens ts s)) with (clause_last_id s).
  change (clause_block_count (set_tokens ts s)) with (clause_block_count s).
  change (clause_blocks (set_tokens ts s)) with (clause_blocks s).
  change (opts (set_tokens ts s)) with (opts s).
  split_cases; reflexivity.
Qed.

Lemma clause_add_literal_tokens lit ts s :
  clause_add_literal lit (set_tokens ts s) =
  match clause_add_literal lit s with
  | Ok a s' => Ok a (set_tokens ts s')
  | Err e s' => Err e (set_tokens ts s')
  | Undef => Undef
  | Diverge => Diverge
  end.
Proof.
  unfold clause_add_literal, bind, modify, get, err_printf, ret.
  change (opts (set_current_clause _ (set_tokens ts s))) with (opts s).
  change (variable_limit (set_current_clause _ (set_tokens ts s)))
    with (variable_limit s).
  change (opts (set_current_clause (current_clause s ++ [lit]) s)) with (opts s).
  change (variable_limit (set_current_clause (current_clause s ++ [lit]) s))
    with (variable_limit s).
  split_cases; reflexivity.
Qed.

Lemma finish_clause_tokens cid type ts s :
  finish_clause cid type (set_tokens ts s) =
  match finish_clause cid type s with
  | Ok a s' => Ok a (set_tokens ts s')
  | Err e s' => Err e (set_tokens ts s')
  | Undef => Undef
  | Diverge => Diverge
  end.
Proof.
  unfold finish_clause, bind, get, modify, defined, err_printf, ret, undef.
  change (current_clause (set_tokens ts s)) with (current_clause s).
  change (chunk_used (set_tokens ts s)) with (chunk_used s).
  change (chunk_count (set_tokens ts s)) with (chunk_count s).
  destruct (CHUNK_SIZE <? zlength (current_clause s)); [reflexivity|].
  destruct (CHUNK_SIZE <? zlength (current_clause s) + chunk_used s);
    [destruct (CHUNK_MAX - 1 <=? chunk_count s); [reflexivity|]|];
    unfold chunk_used, chunk_count, clause_block_count; cbn;
    split_cases; reflexivity.
Qed.

Lemma same_outcome_bind {A B} (c : M checker A) (k k' : A -> M checker B) ts s :
  c (set_tokens ts s) =
  match c s with
  | Ok a s' => Ok a (set_tokens ts s')
  | Err e s' => Err e (set_tokens ts s')
  | Undef => Undef
  | Diverge => Diverge
  end ->
  (forall a s1, c s = Ok a s1 -> same_outcome (k a s1) (k' a (set_tokens ts s1))) ->
  same_outcome (bind c k s) (bind c k' (set_tokens ts s)).
Proof.
  intros Hc Hk. unfold bind. rewrite Hc.
  destruct (c s) as [a s1|e s1| |]; cbn.
  - apply Hk. reflexivity.
  - split; [reflexivity|]. exists ts. reflexivity.
  - exact I.
  - exact I.
Qed.

(** The clause loop over a file that holds integers and line ends only:
    it does with the store what [cnf_read_ints] does for the integers,
    and has read all the tokens when it returns. *)
Lemma cnf_read_loop_ints : forall ts fuel n w s,
  Forall int_or_eol ts -> (length ts < fuel)%nat ->
  same_outcome (cnf_read_ints (ints_of ts) n w s)
               (cnf_read_loop fuel n w (set_tokens ts s)).
Proof.
  induction ts as [|t r IH]; intros fuel n w s Hall Hfuel;
    (destruct fuel as [|fuel]; [cbn in Hfuel; lia|]).
  - cbn. split; reflexivity.
  - inversion Hall as [|? ? Ht Hr]; subst. cbn [length] in Hfuel.
    destruct t as [v| | | | | |]; try destruct Ht.
    + change (ints_of (TOK_INT v :: r)) with (v :: ints_of r).
      change (cnf_read_loop (S fuel) n w (set_tokens (TOK_INT v :: r) s))
        with (((if negb w then start_clause (int_wrap (n + 1)) else ret tt) ;;;
               clause_add_literal v ;;;
               if v =? 0 then
                 finish_clause (int_wrap (n + 1)) CLAUSE_INPUT ;;;
                 cnf_read_loop fuel (int_wrap (n + 1)) false
               else cnf_read_loop fuel n true) (set_tokens r s)).
      cbn [cnf_read_ints].
      apply same_outcome_bind.
      { destruct w; cbn [negb]; [reflexivity|apply start_clause_tokens]. }
      intros _ s1 _. apply same_outcome_bind; [apply clause_add_literal_tokens|].
      intros _ s2 _. destruct (v =? 0).
      * apply same_outcome_bind; [apply finish_clause_tokens|].
        intros _ s3 _. apply IH; [exact Hr|lia].
      * apply IH; [exact Hr|lia].
    + change (ints_of (TOK_EOL :: r)) with (ints_of r).
      change (cnf_read_loop (S fuel) n w (set_tokens (TOK_EOL :: r) s))
        with (cnf_read_loop fuel n w (set_tokens r s)).
      apply IH; [exact Hr|lia].
Qed.

Lemma bind_assoc_at {A B C} (c : M checker A) (k : A -> M checker B)
    (h : B -> M checker C) s :
  bind (bind c k) h s = bind c (fun a => bind (k a) h) s.
Proof. unfold bind. destruct (c s); reflexivity. Qed.

Lemma bind_ext_at {A B} (c : M checker A) (k k' : A -> M checker B) s :
  (forall a s1, c s = Ok a s1 -> k a s1 = k' a s1) ->
  bind c k s = bind c k' s.
Proof. unfold bind. intros H. destruct (c s); auto. Qed.

(** Within a clause: the literals up to the terminating 0 are added, and
    the clause is stored. *)
Lemma cnf_read_ints_within n r : forall c s,
  Forall (fun l => l <> 0) c ->
  cnf_read_ints (c ++ 0 :: r) n true s =
  (clause_add_literals (c ++ [0]) ;;;
   finish_clause (int_wrap (n + 1)) CLAUSE_INPUT ;;;
   cnf_read_ints r (int_wrap (n + 1)) false) s.
Proof.
  induction c as [|l c IH]; intros s Hnz.
  - cbn [app cnf_read_ints clause_add_literals negb]. change (0 =? 0) with true.
    cbv iota. unfold bind at 1, ret at 1.
    rewrite (bind_assoc_at (clause_add_literal 0)).
    apply bind_ext_at. intros _ s1 _. reflexivity.
  - inversion Hnz as [|? ? Hl Hc]; subst.
    cbn [app cnf_read_ints clause_add_literals negb].
    destruct (Z.eqb_spec l 0) as [|_]; [contradiction|].
    unfold bind at 1, ret at 1.
    rewrite (bind_assoc_at (clause_add_literal l)).
    apply bind_ext_at. intros _ s1 _. apply IH, Hc.
Qed.

(** The first integer of a clause starts the clause. *)
Lemma cnf_read_ints_start n x r s :
  cnf_read_ints (x :: r) n false s =
  (start_clause (int_wrap (n + 1)) ;;; cnf_read_ints (x :: r) n true) s.
Proof.
  cbn [cnf_read_ints negb]. apply bind_ext_at. intros _ s1 _.
  unfold bind at 3, ret at 1. reflexivity.
Qed.

Lemma cnf_read_ints_clause n c r s :
  Forall (fun l => l <> 0) c ->
  0 <= n < INT_MAX ->
  cnf_read_ints (c ++ 0 :: r) n false s =
  (cnf_read_clause (n + 1) c ;;; cnf_read_ints r (n + 1) false) s.
Proof.
  intros Hnz Hn.
  assert (Hx : exists x y, c ++ 0 :: r = x :: y)
    by (destruct c; cbn; eauto).
  destruct Hx as (x & y & Hxy). rewrite Hxy, cnf_read_ints_start, <- Hxy.
  rewrite int_wrap_small by (unfold INT_MAX in *; lia).
  unfold cnf_read_clause. rewrite bind_assoc_at.
  apply bind_ext_at. intros _ s1 _.
  rewrite (cnf_read_ints_within n r c s1 Hnz).
  rewrite int_wrap_small by (unfold INT_MAX in *; lia).
  rewrite (bind_assoc_at (clause_add_literals (c ++ [0]))). reflexivity.
Qed.

(** A clause left without its terminating 0 is started, and its literals
    are added. *)
Lemma cnf_read_ints_tail n : forall tail s,
  Forall (fun l => l <> 0) tail ->
  cnf_read_ints tail n true s = (clause_add_literals tail ;;; ret n) s.
Proof.
  induction tail as [|l tail IH]; intros s Hnz; [reflexivity|].
  inversion Hnz as [|? ? Hl Ht]; subst.
  cbn [cnf_read_ints clause_add_literals negb].
  destruct (Z.eqb_spec l 0) as [|_]; [contradiction|].
  unfold bind at 1, ret at 1.
  rewrite (bind_assoc_at (clause_add_literal l)).
  apply bind_ext_at. intros _ s1 _. apply IH, Ht.
Qed.

(** The integers of a file, clause by clause. *)
Lemma cnf_read_ints_clauses tail : forall clauses n s,
  Forall (Forall (fun l => l <> 0)) clauses ->
  Forall (fun l => l <> 0) tail ->
  0 <= n -> n + zlength clauses < INT_MAX ->
  cnf_read_ints (clause_ints clauses tail) n false s =
  (cnf_read_clauses n clauses ;;;
   match tail with
   | [] => ret (n + zlength clauses)
   | _ :: _ =>
       start_clause (n + zlength clauses + 1) ;;;
       clause_add_literals tail ;;;
       ret (n + zlength clauses)
   end) s.
Proof.
  unfold clause_ints.
  induction clauses as [|c r IH]; intros n s Hnz Htail Hn Hlen.
  - cbn [map concat app cnf_read_clauses]. unfold bind at 1, ret at 1.
    change (zlength (@nil (list Z))) with 0 in *. rewrite Z.add_0_r in *.
    destruct tail as [|x y]; [reflexivity|].
    rewrite cnf_read_ints_start.
    rewrite int_wrap_small by (unfold INT_MAX in *; lia).
    apply bind_ext_at. intros _ s1 _. apply (cnf_read_ints_tail n (x :: y) s1 Htail).
  - inversion Hnz as [|? ? Hc Hr]; subst.
    rewrite zlength_cons in Hlen.
    assert (Hr0 : 0 <= zlength r) by (unfold zlength; lia).
    cbn [map concat cnf_read_clauses]. rewrite <- !app_assoc.
    change ([0] ++ ?x) with (0 :: x).
    rewrite (cnf_read_ints_clause n c _ s Hc) by lia.
    rewrite bind_assoc_at. apply bind_ext_at. intros _ s1 _.
    rewrite (IH (n + 1) s1 Hr Htail) by lia.
    rewrite zlength_cons.
    replace (n + 1 + zlength r) with (n + (1 + zlength r)) by lia.
    reflexivity.
Qed.

End ClauseLines.

Lemma set_tokens_same (s : checker) : set_tokens (tokens s) s = s.
Proof. destruct s; reflexivity. Qed.

Lemma keeps_tokens_clause_add_literals : forall lits,
  keeps tokens (clause_add_literals lits).
Proof.
  induction lits as [|l r IH]; cbn [clause_add_literals]; [apply keeps_ret|].
  apply keeps_bind; [|intros _; exact IH].
  apply keeps_clause_add_literal. reflexivity.
Qed.

Lemma keeps_tokens_cnf_read_clauses : forall clauses n,
  keeps tokens (cnf_read_clauses n clauses).
Proof.
  induction clauses as [|c r IH]; intros n; cbn [cnf_read_clauses];
    [apply keeps_ret|].
  apply keeps_bind; [|intros _; apply IH].
  unfold cnf_read_clause.
  apply keeps_bind; [apply keeps_start_clause; reflexivity|intros _].
  apply keeps_bind; [apply keeps_tokens_clause_add_literals|intros _].
  apply keeps_finish_clause; reflexivity.
Qed.

(** The literals of the clauses read are literals of input variables:
    [variable_limit] is [input_variable_count] while the CNF file is
    read, and [clause_add_literal] exits on a variable above both. *)
Lemma cnf_read_clauses_literals : forall clauses n s0 s,
  Forall (Forall (fun l => l <> 0)) clauses ->
  variable_limit s0 = input_variable_count (opts s0) ->
  cnf_read_clauses n clauses s0 = Ok tt s ->
  opts s = opts s0 /\ variable_limit s = variable_limit s0 /\
  Forall (input_literals s0) clauses.
Proof.
  induction clauses as [|c r IH]; intros n s0 s Hnz Hlim Hrun.
  - injection Hrun as <-. auto.
  - inversion Hnz as [|? ? Hc Hr]; subst.
    cbn [cnf_read_clauses] in Hrun.
    apply bind_ok in Hrun. destruct Hrun as ([] & s1 & Hone & Hrest).
    unfold cnf_read_clause in Hone.
    destruct (store_clause_ok_inv _ _ _ _ _ _ Hone) as (_ & Hvars & _).
    apply bind_ok in Hone. destruct Hone as (u1 & sa & Hstart & Hone).
    apply bind_ok in Hone. destruct Hone as (u2 & sb & Hadd & Hfin).
    destruct (start_clause_post _ _ _ _ Hstart) as (_ & _ & _ & _ & Ho1 & Hv1).
    pose proof (clause_add_literals_post _ _ _ _ Hadd) as ->.
    destruct (finish_clause_post _ _ _ _ _ Hfin) as (_ & _ & _ & Ho2 & Hv2).
    cbn in Ho2, Hv2.
    assert (Ho : opts s1 = opts s0) by congruence.
    assert (Hv : variable_limit s1 = variable_limit s0) by congruence.
    destruct (IH (n + 1) s1 s Hr ltac:(congruence) Hrest) as (Ho' & Hv' & Hall).
    split; [congruence|]. split; [congruence|].
    constructor.
    + unfold input_literals. apply List.Forall_forall. intros l Hl.
      rewrite List.Forall_forall in Hc, Hvars.
      pose proof (Hc l Hl) as Hl0.
      pose proof (Hvars l (in_or_app _ _ _ (or_introl Hl))) as Hr0.
      unfold var_in_range in Hr0. rewrite Hlim in Hr0.
      unfold IABS in *. destruct (l <? 0) eqn:E; [apply Z.ltb_lt in E|apply Z.ltb_ge in E]; lia.
    + unfold input_literals in *. rewrite Ho in Hall. exact Hall.
Qed.

(** The clause loop of [cnf_read] over a file that holds integers
    and line ends only, the clauses [clauses] each with its terminating
    0 and then the literals [tail] without one: when the loop returns it
    has read all the tokens and counted the clauses [clauses]; the clause
    number [i] is found under the id [i] with the type of an input clause
    and its literals, in a store that is well formed.  Literals left
    without a terminating 0 are not counted and not reported: a clause
    has been started for them, so that [clause_last_id] is one above the
    number of the clauses stored.  The literals of the clauses stored are
    literals of input variables. *)
Theorem cnf_clauses_stored (o : options_t) (clauses : list (list Z))
    (tail : list Z) (ts : list token_t) (found : Z) (s : checker) :
  Forall (Forall (fun l => l <> 0)) clauses ->
  Forall (fun l => l <> 0) tail ->
  Forall int_or_eol ts ->
  ints_of ts = clause_ints clauses tail ->
  zlength clauses < INT_MAX ->
  cnf_read_loop (S (length ts)) 0 false (set_tokens ts (clause_init o))
  = Ok found s ->
  found = zlength clauses /\ tokens s = [] /\
  exists s1,
    cnf_read_clauses 0 clauses (clause_init o) = Ok tt s1 /\
    store_ok s1 /\ clause_last_id s1 = zlength clauses /\
    (forall i c, clauses !! i = Some c ->
       exists loc, find_clause (Z.of_nat i + 1) s1 = Some loc /\
                   clause_type loc s1 = Some CLAUSE_INPUT /\
                   lits_at loc s1 = Some c /\
                   input_literals s1 c) /\
    match tail with
    | [] => s = s1
    | _ :: _ =>
        (start_clause (zlength clauses + 1) ;;; clause_add_literals tail) s1
        = Ok tt s /\
        clause_last_id s = zlength clauses + 1 /\
        current_clause s = tail
    end.
Proof.
  intros Hnz Htail Hts Hints Hlen Hrun.
  pose proof (cnf_read_loop_ints ts (S (length ts)) 0 false (clause_init o)
                Hts ltac:(lia)) as Hsim.
  rewrite Hrun, Hints in Hsim.
  rewrite (cnf_read_ints_clauses tail clauses 0 (clause_init o) Hnz Htail)
    in Hsim by lia.
  rewrite !Z.add_0_l in Hsim.
  unfold bind at 1 in Hsim.
  destruct (cnf_read_clauses 0 clauses (clause_init o)) as [[] s1|e s1| |] eqn:Hcl.
  2-4: destruct Hsim.
  destruct (cnf_read_clauses_post clauses 0 (clause_init o) s1 Hnz
              (clause_init_store_ok o) eq_refl Hcl) as (Hok & Hlast & Hnew & _).
  pose proof (keeps_tokens_cnf_read_clauses clauses 0 (clause_init o)) as Htok.
  rewrite Hcl in Htok. change (tokens (clause_init o)) with (@nil token_t) in Htok.
  destruct (cnf_read_clauses_literals clauses 0 (clause_init o) s1 Hnz
              eq_refl Hcl) as (Hopts & _ & Hlits).
  assert (Hstored : forall i c, clauses !! i = Some c ->
            exists loc, find_clause (Z.of_nat i + 1) s1 = Some loc /\
                        clause_type loc s1 = Some CLAUSE_INPUT /\
                        lits_at loc s1 = Some c /\
                        input_literals s1 c).
  { intros i c Hi. destruct (Hnew i c Hi) as (loc & H1 & H2 & H3).
    exists loc. rewrite Z.add_0_l in H1.
    split; [exact H1|]. split; [exact H2|]. split; [exact H3|].
    rewrite List.Forall_forall in Hlits.
    assert (Hin : In c clauses)
      by (apply list_elem_of_In, list_elem_of_lookup; eauto).
    pose proof (Hlits c Hin) as Hc. unfold input_literals in *.
    rewrite Hopts. exact Hc. }
  destruct tail as [|x y].
  - unfold ret in Hsim. destruct Hsim as [<- ->].
    split; [reflexivity|]. split; [reflexivity|]. exists s1.
    split; [reflexivity|]. split; [exact Hok|]. split; [lia|].
    split; [exact Hstored|]. rewrite <- Htok. apply set_tokens_same.
  - unfold bind at 1 in Hsim.
    destruct (start_clause (zlength clauses + 1) s1) as [[] s2|e s2| |] eqn:Hstart.
    2-4: destruct Hsim.
    unfold bind at 1 in Hsim.
    destruct (clause_add_literals (x :: y) s2) as [[] s3|e s3| |] eqn:Hadd.
    2-4: destruct Hsim.
    unfold ret in Hsim. destruct Hsim as [<- ->].
    pose proof (keeps_start_clause tokens ltac:(reflexivity) ltac:(reflexivity)
                  ltac:(reflexivity) ltac:(reflexivity) (zlength clauses + 1) s1)
      as Htok2.
    rewrite Hstart in Htok2.
    pose proof (keeps_tokens_clause_add_literals (x :: y) s2) as Htok3.
    rewrite Hadd in Htok3.
    assert (Hs3 : set_tokens [] s3 = s3).
    { rewrite <- Htok, <- Htok2, <- Htok3. apply set_tokens_same. }
    rewrite Hs3.
    split; [reflexivity|]. split; [congruence|]. exists s1.
    split; [reflexivity|]. split; [exact Hok|]. split; [lia|].
    split; [exact Hstored|].
    split; [unfold bind; rewrite Hstart; exact Hadd|].
    destruct (start_clause_post _ _ _ _ Hstart) as (_ & Hcur & Hl & _).
    pose proof (clause_add_literals_post _ _ _ _ Hadd) as ->.
    rewrite Hcur. split; [exact Hl|reflexivity].
Qed.

Lemma cnf_clauses_stored_witness :
  exists s loc,
    cnf_read_loop 8 0 false
      (set_tokens [TOK_INT 1; TOK_INT 0; TOK_EOL;
                   TOK_INT 1; TOK_INT 2; TOK_INT 0; TOK_EOL]
                  (clause_init (default_options 2 2))) = Ok 2 s /\
    find_clause 2 s = Some loc /\
    clause_type loc s = Some CLAUSE_INPUT /\
    lits_at loc s = Some [1; 2].
Proof.
  set (ts := [TOK_INT 1; TOK_INT 0; TOK_EOL;
              TOK_INT 1; TOK_INT 2; TOK_INT 0; TOK_EOL]).
  destruct (cnf_read_loop 8 0 false (set_tokens ts (clause_init (default_options 2 2))))
    as [found s|e s| |] eqn:Hrun.
  2-4: vm_compute in Hrun; discriminate.
  destruct (cnf_clauses_stored (default_options 2 2) [[1]; [1; 2]] [] ts found s)
    as (-> & _ & s1 & _ & _ & _ & Hstored & ->).
  - repeat constructor; lia.
  - constructor.
  - repeat constructor.
  - reflexivity.
  - vm_compute. reflexivity.
  - exact Hrun.
  - destruct (Hstored 1%nat [1; 2] eq_refl) as (loc & H1 & H2 & H3 & _).
    exists s1, loc. auto.
Defined.

(** The file [p cnf 1 1 / 1 0 / 1]: the literal behind the clause is read
    without an error, one clause is counted, as the header says, and the
    store is left with a clause 2 started: a second block, without a
    slot. *)
Example cnf_trailing_literal :
  exists s,
    run (cnf_read_clause_lines [TOK_INT 1; TOK_INT 0; TOK_EOL; TOK_INT 1; TOK_EOL])
        (Some (clause_init (default_options 1 1))) = Ok tt s /\
    clause_last_id s = 2 /\ current_clause s = [1] /\
    map blk_length (clause_blocks s) = [1; 0].
Proof. eexists. vm_compute. repeat split. Qed.
